(** * mscl: changelog assembly from Git tags and Conventional Commits

    A shallow embedding of mscl (parser.ts, dedup.ts, bump.ts, git.ts,
    remote.ts, formatter.ts and the command of cli.ts) together with the
    properties of its specification and further properties of the code.

    Conventions of the embedding.

    - A JavaScript string is a sequence of UTF-16 code units.  The embedding
      covers the code units 0..255 (Rocq's [ascii]), which JavaScript reads
      as Latin-1; every tag, version and commit subject that the tests of
      the repository use lives there.
    - [option] is used for [T | null] and for a failed regular-expression
      match; a function that can throw returns [option], [None] being the
      exception.
    - The collaborators that talk to git ([getTagDate], [getCommits]) are
      parameters of the assembler; the functions of git.ts that read what
      git prints take the printed text.  The command takes the
      repository as the answers of git, a call that can throw being a
      partial function.  [new URL] and the heading of the breaking
      changes, whose warning sign lies outside the code units covered,
      are parameters too.
    - The npm package [semver] is not part of the repository; [Semver]
      below models the functions the program calls ([parse], [compare],
      [inc]) after the package's strict grammar and its comparison of
      numeric identifiers as doubles. *)

From Stdlib Require Import Ascii String NArith ZArith Lia Bool List DecimalString Sorted.
From Stdlib Require DecimalN DecimalFacts.
From stdpp Require Import gmap strings list sorting.

Open Scope string_scope.
Open Scope list_scope.
Open Scope stdpp_scope.

(** ** Code units and character classes *)

Module Chars.

Definition code (c : ascii) : N := N_of_ascii c.

Definition in_range (lo hi : N) (c : ascii) : bool :=
  (lo <=? code c)%N && (code c <=? hi)%N.

(** [\d] *)
Definition is_digit (c : ascii) : bool := in_range 48 57 c.

(** [[a-zA-Z]] *)
Definition is_alpha (c : ascii) : bool := in_range 65 90 c || in_range 97 122 c.

(** [\w], that is [[A-Za-z0-9_]] *)
Definition is_word (c : ascii) : bool :=
  is_digit c || is_alpha c || Ascii.eqb c "_".

(** LineTerminator: LF and CR (U+2028 and U+2029 lie outside the
    embedded range).  The regular-expression dot matches every other
    code unit. *)
Definition is_line_terminator (c : ascii) : bool :=
  (code c =? 10)%N || (code c =? 13)%N.

Definition is_dot (c : ascii) : bool := negb (is_line_terminator c).

(** [\s] and the set removed by [String.prototype.trim]: TAB, LF, VT, FF,
    CR, SPACE and NO-BREAK SPACE. *)
Definition is_space (c : ascii) : bool :=
  in_range 9 13 c || (code c =? 32)%N || (code c =? 160)%N.

(** [String.prototype.toLowerCase] on one code unit: A-Z and the Latin-1
    capitals U+00C0..U+00DE except the multiplication sign U+00D7. *)
Definition toLowerChar (c : ascii) : ascii :=
  if in_range 65 90 c || (in_range 192 222 c && negb (code c =? 215)%N)
  then ascii_of_N (code c + 32)
  else c.

End Chars.

(** ** String primitives of the host language *)

Module Str.
Import Chars.

Fixpoint toLowerCase (s : string) : string :=
  match s with
  | "" => ""
  | String c s' => String (toLowerChar c) (toLowerCase s')
  end.

Fixpoint trimStart (s : string) : string :=
  match s with
  | "" => ""
  | String c s' => if is_space c then trimStart s' else s
  end.

Fixpoint rev_onto (s acc : string) : string :=
  match s with
  | "" => acc
  | String c s' => rev_onto s' (String c acc)
  end.

Definition rev (s : string) : string := rev_onto s "".

Definition trimEnd (s : string) : string := rev (trimStart (rev s)).

(** [s.trim()] *)
Definition trim (s : string) : string := trimEnd (trimStart s).

(** [s.includes(c)] for a one-character needle. *)
Fixpoint includes_char (c : ascii) (s : string) : bool :=
  match s with
  | "" => false
  | String d s' => Ascii.eqb c d || includes_char c s'
  end.

(** [lit] is a prefix of [s]: the rest of [s] after it. *)
Fixpoint strip_prefix (lit s : string) : option string :=
  match lit, s with
  | "", _ => Some s
  | String a lit', String b s' =>
      if Ascii.eqb a b then strip_prefix lit' s' else None
  | String _ _, "" => None
  end.

(** The longest prefix of [s] whose characters satisfy [p], and the rest. *)
Fixpoint span (p : ascii -> bool) (s : string) : string * string :=
  match s with
  | "" => ("", "")
  | String c s' =>
      if p c then let '(a, b) := span p s' in (String c a, b)
      else ("", s)
  end.

Fixpoint forallb (p : ascii -> bool) (s : string) : bool :=
  match s with
  | "" => true
  | String c s' => p c && forallb p s'
  end.

Definition is_empty (s : string) : bool :=
  match s with "" => true | _ => false end.

(** [s.split(sep)] for a one-character separator. *)
Fixpoint split_on (sep : ascii) (s : string) : list string :=
  match s with
  | "" => [""]
  | String c s' =>
      if Ascii.eqb c sep then "" :: split_on sep s'
      else match split_on sep s' with
           | [] => [String c ""]
           | p :: ps => String c p :: ps
           end
  end.

(** [parts.join(sep)] *)
Fixpoint join (sep : string) (parts : list string) : string :=
  match parts with
  | [] => ""
  | [p] => p
  | p :: ps => p +:+ sep +:+ join sep ps
  end.

(** Value of a string of decimal digits. *)
Definition digit_val (c : ascii) : N := (code c - 48)%N.

Fixpoint digits_to_N_from (acc : N) (s : string) : N :=
  match s with
  | "" => acc
  | String c s' => digits_to_N_from (acc * 10 + digit_val c)%N s'
  end.

Definition digits_to_N (s : string) : N := digits_to_N_from 0 s.

(** Decimal numeral of a natural number. *)
Definition N_to_string (n : N) : string :=
  NilEmpty.string_of_uint (N.to_uint n).

End Str.

(** ** Numbers of the host language

    A JavaScript number is an IEEE-754 double.  Every number the program
    computes is a non-negative integer, so a number is embedded as the
    natural number it denotes and each operation rounds its exact result to
    53 significant bits, ties to even, as the double does. *)

Module JsNum.
Import Chars Str.

Definition round53 (n : N) : N :=
  let bits := N.size n in
  if (bits <=? 53)%N then n
  else
    let k := (bits - 53)%N in
    let q := N.shiftr n k in
    let r := (n mod 2 ^ k)%N in
    let half := (2 ^ (k - 1))%N in
    let q' := if (half <? r)%N || ((r =? half)%N && N.odd q)
              then (q + 1)%N else q in
    (q' * 2 ^ k)%N.

Definition MAX_EXACT : N := 2 ^ 53.

Fixpoint strip_zeros (s : string) : string :=
  match s with
  | String "0" s' => strip_zeros s'
  | _ => s
  end.

(** [parseInt(digits, 10)] on a non-empty string of decimal digits.  The
    language fixes the result for up to 20 significant digits and leaves
    longer numerals to the implementation: those are outside the
    embedding ([None]). *)
Definition parseInt10 (digits : string) : option N :=
  let sig := strip_zeros digits in
  if (String.length sig <=? 20)%nat then Some (round53 (digits_to_N sig))
  else None.

(** [x + 1] *)
Definition succ (x : N) : N := round53 (x + 1).

(** Number to string, as a template literal does it.  Up to 2^53 the
    result is the decimal numeral of the integer; larger doubles print
    their shortest round-trip digits and are outside the embedding. *)
Definition toString (x : N) : option string :=
  if (x <=? MAX_EXACT)%N then Some (N_to_string x) else None.

End JsNum.

(** ** The semver package (external)

    [parse], [compare] and [inc] as the program uses them, after the
    package's strict grammar
    [v?MAJOR.MINOR.PATCH(-PRERELEASE)?(+BUILD)?] and the package's
    comparison: two numeric identifiers are compared as numbers, that is
    as doubles, alphanumeric ones as strings, a numeric identifier is
    lower than an alphanumeric one, and a version with a pre-release is
    lower than the same version without.  Build metadata is checked by
    the grammar and takes no part in the comparison.  For numeric
    identifiers below 2^53 this is the precedence of Semantic Versioning
    2.0.0; from 2^53 on, different identifiers can round to the same
    double and then compare as equal. *)

Module Semver.
Import Chars Str.

(** A pre-release identifier.  The package keeps a numeric identifier
    as a number when it is below [MAX_SAFE_INTEGER] and as its string of
    digits otherwise; the grammar refuses leading zeros, so the integer
    that the digits denote stands for both. *)
Inductive ident : Type :=
| INum (n : N)
| IStr (s : string).

Record SemVer : Type := mkSemVer {
  major : N;
  minor : N;
  patch : N;
  prerelease : list ident
}.

Definition MAX_LENGTH : nat := 256.
Definition MAX_SAFE_INTEGER : N := 9007199254740991.

(** [0|[1-9]\d*] at the head of [s]: the run of digits, refused when it
    is empty or has a leading zero, and what follows it. *)
Definition numeric_identifier (s : string) : option (string * string) :=
  let '(d, rest) := span is_digit s in
  match d with
  | "" => None
  | String "0" (String _ _) => None
  | _ => Some (d, rest)
  end.

(** [[0-9A-Za-z-]] *)
Definition is_idchar (c : ascii) : bool :=
  is_digit c || is_alpha c || Ascii.eqb c "-".

(** [0|[1-9]\d*|\d*[a-zA-Z-][a-zA-Z0-9-]*] matching the whole of [s]. *)
Definition valid_prerelease_id (s : string) : bool :=
  negb (is_empty s) && forallb is_idchar s
  && (negb (forallb is_digit s)
      || match s with String "0" (String _ _) => false | _ => true end).

(** [[0-9A-Za-z-]+] matching the whole of [s]. *)
Definition valid_build_id (s : string) : bool :=
  negb (is_empty s) && forallb is_idchar s.

(** [s] cut at its first [+]. *)
Fixpoint cut_plus (s : string) : string * option string :=
  match s with
  | "" => ("", None)
  | String c s' =>
      if Ascii.eqb c "+" then ("", Some s')
      else let '(a, b) := cut_plus s' in (String c a, b)
  end.

Definition valid_build (b : option string) : bool :=
  match b with
  | None => true
  | Some s => List.forallb valid_build_id (split_on "." s)
  end.

(** What may follow [MAJOR.MINOR.PATCH]: the pre-release identifiers. *)
Definition parse_tail (rest : string) : option (list string) :=
  match rest with
  | "" => Some []
  | String "-" r =>
      let '(pre, build) := cut_plus r in
      let ids := split_on "." pre in
      if List.forallb valid_prerelease_id ids && valid_build build
      then Some ids else None
  | String "+" r => if valid_build (Some r) then Some [] else None
  | _ => None
  end.

Definition to_ident (s : string) : ident :=
  if forallb is_digit s then INum (digits_to_N s) else IStr s.

Definition strip_v (s : string) : string :=
  match s with String "v" s' => s' | _ => s end.

Definition expect_dot (s : string) : option string :=
  match s with String "." s' => Some s' | _ => None end.

(** [semver.parse(version)]: [None] is the package's [null]. *)
Definition parse (version : string) : option SemVer :=
  if (MAX_LENGTH <? String.length version)%nat then None
  else
    '(ma, r1) ← numeric_identifier (strip_v (trim version));
    r1' ← expect_dot r1;
    '(mi, r2) ← numeric_identifier r1';
    r2' ← expect_dot r2;
    '(pa, r3) ← numeric_identifier r2';
    ids ← parse_tail r3;
    let M := digits_to_N ma in
    let m := digits_to_N mi in
    let p := digits_to_N pa in
    if (M <=? MAX_SAFE_INTEGER)%N && (m <=? MAX_SAFE_INTEGER)%N
       && (p <=? MAX_SAFE_INTEGER)%N
    then Some (mkSemVer M m p (map to_ident ids))
    else None.

(** [a === b] on two identifiers. *)
Definition ident_eqb (a b : ident) : bool :=
  match a, b with
  | INum x, INum y => (x =? y)%N
  | IStr s, IStr t => String.eqb s t
  | _, _ => false
  end.

(** [compareIdentifiers(a, b)].  Two numeric identifiers are compared as
    the numbers [+a] and [+b]: the doubles nearest to the integers (a
    numeral of more than 20 digits is read exactly before it is rounded,
    which the language allows and V8 does). *)
Definition compareIdentifiers (a b : ident) : comparison :=
  match a, b with
  | INum x, INum y => (JsNum.round53 x ?= JsNum.round53 y)%N
  | INum _, IStr _ => Lt
  | IStr _, INum _ => Gt
  | IStr s, IStr t => String.compare s t
  end.

(** The loop of [SemVer.comparePre] over the two identifier lists: it
    goes on while [a === b] and returns [compareIdentifiers(a, b)] at
    the first pair that differs, also when that is 0. *)
Fixpoint comparePreLoop (a b : list ident) : comparison :=
  match a, b with
  | [], [] => Eq
  | _ :: _, [] => Gt
  | [], _ :: _ => Lt
  | x :: a', y :: b' =>
      if ident_eqb x y then comparePreLoop a' b'
      else compareIdentifiers x y
  end.

Definition comparePre (v w : SemVer) : comparison :=
  match prerelease v, prerelease w with
  | _ :: _, [] => Lt
  | [], _ :: _ => Gt
  | [], [] => Eq
  | a, b => comparePreLoop a b
  end.

Definition compareMain (v w : SemVer) : comparison :=
  match (major v ?= major w)%N with
  | Eq => match (minor v ?= minor w)%N with
          | Eq => (patch v ?= patch w)%N
          | c => c
          end
  | c => c
  end.

(** [SemVer.compare] *)
Definition compareSemVer (v w : SemVer) : comparison :=
  match compareMain v w with
  | Eq => comparePre v w
  | c => c
  end.

Definition sign (c : comparison) : Z :=
  match c with Lt => (-1)%Z | Eq => 0%Z | Gt => 1%Z end.

(** [semver.compare(a, b)]: builds both versions and throws ([None])
    when one of the strings is not a version. *)
Definition compare (a b : string) : option Z :=
  v ← parse a; w ← parse b; Some (sign (compareSemVer v w)).

Inductive ReleaseType : Type := RMajor | RMinor | RPatch.

(** [SemVer.inc(release)] for the three release types the program
    passes. *)
Definition incSemVer (r : ReleaseType) (v : SemVer) : SemVer :=
  let no_pre := match prerelease v with [] => true | _ => false end in
  match r with
  | RMajor =>
      let bump := negb (minor v =? 0)%N || negb (patch v =? 0)%N || no_pre in
      mkSemVer (if bump then major v + 1 else major v)%N 0 0 []
  | RMinor =>
      let bump := negb (patch v =? 0)%N || no_pre in
      mkSemVer (major v) (if bump then minor v + 1 else minor v)%N 0 []
  | RPatch =>
      mkSemVer (major v) (minor v)
               (if no_pre then patch v + 1 else patch v)%N []
  end.

Definition ident_to_string (i : ident) : string :=
  match i with INum n => N_to_string n | IStr s => s end.

(** [SemVer.format()] *)
Definition format (v : SemVer) : string :=
  N_to_string (major v) +:+ "." +:+ N_to_string (minor v) +:+ "."
  +:+ N_to_string (patch v)
  +:+ match prerelease v with
      | [] => ""
      | ids => "-" +:+ join "." (map ident_to_string ids)
      end.

(** [semver.inc(version, release)]: [None] is [null]. *)
Definition inc (version : string) (r : ReleaseType) : option string :=
  v ← parse version; Some (format (incSemVer r v)).

End Semver.

(** ** Arrays and maps of the host language *)

Module Js.

(** [Array.prototype.sort(cmp)].  The sort is stable, and for a
    consistent comparator its result is the one stable sorted
    arrangement of the array, which insertion computes.  Where the
    comparator is not consistent the language leaves the arrangement to
    the implementation; insertion then gives one in which no element is
    followed by a lower one.  A comparator that throws makes the sort
    throw ([None]). *)
Fixpoint insertBy {A} (cmp : A -> A -> option Z) (x : A) (l : list A)
  : option (list A) :=
  match l with
  | [] => Some [x]
  | y :: l' =>
      c ← cmp x y;
      if (c <=? 0)%Z then Some (x :: y :: l')
      else l'' ← insertBy cmp x l'; Some (y :: l'')
  end.

Fixpoint sortBy {A} (cmp : A -> A -> option Z) (l : list A)
  : option (list A) :=
  match l with
  | [] => Some []
  | x :: l' => s ← sortBy cmp l'; insertBy cmp x s
  end.

(** A [Map] with string keys: the entries in insertion order. *)
Definition Map (V : Type) : Type := list (string * V).

Fixpoint get {V} (k : string) (m : Map V) : option V :=
  match m with
  | [] => None
  | (k', v) :: m' => if String.eqb k k' then Some v else get k m'
  end.

Definition has {V} (k : string) (m : Map V) : bool :=
  match get k m with Some _ => true | None => false end.

(** [m.set(k, v)]: a present key keeps its place. *)
Fixpoint set {V} (k : string) (v : V) (m : Map V) : Map V :=
  match m with
  | [] => [(k, v)]
  | (k', v') :: m' =>
      if String.eqb k k' then (k', v) :: m' else (k', v') :: set k v m'
  end.

Definition keys {V} (m : Map V) : list string := map fst m.

End Js.

(** ** parser.ts *)

Module Parser.
Import Chars Str.

(** git.ts *)
Record RawCommit : Type := mkRawCommit {
  raw_hash : string;
  raw_subject : string;
  raw_body : string
}.

Record ConventionalCommit : Type := mkConventionalCommit {
  hash : string;
  type : string;
  scope : option string;
  subject : string;
  raw : string;
  breaking : bool
}.

Definition VISIBLE_TYPES : list string := ["feat"; "fix"; "perf"; "revert"].

Definition ALL_TYPES : list string :=
  ["feat"; "fix"; "docs"; "style"; "refactor"; "perf"; "test"; "build";
   "ci"; "chore"; "revert"].

(** *** Matching under the [i] flag

    A pattern character and a text character match when their canonical
    (upper-case) forms agree; a code unit above 127 never canonicalises
    to an ASCII one, so only the ASCII letters fold. *)
Definition canonicalize (c : ascii) : ascii :=
  if in_range 97 122 c then ascii_of_N (code c - 32) else c.

Definition ci_eqb (p c : ascii) : bool :=
  Ascii.eqb (canonicalize p) (canonicalize c).

(** The literal [lit] read case-insensitively at the head of [s]: the
    text it matched and the rest. *)
Fixpoint strip_prefix_ci (lit s : string) : option (string * string) :=
  match lit, s with
  | "", _ => Some ("", s)
  | String a lit', String b s' =>
      if ci_eqb a b
      then '(m, r) ← strip_prefix_ci lit' s'; Some (String b m, r)
      else None
  | String _ _, "" => None
  end.

(** *** CONVENTIONAL_COMMIT_REGEX
    [/^(feat|fix|docs|style|refactor|perf|test|build|ci|chore|revert)(\([\w-]+\))?!?:\s*(.+)$/i] *)

(** Group 1: the first alternative that reads at the head of [s]. *)
Fixpoint match_type (alts : list string) (s : string)
  : option (string * string) :=
  match alts with
  | [] => None
  | t :: alts' =>
      match strip_prefix_ci t s with
      | Some r => Some r
      | None => match_type alts' s
      end
  end.

Definition is_scope_char (c : ascii) : bool := is_word c || Ascii.eqb c "-".

(** Group 2, [(\([\w-]+\))?]: the scope between the parentheses, when
    the group takes part in the match.  A head that opens a parenthesis
    and is not a scope cannot be followed by [!?:], so the match fails
    ([None]). *)
Definition match_scope (s : string) : option (option string * string) :=
  match s with
  | String "(" r =>
      let '(name, r') := span is_scope_char r in
      match name, r' with
      | String _ _, String ")" r'' => Some (Some name, r'')
      | _, _ => None
      end
  | _ => Some (None, s)
  end.

(** [!?:] *)
Definition match_bang_colon (s : string) : option string :=
  match s with
  | String "!" (String ":" r) => Some r
  | String ":" r => Some r
  | _ => None
  end.

Fixpoint last_char (s : string) : option ascii :=
  match s with
  | "" => None
  | String c "" => Some c
  | String _ s' => last_char s'
  end.

(** [\s*(.+)$]: group 3.  The greedy [\s*] takes the leading white
    space; when nothing is left for [.+] it gives back its last
    character. *)
Definition match_description (s : string) : option string :=
  let '(ws, rest) := span is_space s in
  match rest with
  | String _ _ => if forallb is_dot rest then Some rest else None
  | "" =>
      match last_char ws with
      | Some c => if is_dot c then Some (String c "") else None
      | None => None
      end
  end.

(** The match of CONVENTIONAL_COMMIT_REGEX: groups 1, 2 (without its
    parentheses) and 3. *)
Definition match_conventional (subject : string)
  : option (string * option string * string) :=
  '(ty, r1) ← match_type ALL_TYPES subject;
  '(sc, r2) ← match_scope r1;
  r3 ← match_bang_colon r2;
  d ← match_description r3;
  Some (ty, sc, d).

Definition starts_with (lit s : string) : bool :=
  match strip_prefix lit s with Some _ => true | None => false end.

(** [/(?:\))?!:/] at the head of [s]. *)
Definition bang_here (s : string) : bool :=
  match s with
  | String ")" r => starts_with "!:" r || starts_with "!:" s
  | _ => starts_with "!:" s
  end.

(** [/(?:\))?!:/.test(s)]: the pattern is tried at every position. *)
Fixpoint hasBang_test (s : string) : bool :=
  match s with
  | "" => bang_here ""
  | String _ s' => bang_here s || hasBang_test s'
  end.

(** [/^BREAKING[ -]CHANGE:\s*/i] at the head of [s]. *)
Definition breaking_here (s : string) : bool :=
  match strip_prefix_ci "BREAKING" s with
  | Some (_, String c r) =>
      (Ascii.eqb c " " || Ascii.eqb c "-")
      && match strip_prefix_ci "CHANGE:" r with
         | Some _ => true
         | None => false
         end
  | _ => false
  end.

(** [BREAKING_CHANGE_REGEX.test(body)], flags [im]: the pattern is tried
    at the start of the body and after every line terminator. *)
Fixpoint breaking_after (s : string) : bool :=
  match s with
  | "" => false
  | String c s' =>
      (is_line_terminator c && breaking_here s') || breaking_after s'
  end.

Definition BREAKING_CHANGE_test (body : string) : bool :=
  breaking_here body || breaking_after body.

Definition parseConventionalCommit (commit : RawCommit)
  : option ConventionalCommit :=
  match match_conventional (raw_subject commit) with
  | None => None
  | Some (type, scope, subject) =>
      let hasBang := hasBang_test (raw_subject commit) in
      let hasBreakingFooter := BREAKING_CHANGE_test (raw_body commit) in
      Some {| hash := raw_hash commit;
              type := toLowerCase type;
              scope := scope;
              subject := trim subject;
              raw := raw_subject commit;
              breaking := hasBang || hasBreakingFooter |}
  end.

Definition normalizeCommit (commit : ConventionalCommit) : string :=
  trim (toLowerCase
          (type commit
           +:+ match scope commit with
               | Some (String c s) => "(" +:+ String c s +:+ ")"
               | _ => ""
               end
           +:+ ": " +:+ subject commit)).

Definition isVisibleType (type : string) (verbose : bool) : bool :=
  if verbose then true
  else existsb (String.eqb type) VISIBLE_TYPES.

(** *** VERSION_EXTRACT_REGEX
    [/(?:.*-)?v?(\d+\.\d+\.\d+(?:-[\w.]+)?)/] *)

Definition is_pre_char (c : ascii) : bool := is_word c || Ascii.eqb c ".".

(** [\d+] followed by a literal dot: the digits and what follows the
    dot. *)
Definition digits_dot (s : string) : option (string * string) :=
  let '(d, r) := span is_digit s in
  match d, r with
  | String _ _, String "." r' => Some (d, r')
  | _, _ => None
  end.

(** [\d+\.\d+\.\d+] at the head of [s]: the text matched and the
    rest.  Each [\d+] takes its whole run of digits. *)
Definition match_core (s : string) : option (string * string) :=
  '(a, r1) ← digits_dot s;
  '(b, r2) ← digits_dot r1;
  let '(c, r3) := span is_digit r2 in
  match c with
  | "" => None
  | _ => Some (a +:+ "." +:+ b +:+ "." +:+ c, r3)
  end.

(** [(?:-[\w.]+)?] at the head of [s]: the text of the group, empty
    when it does not take part. *)
Definition match_pre (s : string) : string :=
  match s with
  | String "-" r =>
      match fst (span is_pre_char r) with
      | "" => ""
      | p => String "-" p
      end
  | _ => ""
  end.

Definition skip_v (s : string) : string :=
  match s with String "v" s' => s' | _ => s end.

(** [v?(\d+\.\d+\.\d+(?:-[\w.]+)?)] at the head of [s]: group 1. *)
Definition version_here (s : string) : option string :=
  '(core, r) ← match_core (skip_v s); Some (core +:+ match_pre r).

(** [(?:.*-)] followed by the rest of the pattern.  The greedy [.*]
    first runs on over a character that is not a line terminator; when
    the rest cannot be matched further on, it stops here, where a hyphen
    must stand. *)
Fixpoint after_prefix (s : string) : option string :=
  match s with
  | "" => None
  | String c s' =>
      match (if is_dot c then after_prefix s' else None) with
      | Some v => Some v
      | None => if Ascii.eqb c "-" then version_here s' else None
      end
  end.

(** The pattern at the head of [s]: with the optional prefix group, and
    failing that without it. *)
Definition extract_here (s : string) : option string :=
  match after_prefix s with
  | Some v => Some v
  | None => version_here s
  end.

(** [tag.match(VERSION_EXTRACT_REGEX)]: the first position of [tag]
    where the pattern matches. *)
Fixpoint extractVersion (tag : string) : option string :=
  match extract_here tag with
  | Some v => Some v
  | None =>
      match tag with
      | "" => None
      | String _ tag' => extractVersion tag'
      end
  end.

Record TagInfo : Type := mkTagInfo {
  original : string;
  clean : string;
  display : string
}.

Record TagMap : Type := mkTagMap {
  versions : list string;
  tags : Js.Map TagInfo
}.

Definition isValidVersion (tag : string) : bool :=
  match extractVersion tag with
  | Some extracted =>
      match Semver.parse extracted with Some _ => true | None => false end
  | None => false
  end.

(** [/^v\d/] *)
Definition isVPrefixed (s : string) : bool :=
  match s with
  | String "v" (String d _) => is_digit d
  | _ => false
  end.

(** The comparator of the tie-break sort. *)
Definition compareInfos (a b : TagInfo) : Z :=
  let aIsVPrefixed := isVPrefixed (original a) in
  let bIsVPrefixed := isVPrefixed (original b) in
  if aIsVPrefixed && negb bIsVPrefixed then (-1)%Z
  else if negb aIsVPrefixed && bIsVPrefixed then 1%Z
  else (Z.of_nat (String.length (original a))
        - Z.of_nat (String.length (original b)))%Z.

(** The body of the first loop: [versionMap] gets the tag under its
    clean version.  The array fetched from the map is the one stored in
    it, so the push is seen through the map. *)
Definition addTag (versionMap : Js.Map (list TagInfo)) (tag : string)
  : Js.Map (list TagInfo) :=
  match extractVersion tag with
  | None => versionMap
  | Some clean =>
      match Semver.parse clean with
      | None => versionMap
      | Some _ =>
          let versionMap :=
            if Js.has clean versionMap then versionMap
            else Js.set clean [] versionMap in
          let existing := default [] (Js.get clean versionMap) in
          Js.set clean
            (existing ++ [mkTagInfo tag clean ("v" +:+ clean)])
            versionMap
      end
  end.

(** The second loop: every version keeps the head of its sorted group.
    A group is created together with its first element, so the head
    exists. *)
Fixpoint pickCanonical (versionMap : Js.Map (list TagInfo))
  : option (Js.Map TagInfo) :=
  match versionMap with
  | [] => Some []
  | (clean, infos) :: rest =>
      sorted ← Js.sortBy (fun a b => Some (compareInfos a b)) infos;
      result ← pickCanonical rest;
      match sorted with
      | first :: _ => Some ((clean, first) :: result)
      | [] => Some result
      end
  end.

Definition normalizeTags (tags : list string) : option TagMap :=
  let versionMap := fold_left addTag tags [] in
  result ← pickCanonical versionMap;
  versions ← Js.sortBy Semver.compare (Js.keys result);
  Some (mkTagMap versions result).

Definition isPreRelease (version : string) : bool :=
  match Semver.parse version with
  | Some parsed =>
      match Semver.prerelease parsed with [] => false | _ => true end
  | None => false
  end.

(** [None] where [tagMap.get(v)!.original] would throw. *)
Definition sortTagsBySemver (tags : list string) : option (list string) :=
  tm ← normalizeTags tags;
  mapM (fun v => original <$> Js.get v (Parser.tags tm)) (versions tm).

End Parser.

(** ** dedup.ts *)

Module Dedup.
Import Str Parser.

(** The class holds one [Set<string>]. *)
Definition DeduplicationSet : Type := gset string.

Definition empty : DeduplicationSet := ∅.

Definition getKey (commit : ConventionalCommit) : string :=
  toLowerCase
    (type commit +:+ ":" +:+ default "" (scope commit) +:+ ":"
     +:+ subject commit).

Definition has (seen : DeduplicationSet) (commit : ConventionalCommit)
  : bool :=
  bool_decide (getKey commit ∈ seen).

Definition add (seen : DeduplicationSet) (commit : ConventionalCommit)
  : DeduplicationSet :=
  {[ getKey commit ]} ∪ seen.

(** The set is shared with the caller, so it is returned next to the
    surviving commits. *)
Fixpoint dedupeCommits (commits : list ConventionalCommit)
         (seenSet : DeduplicationSet)
  : list ConventionalCommit * DeduplicationSet :=
  match commits with
  | [] => ([], seenSet)
  | commit :: rest =>
      if has seenSet commit then dedupeCommits rest seenSet
      else
        let '(result, seenSet') := dedupeCommits rest (add seenSet commit) in
        (commit :: result, seenSet')
  end.

(** Two commits collide when the second is found in a set that holds
    just the first. *)
Definition collide (c1 c2 : ConventionalCommit) : bool :=
  has (add empty c1) c2.

End Dedup.

(** ** bump.ts *)

Module Bump.
Import Chars Str Parser.

Inductive BumpType : Type := Major | Minor | Patch | NoBump.

Record BumpResult : Type := mkBumpResult {
  currentVersion : string;
  nextVersion : string;
  bumpType : BumpType;
  hasBreaking : bool;
  hasFeatures : bool;
  hasFixes : bool
}.

(** [/v?(\d+\.\d+\.\d+)/] at the head of [s]: group 1. *)
Definition core_here (s : string) : option string :=
  fst <$> match_core (skip_v s).

(** [tag.match(/v?(\d+\.\d+\.\d+)/)]: the first position that matches. *)
Fixpoint match_version (tag : string) : option string :=
  match core_here tag with
  | Some v => Some v
  | None =>
      match tag with
      | "" => None
      | String _ tag' => match_version tag'
      end
  end.

Definition extractVersionFromTag (tag : string) : string :=
  match match_version tag with
  | Some v => v
  | None => "0.0.0"
  end.

Definition isPatch (b : BumpType) : bool :=
  match b with Patch => true | _ => false end.

(** The release type handed to [semver.inc]; [NoBump] is the category
    ["none"], for which [semver.inc] is not called. *)
Definition releaseType (b : BumpType) : option Semver.ReleaseType :=
  match b with
  | Major => Some Semver.RMajor
  | Minor => Some Semver.RMinor
  | Patch => Some Semver.RPatch
  | NoBump => None
  end.

(** A [string | null] used as a condition: [null] and the empty string
    are false. *)
Definition truthy (s : option string) : option string :=
  match s with
  | Some (String c r) => Some (String c r)
  | _ => None
  end.

Definition suggestNextVersion (commits : list RawCommit)
           (lastTag : option string) : BumpResult :=
  let currentVersion :=
    match truthy lastTag with
    | Some tag => extractVersionFromTag tag
    | None => "0.0.0"
    end in
  let isPrerelease :=
    match truthy lastTag with
    | Some tag => includes_char "-" tag
    | None => false
    end in
  let conventionalCommits := omap parseConventionalCommit commits in
  let hasBreaking := existsb breaking conventionalCommits in
  let hasFeatures :=
    existsb (fun c => String.eqb (type c) "feat") conventionalCommits in
  let hasFixes :=
    existsb (fun c => String.eqb (type c) "fix"
                      || String.eqb (type c) "perf")
            conventionalCommits in
  let bumpType :=
    if hasBreaking then
      match Semver.parse currentVersion with
      | Some parsed =>
          if (Semver.major parsed =? 0)%N then Minor else Major
      | None => Major
      end
    else if hasFeatures then Minor
    else if hasFixes then Patch
    else NoBump in
  let nextVersion :=
    if isPrerelease && isPatch bumpType then currentVersion
    else
      match releaseType bumpType with
      | None => currentVersion
      | Some release =>
          default currentVersion (Semver.inc currentVersion release)
      end in
  mkBumpResult currentVersion nextVersion bumpType
               hasBreaking hasFeatures hasFixes.

(** [s.replace(/^\-/, "")] *)
Definition strip_hyphen (s : string) : string :=
  match s with String "-" s' => s' | _ => s end.

(** [s.replace(/\.\d+$/, "")]: the text before the first dot that only
    digits, and at least one, separate from the end. *)
Fixpoint strip_counter (s : string) : string :=
  match s with
  | "" => ""
  | String c s' =>
      if Ascii.eqb c "." && negb (is_empty s') && forallb is_digit s'
      then ""
      else String c (strip_counter s')
  end.

(** [lit(\d+)$] at the head of [s]: the digits. *)
Definition counter_after (lit s : string) : option string :=
  match strip_prefix lit s with
  | Some d => if negb (is_empty d) && forallb is_digit d then Some d else None
  | None => None
  end.

(** [tag.match(pattern)] for
    [^v?<baseVersion>-<suffixBase>\.(\d+)$]: group 1.  [escapeRegex] puts
    a backslash before every character that the pattern syntax reads, so
    the two interpolated strings stand for themselves. *)
Definition match_counter (baseVersion suffixBase tag : string)
  : option string :=
  let lit := baseVersion +:+ "-" +:+ suffixBase +:+ "." in
  match tag with
  | String "v" tag' =>
      match counter_after lit tag' with
      | Some d => Some d
      | None => counter_after lit tag
      end
  | _ => counter_after lit tag
  end.

(** The loop over [allTags]; [None] when a counter leaves the embedded
    numbers. *)
Fixpoint maxCounter (baseVersion suffixBase : string)
         (allTags : list string) (maxNum : N) : option N :=
  match allTags with
  | [] => Some maxNum
  | tag :: rest =>
      match match_counter baseVersion suffixBase tag with
      | Some d =>
          num ← JsNum.parseInt10 d;
          maxCounter baseVersion suffixBase rest
                     (if (maxNum <? num)%N then num else maxNum)
      | None => maxCounter baseVersion suffixBase rest maxNum
      end
  end.

(** [None] when the result is not covered by the embedded numbers; the
    function itself always returns. *)
Definition getNextPrereleaseVersion (baseVersion suffix : string)
           (allTags : list string) : option string :=
  let suffixBase := strip_counter (strip_hyphen suffix) in
  maxNum ← maxCounter baseVersion suffixBase allTags 0%N;
  n ← JsNum.toString (JsNum.succ maxNum);
  Some (baseVersion +:+ "-" +:+ suffixBase +:+ "." +:+ n).

End Bump.

(** ** cli.ts: the release assembler *)

Module Cli.
Import Str Parser Dedup.

(** formatter.ts *)
Record TagChangelog : Type := mkTagChangelog {
  tag : string;
  displayTag : string;
  originalTag : string;
  date : string;
  commits : list ConventionalCommit
}.

Record PendingTagInfo : Type := mkPending {
  p_display : string;
  p_original : string;
  p_date : string
}.

(** The collaborators of git.ts. *)
Record Git : Type := mkGit {
  getTagDate : string -> string;
  getCommits : string -> list RawCommit
}.

(** The variables of the loop. *)
Record State : Type := mkState {
  seenSet : DeduplicationSet;
  changelogs : list TagChangelog;
  pendingCommits : list ConventionalCommit;
  pendingTagInfo : option PendingTagInfo
}.

Definition init : State := mkState Dedup.empty [] [] None.

(** One turn of [for (const version of tagMap.versions)].  [None] when
    [tagMap.tags.get(version)!] has nothing to give. *)
Definition step (git : Git) (tagMap : TagMap) (st : State)
           (version : string) : option State :=
  tagInfo ← Js.get version (tags tagMap);
  let date := getTagDate git (original tagInfo) in
  let rawCommits := getCommits git (original tagInfo) in
  let conventionalCommits := omap parseConventionalCommit rawCommits in
  let '(uniqueCommits, seen) :=
    dedupeCommits conventionalCommits (seenSet st) in
  if isPreRelease version then
    Some (mkState seen (changelogs st)
            (pendingCommits st ++ uniqueCommits)
            (match pendingTagInfo st with
             | Some info => Some info
             | None => Some (mkPending (display tagInfo)
                                       (original tagInfo) date)
             end))
  else
    let pending := pendingCommits st ++ uniqueCommits in
    Some (mkState seen
            (changelogs st
             ++ [mkTagChangelog version (display tagInfo)
                                (original tagInfo) date pending])
            [] None).

Fixpoint walk (git : Git) (tagMap : TagMap) (st : State)
         (versions : list string) : option State :=
  match versions with
  | [] => Some st
  | version :: rest =>
      st' ← step git tagMap st version; walk git tagMap st' rest
  end.

(** [s.replace(/^v/, "")] *)
Definition strip_v (s : string) : string :=
  match s with String "v" s' => s' | _ => s end.

(** The push after the loop. *)
Definition flush (st : State) : list TagChangelog :=
  match pendingCommits st, pendingTagInfo st with
  | _ :: _, Some info =>
      changelogs st
      ++ [mkTagChangelog (strip_v (p_display info)) (p_display info)
                         (p_original info) (p_date info)
                         (pendingCommits st)]
  | _, _ => changelogs st
  end.

(** The changelogs handed to [formatChangelog]. *)
Definition assemble (git : Git) (tagMap : TagMap)
  : option (list TagChangelog) :=
  flush <$> walk git tagMap init (versions tagMap).

End Cli.

(** ** Vocabulary of the specification *)

Module Props.
Import Chars Str Parser.

(** A non-empty string of decimal digits. *)
Definition is_digits (s : string) : bool :=
  negb (is_empty s) && forallb is_digit s.

(** [tag] holds a substring [MAJOR.MINOR.PATCH]. *)
Definition has_version_substring (tag : string) : Prop :=
  exists pre a b c post,
    tag = pre +:+ a +:+ "." +:+ b +:+ "." +:+ c +:+ post
    /\ is_digits a = true /\ is_digits b = true /\ is_digits c = true.

(** What [span] leaves does not start with a character of the class. *)
Definition head_fails (p : ascii -> bool) (s : string) : bool :=
  match s with "" => true | String c _ => negb (p c) end.

(** [sub] occurs in [s]. *)
Definition occurs (sub s : string) : Prop :=
  exists pre post, s = pre +:+ sub +:+ post.

(** The [!] of the subject that stands directly before the colon ending
    the type/scope header: what the optional [!] of
    CONVENTIONAL_COMMIT_REGEX consumes. *)
Definition header_has_bang (subject : string) : bool :=
  match match_type ALL_TYPES subject with
  | Some (_, r1) =>
      match match_scope r1 with
      | Some (_, String "!" (String ":" _)) => true
      | _ => false
      end
  | None => false
  end.

(** Every version of the sequence has its canonical tag. *)
Definition well_formed (tagMap : TagMap) : Prop :=
  Forall (fun v => is_Some (Js.get v (tags tagMap))) (versions tagMap).

(** The deduplicated commits of one version, with the set after it. *)
Definition uniqueCommitsAt (getCommits : string -> list RawCommit)
           (tagInfo : TagInfo) (seen : Dedup.DeduplicationSet)
  : list ConventionalCommit * Dedup.DeduplicationSet :=
  Dedup.dedupeCommits
    (omap parseConventionalCommit (getCommits (original tagInfo))) seen.

(** The deduplicated commits of a run of versions, in walk order, from
    the set [seen]. *)
Fixpoint chainCommits (getCommits : string -> list RawCommit)
         (tagMap : TagMap) (seen : Dedup.DeduplicationSet)
         (chain : list string) : list ConventionalCommit :=
  match chain with
  | [] => []
  | v :: chain' =>
      match Js.get v (tags tagMap) with
      | None => []
      | Some tagInfo =>
          let '(u, seen') := uniqueCommitsAt getCommits tagInfo seen in
          u ++ chainCommits getCommits tagMap seen' chain'
      end
  end.

(** Equality of strings up to letter case. *)
Definition same_up_to_case (s t : string) : Prop :=
  toLowerCase s = toLowerCase t.

(** The scope as the key reads it: an absent scope is the empty string. *)
Definition scope_text (c : ConventionalCommit) : string :=
  default "" (scope c).

(** Neither the type nor the scope holds the separator of the key. *)
Definition colon_free (c : ConventionalCommit) : bool :=
  negb (includes_char ":" (type c))
  && negb (includes_char ":" (scope_text c)).

(** The counters of the tags that match the pattern of
    [getNextPrereleaseVersion], as integers. *)
Definition counter_values (baseVersion name : string) (allTags : list string)
  : list N :=
  map digits_to_N (omap (Bump.match_counter baseVersion name) allTags).

(** The greatest of the counters, 0 when there is none. *)
Definition max_counter (l : list N) : N := foldr N.max 0%N l.

(** [tag] is [<optional v><baseVersion>-<name>.<d>]. *)
Definition counter_tag (baseVersion name d tag : string) : Prop :=
  tag = baseVersion +:+ "-" +:+ name +:+ "." +:+ d
  \/ tag = "v" +:+ baseVersion +:+ "-" +:+ name +:+ "." +:+ d.

(** The order a comparator induces: [cmp a b] returns and is not
    positive. *)
Definition le_by {A} (cmp : A -> A -> option Z) (a b : A) : Prop :=
  exists c, cmp a b = Some c /\ (c <= 0)%Z.

(** A three-way comparison that is a strict total order: it answers [Eq]
    on equal arguments only, swapping the arguments swaps the answer, and
    [Lt] is transitive. *)
Class GoodCmp {A} (f : A -> A -> comparison) : Prop := {
  cmp_eq : forall a b, f a b = Eq <-> a = b;
  cmp_sym : forall a b, f b a = CompOpp (f a b);
  cmp_lt_trans : forall a b c, f a b = Lt -> f b c = Lt -> f a c = Lt
}.

(** Lexicographic comparison of lists, a proper prefix coming first: the
    shape of the loop of [comparePre]. *)
Fixpoint list_cmp {A} (f : A -> A -> comparison) (a b : list A) : comparison :=
  match a, b with
  | [], [] => Eq
  | _ :: _, [] => Gt
  | [], _ :: _ => Lt
  | x :: a', y :: b' =>
      match f x y with
      | Eq => list_cmp f a' b'
      | c => c
      end
  end.

(** Lexicographic comparison of pairs. *)
Definition pair_cmp {A B} (f : A -> A -> comparison) (g : B -> B -> comparison)
           (a b : A * B) : comparison :=
  match f (fst a) (fst b) with
  | Eq => g (snd a) (snd b)
  | c => c
  end.

(** Precedence as Semantic Versioning 2.0.0 states it.  Two numeric
    identifiers are compared numerically, as the integers they are, two
    alphanumeric ones as strings, and a numeric identifier is lower than
    an alphanumeric one. *)
Definition precedenceIdentifiers (a b : Semver.ident) : comparison :=
  match a, b with
  | Semver.INum x, Semver.INum y => (x ?= y)%N
  | Semver.INum _, Semver.IStr _ => Lt
  | Semver.IStr _, Semver.INum _ => Gt
  | Semver.IStr s, Semver.IStr t => String.compare s t
  end.

(** Precedence of two pre-releases: a version without pre-release comes
    after one with, and two pre-releases are compared identifier by
    identifier, the shorter one first when it is a prefix. *)
Definition pre_cmp (a b : list Semver.ident) : comparison :=
  match a, b with
  | _ :: _, [] => Lt
  | [], _ :: _ => Gt
  | [], [] => Eq
  | _, _ => list_cmp precedenceIdentifiers a b
  end.

(** The components that decide precedence. *)
Definition semver_view (v : Semver.SemVer)
  : (N * (N * N)) * list Semver.ident :=
  ((Semver.major v, (Semver.minor v, Semver.patch v)), Semver.prerelease v).

(** Precedence of two versions: major, minor and patch numerically, then
    the pre-releases. *)
Definition precedence (v w : Semver.SemVer) : comparison :=
  pair_cmp (pair_cmp N.compare (pair_cmp N.compare N.compare)) pre_cmp
           (semver_view v) (semver_view w).

(** A valid semantic version. *)
Definition valid_version (s : string) : Prop := is_Some (Semver.parse s).

(** Semantic-versioning precedence on version strings: [a] does not come
    after [b]. *)
Definition precedes_eq (a b : string) : Prop :=
  exists v w,
    Semver.parse a = Some v /\ Semver.parse b = Some w
    /\ precedence v w <> Gt.

(** The order of the comparator of the package: [semver.compare(a, b)]
    returns and is not positive. *)
Definition compare_le (a b : string) : Prop := le_by Semver.compare a b.

(** The numeric pre-release identifiers of a version are below 2^53, the
    range in which a double is the integer itself. *)
Definition small_ident (i : Semver.ident) : bool :=
  match i with
  | Semver.INum n => (n <? 2 ^ 53)%N
  | Semver.IStr _ => true
  end.

Definition small_identifiers (version : string) : bool :=
  match Semver.parse version with
  | Some v => List.forallb small_ident (Semver.prerelease v)
  | None => true
  end.

(** The TagInfo that [normalizeTags] builds for a tag of version
    [clean]. *)
Definition tagInfoOf (clean tag : string) : TagInfo :=
  mkTagInfo tag clean ("v" +:+ clean).

(** The tags that map to the version [clean], in input order. *)
Definition candidates (clean : string) (tags : list string) : list string :=
  filter (fun t => extractVersion t = Some clean) tags.

(** [winner] wins the tie-break against [other]: a tag that starts with
    [v] and a digit beats one that does not, and otherwise the shorter
    one wins. *)
Definition beats (winner other : string) : Prop :=
  (isVPrefixed other = true -> isVPrefixed winner = true)
  /\ (isVPrefixed other = isVPrefixed winner ->
      (String.length winner <= String.length other)%nat).

(** The comparator of the tie-break sort, as [sort] takes it. *)
Definition cmpInfos (a b : TagInfo) : option Z := Some (compareInfos a b).


(** The canonical display tags of a TagMap, in the order of its
    versions. *)
Definition canonical_displays (tm : TagMap) : list string :=
  omap (fun v => display <$> Js.get v (tags tm)) (versions tm).

(** The TagInfo of a version whose tag is its display form. *)
Definition displayInfo (v : string) : TagInfo := tagInfoOf v ("v" +:+ v).

End Props.

(** ** The scenarios of the specification *)

Module Scenario.
Import Parser Cli.

Definition commit (subject : string) : RawCommit :=
  mkRawCommit "abc123" subject "".

Definition rcInfo : TagInfo :=
  mkTagInfo "v1.0.0-rc.1" "1.0.0-rc.1" "v1.0.0-rc.1".

Definition stableInfo : TagInfo := mkTagInfo "v1.0.0" "1.0.0" "v1.0.0".

(** [normalizeTags ["v1.0.0-rc.1"; "v1.0.0"]] *)
Definition rcThenStable : TagMap :=
  mkTagMap ["1.0.0-rc.1"; "1.0.0"]
           [("1.0.0-rc.1", rcInfo); ("1.0.0", stableInfo)].

(** [normalizeTags ["v1.0.0-rc.1"]] *)
Definition rcOnly : TagMap :=
  mkTagMap ["1.0.0-rc.1"] [("1.0.0-rc.1", rcInfo)].

(** The log of [v1.0.0-rc.1] holds [fix: a]; the log of [v1.0.0] is
    cumulative and holds [feat: b] on top of it. *)
Definition gitFixThenFeat : Git :=
  mkGit (fun _ => "2025-01-15")
        (fun tag =>
           if String.eqb tag "v1.0.0-rc.1" then [commit "fix: a"]
           else [commit "feat: b"; commit "fix: a"]).

Definition gitFeat : Git :=
  mkGit (fun _ => "2025-01-15") (fun _ => [commit "feat: a"]).

Definition fixA : ConventionalCommit :=
  mkConventionalCommit "abc123" "fix" None "a" "fix: a" false.

Definition featB : ConventionalCommit :=
  mkConventionalCommit "abc123" "feat" None "b" "feat: b" false.

Definition featA : ConventionalCommit :=
  mkConventionalCommit "abc123" "feat" None "a" "feat: a" false.

End Scenario.

(** ** More string primitives of the host language *)

Module StrOps.
Import Chars Str.

(** The line feed, written [\n] in the source. *)
Definition LF : ascii := ascii_of_N 10.

Definition newline : string := String LF "".

(** [s.slice(0, n)] *)
Fixpoint slice_to (n : nat) (s : string) : string :=
  match n, s with
  | S n', String c s' => String c (slice_to n' s')
  | _, _ => ""
  end.

(** [s.slice(n)] *)
Fixpoint slice_from (n : nat) (s : string) : string :=
  match n, s with
  | S n', String _ s' => slice_from n' s'
  | _, _ => s
  end.

(** [s.lastIndexOf(c)] for a one-character needle; [None] is [-1]. *)
Fixpoint lastIndexOf (c : ascii) (s : string) : option nat :=
  match s with
  | "" => None
  | String d s' =>
      match lastIndexOf c s' with
      | Some i => Some (S i)
      | None => if Ascii.eqb c d then Some 0%nat else None
      end
  end.

(** A [string | undefined] used as a condition, or on the left of [||]:
    the empty string counts as absent. *)
Definition nonempty (s : string) : bool := negb (is_empty s).

End StrOps.

(** ** git.ts: reading what git prints

    The functions of git.ts run a git command and work on the text it
    prints; the text is the argument here. *)

Module GitOutput.
Import Chars Str StrOps Parser.

(** [getTags]: [output.trim().split("\n").filter((tag) => tag.length > 0)] *)
Definition getTags (output : string) : list string :=
  List.filter (fun tag => (0 <? String.length tag)%nat)
              (split_on LF (trim output)).

(** [[a-f0-9]] under the [i] flag *)
Definition is_hex (c : ascii) : bool :=
  in_range 97 102 c || in_range 65 70 c || is_digit c.

(** [/^[a-f0-9]{4,40}$/i.test(s.trim())] *)
Definition isValidHashStart (s : string) : bool :=
  let t := trim s in
  (4 <=? String.length t)%nat && (String.length t <=? 40)%nat
  && forallb is_hex t.

(** The variables of the loop of [parseCommitOutput]. *)
Record Acc : Type := mkAcc {
  commits : list RawCommit;
  currentHash : string;
  currentSubject : string;
  currentBody : string
}.

(** [if (currentHash) commits.push(...)] *)
Definition pushCurrent (st : Acc) : list RawCommit :=
  if nonempty (currentHash st)
  then commits st
       ++ [mkRawCommit (currentHash st) (currentSubject st)
                       (trim (currentBody st))]
  else commits st.

(** [line.includes("|") && isValidHashStart(line.split("|")[0] || "")] *)
Definition startsCommit (line : string) : bool :=
  includes_char "|" line
  && isValidHashStart (hd "" (split_on "|" line)).

(** One turn of [for (const line of lines)]. *)
Definition step (st : Acc) (line : string) : Acc :=
  if startsCommit line then
    let commits' := pushCurrent st in
    let hash := hd "" (split_on "|" line) in
    let remaining := join "|" (tl (split_on "|" line)) in
    match lastIndexOf "|" remaining with
    | Some separatorIndex =>
        mkAcc commits' hash (slice_to separatorIndex remaining)
              (slice_from (S separatorIndex) remaining)
    | None => mkAcc commits' hash remaining ""
    end
  else if nonempty (currentHash st) then
    mkAcc (commits st) (currentHash st) (currentSubject st)
          (currentBody st
           +:+ (if nonempty (currentBody st) then newline else "")
           +:+ line)
  else st.

Definition parseCommitOutput (output : string) : list RawCommit :=
  let lines := split_on LF (trim output) in
  pushCurrent (fold_left step lines (mkAcc [] "" "" "")).

End GitOutput.

(** ** remote.ts *)

Module Remote.
Import Chars Str StrOps Parser.

Record RemoteInfo : Type := mkRemoteInfo {
  host : string;
  owner : string;
  repo : string
}.

(** What the program reads of a [URL] object. *)
Record URL : Type := mkURL {
  hostname : string;
  pathname : string
}.

(** [(?:\.git)?$] after the lazy [(.+?)] has taken its first character:
    the rest of group 2.  The lazy group stops as soon as what is left is
    [.git] or nothing, and takes one more character otherwise. *)
Fixpoint lazy_path (s : string) : option string :=
  if String.eqb s ".git" then Some ""
  else
    match s with
    | "" => Some ""
    | String c s' => if is_dot c then String c <$> lazy_path s' else None
    end.

(** [url.match(/^git@([^:]+):(.+?)(?:\.git)?$/)]: groups 1 and 2. *)
Definition match_ssh (url : string) : option (string * string) :=
  r ← strip_prefix "git@" url;
  let '(h, r') := span (fun c => negb (Ascii.eqb c ":")) r in
  match h, r' with
  | String _ _, String ":" (String c p) =>
      if is_dot c then p' ← lazy_path p; Some (h, String c p') else None
  | _, _ => None
  end.

(** [s.replace(/\.git$/, "")] *)
Fixpoint strip_git (s : string) : string :=
  match s with
  | "" => ""
  | String c s' => if String.eqb s ".git" then "" else String c (strip_git s')
  end.

(** The end of [parseRemoteUrl], from [path.split("/")] on. *)
Definition ownerAndRepo (host path : string) : option RemoteInfo :=
  match split_on "/" path with
  | [] => None
  | owner :: repoParts =>
      let repo := join "/" repoParts in
      if is_empty owner || is_empty repo then None
      else Some (mkRemoteInfo host owner repo)
  end.

Section ParseRemoteUrl.

(** [new URL(url)], which the host provides; [None] when it throws. *)
Variable newURL : string -> option URL.

(** The outer [None] is the exception of [new URL], the inner one is
    [null]. *)
Definition parseRemoteUrl (url : string) : option (option RemoteInfo) :=
  if starts_with "git@" url then
    match match_ssh url with
    | None => Some None
    | Some (host, path) => Some (ownerAndRepo host path)
    end
  else if starts_with "https://" url || starts_with "http://" url then
    urlObj ← newURL url;
    Some (ownerAndRepo (hostname urlObj)
                       (strip_git (slice_from 1 (pathname urlObj))))
  else Some None.

End ParseRemoteUrl.

Definition baseUrl (remote : RemoteInfo) : string :=
  "https://" +:+ host remote +:+ "/" +:+ owner remote +:+ "/" +:+ repo remote.

Definition buildCommitUrl (remote : RemoteInfo) (hash : string) : string :=
  baseUrl remote +:+ "/commit/" +:+ hash.

Definition buildIssueUrl (remote : RemoteInfo) (issue : string) : string :=
  baseUrl remote +:+ "/issues/" +:+ issue.

Definition buildPullRequestUrl (remote : RemoteInfo) (pr : string) : string :=
  baseUrl remote +:+ "/pull/" +:+ pr.

End Remote.

(** ** formatter.ts *)

Module Formatter.
Import Chars Str StrOps Parser Remote Cli.

Definition TYPE_LABELS : list (string * string) :=
  [("feat", "Features"); ("fix", "Bug Fixes"); ("docs", "Documentation");
   ("style", "Styles"); ("refactor", "Code Refactoring");
   ("perf", "Performance Improvements"); ("test", "Tests");
   ("build", "Build System"); ("ci", "Continuous Integration");
   ("chore", "Chores"); ("revert", "Reverts")].

Definition TYPE_ORDER : list string :=
  ["feat"; "fix"; "perf"; "refactor"; "docs"; "style"; "test"; "build";
   "ci"; "chore"; "revert"].

Definition VISIBLE_TYPES : list string := ["feat"; "fix"; "perf"; "revert"].

(** [encodeURIComponent] on the embedded code units: the unreserved
    characters stand for themselves, every other one is written as the
    bytes of its UTF-8 form, each as [%] and two upper-case hexadecimal
    digits. *)
Definition is_unreserved (c : ascii) : bool :=
  is_alpha c || is_digit c || includes_char c "-_.!~*'()".

Definition hex_digit (n : N) : ascii :=
  if (n <? 10)%N then ascii_of_N (48 + n) else ascii_of_N (55 + n).

Definition percent (byte : N) : string :=
  String "%" (String (hex_digit (byte / 16)) (String (hex_digit (byte mod 16)) "")).

Definition encode_unit (c : ascii) : string :=
  if is_unreserved c then String c ""
  else if (code c <? 128)%N then percent (code c)
  else percent (192 + code c / 64) +:+ percent (128 + code c mod 64).

Fixpoint encodeURIComponent (s : string) : string :=
  match s with
  | "" => ""
  | String c s' => encode_unit c +:+ encodeURIComponent s'
  end.

Definition formatHeader (displayTag date : string) (url : option string)
  : string :=
  let version := strip_v displayTag in
  match url with
  | Some (String c u) =>
      if nonempty date
      then "## [" +:+ version +:+ "](" +:+ String c u +:+ ") (" +:+ date +:+ ")"
      else "## [" +:+ version +:+ "](" +:+ String c u +:+ ")"
  | _ =>
      if nonempty date then "## " +:+ displayTag +:+ " (" +:+ date +:+ ")"
      else "## " +:+ displayTag
  end.

Definition buildHeaderUrl (changelogs : list TagChangelog)
           (currentIndex : nat) (remote : option RemoteInfo)
  : option string :=
  match remote with
  | None => None
  | Some remote =>
      match changelogs !! currentIndex with
      | None => None
      | Some current =>
          let prevIndex := (currentIndex + 1)%nat in
          match changelogs !! prevIndex with
          | None =>
              Some (baseUrl remote +:+ "/releases/tag/"
                    +:+ encodeURIComponent (originalTag current))
          | Some prev =>
              Some (baseUrl remote +:+ "/compare/"
                    +:+ encodeURIComponent (originalTag prev) +:+ "..."
                    +:+ encodeURIComponent (originalTag current))
          end
      end
  end.

(** The properties every object inherits from [Object.prototype].  Read
    on the fresh object [grouped], each of them gives a function (or, for
    [__proto__], the prototype itself), none of which has a [push]. *)
Definition OBJECT_PROTOTYPE_KEYS : list string :=
  ["constructor"; "__defineGetter__"; "__defineSetter__"; "hasOwnProperty";
   "__lookupGetter__"; "__lookupSetter__"; "isPrototypeOf";
   "propertyIsEnumerable"; "toString"; "valueOf"; "__proto__";
   "toLocaleString"].

Definition inherited (key : string) : bool :=
  existsb (String.eqb key) OBJECT_PROTOTYPE_KEYS.

(** The loop of [groupByType] from the object [grouped].  On a type that
    names an inherited property, [!grouped[commit.type]] is false and the
    call of [push] throws ([None]). *)
Fixpoint groupInto (grouped : gmap string (list ConventionalCommit))
         (commits : list ConventionalCommit)
  : option (gmap string (list ConventionalCommit)) :=
  match commits with
  | [] => Some grouped
  | commit :: rest =>
      match grouped !! type commit with
      | Some typeCommits =>
          groupInto (<[type commit := typeCommits ++ [commit]]> grouped) rest
      | None =>
          if inherited (type commit) then None
          else groupInto (<[type commit := [commit]]> grouped) rest
      end
  end.

Definition groupByType (commits : list ConventionalCommit)
  : option (gmap string (list ConventionalCommit)) :=
  groupInto ∅ commits.

Definition formatHashLink (hash : string) (remote : option RemoteInfo)
  : string :=
  let shortHash := slice_to 7 hash in
  match remote with
  | Some remote =>
      "([" +:+ shortHash +:+ "](" +:+ buildCommitUrl remote hash +:+ "))"
  | None => "(" +:+ shortHash +:+ ")"
  end.

(** [text.replace(/#(\d+)/g, ...)].  [skip] counts the characters of the
    last match that are still to be passed: the search goes on behind
    the match. *)
Fixpoint replaceIssues (remote : RemoteInfo) (skip : nat) (text : string)
  : string :=
  match text with
  | "" => ""
  | String c text' =>
      match skip with
      | S skip' => replaceIssues remote skip' text'
      | O =>
          if Ascii.eqb c "#" then
            match fst (span is_digit text') with
            | "" => String c (replaceIssues remote 0 text')
            | num =>
                "[#" +:+ num +:+ "](" +:+ baseUrl remote +:+ "/issues/" +:+ num
                +:+ ")" +:+ replaceIssues remote (String.length num) text'
            end
          else String c (replaceIssues remote 0 text')
      end
  end.

Definition linkifyReferences (text : string) (remote : option RemoteInfo)
  : string :=
  match remote with
  | None => text
  | Some remote => replaceIssues remote 0 text
  end.

(** The line pushed for one commit. *)
Definition commitLine (remote : option RemoteInfo)
           (commit : ConventionalCommit) : string :=
  let scope :=
    match scope commit with
    | Some (String c s) => "**" +:+ String c s +:+ "**: "
    | _ => ""
    end in
  let subject := linkifyReferences (subject commit) remote in
  let hashLink := formatHashLink (hash commit) remote in
  "- " +:+ scope +:+ subject +:+ " " +:+ hashLink.

(** [TYPE_LABELS[type] || type] *)
Definition labelOf (type : string) : string :=
  match Js.get type TYPE_LABELS with
  | Some (String c l) => String c l
  | _ => type
  end.

(** One turn of [for (const type of TYPE_ORDER)]; the types of
    TYPE_ORDER name no inherited property, so [grouped[type]] is an
    array that [groupByType] made, or [undefined]. *)
Definition typeSection (remote : option RemoteInfo)
           (grouped : gmap string (list ConventionalCommit))
           (lines : list string) (type : string) : list string :=
  match grouped !! type with
  | Some (commit :: typeCommits) =>
      lines ++ ["### " +:+ labelOf type; ""]
      ++ map (commitLine remote) (commit :: typeCommits) ++ [""]
  | _ => lines
  end.

Section FormatChangelog.

(** The heading of the breaking changes, [### ⚠ BREAKING CHANGES]: its
    warning sign U+26A0 lies outside the embedded code units, so the
    heading is a parameter. *)
Variable BREAKING_HEADING : string.

(** One turn of the loop over [sortedChangelogs]; [None] when
    [groupByType] throws. *)
Definition renderEntry (sortedChangelogs : list TagChangelog)
           (remote : option RemoteInfo) (verbose : bool)
           (lines : list string) (i : nat) : option (list string) :=
  match sortedChangelogs !! i with
  | None => Some lines
  | Some entry =>
      if (length (commits entry) =? 0)%nat then Some lines
      else
        let filteredCommits :=
          if verbose then commits entry
          else List.filter
                 (fun c => existsb (String.eqb (type c)) VISIBLE_TYPES)
                 (commits entry) in
        if (length filteredCommits =? 0)%nat then Some lines
        else
          let headerUrl := buildHeaderUrl sortedChangelogs i remote in
          let header :=
            formatHeader (displayTag entry) (date entry) headerUrl in
          let lines := lines ++ [header; ""] in
          let breakingCommits := List.filter breaking filteredCommits in
          let lines :=
            if (0 <? length breakingCommits)%nat
            then lines ++ [BREAKING_HEADING; ""]
                 ++ map (commitLine remote) breakingCommits ++ [""]
            else lines in
          grouped ← groupByType filteredCommits;
          Some (fold_left (typeSection remote grouped) TYPE_ORDER lines)
  end.

(** [for (let i = 0; i < sortedChangelogs.length; i++)] *)
Fixpoint renderAll (sortedChangelogs : list TagChangelog)
         (remote : option RemoteInfo) (verbose : bool)
         (indices : list nat) (lines : list string) : option (list string) :=
  match indices with
  | [] => Some lines
  | i :: rest =>
      lines' ← renderEntry sortedChangelogs remote verbose lines i;
      renderAll sortedChangelogs remote verbose rest lines'
  end.

(** The array [lines] before it is joined. *)
Definition changelogLines (changelogs : list TagChangelog)
           (remote : option RemoteInfo) (verbose : bool)
  : option (list string) :=
  let sortedChangelogs := reverse changelogs in
  renderAll sortedChangelogs remote verbose
            (seq 0 (length sortedChangelogs)) ["# Changelog"; ""].

Definition formatChangelog (changelogs : list TagChangelog)
           (remote : option RemoteInfo) (verbose : bool) : option string :=
  lines ← changelogLines changelogs remote verbose;
  Some (trimEnd (join newline lines) +:+ newline).

End FormatChangelog.

End Formatter.

(** ** cli.ts: the command *)

Module Run.
Import Chars Str StrOps Parser Remote Cli Bump Formatter.

(** The options of the command line that decide what is printed. *)
Record Options : Type := mkOptions {
  all : bool;
  bump : bool;
  prefix : option string;
  suffix : option string
}.

(** The repository as git.ts shows it.  [getTags], [getCommits] and
    [getCommitsSince] run git without catching the exception of
    [execSync], which is thrown when git fails or prints more than the
    buffer takes: [None] is that exception.  [getRemoteUrl] and
    [getLastTag] catch it and return [null], [getTagDate] catches it and
    returns the empty string. *)
Record Repository : Type := mkRepository {
  isGitRepository : bool;
  getRemoteUrl : option string;
  getTags : option (list string);
  getLastTag : option string;
  getCommitsSince : string -> option (list RawCommit);
  getTagDate : string -> string;
  getCommits : string -> option (list RawCommit)
}.

(** How the command ends: [process.exit(1)] after a message on the error
    stream, the text handed to [console.log] or [writeOutput], or an
    exception. *)
Inductive Outcome : Type :=
| Exit (message : string)
| Output (text : string)
| Thrown.

Definition NOT_A_REPOSITORY : string :=
  "Error: Current directory is not a Git repository".

Definition NO_TAGS : string :=
  "Error: No valid semver tags found in repository".

(** The branch of [options.bump].  [Some Thrown] when a call of git
    throws; [None] when the pre-release counter is not covered by the
    embedded numbers. *)
Definition runBump (repo : Repository) (options : Options) : option Outcome :=
  let lastTag := getLastTag repo in
  match (match truthy lastTag with
         | Some tag => getCommitsSince repo tag
         | None => getCommits repo "HEAD"
         end) with
  | None => Some Thrown
  | Some commits =>
      let result := suggestNextVersion commits lastTag in
      let prefix := default "" (prefix options) in
      let suffix := default "" (suffix options) in
      if nonempty suffix then
        match getTags repo with
        | None => Some Thrown
        | Some allTags =>
            version ← getNextPrereleaseVersion (nextVersion result) suffix
                                               allTags;
            Some (Output (prefix +:+ version))
        end
      else Some (Output (prefix +:+ nextVersion result))
  end.

(** One turn of [for (const version of tagMap.versions)] in the command:
    [getCommits] throws when git fails ([None]); with the log it
    returns, the turn is the one of the assembler. *)
Definition stepRepo (repo : Repository) (tagMap : TagMap) (st : State)
           (version : string) : option State :=
  tagInfo ← Js.get version (tags tagMap);
  rawCommits ← getCommits repo (original tagInfo);
  step (mkGit (getTagDate repo) (fun _ => rawCommits)) tagMap st version.

Fixpoint walkRepo (repo : Repository) (tagMap : TagMap) (st : State)
         (versions : list string) : option State :=
  match versions with
  | [] => Some st
  | version :: rest =>
      st' ← stepRepo repo tagMap st version; walkRepo repo tagMap st' rest
  end.

(** The changelogs handed to [formatChangelog]; [None] when the loop
    throws. *)
Definition assembleRepo (repo : Repository) (tagMap : TagMap)
  : option (list TagChangelog) :=
  flush <$> walkRepo repo tagMap init (versions tagMap).

Section Changelog.

Variable newURL : string -> option URL.
Variable BREAKING_HEADING : string.

(** The branch that writes the changelog. *)
Definition runChangelog (repo : Repository) (options : Options) : Outcome :=
  let verbose := all options in
  match (match truthy (getRemoteUrl repo) with
         | Some remoteUrl => parseRemoteUrl newURL remoteUrl
         | None => Some None
         end) with
  | None => Thrown
  | Some remote =>
      match getTags repo with
      | None => Thrown
      | Some allTags =>
          match normalizeTags allTags with
          | None => Thrown
          | Some tagMap =>
              if (length (versions tagMap) =? 0)%nat then Exit NO_TAGS
              else
                match assembleRepo repo tagMap with
                | None => Thrown
                | Some changelogs =>
                    match formatChangelog BREAKING_HEADING changelogs remote
                                          verbose with
                    | None => Thrown
                    | Some markdown => Output markdown
                    end
                end
          end
      end
  end.

(** The action of the command.  [None] as for [runBump]. *)
Definition run (repo : Repository) (options : Options) : option Outcome :=
  if negb (isGitRepository repo) then Some (Exit NOT_A_REPOSITORY)
  else if bump options then runBump repo options
  else Some (runChangelog repo options).

End Changelog.

End Run.

(** ** More vocabulary *)

Module Terms.
Import Chars Str StrOps Parser.

(** [s] does not start, respectively end, with white space. *)
Definition no_leading_space (s : string) : bool :=
  match s with "" => true | String c _ => negb (is_space c) end.

Definition no_trailing_space (s : string) : bool :=
  match last_char s with Some c => negb (is_space c) | None => true end.

(** The deduplication keys of a list of commits. *)
Definition keysOf (commits : list ConventionalCommit) : list string :=
  map Dedup.getKey commits.

(** The conventional commits of the log of a version, and of all the
    versions of a TagMap in walk order. *)
Definition parsedCommits (git : Cli.Git) (tagMap : TagMap) (version : string)
  : list ConventionalCommit :=
  match Js.get version (tags tagMap) with
  | Some tagInfo =>
      omap parseConventionalCommit (Cli.getCommits git (original tagInfo))
  | None => []
  end.

Definition allCommits (git : Cli.Git) (tagMap : TagMap)
  : list ConventionalCommit :=
  concat (map (parsedCommits git tagMap) (versions tagMap)).

(** What a changelog entry says of its version. *)
Definition entry_for (git : Cli.Git) (tagMap : TagMap) (e : Cli.TagChangelog)
  : Prop :=
  Cli.tag e ∈ versions tagMap
  /\ exists ti, Js.get (Cli.tag e) (tags tagMap) = Some ti
                /\ Cli.displayTag e = display ti
                /\ Cli.originalTag e = original ti
                /\ Cli.date e = Cli.getTagDate git (original ti).

(** The identity kept for waiting commits is that of a pre-release. *)
Definition pending_for (git : Cli.Git) (tagMap : TagMap)
           (info : Cli.PendingTagInfo) : Prop :=
  exists v ti, v ∈ versions tagMap /\ isPreRelease v = true
               /\ Js.get v (tags tagMap) = Some ti
               /\ info = Cli.mkPending (display ti) (original ti)
                                       (Cli.getTagDate git (original ti)).

Definition stable (v : string) : bool := negb (isPreRelease v).

(** What [git tag] prints for a list of tags: one tag on each line. *)
Fixpoint tagOutput (tags : list string) : string :=
  match tags with
  | [] => ""
  | tag :: tags' => tag +:+ newline +:+ tagOutput tags'
  end.

(** What [git log --format="%H|%s|%b"] prints for a commit, and for a
    list of commits: every entry ends with a line feed. *)
Definition logEntry (c : RawCommit) : string :=
  raw_hash c +:+ "|" +:+ raw_subject c +:+ "|" +:+ raw_body c.

Fixpoint logOutput (cs : list RawCommit) : string :=
  match cs with
  | [] => ""
  | c :: cs' => logEntry c +:+ newline +:+ logOutput cs'
  end.

(** A commit hash as git prints it: 4 to 40 hexadecimal digits. *)
Definition is_hash (h : string) : bool :=
  (4 <=? String.length h)%nat && (String.length h <=? 40)%nat
  && forallb GitOutput.is_hex h.

(** A body that [parseCommitOutput] reads as one body: its first line
    holds no [|], and none of its further lines is taken for the start of
    a commit. *)
Definition plain_body (b : string) : bool :=
  negb (includes_char "|" (hd "" (split_on LF b)))
  && List.forallb (fun l => negb (GitOutput.startsCommit l))
                  (tl (split_on LF b)).

Definition readable (c : RawCommit) : bool :=
  is_hash (raw_hash c) && negb (includes_char LF (raw_subject c))
  && plain_body (raw_body c).

(** The commit with its body trimmed. *)
Definition trimBody (c : RawCommit) : RawCommit :=
  mkRawCommit (raw_hash c) (raw_subject c) (trim (raw_body c)).

(** A commit as [parseCommitOutput] can return it. *)
Definition well_read (c : RawCommit) : Prop :=
  GitOutput.isValidHashStart (raw_hash c) = true
  /\ includes_char "|" (raw_hash c) = false
  /\ includes_char LF (raw_hash c) = false
  /\ includes_char LF (raw_subject c) = false
  /\ trim (raw_body c) = raw_body c.

(** The variables of the loop of [parseCommitOutput] between two
    lines. *)
Definition reading (st : GitOutput.Acc) : Prop :=
  Forall well_read (GitOutput.commits st)
  /\ (GitOutput.currentHash st = ""
      \/ well_read (mkRawCommit (GitOutput.currentHash st)
                                (GitOutput.currentSubject st) "")).

(** A tag name as git allows it here: not empty and without white
    space. *)
Definition is_tag_name (tag : string) : bool :=
  nonempty tag && forallb (fun c => negb (is_space c)) tag.

(** The parts of a remote in the form [git@host:owner/repo.git]: a host
    without colon, an owner without slash, and no line terminator in the
    path. *)
Definition is_ssh_host (host : string) : bool :=
  nonempty host && negb (includes_char ":" host).

Definition is_owner (owner : string) : bool :=
  nonempty owner && negb (includes_char "/" owner) && forallb is_dot owner.

Definition is_repo (repo : string) : bool :=
  nonempty repo && forallb is_dot repo.

Definition sshUrl (host owner repo : string) : string :=
  "git@" +:+ host +:+ ":" +:+ owner +:+ "/" +:+ repo.

(** The commits of a type, in their order. *)
Definition ofType (t : string) (commits : list ConventionalCommit)
  : list ConventionalCommit :=
  List.filter (fun c => String.eqb (type c) t) commits.

(** The commits of an entry that [formatChangelog] shows. *)
Definition shown (verbose : bool) (e : Cli.TagChangelog)
  : list ConventionalCommit :=
  if verbose then Cli.commits e
  else List.filter
         (fun c => existsb (String.eqb (type c)) Formatter.VISIBLE_TYPES)
         (Cli.commits e).

(** The entry without the commits that only the verbose mode shows. *)
Definition visibleOnly (e : Cli.TagChangelog) : Cli.TagChangelog :=
  Cli.mkTagChangelog (Cli.tag e) (Cli.displayTag e) (Cli.originalTag e)
                     (Cli.date e) (shown false e).

(** [text] holds a [#] followed by a digit. *)
Fixpoint has_reference (text : string) : bool :=
  match text with
  | "" => false
  | String c text' =>
      (Ascii.eqb c "#" && negb (Props.head_fails is_digit text'))
      || has_reference text'
  end.

(** The link that stands for the reference [#num]. *)
Definition issueLink (remote : Remote.RemoteInfo) (num : string) : string :=
  "[#" +:+ num +:+ "](" +:+ Remote.buildIssueUrl remote num +:+ ")".

(** Reading the remote of the repository throws: the remote is an http
    or https address that [new URL] refuses. *)
Definition remote_throws (newURL : string -> option Remote.URL)
           (repo : Run.Repository) : Prop :=
  exists url,
    Bump.truthy (Run.getRemoteUrl repo) = Some url
    /\ starts_with "git@" url = false
    /\ starts_with "https://" url || starts_with "http://" url = true
    /\ newURL url = None.

(** [git tag] answers, and one of the tags has a valid semantic
    version. *)
Definition has_version_tag (repo : Run.Repository) : Prop :=
  exists allTags tag,
    Run.getTags repo = Some allTags
    /\ tag ∈ allTags /\ isValidVersion tag = true.

(** [git log] fails for the canonical tag of a version of the
    repository. *)
Definition log_fails (repo : Run.Repository) : Prop :=
  exists allTags tagMap version tagInfo,
    Run.getTags repo = Some allTags
    /\ normalizeTags allTags = Some tagMap
    /\ version ∈ versions tagMap
    /\ Js.get version (tags tagMap) = Some tagInfo
    /\ Run.getCommits repo (original tagInfo) = None.

(** The answers of git as the assembler takes them, where git
    answers. *)
Definition gitOf (repo : Run.Repository) : Cli.Git :=
  Cli.mkGit (Run.getTagDate repo)
            (fun tag => default [] (Run.getCommits repo tag)).

(** The log that the bump command reads: the commits since the last tag,
    or all of them when there is none. *)
Definition bumpLog (repo : Run.Repository) : option (list RawCommit) :=
  match Bump.truthy (Run.getLastTag repo) with
  | Some tag => Run.getCommitsSince repo tag
  | None => Run.getCommits repo "HEAD"
  end.

(** A conventional subject line as it is written: the type, the scope
    between parentheses, the [!], the colon, white space and the
    description. *)
Definition scopeText (scope : option string) : string :=
  match scope with Some s => "(" +:+ s +:+ ")" | None => "" end.

Definition bangText (bang : bool) : string := if bang then "!" else "".

Definition conventional (ty : string) (scope : option string) (bang : bool)
           (gap description : string) : string :=
  ty +:+ scopeText scope +:+ bangText bang +:+ ":" +:+ gap +:+ description.

(** A scope of word characters and hyphens, at least one. *)
Definition is_scope (scope : option string) : bool :=
  match scope with
  | Some s => nonempty s && forallb is_scope_char s
  | None => true
  end.

(** A description: it starts with a character that is not white space
    and holds no line terminator. *)
Definition is_description (d : string) : bool :=
  nonempty d && no_leading_space d && forallb is_dot d.

End Terms.

(** ** The fixtures of formatter.test.ts *)

Module Fixtures.
Import Str Parser Remote Cli.

Definition createCommit (type subject : string) (scope : option string)
           (hash : string) (breaking : bool) : ConventionalCommit :=
  mkConventionalCommit hash type scope subject
    (type
     +:+ match scope with
         | Some (String c s) => "(" +:+ String c s +:+ ")"
         | _ => ""
         end
     +:+ ": " +:+ subject)
    breaking.

(** [createCommit(type, subject)] with the default hash. *)
Definition plainCommit (type subject : string) : ConventionalCommit :=
  createCommit type subject None "abc123def456" false.

Definition createChangelog (tag : string) (commits : list ConventionalCommit)
           (originalTag : option string) (date : option string)
  : TagChangelog :=
  mkTagChangelog tag
                 (if starts_with "v" tag then tag else "v" +:+ tag)
                 (default tag originalTag)
                 (default "2025-01-15" date)
                 commits.

Definition mockRemote : RemoteInfo := mkRemoteInfo "github.com" "acme" "my-lib".

End Fixtures.

(** * Properties *)

(** ** Strings and numbers *)

(** *** Strings *)

Section StringFacts.
Import Chars Str Props.

Lemma sapp_cons c (s t : string) : String c s +:+ t = String c (s +:+ t).
Proof. reflexivity. Qed.

Lemma sapp_nil_l (s : string) : "" +:+ s = s.
Proof. reflexivity. Qed.

Lemma sapp_nil_r (s : string) : s +:+ "" = s.
Proof. induction s as [|c s IH]; [reflexivity|]. rewrite sapp_cons, IH. reflexivity. Qed.

Lemma sapp_assoc (s t u : string) : (s +:+ t) +:+ u = s +:+ t +:+ u.
Proof.
  induction s as [|c s IH]; [reflexivity|].
  rewrite !sapp_cons, IH. reflexivity.
Qed.

Lemma forallb_app p (s t : string) :
  forallb p (s +:+ t) = forallb p s && forallb p t.
Proof.
  induction s as [|c s IH]; [reflexivity|].
  rewrite sapp_cons. simpl. rewrite IH, andb_assoc. reflexivity.
Qed.

Lemma span_app p s a b : span p s = (a, b) -> s = a +:+ b.
Proof.
  revert a b. induction s as [|c s IH]; simpl; intros a b H.
  - inversion H. reflexivity.
  - destruct (p c).
    + destruct (span p s) as [x y]. inversion H; subst.
      rewrite sapp_cons, <- (IH x b eq_refl). reflexivity.
    + inversion H. reflexivity.
Qed.

Lemma span_forallb p s a b : span p s = (a, b) -> forallb p a = true.
Proof.
  revert a b. induction s as [|c s IH]; simpl; intros a b H.
  - inversion H. reflexivity.
  - destruct (p c) eqn:Hc.
    + destruct (span p s) as [x y]. inversion H; subst. simpl.
      rewrite Hc. exact (IH x b eq_refl).
    + inversion H. reflexivity.
Qed.

Lemma span_rest p s a b : span p s = (a, b) -> head_fails p b = true.
Proof.
  revert a b. induction s as [|c s IH]; simpl; intros a b H.
  - inversion H. reflexivity.
  - destruct (p c) eqn:Hc.
    + destruct (span p s) as [x y]. inversion H; subst.
      exact (IH x b eq_refl).
    + inversion H; subst. simpl. rewrite Hc. reflexivity.
Qed.

Lemma span_prefix p a r :
  forallb p a = true ->
  span p (a +:+ r) = (a +:+ fst (span p r), snd (span p r)).
Proof.
  induction a as [|c a IH]; simpl; intros H.
  - rewrite !sapp_nil_l. destruct (span p r); reflexivity.
  - apply andb_prop in H as [Hc Ha]. rewrite !sapp_cons. simpl.
    rewrite Hc, (IH Ha). reflexivity.
Qed.

Lemma span_exact p a r :
  forallb p a = true -> head_fails p r = true -> span p (a +:+ r) = (a, r).
Proof.
  intros Ha Hr. rewrite (span_prefix _ _ _ Ha).
  destruct r as [|c r]; simpl in *.
  - rewrite sapp_nil_r. reflexivity.
  - apply negb_true_iff in Hr. rewrite Hr. simpl. rewrite sapp_nil_r. reflexivity.
Qed.

Lemma includes_char_app c (s t : string) :
  includes_char c (s +:+ t) = includes_char c s || includes_char c t.
Proof.
  induction s as [|d s IH]; [reflexivity|].
  rewrite sapp_cons. simpl. rewrite IH, orb_assoc. reflexivity.
Qed.

Lemma forallb_excludes p c s :
  forallb p s = true -> p c = false -> includes_char c s = false.
Proof.
  intros Hs Hc. induction s as [|d s IH]; [reflexivity|].
  simpl in *. apply andb_prop in Hs as [Hd Hs]. rewrite (IH Hs), orb_false_r.
  destruct (Ascii.eqb_spec c d); [congruence | reflexivity].
Qed.

End StringFacts.

(** *** Numbers *)

Section NumberFacts.
Import Chars Str JsNum Props.

Lemma round53_exact n : (n < 2 ^ 53)%N -> round53 n = n.
Proof.
  intros H. unfold round53.
  assert (S : (N.size n <= 53)%N).
  { destruct (N.eq_dec n 0%N) as [->|Hn]; [discriminate|].
    rewrite N.size_log2 by exact Hn.
    apply N.le_succ_l, N.log2_lt_pow2; [lia | exact H]. }
  apply N.leb_le in S. rewrite S. reflexivity.
Qed.

Lemma succ_exact n : (n < 2 ^ 53)%N -> succ n = (n + 1)%N.
Proof.
  intros H. unfold succ.
  destruct (N.eq_dec (n + 1)%N (2 ^ 53)%N) as [->|Hne].
  - vm_compute. reflexivity.
  - apply round53_exact. lia.
Qed.

Lemma digits_to_N_from_acc acc s :
  digits_to_N_from acc s
  = (acc * 10 ^ N.of_nat (String.length s) + digits_to_N s)%N.
Proof.
  unfold digits_to_N. revert acc. induction s as [|c s IH]; intros acc.
  - simpl. lia.
  - cbn [digits_to_N_from String.length]. rewrite IH, (IH (0 * 10 + _)%N).
    rewrite Nat2N.inj_succ, N.pow_succ_r'. lia.
Qed.

Lemma digits_to_N_cons c s :
  digits_to_N (String c s)
  = (digit_val c * 10 ^ N.of_nat (String.length s) + digits_to_N s)%N.
Proof.
  unfold digits_to_N at 1. cbn [digits_to_N_from].
  rewrite digits_to_N_from_acc. lia.
Qed.

Lemma strip_zeros_value s : digits_to_N (strip_zeros s) = digits_to_N s.
Proof.
  induction s as [|c s IH]; [reflexivity|].
  destruct (Ascii.eqb_spec c "0") as [->|Hc].
  - simpl strip_zeros. rewrite IH, digits_to_N_cons.
    change (digit_val "0") with 0%N. lia.
  - destruct c as [[] [] [] [] [] [] [] []]; try reflexivity. congruence.
Qed.

Lemma strip_zeros_digits s :
  forallb is_digit s = true -> forallb is_digit (strip_zeros s) = true.
Proof.
  induction s as [|c s IH]; [reflexivity|]. intros H.
  pose proof H as H'. simpl in H'. apply andb_prop in H' as [_ Hs].
  destruct (Ascii.eqb_spec c "0") as [->|Hc]; [exact (IH Hs)|].
  destruct c as [[] [] [] [] [] [] [] []]; try exact H. congruence.
Qed.

Lemma strip_zeros_head s :
  match strip_zeros s with
  | String c _ => c <> "0"%char
  | "" => True
  end.
Proof.
  induction s as [|c s IH]; [exact I|].
  destruct (Ascii.eqb_spec c "0") as [->|Hc]; [exact IH|].
  destruct c as [[] [] [] [] [] [] [] []]; try exact Hc. congruence.
Qed.

Lemma digit_val_pos c : is_digit c = true -> c <> "0"%char -> (1 <= digit_val c)%N.
Proof.
  destruct c as [[] [] [] [] [] [] [] []]; try discriminate;
    intros _ H; try congruence; vm_compute; discriminate.
Qed.

(** A numeral without leading zeros below 2^53 has at most 16 digits. *)
Lemma short_numeral s :
  forallb is_digit s = true ->
  match s with String c _ => c <> "0"%char | "" => True end ->
  (digits_to_N s < 2 ^ 53)%N -> (String.length s <= 16)%nat.
Proof.
  destruct s as [|c s]; [simpl; lia|].
  intros Hd Hc Hv. simpl in Hd. apply andb_prop in Hd as [Hdc _].
  rewrite digits_to_N_cons in Hv. pose proof (digit_val_pos c Hdc Hc) as Hp.
  cbn [String.length].
  destruct (le_lt_dec (String.length s) 15) as [Hl|Hl]; [lia|]. exfalso.
  assert (P : (10 ^ 16 <= 10 ^ N.of_nat (String.length s))%N).
  { apply N.pow_le_mono_r; lia. }
  assert (Q : (2 ^ 53 < 10 ^ 16)%N) by (vm_compute; reflexivity).
  nia.
Qed.

Lemma parseInt10_exact d :
  forallb is_digit d = true -> (digits_to_N d < 2 ^ 53)%N ->
  parseInt10 d = Some (digits_to_N d).
Proof.
  intros Hd Hv. unfold parseInt10.
  pose proof (short_numeral (strip_zeros d) (strip_zeros_digits _ Hd)
                (strip_zeros_head d)) as Hl.
  rewrite strip_zeros_value in *. specialize (Hl Hv).
  destruct (Nat.leb_spec (String.length (strip_zeros d)) 20) as [_|Hgt]; [|lia].
  rewrite round53_exact by exact Hv. reflexivity.
Qed.

End NumberFacts.

(** ** Sorting, comparisons and maps *)

(** *** Sorting *)

Section SortFacts.
Import Js Props.
Context {A : Type} (cmp : A -> A -> option Z).

Lemma insertBy_perm x l l' : insertBy cmp x l = Some l' -> l' ≡ₚ x :: l.
Proof.
  revert l'. induction l as [|y l IH]; intros l' H; simpl in H.
  - inversion H. reflexivity.
  - destruct (cmp x y) as [c|]; [|discriminate]. simpl in H.
    destruct (c <=? 0)%Z; [inversion H; reflexivity|].
    destruct (insertBy cmp x l) as [l''|]; [|discriminate].
    simpl in H. inversion H; subst.
    rewrite (IH l'' eq_refl). apply Permutation_swap.
Qed.

Lemma sortBy_perm l s : sortBy cmp l = Some s -> s ≡ₚ l.
Proof.
  revert s. induction l as [|x l IH]; intros s H; simpl in H.
  - inversion H. reflexivity.
  - destruct (sortBy cmp l) as [s'|]; [|discriminate]. simpl in H.
    rewrite (insertBy_perm _ _ _ H), (IH s' eq_refl). reflexivity.
Qed.

(** A list that is sorted already comes back as it is. *)
Lemma sortBy_sorted_id l : Sorted (le_by cmp) l -> sortBy cmp l = Some l.
Proof.
  induction 1 as [|x l Hs IH Hhd]; [reflexivity|].
  simpl. rewrite IH. simpl.
  destruct Hhd as [|y l (c & Hc & Hle)]; [reflexivity|].
  simpl. rewrite Hc. simpl.
  destruct (Z.leb_spec c 0); [reflexivity | lia].
Qed.

Context (P : A -> Prop).
Hypothesis cmp_defined : forall a b, P a -> P b -> is_Some (cmp a b).
Hypothesis cmp_total :
  forall a b c, P a -> P b -> cmp a b = Some c -> (0 < c)%Z -> le_by cmp b a.

(** Whatever the comparator, insertion puts no element before a lower
    one. *)
Lemma insertBy_adjacent x l l' :
  P x -> Forall P l -> Sorted (le_by cmp) l ->
  insertBy cmp x l = Some l' ->
  Sorted (le_by cmp) l'
  /\ forall z, le_by cmp z x -> HdRel (le_by cmp) z l ->
                HdRel (le_by cmp) z l'.
Proof.
  intros Hx Hl Hs. revert l'.
  induction l as [|y l IH]; intros l' H; simpl in H.
  - inversion H; subst. split; [repeat constructor|].
    intros z Hz _. constructor. exact Hz.
  - inversion Hl as [|? ? Py Pl]; subst.
    apply Sorted_inv in Hs as [Hs Hhd].
    destruct (cmp x y) as [c|] eqn:Hc; [|discriminate]. simpl in H.
    destruct (Z.leb_spec c 0) as [Hle|Hgt].
    + inversion H; subst. split.
      * constructor; [constructor; assumption|].
        constructor. exists c. auto.
      * intros z Hz _. constructor. exact Hz.
    + destruct (insertBy cmp x l) as [l''|] eqn:Hi; [|discriminate].
      simpl in H. inversion H; subst.
      destruct (IH Pl Hs l'' eq_refl) as [Hs'' Hhd''].
      split.
      * constructor; [exact Hs''|].
        apply Hhd''; [|exact Hhd].
        exact (cmp_total x y c Hx Py Hc Hgt).
      * intros z _ Hz. inversion Hz; subst. constructor. assumption.
Qed.

Lemma sortBy_adjacent l s :
  Forall P l -> sortBy cmp l = Some s -> Sorted (le_by cmp) s.
Proof.
  intros Hl. revert s. induction Hl as [|x l Hx Hl IH]; intros s H; simpl in H.
  - inversion H. constructor.
  - destruct (sortBy cmp l) as [s'|] eqn:Hs; [|discriminate]. simpl in H.
    apply (insertBy_adjacent x s' s Hx); [|exact (IH s' eq_refl)|exact H].
    rewrite (sortBy_perm _ _ Hs). exact Hl.
Qed.

Hypothesis le_trans :
  forall a b c, P a -> P b -> P c ->
                le_by cmp a b -> le_by cmp b c -> le_by cmp a c.

Lemma insertBy_defined x l :
  P x -> Forall P l -> is_Some (insertBy cmp x l).
Proof.
  intros Hx Hl. induction Hl as [|y l Hy Hl IH]; simpl; [eauto|].
  destruct (cmp_defined x y Hx Hy) as [c ->]. simpl.
  destruct (c <=? 0)%Z; [eauto|].
  destruct IH as [l'' ->]. simpl. eauto.
Qed.

Lemma sortBy_defined l : Forall P l -> is_Some (sortBy cmp l).
Proof.
  intros Hl. induction Hl as [|x l Hx Hl IH]; simpl; [eauto|].
  destruct IH as [s Hs]. rewrite Hs. simpl.
  apply insertBy_defined; [exact Hx|].
  rewrite (sortBy_perm _ _ Hs). exact Hl.
Qed.

Lemma insertBy_sorted x l l' :
  P x -> Forall P l -> StronglySorted (le_by cmp) l ->
  insertBy cmp x l = Some l' -> StronglySorted (le_by cmp) l'.
Proof.
  intros Hx Hl Hs. revert l'.
  induction Hs as [|y l Hs IH Hy]; intros l' H; simpl in H.
  - inversion H. repeat constructor.
  - inversion Hl as [|? ? Py Pl]; subst.
    destruct (cmp x y) as [c|] eqn:Hc; [|discriminate]. simpl in H.
    destruct (Z.leb_spec c 0) as [Hle|Hgt].
    + inversion H; subst. constructor; [constructor; assumption|].
      assert (Hxy : le_by cmp x y) by (exists c; auto).
      constructor; [exact Hxy|].
      rewrite Forall_forall in Hy, Pl. apply Forall_forall. intros z Hz.
      exact (le_trans x y z Hx Py (Pl z Hz) Hxy (Hy z Hz)).
    + destruct (insertBy cmp x l) as [l''|] eqn:Hi; [|discriminate].
      simpl in H. inversion H; subst.
      constructor; [exact (IH Pl l'' eq_refl)|].
      rewrite (insertBy_perm _ _ _ Hi). constructor; [|exact Hy].
      exact (cmp_total x y c Hx Py Hc Hgt).
Qed.

Lemma sortBy_sorted l s :
  Forall P l -> sortBy cmp l = Some s -> StronglySorted (le_by cmp) s.
Proof.
  intros Hl. revert s. induction Hl as [|x l Hx Hl IH]; intros s H; simpl in H.
  - inversion H. constructor.
  - destruct (sortBy cmp l) as [s'|] eqn:Hs; [|discriminate]. simpl in H.
    apply (insertBy_sorted x s' s Hx); [|exact (IH s' eq_refl)|exact H].
    rewrite (sortBy_perm _ _ Hs). exact Hl.
Qed.

End SortFacts.

(** *** Three-way comparisons *)

Section ComparisonFacts.
Import Props.

Lemma good_refl {A} (f : A -> A -> comparison) `{!GoodCmp f} a : f a a = Eq.
Proof. apply cmp_eq. reflexivity. Qed.


(** [f a b <> Gt], the order "not after", is transitive. *)
Lemma good_le_trans {A} (f : A -> A -> comparison) `{!GoodCmp f} a b c :
  f a b <> Gt -> f b c <> Gt -> f a c <> Gt.
Proof.
  intros H1 H2.
  destruct (f a b) eqn:E1; [|clear H1|congruence].
  - apply cmp_eq in E1. subst b. exact H2.
  - destruct (f b c) eqn:E2; [|clear H2|congruence].
    + apply cmp_eq in E2. subst c. rewrite E1. discriminate.
    + rewrite (cmp_lt_trans a b c E1 E2). discriminate.
Qed.

#[export] Instance N_compare_good : GoodCmp N.compare.
Proof.
  split.
  - intros a b. apply N.compare_eq_iff.
  - intros a b. apply N.compare_antisym.
  - intros a b c. rewrite !N.compare_lt_iff. lia.
Qed.

Lemma string_compare_refl (s : string) : String.compare s s = Eq.
Proof.
  induction s as [|c s IH]; [reflexivity|]. simpl.
  unfold Ascii.compare. rewrite N.compare_refl. exact IH.
Qed.

#[export] Instance string_compare_good : GoodCmp String.compare.
Proof.
  split.
  - intros a b. split; [apply String.compare_eq_iff|].
    intros ->. apply string_compare_refl.
  - intros a b. apply String.compare_antisym.
  - intros a b c Hab Hbc.
    assert (L1 : String.le a b) by (unfold String.le, String.leb; rewrite Hab; exact I).
    assert (L2 : String.le b c) by (unfold String.le, String.leb; rewrite Hbc; exact I).
    pose proof (transitivity L1 L2) as L3. unfold String.le, String.leb in L3.
    destruct (String.compare a c) eqn:E; [|reflexivity|contradiction].
    apply String.compare_eq_iff in E. subst c.
    rewrite String.compare_antisym, Hab in Hbc. discriminate.
Qed.

#[export] Instance pair_cmp_good {A B} (f : A -> A -> comparison)
  (g : B -> B -> comparison) `{!GoodCmp f} `{!GoodCmp g} :
  GoodCmp (pair_cmp f g).
Proof.
  split.
  - intros [a1 a2] [b1 b2]. unfold pair_cmp. simpl. split.
    + destruct (f a1 b1) eqn:E; try discriminate.
      intros H. apply cmp_eq in E, H. congruence.
    + intros H. inversion H; subst. rewrite (good_refl f), (good_refl g). reflexivity.
  - intros [a1 a2] [b1 b2]. unfold pair_cmp. simpl.
    rewrite (cmp_sym (f := f) a1 b1).
    destruct (f a1 b1); simpl; [apply cmp_sym | reflexivity | reflexivity].
  - intros [a1 a2] [b1 b2] [c1 c2]. unfold pair_cmp. simpl.
    destruct (f a1 b1) eqn:E1; try discriminate.
    + apply cmp_eq in E1. subst b1.
      destruct (f a1 c1); try discriminate; [apply cmp_lt_trans | reflexivity].
    + intros _. destruct (f b1 c1) eqn:E2; try discriminate.
      * apply cmp_eq in E2. subst c1. rewrite E1. reflexivity.
      * rewrite (cmp_lt_trans a1 b1 c1 E1 E2). reflexivity.
Qed.

#[export] Instance list_cmp_good {A} (f : A -> A -> comparison) `{!GoodCmp f} :
  GoodCmp (list_cmp f).
Proof.
  split.
  - induction a as [|x a IH]; intros [|y b]; simpl; try (split; congruence).
    destruct (f x y) eqn:E; try (split; [discriminate|]).
    + apply cmp_eq in E. subst y. rewrite IH. split; congruence.
    + intros H. inversion H; subst. rewrite (good_refl f) in E. discriminate.
    + intros H. inversion H; subst. rewrite (good_refl f) in E. discriminate.
  - induction a as [|x a IH]; intros [|y b]; simpl; try reflexivity.
    rewrite (cmp_sym (f := f) x y).
    destruct (f x y); simpl; [apply IH | reflexivity | reflexivity].
  - induction a as [|x a IH]; intros [|y b] [|z c]; simpl; try congruence.
    destruct (f x y) eqn:E1; try discriminate.
    + apply cmp_eq in E1. subst y.
      destruct (f x z); try discriminate; [apply IH | reflexivity].
    + intros _. destruct (f y z) eqn:E2; try discriminate.
      * apply cmp_eq in E2. subst z. rewrite E1. reflexivity.
      * rewrite (cmp_lt_trans x y z E1 E2). reflexivity.
Qed.

(** A comparison read through an injective view is as good as the one it
    is read from. *)
Lemma good_transfer {A B} (f : A -> A -> comparison) (g : B -> B -> comparison)
      (h : A -> B) `{!GoodCmp g} :
  (forall a b, h a = h b -> a = b) ->
  (forall a b, f a b = g (h a) (h b)) ->
  GoodCmp f.
Proof.
  intros Hinj Hf. split.
  - intros a b. rewrite Hf, cmp_eq. split; [apply Hinj | congruence].
  - intros a b. rewrite !Hf. apply cmp_sym.
  - intros a b c. rewrite !Hf. apply cmp_lt_trans.
Qed.

End ComparisonFacts.

(** *** Maps *)

Section MapFacts.
Import Js.
Context {V : Type}.
Implicit Types (m : Map V) (k : string) (v : V).

Lemma get_set_eq k v m : get k (set k v m) = Some v.
Proof.
  induction m as [|[k' v'] m IH]; simpl.
  - rewrite String.eqb_refl. reflexivity.
  - destruct (String.eqb_spec k k') as [->|Hk]; simpl.
    + rewrite String.eqb_refl. reflexivity.
    + destruct (String.eqb_spec k k'); [congruence | exact IH].
Qed.

Lemma get_set_ne k k' v m : k <> k' -> get k (set k' v m) = get k m.
Proof.
  intros Hk. induction m as [|[k0 v0] m IH]; simpl.
  - destruct (String.eqb_spec k k'); [congruence | reflexivity].
  - destruct (String.eqb_spec k' k0) as [->|Hk0]; simpl.
    + destruct (String.eqb_spec k k0); [congruence | reflexivity].
    + destruct (String.eqb_spec k k0); [reflexivity | exact IH].
Qed.

Lemma get_keys k m : k ∈ keys m <-> is_Some (get k m).
Proof.
  unfold keys. induction m as [|[k' v'] m IH]; simpl.
  - split; [intros H; inversion H | intros [x H]; discriminate].
  - rewrite elem_of_cons, IH.
    destruct (String.eqb_spec k k') as [->|Hk]; [split; eauto|].
    split; [intros [?|?]; [congruence | assumption] | auto].
Qed.

Lemma keys_set k v m :
  keys (set k v m) = if has k m then keys m else keys m ++ [k].
Proof.
  unfold has, keys. induction m as [|[k' v'] m IH]; simpl; [reflexivity|].
  destruct (String.eqb_spec k k') as [->|Hk]; simpl; [reflexivity|].
  rewrite IH. destruct (get k m); reflexivity.
Qed.

Lemma keys_set_NoDup k v m : NoDup (keys m) -> NoDup (keys (set k v m)).
Proof.
  intros H. rewrite keys_set. unfold has.
  destruct (get k m) eqn:E; [exact H|].
  apply NoDup_app. split; [exact H|]. split; [|apply NoDup_singleton].
  intros x Hx Hx'. apply list_elem_of_singleton in Hx'. subst x.
  apply get_keys in Hx. rewrite E in Hx. destruct Hx; discriminate.
Qed.

Lemma get_elem_of k v m : get k m = Some v -> (k, v) ∈ m.
Proof.
  induction m as [|[k' v'] m IH]; simpl; [discriminate|].
  destruct (String.eqb_spec k k') as [->|Hk].
  - intros H. inversion H. left.
  - intros H. right. exact (IH H).
Qed.

Lemma elem_of_get k v m : NoDup (keys m) -> (k, v) ∈ m -> get k m = Some v.
Proof.
  unfold keys. induction m as [|[k' v'] m IH]; simpl; intros Hn H.
  - inversion H.
  - apply NoDup_cons in Hn as [Hk' Hn]. apply elem_of_cons in H as [H|H].
    + inversion H; subst. rewrite String.eqb_refl. reflexivity.
    + destruct (String.eqb_spec k k') as [->|Hk]; [|exact (IH Hn H)].
      exfalso. apply Hk'. apply list_elem_of_fmap. exists (k', v). auto.
Qed.

End MapFacts.

(** ** The semver package *)

(** *** The semver grammar *)

Section SemverFacts.
Import Chars Str Props Semver.

Lemma numeric_identifier_sound s d r :
  numeric_identifier s = Some (d, r) ->
  s = d +:+ r /\ is_digits d = true /\ head_fails is_digit r = true.
Proof.
  unfold numeric_identifier. destruct (span is_digit s) as [x y] eqn:E.
  intros H.
  assert (x = d /\ y = r /\ x <> "") as (-> & -> & Hne).
  { destruct x as [|c x]; [discriminate|].
    destruct c as [[] [] [] [] [] [] [] []]; destruct x;
      try discriminate; inversion H; subst; repeat split; discriminate. }
  split; [exact (span_app _ _ _ _ E)|]. split.
  - unfold is_digits. rewrite (span_forallb _ _ _ _ E).
    destruct d; [congruence | reflexivity].
  - exact (span_rest _ _ _ _ E).
Qed.

Lemma expect_dot_sound s r : expect_dot s = Some r -> s = "." +:+ r.
Proof.
  destruct s as [|c s]; [discriminate|]. simpl.
  destruct c as [[] [] [] [] [] [] [] []]; try discriminate.
  intros H. inversion H. reflexivity.
Qed.

Lemma includes_rev_onto c s acc :
  includes_char c (rev_onto s acc) = includes_char c s || includes_char c acc.
Proof.
  revert acc. induction s as [|d s IH]; intros acc; simpl; [reflexivity|].
  rewrite IH. simpl. destruct (Ascii.eqb c d), (includes_char c s); reflexivity.
Qed.

Lemma includes_trimStart c s :
  includes_char c (trimStart s) = true -> includes_char c s = true.
Proof.
  induction s as [|d s IH]; simpl; [trivial|].
  destruct (is_space d); [|trivial].
  intros H. rewrite (IH H). apply orb_true_r.
Qed.

Lemma includes_trim c s :
  includes_char c (trim s) = true -> includes_char c s = true.
Proof.
  unfold trim, trimEnd, rev. rewrite includes_rev_onto, orb_false_r.
  intros H. apply includes_trimStart in H.
  rewrite includes_rev_onto, orb_false_r in H.
  exact (includes_trimStart _ _ H).
Qed.

Lemma includes_strip_v c s :
  includes_char c (strip_v s) = true -> includes_char c s = true.
Proof.
  destruct s as [|d s]; [trivial|].
  assert (strip_v (String d s) = String d s \/ strip_v (String d s) = s) as [->| ->].
  { destruct d as [[] [] [] [] [] [] [] []]; auto. }
  - trivial.
  - simpl. intros ->. apply orb_true_r.
Qed.

(** The pieces [parse] cuts a version into. *)
Lemma parse_inv version v :
  parse version = Some v ->
  exists ma mi pa r3 ids,
    strip_v (trim version) = ma +:+ "." +:+ mi +:+ "." +:+ pa +:+ r3
    /\ is_digits ma = true /\ is_digits mi = true /\ is_digits pa = true
    /\ parse_tail r3 = Some ids
    /\ v = mkSemVer (digits_to_N ma) (digits_to_N mi) (digits_to_N pa)
                    (map to_ident ids).
Proof.
  unfold parse. destruct (_ <? _)%nat; [discriminate|].
  destruct (numeric_identifier _) as [[ma r1]|] eqn:E1; [|discriminate]. simpl.
  destruct (expect_dot r1) as [r1'|] eqn:D1; [|discriminate]. simpl.
  destruct (numeric_identifier r1') as [[mi r2]|] eqn:E2; [|discriminate]. simpl.
  destruct (expect_dot r2) as [r2'|] eqn:D2; [|discriminate]. simpl.
  destruct (numeric_identifier r2') as [[pa r3]|] eqn:E3; [|discriminate]. simpl.
  destruct (parse_tail r3) as [ids|] eqn:T; [|discriminate]. simpl.
  destruct (_ && _); [|discriminate]. intros H. inversion H; subst v.
  apply numeric_identifier_sound in E1 as (-> & Ha & _).
  apply numeric_identifier_sound in E2 as (-> & Hb & _).
  apply numeric_identifier_sound in E3 as (-> & Hc & _).
  apply expect_dot_sound in D1 as ->. apply expect_dot_sound in D2 as ->.
  exists ma, mi, pa, r3, ids. rewrite ?sapp_assoc. auto 10.
Qed.

Lemma parse_tail_no_hyphen r ids :
  parse_tail r = Some ids -> includes_char "-" r = false -> ids = [].
Proof.
  destruct r as [|c r]; simpl.
  - intros H _. inversion H. reflexivity.
  - destruct (Ascii.eqb_spec "-" c) as [<-|Hc]; [discriminate|].
    destruct c as [[] [] [] [] [] [] [] []]; try discriminate; try congruence.
    destruct (List.forallb _ _); [|discriminate]. intros H _. inversion H. reflexivity.
Qed.

(** A version without a hyphen has no pre-release. *)
Lemma parse_no_hyphen version v :
  parse version = Some v -> includes_char "-" version = false ->
  prerelease v = [].
Proof.
  intros H Hh.
  destruct (parse_inv _ _ H) as (ma & mi & pa & r3 & ids & Hs & _ & _ & _ & T & ->).
  simpl. rewrite (parse_tail_no_hyphen _ _ T); [reflexivity|].
  destruct (includes_char "-" r3) eqn:E; [|reflexivity].
  assert (X : includes_char "-" (strip_v (trim version)) = true).
  { rewrite Hs, !includes_char_app, E, !orb_true_r. reflexivity. }
  apply includes_strip_v, includes_trim in X. congruence.
Qed.

End SemverFacts.

(** *** Precedence of versions *)

Section SemverOrder.
Import Props Semver.

#[export] Instance precedenceIdentifiers_good : GoodCmp precedenceIdentifiers.
Proof.
  split.
  - intros [x|s] [y|t]; simpl; try (split; congruence).
    + rewrite N.compare_eq_iff. split; congruence.
    + rewrite (cmp_eq (f := String.compare)). split; congruence.
  - intros [x|s] [y|t]; simpl; try reflexivity.
    + apply N.compare_antisym.
    + apply String.compare_antisym.
  - intros [x|s] [y|t] [z|u]; simpl; try congruence.
    + apply (cmp_lt_trans (f := N.compare)).
    + apply (cmp_lt_trans (f := String.compare)).
Qed.

#[export] Instance pre_cmp_good : GoodCmp pre_cmp.
Proof.
  split.
  - intros [|x a] [|y b]; unfold pre_cmp; try (split; congruence).
    apply (cmp_eq (f := list_cmp precedenceIdentifiers)).
  - intros [|x a] [|y b]; unfold pre_cmp; try reflexivity.
    apply (cmp_sym (f := list_cmp precedenceIdentifiers)).
  - intros [|x a] [|y b] [|z c]; unfold pre_cmp; try congruence.
    apply (cmp_lt_trans (f := list_cmp precedenceIdentifiers)).
Qed.

(** Precedence is a strict total order of the parsed versions. *)
#[export] Instance precedence_good : GoodCmp precedence.
Proof.
  apply (good_transfer _ _ semver_view (GoodCmp0 := _)).
  - intros [M m p pre] [M' m' p' pre']. unfold semver_view. simpl.
    intros H. inversion H. reflexivity.
  - reflexivity.
Qed.

(** The comparison of the package: swapping the arguments swaps the
    answer. *)
Lemma ident_eqb_spec a b : ident_eqb a b = true <-> a = b.
Proof.
  destruct a as [x|s], b as [y|t]; simpl; try (split; congruence).
  - rewrite N.eqb_eq. split; congruence.
  - rewrite String.eqb_eq. split; congruence.
Qed.

Lemma ident_eqb_sym a b : ident_eqb b a = ident_eqb a b.
Proof.
  destruct (ident_eqb a b) eqn:E.
  - apply ident_eqb_spec in E. subst b. apply ident_eqb_spec. reflexivity.
  - destruct (ident_eqb b a) eqn:E'; [|reflexivity].
    apply ident_eqb_spec in E'. subst b.
    assert (H : ident_eqb a a = true) by (apply ident_eqb_spec; reflexivity).
    congruence.
Qed.

Lemma compareIdentifiers_sym a b :
  compareIdentifiers b a = CompOpp (compareIdentifiers a b).
Proof.
  destruct a as [x|s], b as [y|t]; simpl; try reflexivity.
  - apply N.compare_antisym.
  - apply String.compare_antisym.
Qed.

Lemma comparePreLoop_sym a b :
  comparePreLoop b a = CompOpp (comparePreLoop a b).
Proof.
  revert b. induction a as [|x a IH]; intros [|y b]; simpl; try reflexivity.
  rewrite (ident_eqb_sym x y). destruct (ident_eqb x y); [apply IH|].
  apply compareIdentifiers_sym.
Qed.

Lemma comparePreLoop_refl a : comparePreLoop a a = Eq.
Proof.
  induction a as [|x a IH]; [reflexivity|]. simpl.
  rewrite (proj2 (ident_eqb_spec x x) eq_refl). exact IH.
Qed.

Lemma compareSemVer_sym v w : compareSemVer w v = CompOpp (compareSemVer v w).
Proof.
  unfold compareSemVer, compareMain, comparePre.
  rewrite (N.compare_antisym (major v) (major w)).
  destruct (major v ?= major w)%N; try reflexivity. cbn [CompOpp].
  rewrite (N.compare_antisym (minor v) (minor w)).
  destruct (minor v ?= minor w)%N; try reflexivity. cbn [CompOpp].
  rewrite (N.compare_antisym (patch v) (patch w)).
  destruct (patch v ?= patch w)%N; try reflexivity. cbn [CompOpp].
  destruct (prerelease v) as [|x a], (prerelease w) as [|y b];
    try reflexivity.
  apply comparePreLoop_sym.
Qed.

Lemma compareSemVer_refl v : compareSemVer v v = Eq.
Proof.
  unfold compareSemVer, compareMain, comparePre.
  rewrite !N.compare_refl.
  destruct (prerelease v) as [|x a] eqn:E; [reflexivity|].
  apply comparePreLoop_refl.
Qed.

Lemma compareSemVer_gt_lt v w : compareSemVer v w = Gt <-> compareSemVer w v = Lt.
Proof.
  rewrite (compareSemVer_sym v w).
  destruct (compareSemVer v w); simpl; split; congruence.
Qed.

(** Below 2^53 the comparison of the package is the precedence. *)
Lemma compareIdentifiers_small a b :
  small_ident a = true -> small_ident b = true ->
  compareIdentifiers a b = precedenceIdentifiers a b.
Proof.
  destruct a as [x|s], b as [y|t]; simpl; try reflexivity.
  intros Hx Hy. apply N.ltb_lt in Hx, Hy.
  rewrite (round53_exact x Hx), (round53_exact y Hy).
  reflexivity.
Qed.

Lemma comparePreLoop_small a b :
  List.forallb small_ident a = true -> List.forallb small_ident b = true ->
  comparePreLoop a b = list_cmp precedenceIdentifiers a b.
Proof.
  revert b. induction a as [|x a IH]; intros [|y b]; simpl; try reflexivity.
  intros Ha Hb. apply andb_prop in Ha as [Hx Ha], Hb as [Hy Hb].
  rewrite <- (compareIdentifiers_small x y Hx Hy).
  destruct (ident_eqb x y) eqn:E.
  - apply ident_eqb_spec in E. subst y.
    rewrite (compareIdentifiers_small x x Hx Hx),
      (good_refl precedenceIdentifiers).
    exact (IH b Ha Hb).
  - rewrite (compareIdentifiers_small x y Hx Hy).
    destruct (precedenceIdentifiers x y) eqn:C; try reflexivity.
    apply cmp_eq in C. subst y.
    rewrite (proj2 (ident_eqb_spec x x) eq_refl) in E. discriminate.
Qed.

Lemma compareSemVer_small v w :
  List.forallb small_ident (prerelease v) = true ->
  List.forallb small_ident (prerelease w) = true ->
  compareSemVer v w = precedence v w.
Proof.
  intros Hv Hw.
  unfold compareSemVer, compareMain, comparePre, precedence, pair_cmp,
    semver_view, pre_cmp.
  cbn [fst snd].
  destruct (major v ?= major w)%N; try reflexivity.
  destruct (minor v ?= minor w)%N; try reflexivity.
  destruct (patch v ?= patch w)%N; try reflexivity.
  destruct (prerelease v) as [|x a], (prerelease w) as [|y b];
    try reflexivity.
  apply comparePreLoop_small; assumption.
Qed.

Lemma sign_le c : (sign c <= 0)%Z <-> c <> Gt.
Proof. destruct c; simpl; split; intros; try lia; congruence. Qed.

Lemma sign_pos c : (0 < sign c)%Z <-> c = Gt.
Proof. destruct c; simpl; split; intros; try lia; congruence. Qed.

Lemma compare_le_spec a b :
  compare_le a b
  <-> exists v w, parse a = Some v /\ parse b = Some w /\ compareSemVer v w <> Gt.
Proof.
  unfold compare_le, le_by, Semver.compare. split.
  - intros (c & Hc & Hle).
    destruct (parse a) as [v|]; [|discriminate].
    destruct (parse b) as [w|]; [|discriminate].
    simpl in Hc. inversion Hc; subst c. apply (proj1 (sign_le _)) in Hle.
    exists v, w. auto.
  - intros (v & w & -> & -> & H). simpl. eexists. split; [reflexivity|].
    apply (proj2 (sign_le _)). exact H.
Qed.

Lemma compare_defined a b :
  valid_version a -> valid_version b -> is_Some (Semver.compare a b).
Proof.
  intros [v Hv] [w Hw]. unfold Semver.compare. rewrite Hv, Hw. simpl. eauto.
Qed.

Lemma compare_total a b c :
  valid_version a -> valid_version b ->
  Semver.compare a b = Some c -> (0 < c)%Z -> compare_le b a.
Proof.
  intros [v Hv] [w Hw] Hc Hpos. apply compare_le_spec. exists w, v.
  split; [exact Hw|]. split; [exact Hv|].
  unfold Semver.compare in Hc. rewrite Hv, Hw in Hc. simpl in Hc.
  inversion Hc; subst c. apply (proj1 (sign_pos _)) in Hpos.
  apply compareSemVer_gt_lt in Hpos. rewrite Hpos. discriminate.
Qed.

(** On versions with small identifiers the order of the package is the
    precedence. *)
Lemma compare_le_precedes a b :
  small_identifiers a = true -> small_identifiers b = true ->
  compare_le a b <-> precedes_eq a b.
Proof.
  intros Ha Hb. rewrite compare_le_spec. unfold precedes_eq.
  unfold small_identifiers in Ha, Hb.
  split; intros (v & w & Hv & Hw & H); exists v, w;
    rewrite Hv in Ha; rewrite Hw in Hb;
    (split; [exact Hv|]; split; [exact Hw|]).
  - rewrite <- (compareSemVer_small v w Ha Hb). exact H.
  - rewrite (compareSemVer_small v w Ha Hb). exact H.
Qed.

Lemma precedes_eq_trans a b c :
  precedes_eq a b -> precedes_eq b c -> precedes_eq a c.
Proof.
  intros (v & w & Hv & Hw & H1) (w' & u & Hw' & Hu & H2).
  rewrite Hw in Hw'. inversion Hw'; subst w'.
  exists v, u. split; [exact Hv|]. split; [exact Hu|].
  exact (good_le_trans precedence v w u H1 H2).
Qed.


End SemverOrder.

(** ** parser.ts *)

(** *** The breaking flag *)

Section BreakingFlag.
Import Chars Str Parser Props.

Lemma parse_breaking rc c :
  parseConventionalCommit rc = Some c ->
  breaking c
  = hasBang_test (raw_subject rc) || BREAKING_CHANGE_test (raw_body rc).
Proof.
  unfold parseConventionalCommit.
  destruct (match_conventional (raw_subject rc)) as [[[ty sc] d]|];
    [|discriminate].
  intros H. inversion H. reflexivity.
Qed.

Lemma starts_with_spec lit s :
  starts_with lit s = true <-> exists r, s = lit +:+ r.
Proof.
  unfold starts_with. revert s. induction lit as [|a lit IH]; intros s.
  - simpl. split; [intros _; exists s; reflexivity | reflexivity].
  - destruct s as [|b s]; simpl.
    + split; [discriminate | intros [r Hr]; discriminate].
    + destruct (Ascii.eqb_spec a b) as [->|Hab].
      * rewrite IH. split; intros [r Hr]; exists r.
        -- rewrite sapp_cons, Hr. reflexivity.
        -- rewrite sapp_cons in Hr. inversion Hr. reflexivity.
      * split; [discriminate|]. intros [r Hr]. rewrite sapp_cons in Hr.
        inversion Hr. congruence.
Qed.

Lemma bang_here_spec s :
  bang_here s = true ->
  starts_with "!:" s = true
  \/ exists r, s = String ")" r /\ starts_with "!:" r = true.
Proof.
  unfold bang_here. destruct s as [|c r]; [auto|].
  destruct (Ascii.eqb_spec c ")") as [->|Hc].
  - intros H. apply orb_prop in H as [H|H]; eauto.
  - destruct c as [[] [] [] [] [] [] [] []]; auto; congruence.
Qed.

(** The test for the marker succeeds exactly when [!:] occurs somewhere
    in the subject. *)
Lemma hasBang_test_spec s : hasBang_test s = true <-> occurs "!:" s.
Proof.
  split.
  - induction s as [|c s IH]; [discriminate|].
    change (hasBang_test (String c s))
      with (bang_here (String c s) || hasBang_test s).
    intros H. apply orb_prop in H as [H|H].
    + apply bang_here_spec in H as [H|(r & Hr & H)];
        apply starts_with_spec in H as [t Ht].
      * exists "", t. exact Ht.
      * exists ")", t. rewrite Hr, Ht. reflexivity.
    + destruct (IH H) as (pre & post & ->). exists (String c pre), post.
      reflexivity.
  - intros (pre & post & ->). induction pre as [|c pre IH].
    + rewrite sapp_nil_l. destruct post; reflexivity.
    + rewrite sapp_cons.
      change (hasBang_test (String c (pre +:+ "!:" +:+ post)))
        with (bang_here (String c (pre +:+ "!:" +:+ post))
              || hasBang_test (pre +:+ "!:" +:+ post)).
      rewrite IH. apply orb_true_r.
Qed.

(** C2 (behaviour of the code on a [!:] inside the description).  The
    subject [fix: escape !: sequences] matches the grammar with no [!]
    before the colon of its header, and the body is empty, yet the
    commit is flagged as breaking. *)
Theorem C2_bang_in_description :
  let commit := mkRawCommit "abc123" "fix: escape !: sequences" "" in
  match_conventional (raw_subject commit)
  = Some ("fix", None, "escape !: sequences")
  /\ header_has_bang (raw_subject commit) = false
  /\ BREAKING_CHANGE_test (raw_body commit) = false
  /\ hasBang_test (raw_subject commit) = true
  /\ parseConventionalCommit commit
     = Some (mkConventionalCommit "abc123" "fix" None "escape !: sequences"
                                  "fix: escape !: sequences" true).
Proof. vm_compute. repeat split; reflexivity. Qed.

(** The marker in its place is seen as well. *)
Example header_bang_detected :
  header_has_bang "feat(api)!: breaking change" = true
  /\ (breaking <$> parseConventionalCommit
                     (mkRawCommit "abc123" "feat(api)!: breaking change" ""))
     = Some true.
Proof. vm_compute. split; reflexivity. Qed.

End BreakingFlag.

(** *** The version patterns *)

Section VersionPatternFacts.
Import Chars Str Parser Props.

Lemma is_digits_inv d :
  is_digits d = true -> d <> "" /\ forallb is_digit d = true.
Proof.
  unfold is_digits. intros H. apply andb_prop in H as [H1 H2].
  split; [|exact H2]. destruct d; [discriminate | discriminate].
Qed.

Lemma is_digits_cons d :
  is_digits d = true ->
  exists c d', d = String c d' /\ is_digit c = true /\ forallb is_digit d' = true.
Proof.
  intros H. apply is_digits_inv in H as [Hne Hall].
  destruct d as [|c d']; [congruence|].
  simpl in Hall. apply andb_prop in Hall as [Hc Hd]. eauto.
Qed.

Lemma is_digits_all d : is_digits d = true -> forallb is_digit d = true.
Proof. intros H. apply andb_prop in H as [_ H]. exact H. Qed.

Lemma digits_dot_sound s d r :
  digits_dot s = Some (d, r) -> s = d +:+ "." +:+ r /\ is_digits d = true.
Proof.
  unfold digits_dot. destruct (span is_digit s) as [x y] eqn:E.
  destruct x as [|c x]; [discriminate|].
  destruct y as [|e y]; [discriminate|].
  destruct (Ascii.eqb_spec e "."); [subst e|].
  - intros H. cbv iota beta in H. inversion H; subst. split.
    + exact (span_app _ _ _ _ E).
    + unfold is_digits. simpl negb. exact (span_forallb _ _ _ _ E).
  - intros H. exfalso. revert H. clear -n.
    destruct e as [[] [] [] [] [] [] [] []]; try discriminate.
    congruence.
Qed.

Lemma digits_dot_complete d r :
  is_digits d = true -> digits_dot (d +:+ "." +:+ r) = Some (d, r).
Proof.
  intros H. destruct (is_digits_cons _ H) as (c & d' & -> & Hc & Hd).
  unfold digits_dot. rewrite span_exact.
  - reflexivity.
  - simpl. rewrite Hc, Hd. reflexivity.
  - reflexivity.
Qed.

Lemma match_core_sound s t r :
  match_core s = Some (t, r) ->
  s = t +:+ r
  /\ exists a b c, t = a +:+ "." +:+ b +:+ "." +:+ c
     /\ is_digits a = true /\ is_digits b = true /\ is_digits c = true.
Proof.
  unfold match_core.
  destruct (digits_dot s) as [[a r1]|] eqn:E1; [|discriminate].
  simpl. destruct (digits_dot r1) as [[b r2]|] eqn:E2; [|discriminate].
  simpl. destruct (span is_digit r2) as [c r3] eqn:E3.
  destruct c as [|c0 c]; [discriminate|].
  intros H. inversion H; subst.
  apply digits_dot_sound in E1 as [-> Ha].
  apply digits_dot_sound in E2 as [-> Hb].
  split.
  - rewrite (span_app _ _ _ _ E3), !sapp_assoc. reflexivity.
  - exists a, b, (String c0 c). repeat split; try assumption.
    unfold is_digits. simpl negb. exact (span_forallb _ _ _ _ E3).
Qed.

Lemma match_core_complete a b c post :
  is_digits a = true -> is_digits b = true -> is_digits c = true ->
  exists t r, match_core (a +:+ "." +:+ b +:+ "." +:+ c +:+ post) = Some (t, r).
Proof.
  intros Ha Hb Hc. unfold match_core.
  rewrite (digits_dot_complete _ _ Ha). simpl.
  rewrite (digits_dot_complete _ _ Hb). simpl.
  destruct (is_digits_cons _ Hc) as (c0 & c' & -> & Hc0 & Hc').
  rewrite span_prefix by (simpl; rewrite Hc0, Hc'; reflexivity).
  rewrite sapp_cons. eauto.
Qed.

Lemma core_chars t :
  (exists a b c, t = a +:+ "." +:+ b +:+ "." +:+ c
     /\ is_digits a = true /\ is_digits b = true /\ is_digits c = true) ->
  forallb (fun x => is_digit x || Ascii.eqb x ".") t = true.
Proof.
  intros (a & b & c & -> & Ha & Hb & Hc).
  apply is_digits_inv in Ha as [_ Ha], Hb as [_ Hb], Hc as [_ Hc].
  assert (W : forall d, forallb is_digit d = true ->
              forallb (fun x => is_digit x || Ascii.eqb x ".") d = true).
  { induction d as [|x d IH]; simpl; [reflexivity|].
    intros H. apply andb_prop in H as [-> H]. simpl. exact (IH H). }
  rewrite !forallb_app, (W _ Ha), (W _ Hb), (W _ Hc). reflexivity.
Qed.

Lemma skip_v_cases s : skip_v s = s \/ s = "v" +:+ skip_v s.
Proof.
  destruct s as [|c s]; [left; reflexivity|].
  destruct (Ascii.eqb_spec c "v") as [->|Hc]; [right; reflexivity|].
  left. destruct c as [[] [] [] [] [] [] [] []]; try reflexivity. congruence.
Qed.

Lemma skip_v_digit c s : is_digit c = true -> skip_v (String c s) = String c s.
Proof.
  intros H. destruct c as [[] [] [] [] [] [] [] []]; try reflexivity; discriminate.
Qed.

End VersionPatternFacts.

(** *** extractVersion on a display tag *)

Section ExtractFacts.
Import Chars Str Parser Props.

Lemma version_here_inv s c :
  version_here s = Some c ->
  exists core r, match_core (skip_v s) = Some (core, r) /\ c = core +:+ match_pre r.
Proof.
  unfold version_here.
  destruct (match_core (skip_v s)) as [[core r]|]; [|discriminate].
  simpl. intros H. inversion H. eauto.
Qed.

(** The optional pre-release group: nothing, or a hyphen and the longest
    run of [[\w.]] after it. *)
Lemma match_pre_inv r :
  match_pre r = ""
  \/ exists p rest,
       r = "-" +:+ p +:+ rest /\ match_pre r = "-" +:+ p
       /\ p <> "" /\ forallb is_pre_char p = true.
Proof.
  destruct r as [|ch r]; [left; reflexivity|].
  destruct (Ascii.eqb_spec ch "-") as [->|Hc].
  - cbn [match_pre]. destruct (span is_pre_char r) as [p rest] eqn:E.
    cbn [fst]. destruct p as [|p0 p]; [left; reflexivity|]. right.
    exists (String p0 p), rest. split.
    + rewrite (span_app _ _ _ _ E). reflexivity.
    + split; [reflexivity|]. split; [discriminate|].
      exact (span_forallb _ _ _ _ E).
  - left. destruct ch as [[] [] [] [] [] [] [] []]; try reflexivity. congruence.
Qed.

Lemma pre_chars_no_hyphen p :
  forallb is_pre_char p = true -> includes_char "-" p = false.
Proof. intros H. apply (forallb_excludes _ _ _ H). reflexivity. Qed.

Lemma match_pre_own p :
  p <> "" -> forallb is_pre_char p = true -> match_pre ("-" +:+ p) = "-" +:+ p.
Proof.
  intros Hne Hp. change ("-" +:+ p) with (String "-" p). cbn [match_pre].
  rewrite <- (sapp_nil_r p) at 1. rewrite (span_exact _ p "" Hp eq_refl).
  cbn [fst]. destruct p; [congruence | reflexivity].
Qed.

Lemma core_dots_digits t :
  forallb (fun x => is_digit x || Ascii.eqb x ".") t = true ->
  forallb is_dot t = true /\ includes_char "-" t = false.
Proof.
  intros H. split.
  - induction t as [|c t IH]; [reflexivity|]. simpl in *.
    apply andb_prop in H as [Hc Ht]. rewrite (IH Ht), andb_true_r.
    destruct c as [[] [] [] [] [] [] [] []]; try reflexivity; discriminate.
  - apply (forallb_excludes _ _ _ H). reflexivity.
Qed.

(** The core pattern reads back a text it has produced, when what follows
    does not start with a digit. *)
Lemma match_core_own core r :
  (exists a b c, core = a +:+ "." +:+ b +:+ "." +:+ c
     /\ is_digits a = true /\ is_digits b = true /\ is_digits c = true) ->
  head_fails is_digit r = true ->
  match_core (core +:+ r) = Some (core, r).
Proof.
  intros (a & b & c & -> & Ha & Hb & Hc) Hr. unfold match_core.
  rewrite !sapp_assoc.
  rewrite (digits_dot_complete _ _ Ha). simpl.
  rewrite (digits_dot_complete _ _ Hb). simpl.
  rewrite (span_exact _ _ _ (is_digits_all _ Hc) Hr).
  destruct (is_digits_cons _ Hc) as (c0 & c' & -> & _). reflexivity.
Qed.

Lemma after_prefix_no_hyphen s :
  includes_char "-" s = false -> after_prefix s = None.
Proof.
  induction s as [|ch s IH]; [reflexivity|].
  cbn [after_prefix includes_char]. intros H.
  apply orb_false_elim in H as [Hc Hs]. rewrite (IH Hs).
  rewrite Ascii.eqb_sym, Hc. destruct (is_dot ch); reflexivity.
Qed.

(** With a single hyphen in reach, the prefix group can only end at
    it. *)
Lemma after_prefix_single x p :
  forallb is_dot x = true ->
  includes_char "-" x = false -> includes_char "-" p = false ->
  after_prefix (x +:+ "-" +:+ p) = version_here p.
Proof.
  intros Hd Hx Hp. induction x as [|ch x IH].
  - change ("" +:+ "-" +:+ p) with (String "-" p). cbn [after_prefix].
    rewrite (after_prefix_no_hyphen _ Hp).
    change (is_dot "-") with true. cbn iota. reflexivity.
  - rewrite sapp_cons. cbn [after_prefix].
    cbn [includes_char] in Hx. cbn [forallb] in Hd.
    apply orb_false_elim in Hx as [Hc Hx]. apply andb_prop in Hd as [Hch Hd].
    rewrite (IH Hd Hx), Hch, Ascii.eqb_sym, Hc.
    destruct (version_here p); reflexivity.
Qed.

(** Where the prefix group fails, no hyphen in reach is followed by a
    version. *)
Lemma after_prefix_None s :
  after_prefix s = None ->
  forall x y, s = x +:+ "-" +:+ y -> forallb is_dot x = true ->
              version_here y = None.
Proof.
  induction s as [|ch s IH]; intros H x y Hs Hx.
  - destruct x; discriminate Hs.
  - cbn [after_prefix] in H. destruct x as [|xh x].
    + change ("" +:+ "-" +:+ y) with (String "-" y) in Hs.
      inversion Hs; subst. change (is_dot "-") with true in H. cbn iota in H.
      destruct (after_prefix y); [discriminate|]. exact H.
    + rewrite sapp_cons in Hs. inversion Hs; subst.
      simpl in Hx. apply andb_prop in Hx as [Hxh Hx]. rewrite Hxh in H.
      destruct (after_prefix (x +:+ "-" +:+ y)) eqn:E; [discriminate|].
      exact (IH eq_refl x y eq_refl Hx).
Qed.

(** Where the prefix group matches, what follows its hyphen holds the
    version, and no later hyphen in reach does. *)
Lemma after_prefix_Some s c :
  after_prefix s = Some c ->
  exists y, version_here y = Some c /\ after_prefix y = None.
Proof.
  induction s as [|ch s IH]; [discriminate|]. cbn [after_prefix].
  destruct (is_dot ch) eqn:Hd.
  - destruct (after_prefix s) as [v|] eqn:E.
    + intros H. inversion H; subst v. exact (IH eq_refl).
    + destruct (Ascii.eqb ch "-"); [|discriminate]. intros H. eauto.
  - destruct (Ascii.eqb_spec ch "-") as [->|Hc]; [discriminate Hd | discriminate].
Qed.

Lemma skip_v_app s r : s <> "" -> skip_v (s +:+ r) = skip_v s +:+ r.
Proof.
  destruct s as [|c s]; [congruence|]. intros _. rewrite sapp_cons.
  destruct (Ascii.eqb_spec c "v") as [->|Hc]; [reflexivity|].
  assert (E : forall t, skip_v (String c t) = String c t).
  { intros t. destruct c as [[] [] [] [] [] [] [] []]; try reflexivity. congruence. }
  rewrite !E. reflexivity.
Qed.

(** A version that reads at the head of a text still reads when the text
    is extended. *)
Lemma version_here_extend p rest :
  version_here p <> None -> version_here (p +:+ rest) <> None.
Proof.
  unfold version_here. intros H.
  destruct (match_core (skip_v p)) as [[core r]|] eqn:M;
    [|simpl in H; congruence].
  assert (Hp : p <> "") by (intros ->; discriminate M).
  rewrite (skip_v_app _ _ Hp).
  apply match_core_sound in M as (-> & a & b & c & -> & Ha & Hb & Hc).
  rewrite !sapp_assoc.
  destruct (match_core_complete a b c (r +:+ rest) Ha Hb Hc) as (t & r' & ->).
  discriminate.
Qed.

(** The version extracted from a tag is extracted again from its display
    form. *)
Lemma extract_here_display s c :
  extract_here s = Some c -> extract_here ("v" +:+ c) = Some c.
Proof.
  intros H.
  assert (Y : exists y, version_here y = Some c /\ after_prefix y = None).
  { unfold extract_here in H. destruct (after_prefix s) as [v|] eqn:E.
    - inversion H; subst v. exact (after_prefix_Some _ _ E).
    - eauto. }
  destruct Y as (y & Hv & Hn).
  apply version_here_inv in Hv as (core & r & M & ->).
  pose proof (match_core_sound _ _ _ M) as [Hy Hcore].
  pose proof (core_dots_digits _ (core_chars _ Hcore)) as [Hdots Hnoh].
  assert (Own : version_here ("v" +:+ core +:+ match_pre r)
                = Some (core +:+ match_pre r)).
  { unfold version_here. change (skip_v ("v" +:+ core +:+ match_pre r))
      with (core +:+ match_pre r).
    rewrite (match_core_own core (match_pre r) Hcore).
    - simpl. destruct (match_pre_inv r) as [->|(p & rest & _ & -> & Hp & Hpc)];
        [reflexivity|]. rewrite (match_pre_own _ Hp Hpc). reflexivity.
    - destruct (match_pre_inv r) as [->|(p & rest & _ & -> & _)]; reflexivity. }
  unfold extract_here. rewrite Own.
  assert (None_ : after_prefix ("v" +:+ core +:+ match_pre r) = None).
  { destruct (match_pre_inv r) as [E|(p & rest & Hr & E & Hp & Hpc)]; rewrite E.
    - apply after_prefix_no_hyphen. rewrite sapp_nil_r.
      change ("v" +:+ core) with (String "v" core). simpl. exact Hnoh.
    - rewrite <- sapp_assoc.
      rewrite (after_prefix_single ("v" +:+ core) p).
      + destruct (version_here p) eqn:Vp; [|reflexivity]. exfalso.
        apply (version_here_extend p rest); [congruence|].
        destruct (skip_v_cases y) as [Hk|Hk].
        * apply (after_prefix_None y Hn core (p +:+ rest)); [|exact Hdots].
          rewrite <- Hk, Hy, Hr. reflexivity.
        * apply (after_prefix_None y Hn ("v" +:+ core) (p +:+ rest)).
          -- rewrite Hk, Hy, Hr, !sapp_assoc. reflexivity.
          -- change ("v" +:+ core) with (String "v" core). simpl. exact Hdots.
      + change ("v" +:+ core) with (String "v" core). simpl. exact Hdots.
      + change ("v" +:+ core) with (String "v" core). simpl. exact Hnoh.
      + exact (pre_chars_no_hyphen _ Hpc). }
  rewrite None_. reflexivity.
Qed.

Lemma extractVersion_display tag c :
  extractVersion tag = Some c -> extractVersion ("v" +:+ c) = Some c.
Proof.
  intros H.
  assert (E : exists s, extract_here s = Some c).
  { induction tag as [|ch tag IH]; simpl in H.
    - discriminate.
    - destruct (extract_here (String ch tag)) as [v|] eqn:E; [|exact (IH H)].
      inversion H; subst v. eauto. }
  destruct E as [s Hs]. apply extract_here_display in Hs.
  change ("v" +:+ c) with (String "v" c) in *.
  cbn [extractVersion]. rewrite Hs. reflexivity.
Qed.

End ExtractFacts.

(** *** normalizeTags: grouping *)

Section GroupingFacts.
Import Js Parser Props.
Implicit Types (m : Map (list TagInfo)) (c clean tag : string).

Lemma addTag_kept tag clean m :
  extractVersion tag = Some clean -> valid_version clean ->
  addTag m tag
  = set clean (default [] (get clean m) ++ [tagInfoOf clean tag])
        (if has clean m then m else set clean [] m).
Proof.
  intros He [v Hv]. unfold addTag. rewrite He, Hv. unfold has.
  destruct (get clean m) as [g|] eqn:E; simpl.
  - rewrite E. reflexivity.
  - rewrite get_set_eq. reflexivity.
Qed.

Lemma addTag_dropped tag m :
  (forall clean, extractVersion tag = Some clean -> ~ valid_version clean) ->
  addTag m tag = m.
Proof.
  intros H. unfold addTag. destruct (extractVersion tag) as [clean|]; [|reflexivity].
  destruct (Semver.parse clean) as [v|] eqn:E; [|reflexivity].
  exfalso. apply (H clean eq_refl). exists v. exact E.
Qed.

Lemma addTag_get_same tag clean m :
  extractVersion tag = Some clean -> valid_version clean ->
  get clean (addTag m tag)
  = Some (default [] (get clean m) ++ [tagInfoOf clean tag]).
Proof.
  intros He Hv. rewrite (addTag_kept _ _ _ He Hv). apply get_set_eq.
Qed.

Lemma addTag_get_other tag c m :
  extractVersion tag <> Some c -> get c (addTag m tag) = get c m.
Proof.
  intros Hne. destruct (extractVersion tag) as [clean|] eqn:He.
  - destruct (Semver.parse clean) as [v|] eqn:Hv.
    + rewrite (addTag_kept _ _ _ He (ex_intro _ v Hv)).
      assert (c <> clean) by congruence.
      rewrite get_set_ne by assumption.
      destruct (has clean m); [reflexivity|]. apply get_set_ne. assumption.
    + rewrite addTag_dropped; [reflexivity|].
      intros c' Hc' [w Hw]. congruence.
  - rewrite addTag_dropped; [reflexivity|]. intros c' Hc'. congruence.
Qed.

Lemma addTag_get_invalid tag c m :
  ~ valid_version c -> get c (addTag m tag) = get c m.
Proof.
  intros Hc. destruct (decide (extractVersion tag = Some c)) as [He|Hne].
  - rewrite addTag_dropped; [reflexivity|]. intros c' Hc'. congruence.
  - apply addTag_get_other. exact Hne.
Qed.

Lemma addTag_NoDup tag m : NoDup (keys m) -> NoDup (keys (addTag m tag)).
Proof.
  intros H. unfold addTag. destruct (extractVersion tag) as [clean|]; [|exact H].
  destruct (Semver.parse clean); [|exact H].
  apply keys_set_NoDup. destruct (has clean m); [exact H|].
  apply keys_set_NoDup. exact H.
Qed.

Lemma fold_addTag_NoDup tags m :
  NoDup (keys m) -> NoDup (keys (fold_left addTag tags m)).
Proof.
  revert m. induction tags as [|t tags IH]; intros m H; simpl; [exact H|].
  apply IH, addTag_NoDup, H.
Qed.

(** The group of a valid version after the first loop: what the map held
    for it, followed by the tags that map to it, in input order. *)
Lemma fold_addTag_get c tags m :
  valid_version c ->
  get c (fold_left addTag tags m)
  = match candidates c tags with
    | [] => get c m
    | ts => Some (default [] (get c m) ++ map (tagInfoOf c) ts)
    end.
Proof.
  intros Hc. unfold candidates. revert m.
  induction tags as [|t tags IH]; intros m; [reflexivity|].
  cbn [fold_left]. rewrite IH.
  destruct (decide (extractVersion t = Some c)) as [He|Hne].
  - rewrite filter_cons_True by exact He. rewrite (addTag_get_same _ _ _ He Hc).
    destruct (filter _ tags) as [|t' ts].
    + reflexivity.
    + cbn [from_option id]. rewrite <- app_assoc. reflexivity.
  - rewrite filter_cons_False by exact Hne. rewrite (addTag_get_other _ _ _ Hne).
    reflexivity.
Qed.

Lemma fold_addTag_get_invalid c tags m :
  ~ valid_version c -> get c (fold_left addTag tags m) = get c m.
Proof.
  intros Hc. revert m. induction tags as [|t tags IH]; intros m; [reflexivity|].
  cbn [fold_left]. rewrite IH. apply addTag_get_invalid, Hc.
Qed.

(** The entries of [versionMap]: one per valid version that some tag
    maps to, holding the TagInfos of these tags in input order. *)
Lemma versionMap_entries tags c infos :
  (c, infos) ∈ fold_left addTag tags [] ->
  valid_version c /\ candidates c tags <> []
  /\ infos = map (tagInfoOf c) (candidates c tags).
Proof.
  intros H.
  apply (elem_of_get _ _ _ (fold_addTag_NoDup tags [] (NoDup_nil_2))) in H.
  destruct (decide (valid_version c)) as [Hc|Hc].
  - split; [exact Hc|]. rewrite (fold_addTag_get _ _ _ Hc) in H.
    destruct (candidates c tags) as [|t ts]; [discriminate|].
    split; [discriminate|]. simpl in H. inversion H. reflexivity.
  - rewrite (fold_addTag_get_invalid _ _ _ Hc) in H. discriminate.
Qed.

Lemma versionMap_keys tags c :
  c ∈ keys (fold_left addTag tags [])
  <-> valid_version c /\ exists t, t ∈ tags /\ extractVersion t = Some c.
Proof.
  rewrite get_keys. split.
  - intros [infos H]. apply get_elem_of, versionMap_entries in H.
    destruct H as (Hc & Hne & _). split; [exact Hc|].
    destruct (candidates c tags) as [|t ts] eqn:E; [congruence|].
    exists t. assert (Ht : t ∈ candidates c tags) by (rewrite E; left).
    apply list_elem_of_filter in Ht. tauto.
  - intros (Hc & t & Ht & He). rewrite (fold_addTag_get _ _ _ Hc).
    assert (Hin : t ∈ candidates c tags) by (apply list_elem_of_filter; auto).
    destruct (candidates c tags); [inversion Hin | eauto].
Qed.

End GroupingFacts.

(** *** normalizeTags: the tie-break *)

Section TieBreakFacts.
Import Js Parser Props.

Lemma le_by_cmpInfos a b : le_by cmpInfos a b <-> (compareInfos a b <= 0)%Z.
Proof.
  unfold le_by, cmpInfos. split.
  - intros (c & Hc & Hle). inversion Hc. subst. exact Hle.
  - intros H. eauto.
Qed.

Lemma compareInfos_beats a b :
  (compareInfos a b <= 0)%Z <-> beats (original a) (original b).
Proof.
  unfold compareInfos, beats.
  destruct (isVPrefixed (original a)), (isVPrefixed (original b)); simpl;
    split; intros H; try lia; try (split; [auto|intros; lia]);
    try (destruct H as [H1 H2]; first [specialize (H2 eq_refl); lia
                                       | specialize (H1 eq_refl); discriminate]).
Qed.

Lemma compareInfos_refl a : (compareInfos a a <= 0)%Z.
Proof.
  unfold compareInfos. destruct (isVPrefixed (original a)); simpl; lia.
Qed.

Lemma cmpInfos_total a b c :
  True -> True -> cmpInfos a b = Some c -> (0 < c)%Z -> le_by cmpInfos b a.
Proof.
  intros _ _ Hc Hpos. inversion Hc; subst c. apply le_by_cmpInfos.
  revert Hpos. unfold compareInfos.
  destruct (isVPrefixed (original a)), (isVPrefixed (original b)); simpl; lia.
Qed.

Lemma cmpInfos_trans a b c :
  True -> True -> True ->
  le_by cmpInfos a b -> le_by cmpInfos b c -> le_by cmpInfos a c.
Proof.
  intros _ _ _. rewrite !le_by_cmpInfos. unfold compareInfos.
  destruct (isVPrefixed (original a)), (isVPrefixed (original b)),
    (isVPrefixed (original c)); simpl; lia.
Qed.

(** The head of a sorted group wins against every member of the group. *)
Lemma sorted_head_wins infos first rest :
  sortBy cmpInfos infos = Some (first :: rest) ->
  first ∈ infos
  /\ forall x, x ∈ infos -> (compareInfos first x <= 0)%Z.
Proof.
  intros H. pose proof (sortBy_perm _ _ _ H) as Hp.
  assert (Hs : StronglySorted (le_by cmpInfos) (first :: rest)).
  { apply (sortBy_sorted cmpInfos (fun _ => True)
             cmpInfos_total cmpInfos_trans infos); [|exact H].
    apply Forall_forall. auto. }
  split.
  - rewrite <- Hp. left.
  - intros x Hx. rewrite <- Hp in Hx. apply elem_of_cons in Hx as [->|Hx].
    + apply compareInfos_refl.
    + apply StronglySorted_inv in Hs as [_ Hs]. rewrite Forall_forall in Hs.
      apply le_by_cmpInfos, Hs, Hx.
Qed.

Lemma sortBy_cmpInfos_defined infos :
  exists sorted, sortBy cmpInfos infos = Some sorted /\ sorted ≡ₚ infos.
Proof.
  destruct (sortBy_defined cmpInfos (fun _ => True)
              (fun a b _ _ => ltac:(unfold cmpInfos; eauto)) infos)
    as [sorted Hs].
  - apply Forall_forall. auto.
  - exists sorted. split; [exact Hs | exact (sortBy_perm _ _ _ Hs)].
Qed.

(** The second loop gives every version the winner of its group. *)
Lemma pickCanonical_spec (m : Map (list TagInfo)) :
  (forall c infos, (c, infos) ∈ m -> infos <> []) ->
  exists result,
    pickCanonical m = Some result
    /\ keys result = keys m
    /\ forall c first, (c, first) ∈ result ->
         exists infos, (c, infos) ∈ m /\ first ∈ infos
           /\ forall x, x ∈ infos -> (compareInfos first x <= 0)%Z.
Proof.
  induction m as [|[c infos] m IH]; intros Hne.
  - exists []. simpl. repeat split. intros c first H. inversion H.
  - destruct IH as (result & Hr & Hk & Hw).
    { intros c' infos' H. apply (Hne c' infos'). right. exact H. }
    destruct (sortBy_cmpInfos_defined infos) as (sorted & Hs & Hp).
    assert (Hi : infos <> []) by (apply (Hne c); left).
    destruct sorted as [|first rest].
    { apply Permutation_nil_l in Hp. congruence. }
    exists ((c, first) :: result). cbn [pickCanonical].
    fold cmpInfos. rewrite Hs, Hr. simpl. split; [reflexivity|].
    split; [unfold keys in *; simpl; rewrite Hk; reflexivity|].
    intros c' first' H. apply elem_of_cons in H as [H|H].
    + inversion H; subst c' first'. exists infos.
      split; [left|]. exact (sorted_head_wins _ _ _ Hs).
    + destruct (Hw c' first' H) as (infos' & Hin & Hrest).
      exists infos'. split; [right; exact Hin | exact Hrest].
Qed.


End TieBreakFacts.

(** *** normalizeTags *)

Section NormalizeTheorem.
Import Js Parser Props.

Lemma versionMap_groups_nonempty tags c infos :
  (c, infos) ∈ fold_left addTag tags [] -> infos <> [].
Proof.
  intros H. apply versionMap_entries in H as (_ & Hne & ->).
  destruct (candidates c tags); [congruence | discriminate].
Qed.

(** [normalizeTags] always returns; its two components are the picks of
    the second loop and their keys, sorted. *)
Lemma normalizeTags_returns tags :
  exists result versions,
    pickCanonical (fold_left addTag tags []) = Some result
    /\ keys result = keys (fold_left addTag tags [])
    /\ sortBy Semver.compare (keys result) = Some versions
    /\ normalizeTags tags = Some (mkTagMap versions result).
Proof.
  destruct (pickCanonical_spec (fold_left addTag tags [])
              (versionMap_groups_nonempty tags)) as (result & Hr & Hk & _).
  destruct (sortBy_defined Semver.compare valid_version compare_defined
              (keys result)) as [versions Hv].
  { rewrite Hk. apply Forall_forall. intros c Hc.
    apply versionMap_keys in Hc. tauto. }
  exists result, versions. unfold normalizeTags.
  rewrite Hr. simpl. rewrite Hv. auto.
Qed.

(** What [normalizeTags] returns: the versions are the valid versions
    extracted from the tags, each once and each with the winner of its
    group as canonical TagInfo, none followed by one that the package
    compares as lower. *)
Lemma normalizeTags_spec (tags : list string) :
  exists tm,
    normalizeTags tags = Some tm
    /\ (forall v, v ∈ versions tm
          <-> valid_version v /\ exists t, t ∈ tags /\ extractVersion t = Some v)
    /\ NoDup (versions tm)
    /\ (forall v, is_Some (get v (Parser.tags tm)) <-> v ∈ versions tm)
    /\ (forall v, v ∈ versions tm ->
          exists info,
            get v (Parser.tags tm) = Some info
            /\ clean info = v /\ display info = "v" +:+ v
            /\ original info ∈ tags
            /\ extractVersion (original info) = Some v
            /\ forall t, t ∈ tags -> extractVersion t = Some v ->
                 beats (original info) t)
    /\ Sorted compare_le (versions tm).
Proof.
  destruct (normalizeTags_returns tags) as (result & vs & Hr & Hk & Hs & Hn).
  exists (mkTagMap vs result). split; [exact Hn|]. cbn [versions Parser.tags].
  pose proof (sortBy_perm _ _ _ Hs) as Hp.
  assert (Hkeys : forall v, v ∈ vs <-> v ∈ keys (fold_left addTag tags [])).
  { intros v. rewrite Hp, Hk. reflexivity. }
  assert (Hvalid : Forall valid_version (keys result)).
  { rewrite Hk. apply Forall_forall. intros c Hc.
    apply versionMap_keys in Hc. tauto. }
  split; [|split; [|split; [|split]]].
  - intros v. rewrite Hkeys. apply versionMap_keys.
  - rewrite Hp, Hk. apply fold_addTag_NoDup. constructor.
  - intros v. rewrite <- get_keys, Hp. reflexivity.
  - intros v Hv. rewrite Hp in Hv. apply get_keys in Hv as [first Hf].
    exists first. split; [exact Hf|].
    destruct (pickCanonical_spec (fold_left addTag tags [])
                (versionMap_groups_nonempty tags)) as (result' & Hr' & _ & Hw).
    rewrite Hr in Hr'. inversion Hr'; subst result'.
    destruct (Hw v first (get_elem_of _ _ _ Hf)) as (infos & Hin & Hfirst & Hwins).
    apply versionMap_entries in Hin as (_ & _ & ->).
    apply list_elem_of_fmap in Hfirst as (t0 & -> & Ht0).
    apply list_elem_of_filter in Ht0 as [He0 Ht0].
    cbn [tagInfoOf clean display original].
    split; [reflexivity|]. split; [reflexivity|]. split; [exact Ht0|].
    split; [exact He0|]. intros t Ht He.
    apply (proj1 (compareInfos_beats (tagInfoOf v t0) (tagInfoOf v t))).
    apply Hwins, list_elem_of_fmap. exists t. split; [reflexivity|].
    apply list_elem_of_filter. auto.
  - exact (sortBy_adjacent Semver.compare valid_version compare_total
             _ _ Hvalid Hs).
Qed.

Lemma StronglySorted_on {A} (P : A -> Prop) (R R' : A -> A -> Prop) l :
  (forall a b, P a -> P b -> R a b -> R' a b) ->
  Forall P l -> StronglySorted R l -> StronglySorted R' l.
Proof.
  intros HR Hl Hs. induction Hs as [|x l Hs IH Hx]; [constructor|].
  inversion Hl as [|? ? Px Pl]; subst. constructor; [exact (IH Pl)|].
  rewrite Forall_forall in Hx, Pl. apply Forall_forall. intros y Hy.
  exact (HR x y Px (Pl y Hy) (Hx y Hy)).
Qed.

(** When the numeric pre-release identifiers are below 2^53, the
    versions are in ascending order of precedence. *)
Lemma normalizeTags_precedence (tags : list string) (tm : TagMap) :
  normalizeTags tags = Some tm ->
  (forall t v, t ∈ tags -> extractVersion t = Some v ->
               small_identifiers v = true) ->
  StronglySorted precedes_eq (versions tm).
Proof.
  intros Hn' Hsmall.
  destruct (normalizeTags_returns tags) as (result & vs & Hr & Hk & Hs & Hn).
  rewrite Hn in Hn'. inversion Hn'; subst tm. cbn [versions].
  set (P := fun v => valid_version v /\ small_identifiers v = true).
  assert (HP : Forall P (keys result)).
  { rewrite Hk. apply Forall_forall. intros c Hc.
    apply versionMap_keys in Hc as (Hv & t & Ht & He).
    split; [exact Hv | exact (Hsmall t c Ht He)]. }
  assert (Hsorted : StronglySorted (le_by Semver.compare) vs).
  { apply (sortBy_sorted Semver.compare P) with (l := keys result);
      [| |exact HP|exact Hs].
    - intros a b c [Ha _] [Hb _]. apply compare_total; assumption.
    - intros a b c [_ Ha] [_ Hb] [_ Hc] H1 H2.
      apply (compare_le_precedes a c Ha Hc).
      apply (compare_le_precedes a b Ha Hb) in H1.
      apply (compare_le_precedes b c Hb Hc) in H2.
      exact (precedes_eq_trans a b c H1 H2). }
  apply (StronglySorted_on P (le_by Semver.compare)); [| |exact Hsorted].
  - intros a b [_ Ha] [_ Hb]. apply (compare_le_precedes a b Ha Hb).
  - rewrite (sortBy_perm _ _ _ Hs). exact HP.
Qed.




End NormalizeTheorem.

(** *** normalizeTags on its own display tags *)

Section Idempotence.
Import Js Parser Props.

Lemma set_fresh {V} k (v : V) (m : Map V) :
  get k m = None -> set k v m = m ++ [(k, v)].
Proof.
  induction m as [|[k' v'] m IH]; simpl; [reflexivity|].
  destruct (String.eqb_spec k k'); [discriminate|].
  intros H. rewrite (IH H). reflexivity.
Qed.

Lemma set_last {V} k (v v' : V) (m : Map V) :
  get k m = None -> set k v' (m ++ [(k, v)]) = m ++ [(k, v')].
Proof.
  induction m as [|[k0 v0] m IH]; simpl.
  - rewrite String.eqb_refl. reflexivity.
  - destruct (String.eqb_spec k k0); [discriminate|].
    intros H. rewrite (IH H). reflexivity.
Qed.

Lemma get_app_fresh {V} k k' (v : V) (m : Map V) :
  k <> k' -> get k (m ++ [(k', v)]) = get k m.
Proof.
  intros Hk. induction m as [|[k0 v0] m IH]; simpl.
  - destruct (String.eqb_spec k k'); [congruence | reflexivity].
  - destruct (String.eqb_spec k k0); [reflexivity | exact IH].
Qed.

Lemma addTag_display (m : Map (list TagInfo)) v :
  valid_version v -> extractVersion ("v" +:+ v) = Some v -> get v m = None ->
  addTag m ("v" +:+ v) = m ++ [(v, [displayInfo v])].
Proof.
  intros Hv He Hm. rewrite (addTag_kept _ _ _ He Hv). unfold has.
  rewrite Hm. simpl. rewrite (set_fresh _ _ _ Hm). apply set_last, Hm.
Qed.

Lemma fold_displays vs (m : Map (list TagInfo)) :
  NoDup vs ->
  (forall v, v ∈ vs -> valid_version v /\ extractVersion ("v" +:+ v) = Some v) ->
  (forall v, v ∈ vs -> get v m = None) ->
  fold_left addTag (map (fun v => "v" +:+ v) vs) m
  = m ++ map (fun v => (v, [displayInfo v])) vs.
Proof.
  intros Hn. revert m. induction Hn as [|v vs Hv Hn IH]; intros m Hok Hm.
  - simpl. rewrite app_nil_r. reflexivity.
  - cbn [map fold_left].
    destruct (Hok v ltac:(left)) as [Hvalid He].
    rewrite (addTag_display m v Hvalid He (Hm v ltac:(left))).
    rewrite IH.
    + rewrite <- app_assoc. reflexivity.
    + intros w Hw. apply Hok. right. exact Hw.
    + intros w Hw. rewrite get_app_fresh.
      * apply Hm. right. exact Hw.
      * intros ->. contradiction.
Qed.

Lemma pickCanonical_singletons vs :
  pickCanonical (map (fun v => (v, [displayInfo v])) vs)
  = Some (map (fun v => (v, displayInfo v)) vs).
Proof.
  induction vs as [|v vs IH]; [reflexivity|].
  cbn [map pickCanonical]. rewrite IH. reflexivity.
Qed.

Lemma get_displayInfo v vs :
  v ∈ vs -> get v (map (fun v => (v, displayInfo v)) vs) = Some (displayInfo v).
Proof.
  induction vs as [|w vs IH]; intros H; [inversion H|].
  cbn [map get]. destruct (String.eqb_spec v w) as [->|Hne]; [reflexivity|].
  apply elem_of_cons in H as [H|H]; [congruence | exact (IH H)].
Qed.

Lemma keys_displayInfo vs : keys (map (fun v => (v, displayInfo v)) vs) = vs.
Proof.
  unfold keys. induction vs as [|v vs IH]; [reflexivity|].
  cbn [map fst]. rewrite IH. reflexivity.
Qed.

Lemma omap_displays (tags : Map TagInfo) vs :
  (forall v, v ∈ vs -> display <$> get v tags = Some ("v" +:+ v)) ->
  omap (fun v => display <$> get v tags) vs = map (fun v => "v" +:+ v) vs.
Proof.
  induction vs as [|v vs IH]; intros H; [reflexivity|].
  cbn [omap list_omap map]. rewrite (H v ltac:(left)).
  f_equal. apply IH. intros w Hw. apply H. right. exact Hw.
Qed.

(** C9.  [normalizeTags] is idempotent on its output: normalizing the
    canonical display tags of the TagMap it returns gives the same
    versions in the same order, each with its canonical display tag
    unchanged, so the list of display tags is reproduced. *)
Theorem C9_normalizeTags_idempotent (tags : list string) :
  exists tm tm',
    normalizeTags tags = Some tm
    /\ normalizeTags (canonical_displays tm) = Some tm'
    /\ versions tm' = versions tm
    /\ (forall v, v ∈ versions tm ->
          is_Some (get v (Parser.tags tm))
          /\ display <$> get v (Parser.tags tm')
             = display <$> get v (Parser.tags tm))
    /\ canonical_displays tm' = canonical_displays tm.
Proof.
  destruct (normalizeTags_spec tags)
    as (tm & Hn & Hin & Hnd & _ & Hinfo & Hsorted).
  set (vs := versions tm) in *.
  assert (Hdisp : forall v, v ∈ vs ->
            display <$> get v (Parser.tags tm) = Some ("v" +:+ v)).
  { intros v Hv. destruct (Hinfo v Hv) as (info & Hg & _ & Hd & _).
    rewrite Hg. simpl. rewrite Hd. reflexivity. }
  assert (Hcd : canonical_displays tm = map (fun v => "v" +:+ v) vs).
  { apply omap_displays, Hdisp. }
  assert (Hok : forall v, v ∈ vs ->
            valid_version v /\ extractVersion ("v" +:+ v) = Some v).
  { intros v Hv. apply Hin in Hv as (Hvalid & t & _ & He).
    split; [exact Hvalid | exact (extractVersion_display _ _ He)]. }
  set (result := map (fun v => (v, displayInfo v)) vs).
  assert (Hn' : normalizeTags (canonical_displays tm) = Some (mkTagMap vs result)).
  { unfold normalizeTags. rewrite Hcd.
    rewrite (fold_displays vs [] Hnd Hok (fun _ _ => eq_refl)).
    rewrite app_nil_l, pickCanonical_singletons. simpl.
    fold result. unfold result. rewrite keys_displayInfo.
    rewrite (sortBy_sorted_id Semver.compare vs Hsorted).
    reflexivity. }
  exists tm, (mkTagMap vs result). split; [exact Hn|]. split; [exact Hn'|].
  cbn [versions Parser.tags]. split; [reflexivity|]. split.
  - intros v Hv. split.
    + destruct (Hinfo v Hv) as (info & -> & _). eauto.
    + rewrite (Hdisp v Hv). unfold result. rewrite (get_displayInfo v vs Hv).
      reflexivity.
  - rewrite Hcd. unfold canonical_displays. cbn [versions Parser.tags].
    apply omap_displays. intros v Hv. unfold result.
    rewrite (get_displayInfo v vs Hv). reflexivity.
Qed.

End Idempotence.

(** ** dedup.ts *)

Section DedupFacts.
Import Chars Str Parser Dedup Props.

Lemma toLowerCase_app (s t : string) :
  toLowerCase (s +:+ t) = toLowerCase s +:+ toLowerCase t.
Proof.
  induction s as [|c s IH]; [reflexivity|].
  rewrite sapp_cons. simpl. rewrite IH, sapp_cons. reflexivity.
Qed.

Lemma toLowerChar_colon c : Ascii.eqb ":" (toLowerChar c) = Ascii.eqb ":" c.
Proof. destruct c as [[] [] [] [] [] [] [] []]; reflexivity. Qed.

Lemma includes_colon_lower s :
  includes_char ":" (toLowerCase s) = includes_char ":" s.
Proof.
  induction s as [|c s IH]; [reflexivity|].
  cbn [toLowerCase includes_char]. rewrite IH, toLowerChar_colon. reflexivity.
Qed.

(** A text without the separator is recovered from what it is glued to. *)
Lemma cut_at_colon (a a' b b' : string) :
  includes_char ":" a = false -> includes_char ":" a' = false ->
  a +:+ ":" +:+ b = a' +:+ ":" +:+ b' -> a = a' /\ b = b'.
Proof.
  revert a'. induction a as [|c a IH]; intros [|c' a'] Ha Ha' H.
  - rewrite !sapp_nil_l in H. inversion H. auto.
  - rewrite sapp_nil_l, sapp_cons in H. inversion H; subst c'.
    simpl in Ha'. discriminate.
  - rewrite sapp_nil_l, sapp_cons in H. inversion H; subst c.
    simpl in Ha. discriminate.
  - rewrite !sapp_cons in H. inversion H; subst c'.
    simpl in Ha, Ha'. apply orb_false_elim in Ha as [_ Ha].
    apply orb_false_elim in Ha' as [_ Ha'].
    destruct (IH a' Ha Ha' H2) as [-> ->]. auto.
Qed.

Lemma getKey_parts c :
  getKey c
  = toLowerCase (type c) +:+ ":" +:+ toLowerCase (scope_text c) +:+ ":"
    +:+ toLowerCase (subject c).
Proof. unfold getKey, scope_text. rewrite !toLowerCase_app. reflexivity. Qed.

Lemma collide_key c1 c2 : collide c1 c2 = true <-> getKey c1 = getKey c2.
Proof.
  unfold collide, has, add, empty. rewrite bool_decide_eq_true.
  rewrite elem_of_union, elem_of_singleton.
  split; [intros [H|H]; [auto | set_solver] | auto].
Qed.

Lemma colon_free_inv c :
  colon_free c = true ->
  includes_char ":" (toLowerCase (type c)) = false
  /\ includes_char ":" (toLowerCase (scope_text c)) = false.
Proof.
  unfold colon_free. intros H. apply andb_prop in H as [H1 H2].
  rewrite !includes_colon_lower.
  split; apply negb_true_iff; assumption.
Qed.

(** C8, as amended.  Two commits collide exactly when their lowercased
    keys are equal.  Commits that agree up to letter case on type, scope
    (an absent scope counting as the empty one) and subject collide,
    whatever their hashes; commits whose types and scopes hold no colon
    and that differ beyond letter case in one of the three components do
    not collide. *)
Theorem C8_collision_key (c1 c2 : ConventionalCommit) :
  (collide c1 c2 = true <-> getKey c1 = getKey c2)
  /\ (same_up_to_case (type c1) (type c2) ->
      same_up_to_case (scope_text c1) (scope_text c2) ->
      same_up_to_case (subject c1) (subject c2) ->
      collide c1 c2 = true)
  /\ (colon_free c1 = true -> colon_free c2 = true ->
      ~ same_up_to_case (type c1) (type c2)
      \/ ~ same_up_to_case (scope_text c1) (scope_text c2)
      \/ ~ same_up_to_case (subject c1) (subject c2) ->
      collide c1 c2 = false).
Proof.
  split; [apply collide_key|]. split.
  - unfold same_up_to_case. intros Ht Hs Hj. apply collide_key.
    rewrite !getKey_parts, Ht, Hs, Hj. reflexivity.
  - unfold same_up_to_case. intros F1 F2 Hd.
    apply colon_free_inv in F1 as [T1 S1]. apply colon_free_inv in F2 as [T2 S2].
    destruct (collide c1 c2) eqn:E; [|reflexivity]. exfalso.
    apply collide_key in E. rewrite !getKey_parts in E.
    apply cut_at_colon in E as [Ht E]; [|assumption..].
    apply cut_at_colon in E as [Hs Hj]; [|assumption..].
    tauto.
Qed.

Lemma C8_witness :
  let c := mkConventionalCommit "abc123" "feat" (Some "ui") "x" "feat(ui): x" false in
  collide c (mkConventionalCommit "def456" "FEAT" (Some "UI") "X" "FEAT(UI): X" false)
  = true
  /\ collide c (mkConventionalCommit "abc123" "feat" (Some "api") "x" "feat(api): x" false)
     = false.
Proof.
  split.
  - refine (proj1 (proj2 (C8_collision_key _ _)) _ _ _); reflexivity.
  - refine (proj2 (proj2 (C8_collision_key _ _)) _ _ _); [reflexivity..|].
    right. left. vm_compute. discriminate.
Defined.

(** C8 as stated fails on records whose scope holds the separator, and on
    an empty scope next to an absent one: the commits differ in a
    component and collide. *)
Lemma C8_counterexample :
  let c1 := mkConventionalCommit "abc123" "feat" (Some "a:b") "c" "feat(a:b): c" false in
  let c2 := mkConventionalCommit "abc123" "feat" (Some "a") "b:c" "feat(a): b:c" false in
  let c3 := mkConventionalCommit "abc123" "feat" None "x" "feat: x" false in
  let c4 := mkConventionalCommit "abc123" "feat" (Some "") "x" "feat: x" false in
  (toLowerCase "a:b" <> toLowerCase "a" /\ collide c1 c2 = true)
  /\ (scope c3 <> scope c4 /\ type c3 = type c4 /\ subject c3 = subject c4
      /\ collide c3 c4 = true).
Proof. vm_compute. repeat split; discriminate. Qed.

End DedupFacts.

(** ** bump.ts *)

(** *** The baseline *)

Section BaselineFacts.
Import Chars Str Parser Props Bump.

(** The pattern of [extractVersionFromTag] matches exactly the tags that
    hold a [MAJOR.MINOR.PATCH] substring. *)
Lemma match_version_sound tag v :
  match_version tag = Some v -> has_version_substring tag.
Proof.
  induction tag as [|c tag IH].
  - simpl. unfold core_here. simpl. discriminate.
  - simpl. destruct (core_here (String c tag)) as [w|] eqn:E.
    + intros _. unfold core_here in E.
      destruct (match_core (skip_v (String c tag))) as [[t r]|] eqn:M;
        [|discriminate].
      apply match_core_sound in M as (Hs & a & b & d & -> & Ha & Hb & Hd).
      destruct (skip_v_cases (String c tag)) as [Hk|Hk].
      * exists "", a, b, d, r. rewrite sapp_nil_l, <- !sapp_assoc.
        rewrite <- Hk. rewrite Hs, !sapp_assoc. auto.
      * exists "v", a, b, d, r. rewrite Hk, Hs, !sapp_assoc. auto.
    + intros H. destruct (IH H) as (pre & a & b & d & post & -> & Hd).
      exists (String c pre), a, b, d, post. rewrite sapp_cons. auto.
Qed.

Lemma match_version_complete tag :
  has_version_substring tag -> exists v, match_version tag = Some v.
Proof.
  intros (pre & a & b & d & post & -> & Ha & Hb & Hd).
  induction pre as [|c pre IH].
  - rewrite sapp_nil_l.
    destruct (match_core_complete a b d post Ha Hb Hd) as (t & r & M).
    destruct (is_digits_cons _ Ha) as (a0 & a' & -> & Ha0 & _).
    rewrite sapp_cons in *.
    simpl. unfold core_here. rewrite (skip_v_digit _ _ Ha0), M. simpl. eauto.
  - rewrite sapp_cons. simpl.
    destruct (core_here _); [eauto | exact IH].
Qed.

Lemma match_version_chars tag v :
  match_version tag = Some v ->
  forallb (fun x => is_digit x || Ascii.eqb x ".") v = true.
Proof.
  induction tag as [|c tag IH].
  - simpl. unfold core_here. simpl. discriminate.
  - simpl. destruct (core_here (String c tag)) as [w|] eqn:E; [|exact IH].
    intros H. inversion H; subst w. unfold core_here in E.
    destruct (match_core (skip_v (String c tag))) as [[t r]|] eqn:M;
      [|discriminate].
    simpl in E. inversion E; subst t.
    apply match_core_sound in M as [_ M]. exact (core_chars _ M).
Qed.

Lemma extractVersionFromTag_chars tag :
  forallb (fun x => is_digit x || Ascii.eqb x ".") (extractVersionFromTag tag)
  = true.
Proof.
  unfold extractVersionFromTag.
  destruct (match_version tag) eqn:E; [|reflexivity].
  exact (match_version_chars _ _ E).
Qed.

End BaselineFacts.

Section BumpTheorems.
Import Chars Str Parser Props Bump.

(** C10.  A last tag that holds no [MAJOR.MINOR.PATCH] substring does
    not make [suggestNextVersion] fail: the baseline is ["0.0.0"], the
    baseline used when there is no tag at all, and the result reports
    ["0.0.0"] as the current version.  The flags and the bump category
    are those of the run without a tag, and so is the whole result when
    the tag has no hyphen. *)
Theorem C10_unparseable_tag_baseline (commits : list RawCommit) (tag : string) :
  ~ has_version_substring tag ->
  let r := suggestNextVersion commits (Some tag) in
  let r0 := suggestNextVersion commits None in
  extractVersionFromTag tag = "0.0.0"
  /\ currentVersion r = "0.0.0"
  /\ currentVersion r = currentVersion r0
  /\ bumpType r = bumpType r0
  /\ hasBreaking r = hasBreaking r0
  /\ hasFeatures r = hasFeatures r0
  /\ hasFixes r = hasFixes r0
  /\ (includes_char "-" tag = false -> r = r0).
Proof.
  intros Hno.
  assert (E : extractVersionFromTag tag = "0.0.0").
  { unfold extractVersionFromTag.
    destruct (match_version tag) as [v|] eqn:M; [|reflexivity].
    exfalso. exact (Hno (match_version_sound _ _ M)). }
  assert (C : currentVersion (suggestNextVersion commits (Some tag)) = "0.0.0").
  { unfold suggestNextVersion. simpl currentVersion.
    destruct tag; simpl truthy; cbv iota; [reflexivity | exact E]. }
  cbv zeta. split; [exact E|]. split; [exact C|].
  unfold suggestNextVersion in *. simpl currentVersion in C.
  destruct tag as [|c tag]; simpl truthy in *; cbv iota in *.
  - repeat split; reflexivity.
  - rewrite E. repeat split; try reflexivity.
    intros Hh. rewrite Hh. reflexivity.
Qed.

Lemma C10_witness :
  ~ has_version_substring "foo"
  /\ currentVersion (suggestNextVersion [mkRawCommit "abc123" "fix: a bug" ""]
                                        (Some "foo")) = "0.0.0".
Proof.
  assert (H : ~ has_version_substring "foo").
  { intros H. destruct (match_version_complete _ H) as [v Hv].
    vm_compute in Hv. discriminate. }
  split; [exact H|].
  exact (proj1 (proj2 (C10_unparseable_tag_baseline
                         [mkRawCommit "abc123" "fix: a bug" ""] "foo" H))).
Defined.

(** C3 (behaviour of the code at the tag the claim names).  With the one
    commit [fix: a bug] on top of the dirty tag [release-1.0.0], whose
    version [1.0.0] is not a pre-release, the category is patch and the
    hyphen of the tag alone makes the suggestion the baseline [1.0.0]
    itself; on top of [v1.0.0] the same commit gives [1.0.1]. *)
Theorem C3_dirty_hyphen_tag :
  let commits := [mkRawCommit "abc123" "fix: a bug" ""] in
  let r := suggestNextVersion commits (Some "release-1.0.0") in
  extractVersion "release-1.0.0" = Some "1.0.0"
  /\ isPreRelease "1.0.0" = false
  /\ hasFixes r = true /\ hasBreaking r = false /\ hasFeatures r = false
  /\ bumpType r = Patch
  /\ currentVersion r = "1.0.0"
  /\ nextVersion r = "1.0.0"
  /\ Semver.inc "1.0.0" Semver.RPatch = Some "1.0.1"
  /\ nextVersion (suggestNextVersion commits (Some "v1.0.0")) = "1.0.1".
Proof. vm_compute. repeat split; reflexivity. Qed.

End BumpTheorems.

Section BreakingBump.
Import Chars Str Parser Props Bump.

Lemma currentVersion_no_hyphen commits lastTag :
  includes_char "-" (currentVersion (suggestNextVersion commits lastTag))
  = false.
Proof.
  unfold suggestNextVersion. simpl currentVersion.
  destruct (truthy lastTag) as [tag|]; [|reflexivity].
  apply (forallb_excludes _ _ _ (extractVersionFromTag_chars tag)).
  reflexivity.
Qed.

Lemma hasBreaking_spec commits lastTag :
  hasBreaking (suggestNextVersion commits lastTag) = true <->
  exists rc c, In rc commits /\ parseConventionalCommit rc = Some c
               /\ breaking c = true.
Proof.
  unfold suggestNextVersion. simpl hasBreaking.
  rewrite existsb_exists. split.
  - intros (c & Hin & Hb). apply list_elem_of_In, list_elem_of_omap in Hin.
    destruct Hin as (rc & Hrc & Hp). exists rc, c.
    split; [apply list_elem_of_In; exact Hrc | auto].
  - intros (rc & c & Hin & Hp & Hb). exists c. split; [|exact Hb].
    apply list_elem_of_In, list_elem_of_omap. exists rc.
    split; [apply list_elem_of_In; exact Hin | exact Hp].
Qed.

(** C6, as amended.  When the commits hold a breaking commit and the
    baseline is a valid semantic version [v], the category is major and
    the suggestion is [v] with its major component incremented (minor
    and patch reset), unless the major component of [v] is 0: then the
    category is minor and the minor component is incremented. *)
Theorem C6_breaking_bump (commits : list RawCommit) (lastTag : option string)
        (v : Semver.SemVer) :
  (exists rc c, In rc commits /\ parseConventionalCommit rc = Some c
                /\ breaking c = true) ->
  let r := suggestNextVersion commits lastTag in
  Semver.parse (currentVersion r) = Some v ->
  hasBreaking r = true
  /\ (Semver.major v = 0%N ->
      bumpType r = Minor
      /\ nextVersion r
         = "0." +:+ N_to_string (Semver.minor v + 1) +:+ ".0")
  /\ (Semver.major v <> 0%N ->
      bumpType r = Major
      /\ nextVersion r = N_to_string (Semver.major v + 1) +:+ ".0.0").
Proof.
  intros Hex r Hv.
  assert (Hb : hasBreaking r = true) by (apply hasBreaking_spec; exact Hex).
  assert (Hpre : Semver.prerelease v = []).
  { apply (parse_no_hyphen _ _ Hv), currentVersion_no_hyphen. }
  split; [exact Hb|].
  subst r. unfold suggestNextVersion in *.
  simpl hasBreaking in Hb. simpl currentVersion in Hv.
  simpl bumpType. simpl nextVersion.
  set (cv := match truthy lastTag with
             | Some tag => extractVersionFromTag tag
             | None => "0.0.0"
             end) in *.
  rewrite Hb, Hv. unfold Semver.inc. rewrite Hv. simpl.
  destruct v as [M m p pre]. simpl in *. subst pre.
  split; intros HM.
  - subst M. simpl. rewrite andb_false_r. simpl. split; [reflexivity|].
    unfold Semver.format, Semver.incSemVer. simpl.
    rewrite orb_true_r. reflexivity.
  - apply N.eqb_neq in HM. rewrite HM. simpl. rewrite andb_false_r. simpl.
    split; [reflexivity|].
    unfold Semver.format, Semver.incSemVer. simpl.
    rewrite !orb_true_r. reflexivity.
Qed.

Lemma C6_witness :
  let commits := [mkRawCommit "abc123" "feat!: breaking change" ""] in
  let r := suggestNextVersion commits (Some "v1.0.0") in
  bumpType r = Major /\ nextVersion r = "2.0.0".
Proof.
  refine (proj2 (proj2 (C6_breaking_bump
                   [mkRawCommit "abc123" "feat!: breaking change" ""]
                   (Some "v1.0.0") (Semver.mkSemVer 1 0 0 []) _ _)) _).
  - exists (mkRawCommit "abc123" "feat!: breaking change" "").
    eexists. split; [left; reflexivity|]. split; reflexivity.
  - reflexivity.
  - simpl. discriminate.
Defined.

(** The zero-major example of the claim. *)
Example C6_zero_major :
  let r := suggestNextVersion [mkRawCommit "abc123" "feat!: breaking change" ""]
                              (Some "v0.1.0") in
  bumpType r = Minor /\ nextVersion r = "0.2.0".
Proof. vm_compute. split; reflexivity. Qed.

(** C6 as stated fails on a baseline that is not a valid semantic
    version: on top of [v01.2.3] a breaking commit gives the category
    major and leaves the version as it is. *)
Lemma C6_counterexample :
  let commits := [mkRawCommit "abc123" "feat!: breaking change" ""] in
  let r := suggestNextVersion commits (Some "v01.2.3") in
  hasBreaking r = true
  /\ currentVersion r = "01.2.3"
  /\ Semver.parse "01.2.3" = None
  /\ bumpType r = Major
  /\ nextVersion r = currentVersion r.
Proof. vm_compute. repeat split; reflexivity. Qed.

End BreakingBump.

(** *** The patch category *)

Section PatchBump.
Import Chars Str Parser Props Bump.

(** What [suggestNextVersion] does with fixes only: the category is
    patch; a hyphen anywhere in the last tag makes the suggestion the
    baseline itself, and without one the patch component of a valid
    baseline is incremented. *)
Lemma patch_bump_spec (commits : list RawCommit) (lastTag : option string) :
  let r := suggestNextVersion commits lastTag in
  hasBreaking r = false -> hasFeatures r = false -> hasFixes r = true ->
  bumpType r = Patch
  /\ ((exists tag, truthy lastTag = Some tag /\ includes_char "-" tag = true) ->
      nextVersion r = currentVersion r)
  /\ ((forall tag, truthy lastTag = Some tag -> includes_char "-" tag = false) ->
      forall v, Semver.parse (currentVersion r) = Some v ->
        nextVersion r
        = N_to_string (Semver.major v) +:+ "." +:+ N_to_string (Semver.minor v)
          +:+ "." +:+ N_to_string (Semver.patch v + 1)).
Proof.
  intros r Hb Hf Hx.
  assert (Hpre : forall v, Semver.parse (currentVersion r) = Some v ->
                           Semver.prerelease v = []).
  { intros v Hv. apply (parse_no_hyphen _ _ Hv), currentVersion_no_hyphen. }
  subst r. unfold suggestNextVersion in *.
  simpl hasBreaking in Hb. simpl hasFeatures in Hf. simpl hasFixes in Hx.
  simpl currentVersion in *. simpl bumpType. simpl nextVersion.
  rewrite Hb, Hf, Hx. cbn [isPatch releaseType].
  split; [reflexivity|]. split.
  - intros (tag & -> & ->). reflexivity.
  - intros Hno v Hv. specialize (Hpre v Hv).
    destruct (truthy lastTag) as [tag|] eqn:T.
    + rewrite (Hno tag eq_refl). cbn [andb]. unfold Semver.inc. rewrite Hv.
      destruct v as [M m p pre]. simpl in Hpre. subst pre.
      cbn [mbind option_bind from_option id].
      unfold Semver.format, Semver.incSemVer.
      cbn [Semver.major Semver.minor Semver.patch Semver.prerelease].
      rewrite ?sapp_assoc, ?sapp_nil_r. reflexivity.
    + cbn [andb]. unfold Semver.inc. rewrite Hv.
      destruct v as [M m p pre]. simpl in Hpre. subst pre.
      cbn [mbind option_bind from_option id].
      unfold Semver.format, Semver.incSemVer.
      cbn [Semver.major Semver.minor Semver.patch Semver.prerelease].
      rewrite ?sapp_assoc, ?sapp_nil_r. reflexivity.
Qed.

End PatchBump.

(** *** The pre-release counter *)

Section PrereleaseCounter.
Import Chars Str JsNum Parser Props Bump.

Lemma strip_prefix_spec lit s r : strip_prefix lit s = Some r <-> s = lit +:+ r.
Proof.
  revert s. induction lit as [|a lit IH]; intros s.
  - simpl. rewrite sapp_nil_l. split; [intros H; inversion H | intros ->]; reflexivity.
  - destruct s as [|b s]; simpl.
    + split; discriminate.
    + rewrite sapp_cons. destruct (Ascii.eqb_spec a b) as [->|Hab].
      * rewrite IH. split; [intros -> | intros H; inversion H]; reflexivity.
      * split; [discriminate | intros H; inversion H; congruence].
Qed.

Lemma counter_after_spec lit s d :
  counter_after lit s = Some d <-> s = lit +:+ d /\ is_digits d = true.
Proof.
  unfold counter_after, is_digits.
  destruct (strip_prefix lit s) as [r|] eqn:E.
  - apply strip_prefix_spec in E as ->.
    destruct (negb (is_empty r) && forallb is_digit r) eqn:D.
    + split.
      * intros H. inversion H; subst. auto.
      * intros [H _]. apply String.app_inj in H. congruence.
    + split; [discriminate|]. intros [H D'].
      apply String.app_inj in H. subst. congruence.
  - split; [discriminate|]. intros [H _].
    apply strip_prefix_spec in H. congruence.
Qed.

Lemma digits_no_dot d : forallb is_digit d = true -> includes_char "." d = false.
Proof. intros H. apply (forallb_excludes _ _ _ H). reflexivity. Qed.

(** A text is cut in one way only at the dot before its final digits. *)
Lemma cut_at_last_dot (x y d e : string) :
  forallb is_digit d = true -> forallb is_digit e = true ->
  x +:+ "." +:+ d = y +:+ "." +:+ e -> x = y /\ d = e.
Proof.
  intros Hd He. apply digits_no_dot in Hd, He.
  revert y. induction x as [|a x IH]; intros [|b y] H.
  - change (String "." d = String "." e) in H. inversion H. auto.
  - change (String "." d = String b (y +:+ "." +:+ e)) in H.
    inversion H; subst.
    rewrite !includes_char_app in Hd. simpl in Hd.
    rewrite orb_true_r in Hd. discriminate.
  - change (String a (x +:+ "." +:+ d) = String "." e) in H.
    inversion H; subst.
    rewrite !includes_char_app in He. simpl in He.
    rewrite orb_true_r in He. discriminate.
  - change (String a (x +:+ "." +:+ d) = String b (y +:+ "." +:+ e)) in H.
    inversion H; subst.
    destruct (IH y H2) as [-> ->]. auto.
Qed.

(** The pattern matches the tags [<optional v><baseVersion>-<name>.<d>]
    and no other, and captures [d]. *)
Lemma match_counter_spec baseVersion name tag d :
  match_counter baseVersion name tag = Some d
  <-> is_digits d = true /\ counter_tag baseVersion name d tag.
Proof.
  unfold match_counter, counter_tag.
  set (lit := baseVersion +:+ "-" +:+ name +:+ ".").
  assert (L : forall e, baseVersion +:+ "-" +:+ name +:+ "." +:+ e = lit +:+ e).
  { intros e. unfold lit. rewrite !sapp_assoc. reflexivity. }
  rewrite !L.
  assert (Plain : counter_after lit tag = Some d
                  <-> is_digits d = true /\ tag = lit +:+ d).
  { rewrite counter_after_spec. tauto. }
  assert (V : forall t e e',
             is_digits e = true -> is_digits e' = true ->
             String "v" t = lit +:+ e -> t = lit +:+ e' -> False).
  { intros t e e' He He' H1 H2. subst t.
    assert (X : ("v" +:+ baseVersion +:+ "-" +:+ name) +:+ "." +:+ e'
                = (baseVersion +:+ "-" +:+ name) +:+ "." +:+ e).
    { rewrite !sapp_assoc. rewrite !L. exact H1. }
    apply cut_at_last_dot in X as [X _]; try (apply is_digits_all; assumption).
    apply (f_equal String.length) in X.
    change (S (String.length (baseVersion +:+ "-" +:+ name))
            = String.length (baseVersion +:+ "-" +:+ name)) in X. lia. }
  destruct tag as [|c t].
  - rewrite Plain. split; [tauto|]. intros [Hd [H|H]]; [auto | discriminate H].
  - destruct (Ascii.eqb_spec c "v") as [->|Hc].
    + destruct (counter_after lit t) as [e|] eqn:E.
      * apply counter_after_spec in E as [-> He]. split.
        -- intros H. inversion H; subst e. split; [exact He|]. right. reflexivity.
        -- intros [Hd [H|H]].
           ++ exfalso. exact (V _ _ _ Hd He H eq_refl).
           ++ rewrite sapp_cons, sapp_nil_l in H. inversion H as [H'].
              apply String.app_inj in H'. congruence.
      * rewrite Plain. split; [intros [Hd H]; auto|].
        intros [Hd [H|H]]; [auto|]. exfalso.
        rewrite sapp_cons, sapp_nil_l in H. inversion H as [H'].
        assert (X : counter_after lit t = Some d)
          by (apply counter_after_spec; auto).
        congruence.
    + assert (M : match c with "v"%char => match counter_after lit t with
                                            | Some d0 => Some d0
                                            | None => counter_after lit (String c t)
                                            end
                          | _ => counter_after lit (String c t) end
                  = counter_after lit (String c t)).
      { destruct c as [[] [] [] [] [] [] [] []]; try reflexivity. congruence. }
      rewrite M, Plain. split; [intros [Hd H]; auto|].
      intros [Hd [H|H]]; [auto|].
      rewrite sapp_cons in H. inversion H. congruence.
Qed.

(** The suffix name: a final [.<digits>] is cut off, and nothing else. *)
Lemma strip_counter_cut p d :
  is_digits d = true -> strip_counter (p +:+ "." +:+ d) = p.
Proof.
  intros Hd. pose proof Hd as Hd'. unfold is_digits in Hd'.
  apply andb_prop in Hd' as [H1 H2].
  induction p as [|a p IH].
  - change ("" +:+ "." +:+ d) with (String "." d).
    cbn [strip_counter]. rewrite Ascii.eqb_refl, H1, H2. reflexivity.
  - rewrite sapp_cons. cbn [strip_counter].
    rewrite forallb_app, (forallb_app _ "." d). simpl (forallb is_digit ".").
    rewrite !andb_false_r, IH. reflexivity.
Qed.

Lemma strip_counter_keep s :
  (forall p d, is_digits d = true -> s <> p +:+ "." +:+ d) ->
  strip_counter s = s.
Proof.
  induction s as [|c s IH]; intros H; [reflexivity|].
  cbn [strip_counter].
  destruct (Ascii.eqb c "." && negb (is_empty s) && forallb is_digit s) eqn:E.
  - exfalso. apply andb_prop in E as [E E3]. apply andb_prop in E as [E1 E2].
    apply Ascii.eqb_eq in E1. subst c.
    apply (H "" s); [|reflexivity]. unfold is_digits. rewrite E2, E3. reflexivity.
  - rewrite IH; [reflexivity|]. intros p d Hd ->.
    exact (H (String c p) d Hd eq_refl).
Qed.

Lemma max_counter_cons n l : max_counter (n :: l) = N.max n (max_counter l).
Proof. reflexivity. Qed.

Lemma maxCounter_spec baseVersion name allTags maxNum :
  Forall (fun n => (n < 2 ^ 53)%N) (counter_values baseVersion name allTags) ->
  maxCounter baseVersion name allTags maxNum
  = Some (N.max maxNum (max_counter (counter_values baseVersion name allTags))).
Proof.
  unfold counter_values. revert maxNum.
  induction allTags as [|tag rest IH]; intros maxNum H.
  - simpl. rewrite N.max_0_r. reflexivity.
  - cbn [maxCounter omap list_omap] in *.
    destruct (match_counter baseVersion name tag) as [d|] eqn:M.
    + cbn [map] in H. inversion H as [|? ? Hd Hrest]; subst.
      apply match_counter_spec in M as [Dd _].
      rewrite (parseInt10_exact d (is_digits_all _ Dd) Hd). simpl.
      rewrite (IH _ Hrest). f_equal.
      destruct (N.ltb_spec maxNum (digits_to_N d)); lia.
    + exact (IH _ H).
Qed.

Lemma max_counter_bound l :
  Forall (fun n => (n < 2 ^ 53)%N) l -> (max_counter l < 2 ^ 53)%N.
Proof.
  induction 1 as [|n l Hn _ IH]; [reflexivity|].
  rewrite max_counter_cons. lia.
Qed.

(** C7, as amended.  [getNextPrereleaseVersion] takes the suffix without
    its leading hyphen and without a final [.<digits>] as the suffix name,
    matches exactly the tags [<optional v><baseVersion>-<name>.<N>], and,
    when every counter it matches is below 2^53, returns
    [<baseVersion>-<name>.<N+1>] for the greatest matched counter [N] (0
    when no tag matches). *)
Theorem C7_next_prerelease (baseVersion suffix : string) (allTags : list string) :
  let name := strip_counter (strip_hyphen suffix) in
  (forall p d, is_digits d = true ->
     strip_hyphen suffix = p +:+ "." +:+ d -> name = p)
  /\ ((forall p d, is_digits d = true -> strip_hyphen suffix <> p +:+ "." +:+ d) ->
      name = strip_hyphen suffix)
  /\ (forall tag d,
        match_counter baseVersion name tag = Some d
        <-> is_digits d = true /\ counter_tag baseVersion name d tag)
  /\ (Forall (fun n => (n < 2 ^ 53)%N) (counter_values baseVersion name allTags) ->
      getNextPrereleaseVersion baseVersion suffix allTags
      = Some (baseVersion +:+ "-" +:+ name +:+ "."
              +:+ N_to_string
                    (max_counter (counter_values baseVersion name allTags) + 1))).
Proof.
  intros name. split; [|split; [|split]].
  - intros p d Hd H. unfold name. rewrite H. exact (strip_counter_cut p d Hd).
  - exact (strip_counter_keep _).
  - intros tag d. apply match_counter_spec.
  - intros H. unfold getNextPrereleaseVersion. fold name.
    rewrite (maxCounter_spec _ _ _ 0%N H), N.max_0_l.
    cbn [mbind option_bind].
    pose proof (max_counter_bound _ H) as B.
    rewrite (succ_exact _ B). unfold JsNum.toString, MAX_EXACT.
    assert (L : ((max_counter (counter_values baseVersion name allTags) + 1
                  <=? 2 ^ 53) = true)%N) by (apply N.leb_le; lia).
    rewrite L. reflexivity.
Qed.

Lemma C7_witness :
  getNextPrereleaseVersion "1.0.0" "-rc" ["v1.0.0-rc.1"; "v1.0.0-rc.5"]
  = Some "1.0.0-rc.6"
  /\ getNextPrereleaseVersion "1.0.0" "-rc" [] = Some "1.0.0-rc.1"
  /\ getNextPrereleaseVersion "1.0.0" "-rc" ["v0.9.0-rc.4"; "v1.0.0-beta.7"]
     = Some "1.0.0-rc.1".
Proof.
  assert (F1 : Forall (fun n => (n < 2 ^ 53)%N) [1%N; 5%N])
    by (repeat constructor).
  assert (F0 : Forall (fun n => (n < 2 ^ 53)%N) []) by constructor.
  split; [|split].
  - exact (proj2 (proj2 (proj2 (C7_next_prerelease "1.0.0" "-rc"
                                  ["v1.0.0-rc.1"; "v1.0.0-rc.5"]))) F1).
  - exact (proj2 (proj2 (proj2 (C7_next_prerelease "1.0.0" "-rc" []))) F0).
  - exact (proj2 (proj2 (proj2 (C7_next_prerelease "1.0.0" "-rc"
                                  ["v0.9.0-rc.4"; "v1.0.0-beta.7"]))) F0).
Defined.

(** C7 as stated fails where the counter meets the limit of exact
    integers: the tag [v1.0.0-rc.9007199254740992] matches with the
    counter 2^53, and the function returns that same counter, not its
    successor. *)
Lemma C7_counterexample :
  match_counter "1.0.0" "rc" "v1.0.0-rc.9007199254740992"
  = Some "9007199254740992"
  /\ getNextPrereleaseVersion "1.0.0" "-rc" ["v1.0.0-rc.9007199254740992"]
     = Some "1.0.0-rc.9007199254740992"
  /\ N_to_string (digits_to_N "9007199254740992" + 1) = "9007199254740993".
Proof. vm_compute. repeat split; reflexivity. Qed.

End PrereleaseCounter.

(** ** cli.ts *)

(** *** The release assembler *)

Section Assembler.
Import Str Parser Dedup Props Cli.

Variable git : Git.
Variable tagMap : TagMap.

Lemma walk_app st l1 l2 :
  walk git tagMap st (l1 ++ l2)
  = st' ← walk git tagMap st l1; walk git tagMap st' l2.
Proof.
  revert st. induction l1 as [|v l1 IH]; intros st; simpl; [reflexivity|].
  destruct (step git tagMap st v) as [st1|]; simpl; [apply IH | reflexivity].
Qed.

Lemma step_prerelease st v tagInfo :
  Js.get v (tags tagMap) = Some tagInfo -> isPreRelease v = true ->
  step git tagMap st v
  = Some (mkState
            (snd (uniqueCommitsAt (getCommits git) tagInfo (seenSet st)))
            (changelogs st)
            (pendingCommits st
             ++ fst (uniqueCommitsAt (getCommits git) tagInfo (seenSet st)))
            (match pendingTagInfo st with
             | Some info => Some info
             | None => Some (mkPending (display tagInfo) (original tagInfo)
                               (getTagDate git (original tagInfo)))
             end)).
Proof.
  intros Hg Hp. unfold step, uniqueCommitsAt. rewrite Hg. simpl.
  destruct (dedupeCommits _ _) as [u seen]. rewrite Hp. reflexivity.
Qed.

Lemma step_stable st v tagInfo :
  Js.get v (tags tagMap) = Some tagInfo -> isPreRelease v = false ->
  step git tagMap st v
  = Some (mkState
            (snd (uniqueCommitsAt (getCommits git) tagInfo (seenSet st)))
            (changelogs st
             ++ [mkTagChangelog v (display tagInfo) (original tagInfo)
                   (getTagDate git (original tagInfo))
                   (pendingCommits st
                    ++ fst (uniqueCommitsAt (getCommits git) tagInfo
                                            (seenSet st)))])
            [] None).
Proof.
  intros Hg Hp. unfold step, uniqueCommitsAt. rewrite Hg. simpl.
  destruct (dedupeCommits _ _) as [u seen]. rewrite Hp. reflexivity.
Qed.

(** The walk goes through whenever every version has its tag. *)
Lemma walk_total st vs :
  Forall (fun v => is_Some (Js.get v (tags tagMap))) vs ->
  is_Some (walk git tagMap st vs).
Proof.
  intros H. revert st. induction H as [|v vs [ti Hv] _ IH]; intros st.
  - simpl. eauto.
  - simpl. destruct (isPreRelease v) eqn:Hp.
    + rewrite (step_prerelease _ _ _ Hv Hp). simpl. apply IH.
    + rewrite (step_stable _ _ _ Hv Hp). simpl. apply IH.
Qed.

(** After a stable version nothing is pending. *)
Lemma walk_ends_stable st vs s st' :
  walk git tagMap st (vs ++ [s]) = Some st' -> isPreRelease s = false ->
  pendingCommits st' = [] /\ pendingTagInfo st' = None.
Proof.
  rewrite walk_app. destruct (walk git tagMap st vs) as [st1|]; [|discriminate].
  simpl. intros H Hs.
  destruct (step git tagMap st1 s) as [st2|] eqn:E; [|discriminate].
  simpl in H. inversion H; subst st2. clear H.
  unfold step in E. destruct (Js.get s (tags tagMap)) as [ti|]; [|discriminate].
  simpl in E. destruct (dedupeCommits _ _) as [u seen]. rewrite Hs in E.
  inversion E. split; reflexivity.
Qed.

(** A run of pre-releases emits nothing: it accumulates the commits and
    keeps the identity of the first version met when none is held. *)
Lemma walk_chain st chain :
  Forall (fun v => is_Some (Js.get v (tags tagMap))) chain ->
  Forall (fun v => isPreRelease v = true) chain ->
  exists st',
    walk git tagMap st chain = Some st'
    /\ changelogs st' = changelogs st
    /\ pendingCommits st'
       = pendingCommits st
         ++ chainCommits (getCommits git) tagMap (seenSet st) chain
    /\ pendingTagInfo st'
       = match pendingTagInfo st, chain with
         | Some info, _ => Some info
         | None, [] => None
         | None, v :: _ =>
             (fun ti => mkPending (display ti) (original ti)
                                  (getTagDate git (original ti)))
               <$> Js.get v (tags tagMap)
         end.
Proof.
  intros Hwf Hpre. revert st.
  induction chain as [|v chain IH]; intros st.
  - exists st. simpl. rewrite app_nil_r.
    destruct (pendingTagInfo st); auto.
  - inversion Hwf as [|? ? [ti Hv] Hwf']; subst.
    inversion Hpre as [|? ? Hp Hpre']; subst.
    destruct (IH Hwf' Hpre'
                (mkState
                   (snd (uniqueCommitsAt (getCommits git) ti (seenSet st)))
                   (changelogs st)
                   (pendingCommits st
                    ++ fst (uniqueCommitsAt (getCommits git) ti (seenSet st)))
                   (match pendingTagInfo st with
                    | Some info => Some info
                    | None => Some (mkPending (display ti) (original ti)
                                      (getTagDate git (original ti)))
                    end)))
      as (st' & Hw & Hc & Hpc & Hpi).
    exists st'. simpl walk. rewrite (step_prerelease _ _ _ Hv Hp). simpl.
    split; [exact Hw|]. split; [exact Hc|]. simpl in *. split.
    + rewrite Hpc, Hv. destruct (uniqueCommitsAt _ _ _) as [u seen'].
      simpl. rewrite <- app_assoc. reflexivity.
    + rewrite Hpi, Hv. destruct (pendingTagInfo st); reflexivity.
Qed.

End Assembler.

Section AssemblerTheorems.
Import Str Parser Dedup Props Cli.

(** C1.  For the version sequence [1.0.0-rc.1], [1.0.0] the assembler
    emits exactly one TagChangelog.  Its label, display tag, original
    tag and date are those of the stable version, and its commits are
    the whole accumulation: the deduplicated commits of the pre-release
    followed by those of the stable version (so [fix: a] then [feat: b]
    when these are the two deduplicated lists). *)
Theorem C1_prerelease_rolls_into_stable (git : Git) (tagMap : TagMap)
        (rcInfo stInfo : TagInfo) :
  versions tagMap = ["1.0.0-rc.1"; "1.0.0"] ->
  Js.get "1.0.0-rc.1" (tags tagMap) = Some rcInfo ->
  Js.get "1.0.0" (tags tagMap) = Some stInfo ->
  let d1 := uniqueCommitsAt (getCommits git) rcInfo Dedup.empty in
  let d2 := uniqueCommitsAt (getCommits git) stInfo (snd d1) in
  assemble git tagMap
  = Some [mkTagChangelog "1.0.0" (display stInfo) (original stInfo)
            (getTagDate git (original stInfo)) (fst d1 ++ fst d2)].
Proof.
  intros Hv Hrc Hst d1 d2. unfold assemble. rewrite Hv. simpl walk.
  rewrite (step_prerelease git tagMap _ _ _ Hrc eq_refl). simpl.
  rewrite (step_stable git tagMap _ _ _ Hst eq_refl). simpl.
  reflexivity.
Qed.

Lemma C1_witness :
  normalizeTags ["v1.0.0-rc.1"; "v1.0.0"] = Some Scenario.rcThenStable
  /\ assemble Scenario.gitFixThenFeat Scenario.rcThenStable
     = Some [mkTagChangelog "1.0.0" "v1.0.0" "v1.0.0" "2025-01-15"
               [Scenario.fixA; Scenario.featB]].
Proof.
  split; [vm_compute; reflexivity|].
  exact (C1_prerelease_rolls_into_stable Scenario.gitFixThenFeat
           Scenario.rcThenStable Scenario.rcInfo Scenario.stableInfo
           eq_refl eq_refl eq_refl).
Defined.

(** C4.  When the version sequence ends in a chain of pre-releases,
    [first :: rest], that no stable version follows (what precedes the
    chain is empty or ends in a stable version), the walk emits nothing
    for the chain, and when the commits accumulated over the chain are
    not empty exactly one TagChangelog is added after the walk.  It
    carries the display tag, original tag and date of the first
    pre-release of the chain, and its label is that display tag without
    its leading [v]. *)
Theorem C4_trailing_prerelease_chain (git : Git) (tagMap : TagMap)
        (pre : list string) (first : string) (rest : list string) :
  well_formed tagMap ->
  versions tagMap = pre ++ first :: rest ->
  Forall (fun v => isPreRelease v = true) (first :: rest) ->
  (pre = [] \/ exists pre' s, pre = pre' ++ [s] /\ isPreRelease s = false) ->
  exists st stEnd firstInfo,
    walk git tagMap init pre = Some st
    /\ walk git tagMap init (versions tagMap) = Some stEnd
    /\ changelogs stEnd = changelogs st
    /\ Js.get first (tags tagMap) = Some firstInfo
    /\ let pending :=
         chainCommits (getCommits git) tagMap (seenSet st) (first :: rest) in
       pendingCommits stEnd = pending
       /\ (pending <> [] ->
           assemble git tagMap
           = Some (changelogs stEnd
                   ++ [mkTagChangelog (strip_v (display firstInfo))
                         (display firstInfo) (original firstInfo)
                         (getTagDate git (original firstInfo)) pending])).
Proof.
  intros Hwf Hv Hchain Hpre. unfold well_formed in Hwf. rewrite Hv in Hwf.
  apply Forall_app in Hwf as [Hwf1 Hwf2].
  destruct (walk_total git tagMap init pre Hwf1) as [st Hst].
  assert (Hidle : pendingCommits st = [] /\ pendingTagInfo st = None).
  { destruct Hpre as [->|(pre' & s & -> & Hs)].
    - simpl in Hst. inversion Hst. split; reflexivity.
    - exact (walk_ends_stable git tagMap _ _ _ _ Hst Hs). }
  destruct Hidle as [Hpc0 Hpi0].
  destruct (walk_chain git tagMap st (first :: rest) Hwf2 Hchain)
    as (stEnd & Hw & Hc & Hpc & Hpi).
  inversion Hwf2 as [|? ? [firstInfo Hfirst] _]; subst.
  exists st, stEnd, firstInfo.
  assert (Hall : walk git tagMap init (versions tagMap) = Some stEnd).
  { rewrite Hv, walk_app, Hst. exact Hw. }
  rewrite Hpc0, app_nil_l in Hpc. rewrite Hpi0, Hfirst in Hpi. simpl in Hpi.
  remember (chainCommits (getCommits git) tagMap (seenSet st) (first :: rest))
    as pending eqn:E.
  repeat split; try assumption.
  intros Hne. unfold assemble. rewrite Hall.
  change (flush <$> Some stEnd) with (Some (flush stEnd)).
  unfold flush. rewrite Hpi, Hpc.
  destruct pending as [|c cs]; [congruence | reflexivity].
Qed.

Lemma C4_witness :
  normalizeTags ["v1.0.0-rc.1"] = Some Scenario.rcOnly
  /\ assemble Scenario.gitFeat Scenario.rcOnly
     = Some [mkTagChangelog "1.0.0-rc.1" "v1.0.0-rc.1" "v1.0.0-rc.1"
               "2025-01-15" [Scenario.featA]].
Proof.
  split; [vm_compute; reflexivity|].
  assert (Hwf : well_formed Scenario.rcOnly).
  { repeat constructor. eexists. reflexivity. }
  assert (Hchain : Forall (fun v => isPreRelease v = true) ["1.0.0-rc.1"]).
  { repeat constructor. }
  destruct (C4_trailing_prerelease_chain Scenario.gitFeat Scenario.rcOnly
              [] "1.0.0-rc.1" [] Hwf eq_refl Hchain (or_introl eq_refl))
    as (st & stEnd & firstInfo & Hst & Hend & Hc & Hfirst & _ & Hfinal).
  simpl in Hst, Hfirst. inversion Hst; subst st. inversion Hfirst; subst firstInfo.
  rewrite Hfinal; [|vm_compute; discriminate].
  rewrite Hc. vm_compute. reflexivity.
Defined.

End AssemblerTheorems.

(** *** The TagMap of normalizeTags in the assembler *)

Section NormalizedAssembly.
Import Js Parser Props Cli.

(** Every version that [normalizeTags] lists has its canonical tag, whose
    display form is the version behind a [v]: the label of a trailing
    pre-release group is the version itself. *)
Lemma normalizeTags_well_formed tags tm :
  normalizeTags tags = Some tm ->
  well_formed tm
  /\ forall v info, v ∈ versions tm -> get v (Parser.tags tm) = Some info ->
       display info = "v" +:+ v /\ Cli.strip_v (display info) = v.
Proof.
  intros H. destruct (normalizeTags_spec tags) as (tm' & Hn & _ & _ & Hget & Hinfo & _).
  rewrite H in Hn. inversion Hn; subst tm'. split.
  - unfold well_formed. apply Forall_forall. intros v Hv. apply Hget, Hv.
  - intros v info Hv Hg. destruct (Hinfo v Hv) as (info' & Hg' & _ & Hd & _).
    rewrite Hg in Hg'. inversion Hg'; subst info'. rewrite Hd. auto.
Qed.

End NormalizedAssembly.

(** * Further properties of the code *)

(** ** Trimming, splitting and joining *)

Section TrimFacts.
Import Chars Str StrOps Parser Props Terms.

Lemma rev_onto_app s acc : rev_onto s acc = rev s +:+ acc.
Proof.
  unfold rev. revert acc. induction s as [|c s IH]; intros acc; [reflexivity|].
  simpl. rewrite (IH (String c acc)), (IH (String c "")), sapp_assoc.
  reflexivity.
Qed.

Lemma rev_cons c s : rev (String c s) = rev s +:+ String c "".
Proof. unfold rev at 1. simpl. apply rev_onto_app. Qed.

Lemma rev_app s t : rev (s +:+ t) = rev t +:+ rev s.
Proof.
  induction s as [|c s IH].
  - rewrite sapp_nil_l. change (rev "") with "". rewrite sapp_nil_r. reflexivity.
  - rewrite sapp_cons, !rev_cons, IH, sapp_assoc. reflexivity.
Qed.

Lemma rev_involutive s : rev (rev s) = s.
Proof.
  induction s as [|c s IH]; [reflexivity|].
  rewrite rev_cons, rev_app, IH. reflexivity.
Qed.

Lemma forallb_rev p s : forallb p (rev s) = forallb p s.
Proof.
  induction s as [|c s IH]; [reflexivity|].
  rewrite rev_cons, forallb_app, IH. simpl. rewrite andb_true_r, andb_comm.
  reflexivity.
Qed.

Lemma last_char_cons d u : u <> "" -> last_char (String d u) = last_char u.
Proof. destruct u; [congruence | reflexivity]. Qed.

Lemma last_char_app_cons s c t : last_char (s +:+ String c t) = last_char (String c t).
Proof.
  induction s as [|d s IH]; [reflexivity|].
  rewrite sapp_cons, last_char_cons; [exact IH|].
  destruct s; discriminate.
Qed.

Lemma last_char_snoc s c : last_char (s +:+ String c "") = Some c.
Proof. rewrite last_char_app_cons. reflexivity. Qed.

Lemma rev_head s c : last_char s = Some c -> exists t, rev s = String c t.
Proof.
  induction s as [|d s IH]; [discriminate|].
  destruct s as [|e s].
  - simpl. intros H. inversion H. exists "". reflexivity.
  - intros H. change (last_char (String d (String e s)))
      with (last_char (String e s)) in H.
    destruct (IH H) as [t Ht]. exists (t +:+ String d "").
    rewrite rev_cons, Ht. reflexivity.
Qed.

Lemma trimStart_spaces w t :
  forallb is_space w = true -> trimStart (w +:+ t) = trimStart t.
Proof.
  induction w as [|c w IH]; [reflexivity|].
  simpl. intros H. apply andb_prop in H as [Hc Hw]. rewrite Hc. auto.
Qed.

Lemma trimStart_fixed t : no_leading_space t = true -> trimStart t = t.
Proof.
  destruct t as [|c t]; [reflexivity|]. simpl. intros H.
  apply negb_true_iff in H. rewrite H. reflexivity.
Qed.

Lemma trimStart_decomp s :
  exists w, s = w +:+ trimStart s /\ forallb is_space w = true
            /\ no_leading_space (trimStart s) = true.
Proof.
  induction s as [|c s (w & Hs & Hw & Hn)].
  - exists "". auto.
  - simpl. destruct (is_space c) eqn:Hc.
    + exists (String c w). rewrite sapp_cons, <- Hs. simpl. rewrite Hc. auto.
    + exists "". simpl. rewrite Hc. auto.
Qed.

Lemma trimEnd_spaces t w :
  forallb is_space w = true -> trimEnd (t +:+ w) = trimEnd t.
Proof.
  intros H. unfold trimEnd. rewrite rev_app, trimStart_spaces; [reflexivity|].
  rewrite forallb_rev. exact H.
Qed.

Lemma trimEnd_fixed t : no_trailing_space t = true -> trimEnd t = t.
Proof.
  unfold no_trailing_space, trimEnd. destruct (last_char t) as [c|] eqn:E.
  - intros H. destruct (rev_head _ _ E) as [u Hu]. rewrite Hu.
    rewrite trimStart_fixed; [|exact H]. rewrite <- Hu. apply rev_involutive.
  - intros _. destruct t as [|c t]; [reflexivity|].
    exfalso. revert c E. induction t as [|d t IH]; intros c E; [discriminate|].
    exact (IH d E).
Qed.

Lemma no_trailing_space_rev s :
  no_leading_space s = true -> no_trailing_space (rev s) = true.
Proof.
  destruct s as [|c s]; [reflexivity|]. simpl. intros H.
  unfold no_trailing_space. rewrite rev_cons, last_char_snoc. exact H.
Qed.

Lemma trimEnd_decomp s :
  exists w, s = trimEnd s +:+ w /\ forallb is_space w = true
            /\ no_trailing_space (trimEnd s) = true.
Proof.
  destruct (trimStart_decomp (rev s)) as (w & Hs & Hw & Hn).
  exists (rev w). unfold trimEnd. split; [|split].
  - rewrite <- rev_app, <- Hs, rev_involutive. reflexivity.
  - rewrite forallb_rev. exact Hw.
  - apply no_trailing_space_rev, Hn.
Qed.

Lemma no_trailing_space_app p x :
  no_trailing_space p = true -> no_trailing_space x = true ->
  no_trailing_space (p +:+ x) = true.
Proof.
  intros Hp Hx. destruct x as [|c x].
  - rewrite sapp_nil_r. exact Hp.
  - unfold no_trailing_space. rewrite last_char_app_cons. exact Hx.
Qed.

(** Trimming the end stops at a text that does not end in white space. *)
Lemma trimEnd_after p x :
  p <> "" -> no_trailing_space p = true ->
  trimEnd (p +:+ x) = p +:+ trimEnd x.
Proof.
  intros Hne Hp. destruct (trimEnd_decomp x) as (w & Hx & Hw & Hn).
  rewrite Hx at 1. rewrite <- sapp_assoc, (trimEnd_spaces _ _ Hw).
  apply trimEnd_fixed. destruct (trimEnd x) as [|c y] eqn:E.
  - rewrite sapp_nil_r. exact Hp.
  - unfold no_trailing_space. rewrite last_char_app_cons. exact Hn.
Qed.

Lemma trimEnd_all_spaces s : forallb is_space s = true -> trimEnd s = "".
Proof.
  intros H. rewrite <- (sapp_nil_l s). rewrite (trimEnd_spaces "" s H).
  reflexivity.
Qed.

Lemma no_leading_space_trimEnd s :
  no_leading_space s = true -> no_leading_space (trimEnd s) = true.
Proof.
  destruct (trimEnd_decomp s) as (w & Hs & _ & _).
  destruct (trimEnd s) as [|c t]; [reflexivity|].
  rewrite Hs, sapp_cons. simpl. auto.
Qed.

Lemma trim_fixed t :
  no_leading_space t = true -> no_trailing_space t = true -> trim t = t.
Proof.
  intros H1 H2. unfold trim. rewrite (trimStart_fixed _ H1).
  apply trimEnd_fixed, H2.
Qed.

Lemma trim_edges s :
  no_leading_space (trim s) = true /\ no_trailing_space (trim s) = true.
Proof.
  unfold trim. destruct (trimStart_decomp s) as (w & _ & _ & Hn).
  split; [apply no_leading_space_trimEnd, Hn|].
  destruct (trimEnd_decomp (trimStart s)) as (w' & _ & _ & Hn'). exact Hn'.
Qed.

Lemma trim_idempotent s : trim (trim s) = trim s.
Proof. destruct (trim_edges s). apply trim_fixed; assumption. Qed.

Lemma trim_spaces_l w t : forallb is_space w = true -> trim (w +:+ t) = trim t.
Proof. intros H. unfold trim. rewrite (trimStart_spaces _ _ H). reflexivity. Qed.

Lemma trimStart_trimEnd s : trimStart (trimEnd s) = trimEnd (trimStart s).
Proof.
  destruct (trimStart_decomp s) as (w & Hs & Hw & Hn).
  destruct (forallb is_space (trimStart s)) eqn:Hall.
  - rewrite (trimEnd_all_spaces _ Hall).
    rewrite Hs, <- (sapp_nil_l (w +:+ trimStart s)).
    rewrite trimEnd_spaces; [reflexivity|].
    rewrite forallb_app, Hw, Hall. reflexivity.
  - destruct (trimEnd_decomp (trimStart s)) as (w' & Hs' & Hw' & Hn').
    assert (Hne : trimEnd (trimStart s) <> "").
    { intros E. rewrite E, sapp_nil_l in Hs'. congruence. }
    rewrite Hs at 1. rewrite Hs' at 1.
    rewrite <- sapp_assoc, (trimEnd_spaces _ _ Hw').
    rewrite (trimEnd_fixed (w +:+ trimEnd (trimStart s))).
    + rewrite (trimStart_spaces _ _ Hw). apply trimStart_fixed.
      apply no_leading_space_trimEnd, Hn.
    + destruct (trimEnd (trimStart s)) as [|c y]; [congruence|].
      unfold no_trailing_space. rewrite last_char_app_cons. exact Hn'.
Qed.

Lemma trim_trimEnd s : trim (trimEnd s) = trim s.
Proof.
  unfold trim. rewrite trimStart_trimEnd.
  destruct (trimEnd_decomp (trimStart s)) as (w & _ & _ & Hn).
  apply trimEnd_fixed, Hn.
Qed.

Lemma forallb_trim p s : forallb p s = true -> forallb p (trim s) = true.
Proof.
  intros H. unfold trim.
  destruct (trimStart_decomp s) as (w & Hs & _ & _).
  destruct (trimEnd_decomp (trimStart s)) as (w' & Hs' & _ & _).
  rewrite Hs, Hs', !forallb_app in H.
  apply andb_prop in H as [_ H]. apply andb_prop in H as [H _]. exact H.
Qed.

End TrimFacts.

Section SplitFacts.
Import Chars Str StrOps Parser Props Terms.

Lemma split_on_nonempty sep s : split_on sep s <> [].
Proof.
  induction s as [|c s IH]; simpl; [discriminate|].
  destruct (Ascii.eqb c sep); [discriminate|].
  destruct (split_on sep s); [congruence | discriminate].
Qed.

Lemma split_on_cons_other sep c s :
  Ascii.eqb c sep = false ->
  split_on sep (String c s)
  = String c (hd "" (split_on sep s)) :: tl (split_on sep s).
Proof.
  intros H. simpl. rewrite H.
  destruct (split_on sep s) eqn:E; [|reflexivity].
  exfalso. exact (split_on_nonempty _ _ E).
Qed.

(** A text without the separator is one field. *)
Lemma split_on_none sep s :
  includes_char sep s = false -> split_on sep s = [s].
Proof.
  induction s as [|c s IH]; [reflexivity|]. simpl. intros H.
  apply orb_false_elim in H as [Hc Hs].
  rewrite Ascii.eqb_sym in Hc. rewrite Hc, (IH Hs). reflexivity.
Qed.

(** The first separator ends the first field. *)
Lemma split_on_first sep a b :
  includes_char sep a = false ->
  split_on sep (a +:+ String sep b) = a :: split_on sep b.
Proof.
  induction a as [|c a IH]; intros H.
  - rewrite sapp_nil_l. simpl. rewrite Ascii.eqb_refl. reflexivity.
  - simpl in H. apply orb_false_elim in H as [Hc Ha].
    rewrite Ascii.eqb_sym in Hc.
    rewrite sapp_cons, (split_on_cons_other _ _ _ Hc), (IH Ha). reflexivity.
Qed.

Lemma split_on_app sep a b :
  split_on sep (a +:+ String sep b) = split_on sep a ++ split_on sep b.
Proof.
  induction a as [|c a IH].
  - rewrite sapp_nil_l. simpl. rewrite Ascii.eqb_refl. reflexivity.
  - rewrite sapp_cons. destruct (Ascii.eqb c sep) eqn:Hc.
    + simpl. rewrite Hc, IH. reflexivity.
    + rewrite !(split_on_cons_other _ _ _ Hc), IH.
      destruct (split_on sep a) eqn:E; [|reflexivity].
      exfalso. exact (split_on_nonempty _ _ E).
Qed.

Lemma join_cons sep p q ps :
  join sep (p :: q :: ps) = p +:+ sep +:+ join sep (q :: ps).
Proof. reflexivity. Qed.

Lemma join_split sep s : join (String sep "") (split_on sep s) = s.
Proof.
  induction s as [|c s IH]; [reflexivity|].
  destruct (Ascii.eqb_spec c sep) as [->|Hc].
  - simpl. rewrite Ascii.eqb_refl.
    destruct (split_on sep s) as [|p ps] eqn:E.
    + exfalso. exact (split_on_nonempty _ _ E).
    + rewrite join_cons, IH. reflexivity.
  - apply Ascii.eqb_neq in Hc. rewrite (split_on_cons_other _ _ _ Hc).
    destruct (split_on sep s) as [|p ps] eqn:E.
    + exfalso. exact (split_on_nonempty _ _ E).
    + simpl hd. simpl tl. destruct ps as [|q ps].
      * simpl in *. rewrite IH. reflexivity.
      * rewrite join_cons, sapp_cons, <- join_cons, IH. reflexivity.
Qed.

Lemma split_join sep ls :
  ls <> [] -> Forall (fun l => includes_char sep l = false) ls ->
  split_on sep (join (String sep "") ls) = ls.
Proof.
  intros Hne H. induction H as [|l ls Hl Hls IH]; [congruence|].
  destruct ls as [|l' ls].
  - simpl. apply split_on_none, Hl.
  - rewrite join_cons, sapp_cons, sapp_nil_l, (split_on_first _ _ _ Hl).
    rewrite IH; [reflexivity | discriminate].
Qed.

Lemma split_on_fields sep s :
  Forall (fun l => includes_char sep l = false) (split_on sep s).
Proof.
  induction s as [|c s IH]; [repeat constructor|].
  destruct (Ascii.eqb c sep) eqn:Hc.
  - simpl. rewrite Hc. constructor; [reflexivity | exact IH].
  - rewrite (split_on_cons_other _ _ _ Hc).
    destruct (split_on sep s) as [|p ps] eqn:E.
    + exfalso. exact (split_on_nonempty _ _ E).
    + inversion IH; subst. constructor; [|assumption].
      simpl. rewrite Ascii.eqb_sym, Hc. assumption.
Qed.

End SplitFacts.

(** ** dedup.ts: what a pass keeps *)

Section DedupeFacts.
Import Chars Str Parser Dedup Props Terms.

Lemma dedupeCommits_cons_seen c cs seen :
  getKey c ∈ seen -> dedupeCommits (c :: cs) seen = dedupeCommits cs seen.
Proof.
  intros H. simpl. unfold has. rewrite bool_decide_eq_true_2 by exact H.
  reflexivity.
Qed.

Lemma dedupeCommits_cons_new c cs seen :
  getKey c ∉ seen ->
  dedupeCommits (c :: cs) seen
  = (c :: fst (dedupeCommits cs (add seen c)),
     snd (dedupeCommits cs (add seen c))).
Proof.
  intros H. simpl. unfold has. rewrite bool_decide_eq_false_2 by exact H.
  destruct (dedupeCommits cs (add seen c)); reflexivity.
Qed.

Lemma keysOf_cons c cs : keysOf (c :: cs) = getKey c :: keysOf cs.
Proof. reflexivity. Qed.

Lemma elem_of_add k seen c : k ∈ add seen c <-> k = getKey c \/ k ∈ seen.
Proof. unfold add. rewrite elem_of_union, elem_of_singleton. reflexivity. Qed.

(** The set after a pass holds the keys of all the commits passed. *)
Lemma dedupeCommits_seen_elem commits seen k :
  k ∈ snd (dedupeCommits commits seen) <-> k ∈ seen \/ k ∈ keysOf commits.
Proof.
  revert seen. induction commits as [|c cs IH]; intros seen.
  - simpl. rewrite elem_of_nil. tauto.
  - rewrite keysOf_cons, elem_of_cons.
    destruct (decide (getKey c ∈ seen)) as [Hin|Hin].
    + rewrite (dedupeCommits_cons_seen _ _ _ Hin), IH.
      split; [tauto|]. intros [H|[->|H]]; auto.
    + rewrite (dedupeCommits_cons_new _ _ _ Hin). cbn [snd].
      rewrite IH, elem_of_add. tauto.
Qed.

Lemma dedupeCommits_seen commits seen :
  snd (dedupeCommits commits seen) = seen ∪ list_to_set (keysOf commits).
Proof.
  apply set_eq. intros k.
  rewrite dedupeCommits_seen_elem, elem_of_union, elem_of_list_to_set.
  reflexivity.
Qed.

Lemma dedupeCommits_keys commits seen k :
  k ∈ keysOf (fst (dedupeCommits commits seen))
  <-> k ∈ keysOf commits /\ k ∉ seen.
Proof.
  revert seen. induction commits as [|c cs IH]; intros seen.
  - simpl. rewrite elem_of_nil. tauto.
  - rewrite (keysOf_cons c cs), elem_of_cons.
    destruct (decide (getKey c ∈ seen)) as [Hin|Hin].
    + rewrite (dedupeCommits_cons_seen _ _ _ Hin), IH.
      split; [tauto|]. intros [[->|H] Hk]; [contradiction | auto].
    + rewrite (dedupeCommits_cons_new _ _ _ Hin). cbn [fst].
      rewrite keysOf_cons, elem_of_cons, IH, elem_of_add.
      split.
      * intros [->|[H1 H2]]; [auto | tauto].
      * intros [[->|H] Hk]; [auto|].
        destruct (decide (k = getKey c)); [auto | tauto].
Qed.

Lemma dedupeCommits_NoDup commits seen :
  NoDup (keysOf (fst (dedupeCommits commits seen))).
Proof.
  revert seen. induction commits as [|c cs IH]; intros seen.
  - simpl. constructor.
  - destruct (decide (getKey c ∈ seen)) as [Hin|Hin].
    + rewrite (dedupeCommits_cons_seen _ _ _ Hin). apply IH.
    + rewrite (dedupeCommits_cons_new _ _ _ Hin). cbn [fst].
      rewrite keysOf_cons. constructor; [|apply IH].
      rewrite dedupeCommits_keys, elem_of_add. tauto.
Qed.

Lemma dedupeCommits_sublist commits seen :
  sublist (fst (dedupeCommits commits seen)) commits.
Proof.
  revert seen. induction commits as [|c cs IH]; intros seen.
  - simpl. constructor.
  - destruct (decide (getKey c ∈ seen)) as [Hin|Hin].
    + rewrite (dedupeCommits_cons_seen _ _ _ Hin). apply sublist_cons, IH.
    + rewrite (dedupeCommits_cons_new _ _ _ Hin). cbn [fst].
      apply sublist_skip, IH.
Qed.

(** The first commit with a new key is the one that stays. *)
Lemma dedupeCommits_first pre c post seen :
  getKey c ∉ seen -> getKey c ∉ keysOf pre ->
  c ∈ fst (dedupeCommits (pre ++ c :: post) seen).
Proof.
  revert seen. induction pre as [|d pre IH]; intros seen Hs Hp.
  - rewrite app_nil_l, (dedupeCommits_cons_new _ _ _ Hs). cbn [fst]. left.
  - rewrite keysOf_cons in Hp. apply not_elem_of_cons in Hp as [Hd Hp].
    rewrite <- app_comm_cons. destruct (decide (getKey d ∈ seen)) as [Hin|Hin].
    + rewrite (dedupeCommits_cons_seen _ _ _ Hin). apply IH; assumption.
    + rewrite (dedupeCommits_cons_new _ _ _ Hin). cbn [fst]. right.
      apply IH; [|assumption]. rewrite elem_of_add. intros [E|E]; [|auto].
      apply Hd. rewrite <- E. reflexivity.
Qed.

Lemma dedupeCommits_app a b seen :
  dedupeCommits (a ++ b) seen
  = (fst (dedupeCommits a seen)
     ++ fst (dedupeCommits b (snd (dedupeCommits a seen))),
     snd (dedupeCommits b (snd (dedupeCommits a seen)))).
Proof.
  revert seen. induction a as [|c a IH]; intros seen.
  - simpl. destruct (dedupeCommits b seen); reflexivity.
  - rewrite <- app_comm_cons. destruct (decide (getKey c ∈ seen)) as [Hin|Hin].
    + rewrite !(dedupeCommits_cons_seen _ _ _ Hin). apply IH.
    + rewrite !(dedupeCommits_cons_new _ _ _ Hin). cbn [fst snd].
      rewrite IH. reflexivity.
Qed.

(** Commits whose keys are all in the set are all dropped. *)
Lemma dedupeCommits_all_seen commits seen :
  (forall c, c ∈ commits -> getKey c ∈ seen) ->
  dedupeCommits commits seen = ([], seen).
Proof.
  induction commits as [|c cs IH]; intros H; [reflexivity|].
  rewrite dedupeCommits_cons_seen by (apply H; left).
  apply IH. intros d Hd. apply H. right. exact Hd.
Qed.

(** X1.  dedupeCommits keeps, in their order, the commits that bring a key
    neither in the set nor met earlier in the list: the keys of the result
    are pairwise different, they are the keys of the input that the set did
    not hold, and the commit kept for a key is the first that has it. *)
Theorem dedupeCommits_keeps_first_occurrences
        (commits : list ConventionalCommit) (seenSet : DeduplicationSet) :
  let result := fst (dedupeCommits commits seenSet) in
  sublist result commits
  /\ NoDup (keysOf result)
  /\ (forall k, k ∈ keysOf result <-> k ∈ keysOf commits /\ k ∉ seenSet)
  /\ (forall pre c post,
        commits = pre ++ c :: post ->
        getKey c ∉ seenSet -> getKey c ∉ keysOf pre -> c ∈ result).
Proof.
  cbv zeta. split; [apply dedupeCommits_sublist|].
  split; [apply dedupeCommits_NoDup|].
  split; [apply dedupeCommits_keys|].
  intros pre c post -> Hs Hp. apply dedupeCommits_first; assumption.
Qed.

(** X2.  The set that dedupeCommits leaves is the old one with the keys of
    all the commits it was given, kept or dropped, so that a later pass over
    any of these commits returns nothing and leaves the set as it is. *)
Theorem dedupeCommits_remembers
        (commits again : list ConventionalCommit) (seenSet : DeduplicationSet) :
  let seen' := snd (dedupeCommits commits seenSet) in
  seen' = seenSet ∪ list_to_set (keysOf commits)
  /\ ((forall c, c ∈ again -> getKey c ∈ keysOf commits) ->
      dedupeCommits again seen' = ([], seen')).
Proof.
  cbv zeta. split; [apply dedupeCommits_seen|].
  intros H. apply dedupeCommits_all_seen. intros c Hc.
  apply dedupeCommits_seen_elem. right. apply H, Hc.
Qed.

(** X3.  A pass over [a ++ b] is a pass over [a] followed by a pass over [b]
    with the set the first pass left. *)
Theorem dedupeCommits_concat (a b : list ConventionalCommit)
        (seenSet : DeduplicationSet) :
  let ra := dedupeCommits a seenSet in
  let rb := dedupeCommits b (snd ra) in
  dedupeCommits (a ++ b) seenSet = (fst ra ++ fst rb, snd rb).
Proof. cbv zeta. apply dedupeCommits_app. Qed.

End DedupeFacts.

(** ** cli.ts: what the assembler emits *)

Section AssemblerInvariants.
Import Chars Str Parser Dedup Props Cli Terms.

Variable git : Git.
Variable tagMap : TagMap.

Lemma step_inv st v st' :
  step git tagMap st v = Some st' ->
  exists ti, Js.get v (tags tagMap) = Some ti.
Proof.
  unfold step. destruct (Js.get v (tags tagMap)) as [ti|]; [eauto | discriminate].
Qed.

Lemma uniqueCommitsAt_parsed v ti seen :
  Js.get v (tags tagMap) = Some ti ->
  uniqueCommitsAt (getCommits git) ti seen
  = dedupeCommits (parsedCommits git tagMap v) seen.
Proof. intros H. unfold uniqueCommitsAt, parsedCommits. rewrite H. reflexivity. Qed.

(** Nothing is lost on the way: what the changelogs and the pending list
    hold together grows by the deduplicated commits of every version. *)
Lemma walk_accumulates vs : forall st st',
  walk git tagMap st vs = Some st' ->
  concat (map commits (changelogs st')) ++ pendingCommits st'
  = (concat (map commits (changelogs st)) ++ pendingCommits st)
    ++ fst (dedupeCommits (concat (map (parsedCommits git tagMap) vs))
                          (seenSet st))
  /\ seenSet st'
     = snd (dedupeCommits (concat (map (parsedCommits git tagMap) vs))
                          (seenSet st)).
Proof.
  induction vs as [|v vs IH]; intros st st' H.
  - simpl in H. inversion H; subst. simpl. rewrite app_nil_r. auto.
  - simpl in H. destruct (step git tagMap st v) as [st1|] eqn:E; [|discriminate].
    simpl in H. destruct (IH _ _ H) as [H1 H2].
    destruct (step_inv _ _ _ E) as [ti Hti].
    cbn [map concat]. rewrite dedupeCommits_app. cbn [fst snd].
    rewrite <- (uniqueCommitsAt_parsed _ _ _ Hti).
    destruct (isPreRelease v) eqn:Hp.
    + rewrite (step_prerelease _ _ _ _ _ Hti Hp) in E. inversion E; subst st1.
      cbn [seenSet changelogs pendingCommits] in *.
      rewrite H1, H2, !app_assoc. auto.
    + rewrite (step_stable _ _ _ _ _ Hti Hp) in E. inversion E; subst st1.
      cbn [seenSet changelogs pendingCommits] in *.
      rewrite H1, H2, map_app, concat_app. cbn [map concat commits].
      rewrite !app_nil_r, !app_assoc. auto.
Qed.

(** Commits wait only under the identity of a pre-release. *)
Lemma walk_pending vs : forall st st',
  walk git tagMap st vs = Some st' ->
  (pendingCommits st = [] \/ is_Some (pendingTagInfo st)) ->
  pendingCommits st' = [] \/ is_Some (pendingTagInfo st').
Proof.
  induction vs as [|v vs IH]; intros st st' H Hst.
  - simpl in H. inversion H; subst. exact Hst.
  - simpl in H. destruct (step git tagMap st v) as [st1|] eqn:E; [|discriminate].
    simpl in H. apply (IH _ _ H).
    destruct (step_inv _ _ _ E) as [ti Hti].
    destruct (isPreRelease v) eqn:Hp.
    + rewrite (step_prerelease _ _ _ _ _ Hti Hp) in E. inversion E; subst st1.
      right. cbn [pendingTagInfo]. destruct (pendingTagInfo st); eauto.
    + rewrite (step_stable _ _ _ _ _ Hti Hp) in E. inversion E; subst st1.
      left. reflexivity.
Qed.

Lemma flush_commits st :
  (pendingCommits st = [] \/ is_Some (pendingTagInfo st)) ->
  concat (map commits (flush st))
  = concat (map commits (changelogs st)) ++ pendingCommits st.
Proof.
  unfold flush. intros [H|[info H]].
  - rewrite H, app_nil_r. reflexivity.
  - rewrite H. destruct (pendingCommits st) as [|c cs] eqn:E.
    + rewrite app_nil_r. reflexivity.
    + rewrite map_app, concat_app. cbn [map concat commits].
      rewrite app_nil_r. reflexivity.
Qed.

Lemma walk_entries vs : forall st st',
  walk git tagMap st vs = Some st' ->
  (forall v, v ∈ vs -> v ∈ versions tagMap) ->
  Forall (entry_for git tagMap) (changelogs st) ->
  (forall info, pendingTagInfo st = Some info -> pending_for git tagMap info) ->
  Forall (entry_for git tagMap) (changelogs st')
  /\ (forall info, pendingTagInfo st' = Some info -> pending_for git tagMap info)
  /\ map tag (changelogs st')
     = map tag (changelogs st) ++ List.filter stable vs.
Proof.
  induction vs as [|v vs IH]; intros st st' H Hvs Hc Hp.
  - simpl in H. inversion H; subst. simpl. rewrite app_nil_r. auto.
  - simpl in H. destruct (step git tagMap st v) as [st1|] eqn:E; [|discriminate].
    simpl in H. destruct (step_inv _ _ _ E) as [ti Hti].
    assert (Hv : v ∈ versions tagMap) by (apply Hvs; left).
    assert (Hvs' : forall w, w ∈ vs -> w ∈ versions tagMap)
      by (intros w Hw; apply Hvs; right; exact Hw).
    cbn [List.filter]. unfold stable at 1.
    destruct (isPreRelease v) eqn:Hpre.
    + rewrite (step_prerelease _ _ _ _ _ Hti Hpre) in E. inversion E; subst st1.
      cbn [negb]. apply (IH _ _ H Hvs'); cbn [changelogs pendingTagInfo].
      * exact Hc.
      * intros info. destruct (pendingTagInfo st) as [i0|] eqn:E0.
        -- intros Hi. inversion Hi; subst. apply Hp. reflexivity.
        -- intros Hi. inversion Hi; subst. exists v, ti. auto.
    + rewrite (step_stable _ _ _ _ _ Hti Hpre) in E. inversion E; subst st1.
      cbn [negb].
      destruct (IH _ _ H Hvs') as (H1 & H2 & H3); cbn [changelogs pendingTagInfo].
      * apply Forall_app. split; [exact Hc|]. constructor; [|constructor].
        split; [exact Hv|]. exists ti. cbn. auto.
      * discriminate.
      * split; [exact H1|]. split; [exact H2|].
        rewrite H3. cbn [changelogs]. rewrite map_app, <- app_assoc.
        reflexivity.
Qed.

End AssemblerInvariants.

Section AssemblerOutput.
Import Chars Str Parser Dedup Props Cli Terms.

(** For a TagMap that has the canonical tag of each of its versions the
    assembler returns, and its changelogs hold the deduplicated commits of
    all the versions. *)
Lemma assemble_spec (git : Git) (tm : TagMap) :
  well_formed tm ->
  exists st,
    walk git tm init (versions tm) = Some st
    /\ assemble git tm = Some (flush st)
    /\ concat (map commits (flush st))
       = fst (dedupeCommits (allCommits git tm) Dedup.empty).
Proof.
  intros Hwf.
  destruct (walk_total git tm init (versions tm) Hwf) as [st Hst].
  exists st. split; [exact Hst|].
  split; [unfold assemble; rewrite Hst; reflexivity|].
  destruct (walk_accumulates git tm _ _ _ Hst) as [Hacc _].
  pose proof (walk_pending git tm _ _ _ Hst (or_introl eq_refl)) as Hp.
  rewrite (flush_commits _ Hp), Hacc. reflexivity.
Qed.

(** X4.  From the tags to the changelogs, no commit is lost and none comes
    twice: the commits of the emitted changelogs, read in order, are the
    conventional commits of all the versions in walk order with every later
    commit of an already met key left out. *)
Theorem assemble_keeps_every_commit (git : Git) (allTags : list string) :
  exists tagMap changelogs,
    normalizeTags allTags = Some tagMap
    /\ assemble git tagMap = Some changelogs
    /\ concat (map commits changelogs)
       = fst (dedupeCommits (allCommits git tagMap) Dedup.empty)
    /\ NoDup (keysOf (concat (map commits changelogs))).
Proof.
  destruct (normalizeTags_spec allTags) as (tm & Hn & _).
  destruct (normalizeTags_well_formed _ _ Hn) as [Hwf _].
  destruct (assemble_spec git tm Hwf) as (st & _ & Ha & E).
  exists tm, (flush st). split; [exact Hn|]. split; [exact Ha|].
  split; [exact E|]. rewrite E. apply dedupeCommits_NoDup.
Qed.

(** X5.  The changelogs follow the stable versions: there is one entry for
    every stable version, in the order of the versions, and after them at
    most one entry for pre-releases that no stable version follows. Every
    entry is labelled with a version of the TagMap, shows it behind a [v]
    and carries the canonical tag of that version and the date of that tag. *)
Theorem assemble_one_entry_per_stable_version
        (git : Git) (allTags : list string) :
  exists tagMap changelogs,
    normalizeTags allTags = Some tagMap
    /\ assemble git tagMap = Some changelogs
    /\ (map tag changelogs
        = List.filter (fun v => negb (isPreRelease v)) (versions tagMap)
        \/ exists p,
             map tag changelogs
             = List.filter (fun v => negb (isPreRelease v)) (versions tagMap)
               ++ [p]
             /\ p ∈ versions tagMap /\ isPreRelease p = true)
    /\ Forall (fun e =>
                 tag e ∈ versions tagMap
                 /\ displayTag e = "v" +:+ tag e
                 /\ exists ti, Js.get (tag e) (tags tagMap) = Some ti
                               /\ originalTag e = original ti
                               /\ date e = getTagDate git (original ti))
              changelogs.
Proof.
  destruct (normalizeTags_spec allTags) as (tm & Hn & _).
  destruct (normalizeTags_well_formed _ _ Hn) as [Hwf Hdisp].
  destruct (walk_total git tm init (versions tm) Hwf) as [st Hst].
  exists tm, (flush st). split; [exact Hn|].
  split; [unfold assemble; rewrite Hst; reflexivity|].
  destruct (walk_entries git tm _ _ _ Hst (fun v H => H) (Forall_nil_2 _))
    as (He & Hp & Ht); [discriminate|].
  cbn [init changelogs map app] in Ht.
  assert (Hshow : forall e, entry_for git tm e ->
            tag e ∈ versions tm /\ displayTag e = "v" +:+ tag e
            /\ exists ti, Js.get (tag e) (tags tm) = Some ti
                          /\ originalTag e = original ti
                          /\ date e = getTagDate git (original ti)).
  { intros e (Hv & ti & Hg & Hd & Ho & Hda). split; [exact Hv|].
    destruct (Hdisp _ _ Hv Hg) as [Hdi _]. rewrite Hd, Hdi.
    split; [reflexivity|]. eauto. }
  unfold flush. destruct (pendingCommits st) as [|c cs] eqn:Epc.
  - split; [left; exact Ht|].
    apply Forall_forall. intros e Hin. apply Hshow.
    rewrite Forall_forall in He. apply He.
    destruct (pendingTagInfo st); exact Hin.
  - destruct (pendingTagInfo st) as [info|] eqn:Epi.
    + destruct (Hp info eq_refl) as (v & ti & Hv & Hpre & Hg & ->).
      destruct (Hdisp _ _ Hv Hg) as [Hdi Hstrip].
      cbn [p_display p_original p_date]. split.
      * right. exists v. rewrite map_app, Ht. cbn [map tag].
        rewrite Hstrip. auto.
      * apply Forall_app. split.
        -- apply Forall_forall. intros e Hin. apply Hshow.
           rewrite Forall_forall in He. apply He, Hin.
        -- constructor; [|constructor]. cbn [tag displayTag originalTag date].
           rewrite Hstrip. split; [exact Hv|]. split; [exact Hdi|]. eauto.
    + split; [left; exact Ht|].
      apply Forall_forall. intros e Hin. apply Hshow.
      rewrite Forall_forall in He. apply He, Hin.
Qed.

End AssemblerOutput.

(** ** parser.ts: what a parsed commit looks like *)

Section ParsedCommitFacts.
Import Chars Str StrOps Parser Props Terms.

Lemma toLowerChar_canonicalize c : toLowerChar (canonicalize c) = toLowerChar c.
Proof. destruct c as [[] [] [] [] [] [] [] []]; reflexivity. Qed.

Lemma ci_eqb_lower a b : ci_eqb a b = true -> toLowerChar b = toLowerChar a.
Proof.
  unfold ci_eqb. intros H. apply Ascii.eqb_eq in H.
  rewrite <- (toLowerChar_canonicalize a), <- (toLowerChar_canonicalize b), H.
  reflexivity.
Qed.

Lemma strip_prefix_ci_inv lit : forall s m r,
  strip_prefix_ci lit s = Some (m, r) ->
  s = m +:+ r /\ toLowerCase m = toLowerCase lit.
Proof.
  induction lit as [|a lit IH]; intros s m r H.
  - simpl in H. inversion H. auto.
  - destruct s as [|b s]; [discriminate|]. simpl in H.
    destruct (ci_eqb a b) eqn:Hab; [|discriminate].
    destruct (strip_prefix_ci lit s) as [[m' r']|] eqn:E; [|discriminate].
    simpl in H. inversion H; subst. destruct (IH _ _ _ E) as [-> Hm].
    split; [reflexivity|]. simpl. rewrite Hm, (ci_eqb_lower _ _ Hab).
    reflexivity.
Qed.

Lemma match_type_inv alts s m r :
  match_type alts s = Some (m, r) ->
  s = m +:+ r /\ exists t, t ∈ alts /\ toLowerCase m = toLowerCase t.
Proof.
  induction alts as [|t alts IH]; [discriminate|]. simpl.
  destruct (strip_prefix_ci t s) as [[m' r']|] eqn:E.
  - intros H. inversion H; subst. destruct (strip_prefix_ci_inv _ _ _ _ E).
    split; [assumption|]. exists t. split; [left | assumption].
  - intros H. destruct (IH H) as (Hs & u & Hu & Hm).
    split; [assumption|]. exists u. split; [right; exact Hu | exact Hm].
Qed.

Lemma ALL_TYPES_lower t : t ∈ ALL_TYPES -> toLowerCase t = t.
Proof.
  unfold ALL_TYPES. rewrite !elem_of_cons, elem_of_nil.
  intros H. repeat (destruct H as [->|H]; [reflexivity|]). contradiction.
Qed.

Lemma match_scope_inv s name r :
  match_scope s = Some (Some name, r) ->
  s = "(" +:+ name +:+ ")" +:+ r
  /\ name <> "" /\ forallb is_scope_char name = true.
Proof.
  unfold match_scope. destruct s as [|c s]; [discriminate|].
  destruct (Ascii.eqb_spec c "(") as [->|Hc].
  - destruct (span is_scope_char s) as [n r'] eqn:E.
    destruct n as [|d n]; [discriminate|].
    destruct r' as [|e r']; [discriminate|].
    destruct (Ascii.eqb_spec e ")") as [->|He].
    + intros H. inversion H; subst.
      rewrite (span_app _ _ _ _ E). split; [reflexivity|].
      split; [discriminate | exact (span_forallb _ _ _ _ E)].
    + intros H. exfalso.
      destruct e as [[] [] [] [] [] [] [] []]; try discriminate H.
      apply He. reflexivity.
  - intros H. exfalso.
    destruct c as [[] [] [] [] [] [] [] []]; try discriminate H.
    apply Hc. reflexivity.
Qed.

Lemma match_scope_none s r : match_scope s = Some (None, r) -> r = s.
Proof.
  unfold match_scope. destruct s as [|c s]; [intros H; inversion H; reflexivity|].
  destruct (Ascii.eqb_spec c "(") as [->|Hc].
  - destruct (span is_scope_char s) as [n r'].
    destruct n as [|d n]; [discriminate|].
    destruct r' as [|e r']; [discriminate|].
    destruct e as [[] [] [] [] [] [] [] []]; discriminate.
  - destruct c as [[] [] [] [] [] [] [] []];
      try (intros H; inversion H; reflexivity).
    exfalso. apply Hc. reflexivity.
Qed.

Lemma last_char_forallb p s c :
  last_char s = Some c -> forallb p s = true -> p c = true.
Proof.
  induction s as [|d s IH]; [discriminate|].
  destruct s as [|e s].
  - simpl. intros H. inversion H; subst. rewrite andb_true_r. auto.
  - intros H Hp. change (last_char (String d (String e s)))
      with (last_char (String e s)) in H.
    simpl in Hp. apply andb_prop in Hp as [_ Hp]. exact (IH H Hp).
Qed.

Lemma match_description_inv s d :
  match_description s = Some d -> d <> "" /\ forallb is_dot d = true.
Proof.
  unfold match_description. destruct (span is_space s) as [ws rest].
  destruct rest as [|c rest].
  - destruct (last_char ws) as [c|]; [|discriminate].
    destruct (is_dot c) eqn:Hc; [|discriminate].
    intros H. inversion H. split; [discriminate|]. simpl. rewrite Hc. reflexivity.
  - destruct (forallb is_dot (String c rest)) eqn:Hd; [|discriminate].
    intros H. inversion H; subst. split; [discriminate | exact Hd].
Qed.

(** The type of a parsed commit is one of the eleven, in lower case. *)
Lemma parsed_type commit parsed :
  parseConventionalCommit commit = Some parsed -> type parsed ∈ ALL_TYPES.
Proof.
  unfold parseConventionalCommit.
  destruct (match_conventional (raw_subject commit)) as [[[ty sc] d]|] eqn:E;
    [|discriminate].
  intros H. inversion H; subst parsed; clear H. cbn [type].
  unfold match_conventional in E.
  destruct (match_type ALL_TYPES (raw_subject commit)) as [[ty' r1]|] eqn:E1;
    [|discriminate].
  cbn [mbind option_bind] in E.
  destruct (match_scope r1) as [[sc' r2]|]; [|discriminate].
  cbn [mbind option_bind] in E.
  destruct (match_bang_colon r2) as [r3|]; [|discriminate].
  cbn [mbind option_bind] in E.
  destruct (match_description r3) as [d'|]; [|discriminate].
  cbn [mbind option_bind] in E. inversion E; subst ty' sc' d'; clear E.
  destruct (match_type_inv _ _ _ _ E1) as (_ & t & Ht & Hl).
  rewrite Hl, (ALL_TYPES_lower _ Ht). exact Ht.
Qed.

(** X6.  Every commit that parseConventionalCommit returns keeps the hash
    and the subject line of the raw commit, has one of the eleven types in
    lower case whatever the case of the subject line, has a scope, if any,
    that is a non-empty run of word characters and hyphens, and a subject
    without line terminator that is trimmed. *)
Theorem parseConventionalCommit_shape (commit : RawCommit)
        (parsed : ConventionalCommit) :
  parseConventionalCommit commit = Some parsed ->
  hash parsed = raw_hash commit
  /\ raw parsed = raw_subject commit
  /\ type parsed ∈ ALL_TYPES
  /\ (forall s, scope parsed = Some s ->
        s <> "" /\ forallb is_scope_char s = true)
  /\ forallb is_dot (subject parsed) = true
  /\ trim (subject parsed) = subject parsed.
Proof.
  unfold parseConventionalCommit.
  destruct (match_conventional (raw_subject commit)) as [[[ty sc] d]|] eqn:E;
    [|discriminate].
  intros H. inversion H; subst parsed; clear H. cbn.
  unfold match_conventional in E.
  destruct (match_type ALL_TYPES (raw_subject commit)) as [[ty' r1]|] eqn:E1;
    [|discriminate].
  cbn [mbind option_bind] in E.
  destruct (match_scope r1) as [[sc' r2]|] eqn:E2; [|discriminate].
  cbn [mbind option_bind] in E.
  destruct (match_bang_colon r2) as [r3|] eqn:E3; [|discriminate].
  cbn [mbind option_bind] in E.
  destruct (match_description r3) as [d'|] eqn:E4; [|discriminate].
  cbn [mbind option_bind] in E. inversion E; subst ty' sc' d'; clear E.
  split; [reflexivity|]. split; [reflexivity|]. split.
  { destruct (match_type_inv _ _ _ _ E1) as (_ & t & Ht & Hl).
    rewrite Hl, (ALL_TYPES_lower _ Ht). exact Ht. }
  split.
  { intros s ->. destruct (match_scope_inv _ _ _ E2) as (_ & H1 & H2). auto. }
  destruct (match_description_inv _ _ E4) as [_ Hd].
  split; [apply forallb_trim, Hd | apply trim_idempotent].
Qed.

Lemma parseConventionalCommit_shape_witness :
  parseConventionalCommit (mkRawCommit "abc123" "FEAT(Api)!:  add endpoint " "")
  = Some (mkConventionalCommit "abc123" "feat" (Some "Api") "add endpoint"
                               "FEAT(Api)!:  add endpoint " true)
  /\ "feat" ∈ ALL_TYPES.
Proof.
  split; [reflexivity|].
  exact (proj1 (proj2 (proj2 (parseConventionalCommit_shape
           (mkRawCommit "abc123" "FEAT(Api)!:  add endpoint " "")
           _ eq_refl)))).
Defined.

End ParsedCommitFacts.

(** ** git.ts: reading the log *)

Section SliceFacts.
Import Chars Str StrOps Parser Props Terms.

Lemma slice_to_app s x : slice_to (String.length s) (s +:+ x) = s.
Proof.
  induction s as [|c s IH]; [destruct x; reflexivity|].
  rewrite sapp_cons. simpl. rewrite IH. reflexivity.
Qed.

Lemma slice_from_app s x : slice_from (String.length s) (s +:+ x) = x.
Proof.
  induction s as [|c s IH]; [destruct x; reflexivity|].
  rewrite sapp_cons. simpl. exact IH.
Qed.

Lemma slice_from_S_app s c x :
  slice_from (S (String.length s)) (s +:+ String c x) = x.
Proof.
  induction s as [|d s IH]; [destruct x; reflexivity|].
  rewrite sapp_cons. exact IH.
Qed.

Lemma includes_slice_to c n s :
  includes_char c s = false -> includes_char c (slice_to n s) = false.
Proof.
  revert s. induction n as [|n IH]; intros s H; [destruct s; reflexivity|].
  destruct s as [|d s]; [reflexivity|]. simpl in *.
  apply orb_false_elim in H as [H1 H2]. rewrite H1, (IH _ H2). reflexivity.
Qed.

Lemma lastIndexOf_none c s :
  includes_char c s = false -> lastIndexOf c s = None.
Proof.
  induction s as [|d s IH]; [reflexivity|]. simpl. intros H.
  apply orb_false_elim in H as [H1 H2]. rewrite (IH H2), H1. reflexivity.
Qed.

(** The last separator is the one that nothing but separator-free text
    follows. *)
Lemma lastIndexOf_app c s b :
  includes_char c b = false ->
  lastIndexOf c (s +:+ String c b) = Some (String.length s).
Proof.
  intros Hb. induction s as [|d s IH].
  - rewrite sapp_nil_l. simpl. rewrite (lastIndexOf_none _ _ Hb), Ascii.eqb_refl.
    reflexivity.
  - rewrite sapp_cons. simpl. rewrite IH. reflexivity.
Qed.

Lemma split_on_prefix sep a b :
  includes_char sep a = false ->
  split_on sep (a +:+ b)
  = (a +:+ hd "" (split_on sep b)) :: tl (split_on sep b).
Proof.
  induction a as [|c a IH]; intros H.
  - rewrite !sapp_nil_l. destruct (split_on sep b) eqn:E; [|reflexivity].
    exfalso. exact (split_on_nonempty _ _ E).
  - simpl in H. apply orb_false_elim in H as [Hc Ha].
    rewrite Ascii.eqb_sym in Hc.
    rewrite sapp_cons, (split_on_cons_other _ _ _ Hc), (IH Ha). reflexivity.
Qed.

Lemma hd_split_app sep l x :
  includes_char sep l = true ->
  hd "" (split_on sep (l +:+ x)) = hd "" (split_on sep l).
Proof.
  induction l as [|c l IH]; [discriminate|]. intros H.
  rewrite sapp_cons. destruct (Ascii.eqb c sep) eqn:Hc.
  - simpl. rewrite Hc. reflexivity.
  - rewrite !(split_on_cons_other _ _ _ Hc). simpl in *.
    rewrite Ascii.eqb_sym, Hc in H. rewrite (IH H). reflexivity.
Qed.

Lemma split_on_hd_tl sep s :
  tl (split_on sep s) <> [] ->
  s = hd "" (split_on sep s) +:+ String sep (join (String sep "")
                                                  (tl (split_on sep s))).
Proof.
  intros H. rewrite <- (join_split sep s) at 1.
  destruct (split_on sep s) as [|p [|q ps]]; simpl in H; try congruence.
  rewrite join_cons. reflexivity.
Qed.

End SliceFacts.

Section CommitOutputFacts.
Import Chars Str StrOps Parser Props GitOutput Terms.

Lemma is_hex_not_space c : is_hex c = true -> is_space c = false.
Proof. destruct c as [[] [] [] [] [] [] [] []]; intros H; try reflexivity; discriminate H. Qed.

Lemma forallb_impl (p q : ascii -> bool) s :
  (forall c, p c = true -> q c = true) ->
  forallb p s = true -> forallb q s = true.
Proof.
  intros Hpq. induction s as [|c s IH]; [reflexivity|]. simpl. intros H.
  apply andb_prop in H as [Hc Hs]. rewrite (Hpq _ Hc), (IH Hs). reflexivity.
Qed.

Lemma trim_no_space s :
  forallb (fun c => negb (is_space c)) s = true -> trim s = s.
Proof.
  intros H. apply trim_fixed.
  - destruct s as [|c s]; [reflexivity|]. simpl in *.
    apply andb_prop in H as [H _]. exact H.
  - unfold no_trailing_space. destruct (last_char s) as [c|] eqn:E; [|reflexivity].
    exact (last_char_forallb _ _ _ E H).
Qed.

Lemma is_hash_inv h :
  is_hash h = true ->
  isValidHashStart h = true /\ nonempty h = true
  /\ includes_char "|" h = false /\ includes_char LF h = false
  /\ no_leading_space h = true.
Proof.
  unfold is_hash. intros H. apply andb_prop in H as [H Hx].
  assert (Hs : forallb (fun c => negb (is_space c)) h = true).
  { apply (forallb_impl _ _ _ (fun c Hc => proj2 (negb_true_iff _) (is_hex_not_space c Hc)) Hx). }
  split; [|split; [|split; [|split]]].
  - unfold isValidHashStart. rewrite (trim_no_space _ Hs), H, Hx. reflexivity.
  - destruct h; [discriminate H | reflexivity].
  - apply (forallb_excludes _ _ _ Hx). reflexivity.
  - apply (forallb_excludes _ _ _ Hx). reflexivity.
  - destruct h as [|c h]; [reflexivity|]. simpl in *.
    apply andb_prop in Hs as [Hs _]. exact Hs.
Qed.

Lemma step_start st h s b0 :
  is_hash h = true -> includes_char "|" b0 = false ->
  step st (h +:+ "|" +:+ s +:+ "|" +:+ b0) = mkAcc (pushCurrent st) h s b0.
Proof.
  intros Hh Hb. destruct (is_hash_inv _ Hh) as (Hv & _ & Hp & _ & _).
  unfold step, startsCommit.
  change (h +:+ "|" +:+ s +:+ "|" +:+ b0)
    with (h +:+ String "|" (s +:+ String "|" b0)).
  rewrite (split_on_first _ _ _ Hp).
  rewrite includes_char_app. cbn [hd tl includes_char].
  rewrite Ascii.eqb_refl, orb_true_r, Hv. cbn [andb orb].
  rewrite (join_split "|"), (lastIndexOf_app _ _ _ Hb).
  rewrite slice_to_app, slice_from_S_app. reflexivity.
Qed.

Lemma step_body cm h s a l :
  nonempty h = true -> startsCommit l = false ->
  step (mkAcc cm h s a) l
  = mkAcc cm h s (a +:+ (if nonempty a then newline else "") +:+ l).
Proof.
  intros Hh Hl. unfold step. rewrite Hl. cbn [currentHash]. rewrite Hh.
  reflexivity.
Qed.

(** The body grows line by line; only leading empty lines are lost. *)
Lemma fold_body ls : forall cm h s a p,
  nonempty h = true ->
  Forall (fun l => startsCommit l = false) ls ->
  (exists w, p = w +:+ a /\ forallb is_space w = true) ->
  exists a',
    fold_left step ls (mkAcc cm h s a) = mkAcc cm h s a'
    /\ exists w, fold_left (fun p l => p +:+ newline +:+ l) ls p = w +:+ a'
                 /\ forallb is_space w = true.
Proof.
  induction ls as [|l ls IH]; intros cm h s a p Hh Hls Hp.
  - exists a. split; [reflexivity | exact Hp].
  - inversion Hls as [|? ? Hl Hls']; subst. cbn [fold_left].
    rewrite (step_body _ _ _ _ _ Hh Hl).
    apply (IH _ _ _ _ _ Hh Hls').
    destruct Hp as (w & -> & Hw). destruct a as [|c a].
    + exists (w +:+ newline). cbn [nonempty is_empty negb].
      rewrite !sapp_nil_r, !sapp_nil_l, sapp_assoc, forallb_app, Hw.
      split; reflexivity.
    + exists w. cbn [nonempty is_empty negb]. rewrite !sapp_assoc.
      split; [reflexivity | exact Hw].
Qed.

Lemma fold_join_prefix x ls : forall y,
  fold_left (fun p l => p +:+ newline +:+ l) ls (x +:+ y)
  = x +:+ fold_left (fun p l => p +:+ newline +:+ l) ls y.
Proof.
  induction ls as [|l ls IH]; intros y; [reflexivity|].
  cbn [fold_left]. rewrite sapp_assoc. apply IH.
Qed.

Lemma join_fold ls : forall l0,
  join newline (l0 :: ls) = fold_left (fun p l => p +:+ newline +:+ l) ls l0.
Proof.
  induction ls as [|l ls IH]; intros l0; [reflexivity|].
  rewrite join_cons, IH. cbn [fold_left].
  rewrite !fold_join_prefix. reflexivity.
Qed.

Lemma readable_inv c :
  readable c = true ->
  is_hash (raw_hash c) = true /\ includes_char LF (raw_subject c) = false
  /\ plain_body (raw_body c) = true.
Proof.
  unfold readable. intros H. apply andb_prop in H as [H H3].
  apply andb_prop in H as [H1 H2]. apply negb_true_iff in H2. auto.
Qed.

Lemma plain_body_inv b :
  plain_body b = true ->
  includes_char "|" (hd "" (split_on LF b)) = false
  /\ Forall (fun l => startsCommit l = false) (tl (split_on LF b)).
Proof.
  unfold plain_body. intros H. apply andb_prop in H as [H1 H2].
  apply negb_true_iff in H1. split; [exact H1|].
  apply Forall_forall. intros l Hl. rewrite forallb_forall in H2.
  apply negb_true_iff, H2, list_elem_of_In, Hl.
Qed.

(** The lines of one entry leave its hash and subject as they are and a
    body that trims to the trimmed body. *)
Lemma fold_entry st c :
  readable c = true ->
  exists a,
    fold_left step (split_on LF (logEntry c)) st
    = mkAcc (pushCurrent st) (raw_hash c) (raw_subject c) a
    /\ trim a = trim (raw_body c).
Proof.
  intros Hr. destruct (readable_inv _ Hr) as (Hh & Hs & Hb).
  destruct (is_hash_inv _ Hh) as (_ & Hne & _ & Hlf & _).
  destruct (plain_body_inv _ Hb) as [Hb0 Hrest].
  unfold logEntry.
  replace (raw_hash c +:+ "|" +:+ raw_subject c +:+ "|" +:+ raw_body c)
    with ((raw_hash c +:+ "|" +:+ raw_subject c +:+ "|") +:+ raw_body c)
    by (rewrite !sapp_assoc; reflexivity).
  rewrite split_on_prefix.
  2:{ rewrite !includes_char_app, Hlf, Hs. reflexivity. }
  cbn [fold_left]. rewrite !sapp_assoc.
  rewrite (step_start _ _ _ _ Hh Hb0).
  destruct (fold_body _ (pushCurrent st) (raw_hash c) (raw_subject c)
              (hd "" (split_on LF (raw_body c)))
              (hd "" (split_on LF (raw_body c))) Hne Hrest)
    as (a & Ha & w & Hw & Hsp).
  { exists "". auto. }
  exists a. split; [exact Ha|].
  rewrite <- join_fold in Hw.
  assert (E : join newline (hd "" (split_on LF (raw_body c))
                            :: tl (split_on LF (raw_body c)))
              = raw_body c).
  { rewrite <- (join_split LF (raw_body c)) at 3.
    destruct (split_on LF (raw_body c)) eqn:E0; [|reflexivity].
    exfalso. exact (split_on_nonempty _ _ E0). }
  rewrite E in Hw. rewrite Hw. symmetry. apply trim_spaces_l, Hsp.
Qed.

Lemma fold_entries cs : forall st,
  Forall (fun c => readable c = true) cs ->
  pushCurrent (fold_left step
                 (concat (map (fun c => split_on LF (logEntry c)) cs)) st)
  = pushCurrent st ++ map trimBody cs.
Proof.
  induction cs as [|c cs IH]; intros st H.
  - simpl. rewrite app_nil_r. reflexivity.
  - inversion H as [|? ? Hc Hcs]; subst. cbn [map concat].
    rewrite fold_left_app. destruct (fold_entry st c Hc) as (a & -> & Ha).
    rewrite (IH _ Hcs). unfold pushCurrent at 1. cbn [currentHash commits
      currentSubject currentBody].
    destruct (readable_inv _ Hc) as (Hh & _ & _).
    destruct (is_hash_inv _ Hh) as (_ & -> & _).
    rewrite Ha, <- app_assoc. reflexivity.
Qed.

Lemma logOutput_app cs c :
  logOutput (cs ++ [c]) = logOutput cs +:+ logEntry c +:+ newline.
Proof.
  induction cs as [|d cs IH]; [simpl; rewrite sapp_nil_r; reflexivity|].
  simpl. rewrite IH, !sapp_assoc. reflexivity.
Qed.

Lemma lines_logOutput cs c :
  split_on LF (logOutput cs +:+ logEntry c)
  = concat (map (fun c => split_on LF (logEntry c)) (cs ++ [c])).
Proof.
  induction cs as [|d cs IH].
  - simpl. rewrite app_nil_r. reflexivity.
  - cbn [logOutput app map concat]. rewrite !sapp_assoc.
    change (newline +:+ logOutput cs +:+ logEntry c)
      with (String LF (logOutput cs +:+ logEntry c)).
    rewrite split_on_app, IH. reflexivity.
Qed.

(** A condition on the first line and one on the further lines, both
    kept by shortening a line, hold for every prefix of the text. *)
Lemma lines_prefix sep t w : forall P1 P2 : string -> bool,
  (forall l x, P1 (l +:+ x) = true -> P1 l = true) ->
  (forall l x, P2 (l +:+ x) = true -> P2 l = true) ->
  P1 (hd "" (split_on sep (t +:+ w)))
  && List.forallb P2 (tl (split_on sep (t +:+ w))) = true ->
  P1 (hd "" (split_on sep t)) && List.forallb P2 (tl (split_on sep t)) = true.
Proof.
  induction t as [|c t IH]; intros P1 P2 H1 H2 H.
  - rewrite sapp_nil_l in H. apply andb_prop in H as [H _].
    simpl. rewrite andb_true_r. apply (H1 "" (hd "" (split_on sep w))).
    exact H.
  - rewrite sapp_cons in H. destruct (Ascii.eqb c sep) eqn:Hc.
    + simpl in *. rewrite Hc in *. cbn [hd tl] in *.
      apply andb_prop in H as [Ha Hb]. rewrite Ha. cbn [andb].
      pose proof (IH P2 P2 H2 H2) as IH'.
      destruct (split_on sep t) as [|p ps] eqn:E;
        [exfalso; exact (split_on_nonempty _ _ E)|].
      destruct (split_on sep (t +:+ w)) as [|q qs] eqn:E';
        [exfalso; exact (split_on_nonempty _ _ E')|].
      cbn [hd tl List.forallb] in *. apply IH', Hb.
    + rewrite (split_on_cons_other sep c (t +:+ w) Hc) in H.
      rewrite (split_on_cons_other sep c t Hc). cbn [hd tl] in *.
      apply (IH (fun l => P1 (String c l)) P2); [|exact H2|exact H].
      intros l x. rewrite <- sapp_cons. apply H1.
Qed.

Lemma startsCommit_app l x :
  startsCommit l = true -> startsCommit (l +:+ x) = true.
Proof.
  unfold startsCommit. intros H. apply andb_prop in H as [H1 H2].
  rewrite includes_char_app, H1, (hd_split_app _ _ _ H1), H2. reflexivity.
Qed.

Lemma plain_body_prefix t w : plain_body (t +:+ w) = true -> plain_body t = true.
Proof.
  unfold plain_body.
  apply (lines_prefix LF t w (fun l => negb (includes_char "|" l))
           (fun l => negb (startsCommit l))).
  - intros l x H. apply negb_true_iff in H. apply negb_true_iff.
    rewrite includes_char_app in H. apply orb_false_elim in H as [H _]. exact H.
  - intros l x H. apply negb_true_iff in H. apply negb_true_iff.
    destruct (startsCommit l) eqn:E; [|reflexivity].
    rewrite (startsCommit_app _ x E) in H. discriminate.
Qed.

Lemma logOutput_no_leading_space c cs :
  readable c = true -> no_leading_space (logOutput (c :: cs)) = true.
Proof.
  intros Hr. destruct (readable_inv _ Hr) as (Hh & _ & _).
  destruct (is_hash_inv _ Hh) as (_ & Hne & _ & _ & Hl).
  simpl. unfold logEntry. destruct (raw_hash c) as [|x h]; [discriminate|].
  exact Hl.
Qed.

(** X7.  parseCommitOutput reads back what git log printed: for commits with
    a hash of 4 to 40 hexadecimal digits, a subject of one line and a body
    whose first line holds no [|] and none of whose further lines looks like
    the start of an entry, it returns these commits in order, with their
    hashes and subjects as they are and their bodies trimmed. *)
Theorem parseCommitOutput_reads_log (cs : list RawCommit) :
  Forall (fun c => readable c = true) cs ->
  parseCommitOutput (logOutput cs) = map trimBody cs.
Proof.
  intros H. destruct cs as [|c0 cs0] using rev_ind; [reflexivity|].
  clear IHcs0. apply Forall_app in H as [Hcs Hc].
  inversion Hc as [|? ? Hr _]; subst.
  destruct (readable_inv _ Hr) as (Hh & Hs & Hb).
  set (c' := mkRawCommit (raw_hash c0) (raw_subject c0)
                         (trimEnd (raw_body c0))).
  assert (Hr' : readable c' = true).
  { unfold readable. cbn [c' raw_hash raw_subject raw_body].
    rewrite Hh, Hs. cbn [andb negb].
    destruct (trimEnd_decomp (raw_body c0)) as (w & Hw & _ & _).
    apply (plain_body_prefix _ w). rewrite <- Hw. exact Hb. }
  assert (Ht : trim (logOutput (cs0 ++ [c0])) = logOutput cs0 +:+ logEntry c').
  { unfold trim. rewrite trimStart_fixed.
    2:{ destruct cs0 as [|d cs0].
        - apply logOutput_no_leading_space, Hr.
        - inversion Hcs; subst. rewrite <- app_comm_cons.
          apply logOutput_no_leading_space. assumption. }
    rewrite logOutput_app. unfold logEntry. cbn [c' raw_hash raw_subject raw_body].
    replace (logOutput cs0
             +:+ (raw_hash c0 +:+ "|" +:+ raw_subject c0 +:+ "|" +:+ raw_body c0)
             +:+ newline)
      with ((logOutput cs0 +:+ raw_hash c0 +:+ "|" +:+ raw_subject c0 +:+ "|")
            +:+ (raw_body c0 +:+ newline))
      by (rewrite !sapp_assoc; reflexivity).
    rewrite trimEnd_after.
    - rewrite (trimEnd_spaces (raw_body c0) newline eq_refl), !sapp_assoc.
      reflexivity.
    - destruct (logOutput cs0); [destruct (raw_hash c0)|]; discriminate.
    - unfold no_trailing_space.
      replace (logOutput cs0 +:+ raw_hash c0 +:+ "|" +:+ raw_subject c0 +:+ "|")
        with ((logOutput cs0 +:+ raw_hash c0 +:+ "|" +:+ raw_subject c0)
              +:+ String "|" "")
        by (rewrite !sapp_assoc; reflexivity).
      rewrite last_char_snoc. reflexivity. }
  unfold parseCommitOutput. rewrite Ht, lines_logOutput.
  rewrite fold_entries.
  - cbn [pushCurrent currentHash nonempty is_empty negb commits app].
    rewrite !map_app. cbn [map]. unfold trimBody at 2 3.
    cbn [c' raw_hash raw_subject raw_body]. rewrite trim_trimEnd. reflexivity.
  - apply Forall_app. split; [exact Hcs|]. constructor; [exact Hr' | constructor].
Qed.

End CommitOutputFacts.

Section CommitOutputShape.
Import Chars Str StrOps Parser Props GitOutput Terms.

Lemma parseCommitOutput_reads_log_witness :
  parseCommitOutput
    (logOutput
       [mkRawCommit "a1b2c3d" "feat: a | b"
                    ("first line" +:+ newline +:+ "second | line" +:+ newline);
        mkRawCommit "DEADBEEF" "fix: c" ""])
  = [mkRawCommit "a1b2c3d" "feat: a | b"
                 ("first line" +:+ newline +:+ "second | line");
     mkRawCommit "DEADBEEF" "fix: c" ""].
Proof.
  apply (parseCommitOutput_reads_log
           [mkRawCommit "a1b2c3d" "feat: a | b"
                        ("first line" +:+ newline +:+ "second | line" +:+ newline);
            mkRawCommit "DEADBEEF" "fix: c" ""]).
  repeat constructor.
Defined.

Lemma split_on_two sep s :
  includes_char sep s = true -> tl (split_on sep s) <> [].
Proof.
  intros H E. pose proof (join_split sep s) as J.
  pose proof (split_on_fields sep s) as F.
  destruct (split_on sep s) as [|p ps] eqn:E0;
    [exact (split_on_nonempty _ _ E0)|].
  simpl in E. subst ps. simpl in J. subst p.
  inversion F; subst. congruence.
Qed.

Lemma hd_split_field sep s : includes_char sep (hd "" (split_on sep s)) = false.
Proof.
  pose proof (split_on_fields sep s) as F.
  destruct (split_on sep s); [reflexivity|]. inversion F; subst. assumption.
Qed.

Lemma step_reading st line :
  includes_char LF line = false -> reading st -> reading (step st line).
Proof.
  intros Hl [Hc Hcur]. unfold step.
  assert (Hpush : Forall well_read (pushCurrent st)).
  { unfold pushCurrent. destruct (nonempty (currentHash st)) eqn:E; [|exact Hc].
    apply Forall_app. split; [exact Hc|]. constructor; [|constructor].
    destruct Hcur as [H0|(H1 & H2 & H3 & H4 & _)].
    - rewrite H0 in E. discriminate.
    - split; [exact H1|]. split; [exact H2|]. split; [exact H3|].
      split; [exact H4 | apply trim_idempotent]. }
  destruct (startsCommit line) eqn:Es.
  - unfold startsCommit in Es. apply andb_prop in Es as [Hp Hv].
    pose proof (split_on_hd_tl _ _ (split_on_two _ _ Hp)) as Hline.
    rewrite Hline in Hl. rewrite includes_char_app in Hl.
    apply orb_false_elim in Hl as [Hl1 Hl2]. simpl in Hl2.
    assert (Hcur' : forall s b,
              includes_char LF s = false ->
              reading (mkAcc (pushCurrent st) (hd "" (split_on "|" line)) s b)).
    { intros s b Hs. split; [exact Hpush|]. right. cbn.
      split; [exact Hv|]. split; [apply hd_split_field|].
      split; [exact Hl1|]. split; [exact Hs | reflexivity]. }
    destruct (lastIndexOf "|" (join "|" (tl (split_on "|" line)))).
    + apply Hcur', includes_slice_to, Hl2.
    + apply Hcur', Hl2.
  - destruct (nonempty (currentHash st)) eqn:E; [|split; assumption].
    split; [exact Hc|]. cbn. exact Hcur.
Qed.

Lemma fold_reading ls : forall st,
  Forall (fun l => includes_char LF l = false) ls ->
  reading st -> reading (fold_left step ls st).
Proof.
  induction ls as [|l ls IH]; intros st H Hst; [exact Hst|].
  inversion H; subst. cbn [fold_left]. apply IH; [assumption|].
  apply step_reading; assumption.
Qed.

(** X8.  Whatever the text, every commit that parseCommitOutput returns has
    a hash that, trimmed, is 4 to 40 hexadecimal digits and holds neither
    [|] nor a line feed, a subject of one line and a trimmed body. *)
Theorem parseCommitOutput_well_read (output : string) (c : RawCommit) :
  c ∈ parseCommitOutput output ->
  isValidHashStart (raw_hash c) = true
  /\ includes_char "|" (raw_hash c) = false
  /\ includes_char LF (raw_hash c) = false
  /\ includes_char LF (raw_subject c) = false
  /\ trim (raw_body c) = raw_body c.
Proof.
  unfold parseCommitOutput. intros Hin.
  assert (R : reading (fold_left step (split_on LF (trim output))
                                 (mkAcc [] "" "" ""))).
  { apply fold_reading; [apply split_on_fields|].
    split; [constructor | left; reflexivity]. }
  destruct R as [Hc Hcur]. revert Hin. unfold pushCurrent.
  destruct (nonempty (currentHash _)) eqn:E.
  - rewrite elem_of_app, list_elem_of_singleton. intros [Hin| ->].
    + rewrite Forall_forall in Hc. exact (Hc _ Hin).
    + destruct Hcur as [H0|(H1 & H2 & H3 & H4 & _)].
      * rewrite H0 in E. discriminate.
      * split; [exact H1|]. split; [exact H2|]. split; [exact H3|].
        split; [exact H4 | apply trim_idempotent].
  - intros Hin. rewrite Forall_forall in Hc. exact (Hc _ Hin).
Qed.

Lemma parseCommitOutput_well_read_witness :
  mkRawCommit "a1b2c3d" "feat: a" "body"
    ∈ parseCommitOutput ("a1b2c3d|feat: a|body" +:+ newline)
  /\ isValidHashStart "a1b2c3d" = true.
Proof.
  split; [apply list_elem_of_here|].
  exact (proj1 (parseCommitOutput_well_read
                  ("a1b2c3d|feat: a|body" +:+ newline)
                  (mkRawCommit "a1b2c3d" "feat: a" "body")
                  (list_elem_of_here _ _))).
Defined.

End CommitOutputShape.

Section TagOutputFacts.
Import Chars Str StrOps Parser Props GitOutput Terms.

Lemma is_tag_name_inv t :
  is_tag_name t = true ->
  t <> "" /\ includes_char LF t = false
  /\ no_leading_space t = true /\ no_trailing_space t = true.
Proof.
  unfold is_tag_name. intros H. apply andb_prop in H as [Hn Hs].
  split; [destruct t; [discriminate | discriminate]|].
  split; [apply (forallb_excludes _ _ _ Hs); reflexivity|].
  split.
  - destruct t as [|c t]; [reflexivity|]. simpl in Hs.
    apply andb_prop in Hs as [Hc _]. exact Hc.
  - unfold no_trailing_space. destruct (last_char t) as [c|] eqn:E; [|reflexivity].
    exact (last_char_forallb _ _ _ E Hs).
Qed.

Lemma tagOutput_app ts t :
  tagOutput (ts ++ [t]) = tagOutput ts +:+ t +:+ newline.
Proof.
  induction ts as [|a ts IH]; [simpl; rewrite sapp_nil_r; reflexivity|].
  simpl. rewrite IH, !sapp_assoc. reflexivity.
Qed.

Lemma lines_tagOutput ts t :
  Forall (fun t => is_tag_name t = true) ts -> includes_char LF t = false ->
  split_on LF (tagOutput ts +:+ t) = ts ++ [t].
Proof.
  intros H Ht. induction H as [|a ts Ha Hts IH].
  - simpl. apply split_on_none, Ht.
  - destruct (is_tag_name_inv _ Ha) as (_ & Hlf & _ & _).
    cbn [tagOutput app]. rewrite !sapp_assoc.
    change (newline +:+ tagOutput ts +:+ t) with (String LF (tagOutput ts +:+ t)).
    rewrite (split_on_first _ _ _ Hlf), IH. reflexivity.
Qed.

(** X9.  getTags reads back what git tag printed: for tag names that are not
    empty and hold no white space, one on each line, it returns the names in
    order. *)
Theorem getTags_reads_tags (tags : list string) :
  Forall (fun t => is_tag_name t = true) tags ->
  getTags (tagOutput tags) = tags.
Proof.
  intros H. destruct tags as [|t ts] using rev_ind; [reflexivity|].
  clear IHts. pose proof H as Hall. apply Forall_app in H as [Hts Ht].
  inversion Ht as [|? ? Hn _]; subst.
  destruct (is_tag_name_inv _ Hn) as (Hne & Hlf & Hl & Hr).
  assert (E : trim (tagOutput (ts ++ [t])) = tagOutput ts +:+ t).
  { unfold trim. rewrite trimStart_fixed.
    - rewrite tagOutput_app, <- sapp_assoc, (trimEnd_spaces _ newline eq_refl).
      apply trimEnd_fixed. destruct t as [|c t]; [congruence|].
      unfold no_trailing_space. rewrite last_char_app_cons. exact Hr.
    - destruct ts as [|a ts].
      + simpl. destruct t; [congruence | exact Hl].
      + inversion Hts as [|? ? Ha _]; subst.
        destruct (is_tag_name_inv _ Ha) as (Hane & _ & Hal & _).
        simpl. destruct a; [congruence | exact Hal]. }
  unfold getTags. rewrite E, (lines_tagOutput _ _ Hts Hlf).
  clear E. induction Hall as [|a l Ha _ IH]; [reflexivity|].
  cbn [List.filter]. destruct (is_tag_name_inv _ Ha) as (Hane & _).
  destruct a; [congruence|]. cbn. f_equal. exact IH.
Qed.

Lemma getTags_reads_tags_witness :
  getTags ("v1.0.0" +:+ newline +:+ "release-1.1.0" +:+ newline)
  = ["v1.0.0"; "release-1.1.0"].
Proof.
  apply (getTags_reads_tags ["v1.0.0"; "release-1.1.0"]).
  repeat constructor.
Defined.

End TagOutputFacts.

(** ** remote.ts: the scp-like form of a remote *)

Section RemoteFacts.
Import Chars Str StrOps Parser Props Remote Terms.

Variable newURL : string -> option URL.

Lemma slength_app (s t : string) :
  String.length (s +:+ t) = (String.length s + String.length t)%nat.
Proof.
  induction s as [|c s IH]; [reflexivity|]. rewrite sapp_cons. simpl.
  rewrite IH. reflexivity.
Qed.

Lemma eqb_longer c x : String.eqb (String c (x +:+ ".git")) ".git" = false.
Proof.
  apply String.eqb_neq. intros E. apply (f_equal String.length) in E.
  simpl in E. rewrite slength_app in E. simpl in E. lia.
Qed.

Lemma excludes_forallb c s :
  includes_char c s = false ->
  forallb (fun d => negb (Ascii.eqb d c)) s = true.
Proof.
  induction s as [|d s IH]; [reflexivity|]. cbn [includes_char forallb].
  intros H. apply orb_false_elim in H as [H1 H2].
  rewrite Ascii.eqb_sym, H1, (IH H2). reflexivity.
Qed.

Lemma lazy_path_git x :
  forallb is_dot x = true -> lazy_path (x +:+ ".git") = Some x.
Proof.
  induction x as [|c x IH]; intros H; [reflexivity|].
  rewrite sapp_cons. simpl in H. apply andb_prop in H as [Hc Hx].
  cbn [lazy_path]. rewrite eqb_longer, Hc, (IH Hx). reflexivity.
Qed.

Lemma lazy_path_inv s : forall p,
  lazy_path s = Some p -> s = p \/ s = p +:+ ".git".
Proof.
  induction s as [|c s IH]; intros p H.
  - simpl in H. inversion H. auto.
  - cbn [lazy_path] in H. destruct (String.eqb_spec (String c s) ".git") as [E|E].
    + inversion H. right. exact E.
    + destruct (is_dot c); [|discriminate].
      destruct (lazy_path s) as [q|] eqn:Eq; [|discriminate].
      inversion H. destruct (IH q eq_refl) as [->| ->]; [left | right]; reflexivity.
Qed.

Lemma match_ssh_inv url h p :
  match_ssh url = Some (h, p) ->
  h <> "" /\ includes_char ":" h = false /\ p <> ""
  /\ (url = "git@" +:+ h +:+ ":" +:+ p
      \/ url = "git@" +:+ h +:+ ":" +:+ p +:+ ".git").
Proof.
  unfold match_ssh. destruct (strip_prefix "git@" url) as [r|] eqn:E; [|discriminate].
  cbn [mbind option_bind].
  destruct (span (fun c => negb (Ascii.eqb c ":")) r) as [h' r'] eqn:Es.
  destruct h' as [|a h']; [discriminate|].
  destruct r' as [|b r']; [discriminate|].
  destruct (Ascii.eqb_spec b ":") as [->|Hb].
  2:{ intros H. exfalso. destruct b as [[] [] [] [] [] [] [] []];
        try discriminate H. apply Hb. reflexivity. }
  destruct r' as [|c q]; [discriminate|].
  destruct (is_dot c); [|discriminate].
  destruct (lazy_path q) as [q'|] eqn:Eq; [|discriminate].
  cbn [mbind option_bind]. intros H. inversion H; subst h p. clear H.
  split; [discriminate|].
  split.
  { apply (forallb_excludes _ _ _ (span_forallb _ _ _ _ Es)). reflexivity. }
  split; [discriminate|].
  apply strip_prefix_spec in E. rewrite E, (span_app _ _ _ _ Es).
  destruct (lazy_path_inv _ _ Eq) as [->| ->]; [left | right];
    rewrite ?sapp_assoc; reflexivity.
Qed.

Lemma ownerAndRepo_inv h path info :
  ownerAndRepo h path = Some info ->
  host info = h /\ path = owner info +:+ "/" +:+ repo info
  /\ owner info <> "" /\ includes_char "/" (owner info) = false
  /\ repo info <> "".
Proof.
  unfold ownerAndRepo. pose proof (join_split "/" path) as J.
  pose proof (split_on_fields "/" path) as F.
  destruct (split_on "/" path) as [|o parts]; [discriminate|].
  destruct (is_empty o) eqn:Eo; [discriminate|].
  destruct (is_empty (join "/" parts)) eqn:Er; [discriminate|].
  cbn [orb]. intros H. inversion H as [Hi]. clear H. cbn [host owner repo].
  inversion F as [|? ? Fo Fp]. split; [reflexivity|]. split.
  - destruct parts as [|q parts]; [discriminate Er|].
    rewrite join_cons in J. symmetry. exact J.
  - split; [destruct o; [discriminate | discriminate]|].
    split; [assumption|]. destruct (join "/" parts); discriminate.
Qed.

Lemma ownerAndRepo_parts h owner repo :
  is_owner owner = true -> is_repo repo = true ->
  ownerAndRepo h (owner +:+ "/" +:+ repo) = Some (mkRemoteInfo h owner repo).
Proof.
  unfold is_owner, is_repo, ownerAndRepo. intros Ho Hr.
  apply andb_prop in Ho as [Ho _]. apply andb_prop in Ho as [Ho1 Ho2].
  apply andb_prop in Hr as [Hr _]. apply negb_true_iff in Ho2.
  change (owner +:+ "/" +:+ repo) with (owner +:+ String "/" repo).
  rewrite (split_on_first _ _ _ Ho2), (join_split "/").
  destruct owner; [discriminate|]. destruct repo; [discriminate|]. reflexivity.
Qed.

(** X10.  A remote in the form [git@host:owner/repo.git] is read into its
    three parts, whatever the repository path holds after the first slash. *)
Theorem parseRemoteUrl_ssh (hostName ownerName repoName : string) :
  is_ssh_host hostName = true -> is_owner ownerName = true ->
  is_repo repoName = true ->
  parseRemoteUrl newURL (sshUrl hostName ownerName repoName +:+ ".git")
  = Some (Some (mkRemoteInfo hostName ownerName repoName)).
Proof.
  intros Hh Ho Hr. unfold parseRemoteUrl, sshUrl.
  change (starts_with "git@" (("git@" +:+ hostName +:+ ":" +:+ ownerName
                               +:+ "/" +:+ repoName) +:+ ".git")) with true.
  cbn iota.
  assert (E : match_ssh (("git@" +:+ hostName +:+ ":" +:+ ownerName +:+ "/"
                          +:+ repoName) +:+ ".git")
              = Some (hostName, ownerName +:+ "/" +:+ repoName)).
  { unfold match_ssh.
    change (strip_prefix "git@" (("git@" +:+ hostName +:+ ":" +:+ ownerName
                                  +:+ "/" +:+ repoName) +:+ ".git"))
      with (Some ((hostName +:+ ":" +:+ ownerName +:+ "/" +:+ repoName)
                  +:+ ".git")).
    cbn [mbind option_bind]. rewrite !sapp_assoc.
    unfold is_ssh_host in Hh. apply andb_prop in Hh as [Hh1 Hh2].
    apply negb_true_iff in Hh2.
    rewrite span_exact; [|apply excludes_forallb, Hh2 | reflexivity].
    destruct hostName as [|a hostName]; [discriminate|].
    unfold is_owner in Ho. apply andb_prop in Ho as [Ho Ho3].
    apply andb_prop in Ho as [Ho1 _].
    unfold is_repo in Hr. apply andb_prop in Hr as [_ Hr2].
    destruct ownerName as [|c ownerName]; [discriminate|].
    rewrite !sapp_cons, sapp_nil_l. simpl in Ho3.
    apply andb_prop in Ho3 as [Hc Ho3]. rewrite Hc.
    replace (ownerName +:+ String "/" ("" +:+ repoName +:+ ".git"))
      with ((ownerName +:+ String "/" ("" +:+ repoName)) +:+ ".git")
      by (rewrite sapp_assoc; reflexivity).
    rewrite lazy_path_git; [reflexivity|].
    rewrite forallb_app, Ho3. exact Hr2. }
  rewrite E, (ownerAndRepo_parts _ _ _ Ho Hr). reflexivity.
Qed.

(** X11.  Conversely, a remote that starts with [git@] is read only when it
    is [git@host:owner/repo], with or without a final [.git]: the host is
    not empty and holds no colon, the owner is not empty and holds no slash,
    and the repository is not empty. *)
Theorem parseRemoteUrl_ssh_sound (url : string) (info : RemoteInfo) :
  starts_with "git@" url = true ->
  parseRemoteUrl newURL url = Some (Some info) ->
  (url = sshUrl (host info) (owner info) (repo info)
   \/ url = sshUrl (host info) (owner info) (repo info) +:+ ".git")
  /\ is_ssh_host (host info) = true
  /\ owner info <> "" /\ includes_char "/" (owner info) = false
  /\ repo info <> "".
Proof.
  intros Hs. unfold parseRemoteUrl. rewrite Hs.
  destruct (match_ssh url) as [[h p]|] eqn:E; [|discriminate].
  intros H. inversion H as [H']. clear H.
  destruct (match_ssh_inv _ _ _ E) as (Hh & Hc & Hp & Hurl).
  destruct (ownerAndRepo_inv _ _ _ H') as (<- & -> & Ho & Hsl & Hr).
  split; [|split; [|auto]].
  - unfold sshUrl. destruct Hurl as [->| ->]; [left | right];
      rewrite ?sapp_assoc; reflexivity.
  - unfold is_ssh_host. rewrite Hc. destruct (host info); [congruence | reflexivity].
Qed.

End RemoteFacts.

Section RemoteWitnesses.
Import Chars Str StrOps Parser Props Remote Terms.

Lemma parseRemoteUrl_ssh_witness :
  parseRemoteUrl (fun _ => None) "git@github.com:amagyar/mscl.git"
  = Some (Some (mkRemoteInfo "github.com" "amagyar" "mscl")).
Proof.
  exact (parseRemoteUrl_ssh (fun _ => None) "github.com" "amagyar" "mscl"
           eq_refl eq_refl eq_refl).
Defined.

Lemma parseRemoteUrl_ssh_sound_witness :
  ("git@gitlab.com:group/sub/project"
   = sshUrl "gitlab.com" "group" "sub/project"
   \/ "git@gitlab.com:group/sub/project"
      = sshUrl "gitlab.com" "group" "sub/project" +:+ ".git")
  /\ is_ssh_host "gitlab.com" = true
  /\ "group" <> "" /\ includes_char "/" "group" = false
  /\ "sub/project" <> "".
Proof.
  exact (parseRemoteUrl_ssh_sound (fun _ => None)
           "git@gitlab.com:group/sub/project"
           (mkRemoteInfo "gitlab.com" "group" "sub/project")
           eq_refl eq_refl).
Defined.

End RemoteWitnesses.

(** ** formatter.ts *)

Section GroupFacts.
Import Chars Str StrOps Parser Props Remote Cli Formatter Terms.

Lemma ofType_cons_same c cs : ofType (type c) (c :: cs) = c :: ofType (type c) cs.
Proof. unfold ofType. cbn [List.filter]. rewrite String.eqb_refl. reflexivity. Qed.

Lemma ofType_cons_other c cs t : type c <> t -> ofType t (c :: cs) = ofType t cs.
Proof.
  intros H. unfold ofType. cbn [List.filter].
  apply String.eqb_neq in H. rewrite H. reflexivity.
Qed.

Lemma groupInto_spec commits : forall grouped,
  Forall (fun c => inherited (type c) = false) commits ->
  exists grouped',
    groupInto grouped commits = Some grouped'
    /\ forall t,
         grouped' !! t
         = match grouped !! t, ofType t commits with
           | None, [] => None
           | None, l => Some l
           | Some l0, l => Some (l0 ++ l)
           end.
Proof.
  induction commits as [|c cs IH]; intros g H.
  - exists g. split; [reflexivity|]. intros t. cbn.
    destruct (g !! t); [rewrite app_nil_r|]; reflexivity.
  - inversion H as [|? ? Hc Hcs]; subst. cbn [groupInto].
    destruct (g !! type c) as [l|] eqn:E.
    + destruct (IH (<[type c := l ++ [c]]> g) Hcs) as (g' & Hg & Hl).
      exists g'. split; [exact Hg|]. intros t. rewrite Hl.
      destruct (decide (type c = t)) as [<-|Hne].
      * rewrite lookup_insert_eq, E, ofType_cons_same, <- app_assoc. reflexivity.
      * rewrite (lookup_insert_ne _ _ _ _ Hne), (ofType_cons_other _ _ _ Hne).
        reflexivity.
    + rewrite Hc.
      destruct (IH (<[type c := [c]]> g) Hcs) as (g' & Hg & Hl).
      exists g'. split; [exact Hg|]. intros t. rewrite Hl.
      destruct (decide (type c = t)) as [<-|Hne].
      * rewrite lookup_insert_eq, E, ofType_cons_same. reflexivity.
      * rewrite (lookup_insert_ne _ _ _ _ Hne), (ofType_cons_other _ _ _ Hne).
        reflexivity.
Qed.

Lemma groupInto_throws commits : forall grouped,
  (forall k, inherited k = true -> grouped !! k = None) ->
  Exists (fun c => inherited (type c) = true) commits ->
  groupInto grouped commits = None.
Proof.
  induction commits as [|c cs IH]; intros g Hg H; [inversion H|].
  cbn [groupInto]. destruct (g !! type c) as [l|] eqn:E.
  - apply IH.
    + intros k Hk. rewrite lookup_insert_ne; [apply Hg, Hk|].
      intros <-. rewrite (Hg _ Hk) in E. discriminate.
    + inversion H as [? ? Hc|? ? Hcs]; subst; [|exact Hcs].
      rewrite (Hg _ Hc) in E. discriminate.
  - destruct (inherited (type c)) eqn:Hc; [reflexivity|].
    apply IH.
    + intros k Hk. rewrite lookup_insert_ne; [apply Hg, Hk|].
      intros <-. congruence.
    + inversion H as [? ? Hc'|? ? Hcs]; subst; [congruence | exact Hcs].
Qed.

Lemma groupByType_returns commits :
  Forall (fun c => inherited (type c) = false) commits ->
  exists grouped,
    groupByType commits = Some grouped
    /\ forall t, grouped !! t
                 = match ofType t commits with [] => None | l => Some l end.
Proof.
  intros H. destruct (groupInto_spec commits ∅ H) as (g & Hg & Hl).
  exists g. split; [exact Hg|]. intros t. rewrite Hl, lookup_empty.
  reflexivity.
Qed.

Lemma groupByType_throws commits :
  Exists (fun c => inherited (type c) = true) commits ->
  groupByType commits = None.
Proof. apply groupInto_throws. intros k _. apply lookup_empty. Qed.

Lemma groupByType_None commits :
  groupByType commits = None
  <-> exists c, c ∈ commits /\ inherited (type c) = true.
Proof.
  split.
  - intros H.
    destruct (Forall_Exists_dec (fun c => inherited (type c) = false)
                (fun c => inherited (type c) = true)
                (fun c => match inherited (type c) as b
                                return {b = false} + {b = true} with
                          | true => right eq_refl
                          | false => left eq_refl
                          end) commits) as [F|E].
    + destruct (groupByType_returns _ F) as (g & Hg & _). congruence.
    + apply Exists_exists in E. exact E.
  - intros H. apply groupByType_throws, Exists_exists, H.
Qed.

(** X12.  groupByType gives every type that occurs the commits of that type
    in their order, and nothing to a type that does not occur; it throws
    exactly when a commit has a type that names a property inherited from
    Object.prototype. *)
Theorem groupByType_groups (commits : list ConventionalCommit) :
  (Forall (fun c => inherited (type c) = false) commits ->
   exists grouped,
     groupByType commits = Some grouped
     /\ forall t, grouped !! t
                  = match ofType t commits with [] => None | l => Some l end)
  /\ (groupByType commits = None
      <-> exists c, c ∈ commits /\ inherited (type c) = true).
Proof. split; [apply groupByType_returns | apply groupByType_None]. Qed.

End GroupFacts.

Section RenderFacts.
Import Chars Str StrOps Parser Props Remote Cli Formatter Terms.

Variable BREAKING_HEADING : string.

Lemma typeSection_app r g lines t :
  typeSection r g lines t = lines ++ typeSection r g [] t.
Proof.
  unfold typeSection. destruct (g !! t) as [[|c cs]|];
    rewrite ?app_nil_r; reflexivity.
Qed.

Lemma fold_typeSection_app r g types : forall lines,
  fold_left (typeSection r g) types lines
  = lines ++ fold_left (typeSection r g) types [].
Proof.
  induction types as [|t types IH]; intros lines.
  - simpl. rewrite app_nil_r. reflexivity.
  - cbn [fold_left]. rewrite IH, (IH (typeSection r g [] t)), app_assoc.
    rewrite <- typeSection_app. reflexivity.
Qed.

(** A turn of the loop only appends to the lines. *)
Lemma renderEntry_app s r v lines i :
  renderEntry BREAKING_HEADING s r v lines i
  = (fun more => lines ++ more) <$> renderEntry BREAKING_HEADING s r v [] i.
Proof.
  unfold renderEntry. destruct (s !! i) as [e|]; [|cbn; rewrite app_nil_r; reflexivity].
  destruct (length (commits e) =? 0)%nat; [cbn; rewrite app_nil_r; reflexivity|].
  destruct (length (if v then _ else _) =? 0)%nat;
    [cbn; rewrite app_nil_r; reflexivity|].
  destruct (groupByType _) as [g|]; [|reflexivity].
  cbn [mbind option_bind fmap option_fmap option_map].
  f_equal. destruct (0 <? length _)%nat.
  - rewrite fold_typeSection_app, (fold_typeSection_app _ _ _ (([] ++ _) ++ _)).
    rewrite !app_nil_l, <- !app_assoc. reflexivity.
  - rewrite fold_typeSection_app, (fold_typeSection_app _ _ _ ([] ++ _)).
    rewrite !app_nil_l, <- !app_assoc. reflexivity.
Qed.

Lemma renderAll_app s r v idx : forall l0 l,
  renderAll BREAKING_HEADING s r v idx (l0 ++ l)
  = (fun more => l0 ++ more) <$> renderAll BREAKING_HEADING s r v idx l.
Proof.
  induction idx as [|i idx IH]; intros l0 l; [reflexivity|].
  cbn [renderAll]. rewrite (renderEntry_app s r v (l0 ++ l)).
  rewrite (renderEntry_app s r v l).
  destruct (renderEntry BREAKING_HEADING s r v [] i) as [x|]; [|reflexivity].
  cbn [fmap option_fmap option_map mbind option_bind].
  rewrite <- app_assoc. apply IH.
Qed.

Lemma renderAll_from_nil s r v idx l0 :
  renderAll BREAKING_HEADING s r v idx l0
  = (fun more => l0 ++ more) <$> renderAll BREAKING_HEADING s r v idx [].
Proof. rewrite <- (app_nil_r l0) at 1. apply renderAll_app. Qed.

Lemma shown_nil v e : commits e = [] -> shown v e = [].
Proof. unfold shown. intros ->. destruct v; reflexivity. Qed.

Lemma length_zero {A} (l : list A) : (length l =? 0)%nat = true <-> l = [].
Proof. destruct l; simpl; split; congruence. Qed.

(** What a turn adds for an entry with nothing to show, and when it
    throws. *)
Lemma renderEntry_cases s r v lines i :
  match s !! i with
  | None => renderEntry BREAKING_HEADING s r v lines i = Some lines
  | Some e =>
      (shown v e = [] ->
       renderEntry BREAKING_HEADING s r v lines i = Some lines)
      /\ (shown v e <> [] ->
          (renderEntry BREAKING_HEADING s r v lines i = None
           <-> groupByType (shown v e) = None))
  end.
Proof.
  unfold renderEntry. destruct (s !! i) as [e|]; [|reflexivity].
  fold (shown v e).
  destruct (commits e) as [|c cs] eqn:Ec.
  - rewrite (shown_nil v e Ec). cbn. split; [reflexivity | congruence].
  - cbn [length Nat.eqb]. destruct (shown v e) as [|d ds] eqn:Es.
    + cbn. split; [reflexivity | congruence].
    + cbn [length Nat.eqb]. split; [discriminate|]. intros _.
      destruct (groupByType (d :: ds)) as [g|]; cbn; split; congruence.
Qed.

Lemma renderAll_None s r v idx : forall lines,
  renderAll BREAKING_HEADING s r v idx lines = None
  <-> exists i, i ∈ idx /\ renderEntry BREAKING_HEADING s r v [] i = None.
Proof.
  induction idx as [|i idx IH]; intros lines.
  - simpl. split; [discriminate|]. intros (i & Hi & _). inversion Hi.
  - cbn [renderAll]. rewrite (renderEntry_app s r v lines).
    destruct (renderEntry BREAKING_HEADING s r v [] i) as [x|] eqn:E.
    + cbn. rewrite IH. split.
      * intros (j & Hj & Hn). exists j. split; [right; exact Hj | exact Hn].
      * intros (j & Hj & Hn). apply elem_of_cons in Hj as [->|Hj];
          [congruence|]. eauto.
    + cbn. split; [|reflexivity]. intros _. exists i. split; [left | exact E].
Qed.

Lemma visible_not_inherited t :
  existsb (String.eqb t) VISIBLE_TYPES = true -> inherited t = false.
Proof.
  unfold VISIBLE_TYPES. cbn [existsb]. rewrite !orb_true_iff.
  intros [H|[H|[H|[H|H]]]]; try discriminate H;
    apply String.eqb_eq in H; subst; reflexivity.
Qed.

Lemma shown_inherited v e c :
  c ∈ shown v e -> inherited (type c) = true -> v = true /\ c ∈ commits e.
Proof.
  unfold shown. destruct v; [auto|]. intros Hin Hi.
  apply list_elem_of_In, filter_In in Hin as [_ Hv].
  rewrite (visible_not_inherited _ Hv) in Hi. discriminate.
Qed.

Lemma formatChangelog_None (changelogs : list TagChangelog)
      (remote : option RemoteInfo) (verbose : bool) :
  formatChangelog BREAKING_HEADING changelogs remote verbose = None
  <-> verbose = true
      /\ exists e c, e ∈ changelogs /\ c ∈ commits e
                     /\ inherited (type c) = true.
Proof.
  unfold formatChangelog, changelogLines.
  set (s := reverse changelogs).
  assert (Hn : (renderAll BREAKING_HEADING s remote verbose
                  (seq 0 (length s)) ["# Changelog"; ""] ≫=
                (fun lines => Some (trimEnd (join newline lines) +:+ newline)))
               = None
               <-> renderAll BREAKING_HEADING s remote verbose
                     (seq 0 (length s)) ["# Changelog"; ""] = None).
  { destruct (renderAll _ _ _ _ _ _); cbn; split; congruence. }
  rewrite Hn, renderAll_None. clear Hn. split.
  - intros (i & Hi & Hr).
    pose proof (renderEntry_cases s remote verbose [] i) as Hc.
    destruct (s !! i) as [e|] eqn:Ei; [|congruence].
    destruct Hc as [Hc1 Hc2].
    destruct (shown verbose e) as [|d ds] eqn:Es; [rewrite Hc1 in Hr; congruence|].
    assert (Hne : d :: ds <> []) by discriminate.
    apply (Hc2 Hne), groupByType_None in Hr as (c & Hin & Hinh).
    rewrite <- Es in Hin. destruct (shown_inherited _ _ _ Hin Hinh) as [-> Hce].
    split; [reflexivity|]. exists e, c.
    split; [|auto]. apply elem_of_reverse. exact (list_elem_of_lookup_2 _ _ _ Ei).
  - intros (-> & e & c & He & Hc & Hinh).
    apply elem_of_reverse, list_elem_of_lookup_1 in He as [i Hi]. fold s in Hi.
    exists i. split.
    + apply elem_of_seq. pose proof (lookup_lt_Some _ _ _ Hi). lia.
    + pose proof (renderEntry_cases s remote true [] i) as Hcases.
      rewrite Hi in Hcases. destruct Hcases as [_ H2].
      assert (Hne : shown true e <> []).
      { unfold shown. intros E. rewrite E in Hc. inversion Hc. }
      apply (H2 Hne), groupByType_None. exists c. auto.
Qed.

(** X13.  formatChangelog throws exactly in verbose mode on a commit whose
    type names a property inherited from Object.prototype; without the
    verbose flag it returns for every input. *)
Theorem formatChangelog_throws_iff (changelogs : list TagChangelog)
        (remote : option RemoteInfo) (verbose : bool) :
  formatChangelog BREAKING_HEADING changelogs remote verbose = None
  <-> verbose = true
      /\ exists e c, e ∈ changelogs /\ c ∈ commits e
                     /\ inherited (type c) = true.
Proof. apply formatChangelog_None. Qed.

Lemma formatChangelog_framed (changelogs : list TagChangelog)
      (remote : option RemoteInfo) (verbose : bool) (markdown : string) :
  formatChangelog BREAKING_HEADING changelogs remote verbose = Some markdown ->
  exists text,
    markdown = "# Changelog" +:+ text +:+ newline
    /\ no_trailing_space ("# Changelog" +:+ text) = true.
Proof.
  unfold formatChangelog, changelogLines.
  rewrite renderAll_from_nil.
  destruct (renderAll _ _ _ _ _ []) as [more|]; [|discriminate].
  cbn [fmap option_fmap option_map mbind option_bind].
  change (join newline (["# Changelog"; ""] ++ more))
    with ("# Changelog" +:+ newline +:+ join newline ("" :: more)).
  generalize (join newline ("" :: more)). intros X H. injection H as <-.
  exists (trimEnd (newline +:+ X)).
  pose proof (trimEnd_after "# Changelog" (newline +:+ X)) as E.
  rewrite E; [|discriminate | reflexivity].
  split; [apply sapp_assoc|]. rewrite <- E; [|discriminate | reflexivity].
  destruct (trimEnd_decomp ("# Changelog" +:+ newline +:+ X))
    as (w & _ & _ & Hn). exact Hn.
Qed.

(** X14.  The output is framed: it starts with the title, ends with one line
    feed, and no white space stands before that line feed. *)
Theorem formatChangelog_frame (changelogs : list TagChangelog)
        (remote : option RemoteInfo) (verbose : bool) (markdown : string) :
  formatChangelog BREAKING_HEADING changelogs remote verbose = Some markdown ->
  exists text,
    markdown = "# Changelog" +:+ text +:+ newline
    /\ no_trailing_space ("# Changelog" +:+ text) = true.
Proof. apply formatChangelog_framed. Qed.

(** X15.  With nothing to show (no entries, or only entries without a commit
    of a shown type) the output is the title alone. *)
Theorem formatChangelog_nothing_to_show (changelogs : list TagChangelog)
        (remote : option RemoteInfo) (verbose : bool) :
  (forall e, e ∈ changelogs -> shown verbose e = []) ->
  formatChangelog BREAKING_HEADING changelogs remote verbose
  = Some ("# Changelog" +:+ newline).
Proof.
  intros H. unfold formatChangelog, changelogLines.
  assert (E : forall idx lines,
            renderAll BREAKING_HEADING (reverse changelogs) remote verbose
                      idx lines = Some lines).
  { induction idx as [|i idx IH]; intros lines; [reflexivity|].
    cbn [renderAll].
    pose proof (renderEntry_cases (reverse changelogs) remote verbose lines i)
      as Hc.
    destruct (reverse changelogs !! i) as [e|] eqn:Ei.
    - destruct Hc as [Hc _]. rewrite Hc; [apply IH|].
      apply H, elem_of_reverse. exact (list_elem_of_lookup_2 _ _ _ Ei).
    - rewrite Hc. apply IH. }
  rewrite E. reflexivity.
Qed.

End RenderFacts.

Section FormatLaws.
Import Chars Str StrOps Parser Props Remote Cli Formatter Terms.

Variable BREAKING_HEADING : string.

Lemma lookup_map {A B} (f : A -> B) l i : map f l !! i = f <$> (l !! i).
Proof.
  revert i. induction l as [|x l IH]; intros [|i]; try reflexivity. apply IH.
Qed.

Lemma reverse_map {A B} (f : A -> B) l : reverse (map f l) = map f (reverse l).
Proof.
  induction l as [|x l IH]; [reflexivity|].
  cbn [map]. rewrite !reverse_cons, IH, map_app. reflexivity.
Qed.

Lemma filter_idem {A} (p : A -> bool) l :
  List.filter p (List.filter p l) = List.filter p l.
Proof. apply forallb_filter_id, forallb_filter. Qed.

Lemma buildHeaderUrl_map (f : TagChangelog -> TagChangelog) s i r :
  (forall e, originalTag (f e) = originalTag e) ->
  buildHeaderUrl (map f s) i r = buildHeaderUrl s i r.
Proof.
  intros Hf. unfold buildHeaderUrl. destruct r as [r|]; [|reflexivity].
  rewrite !lookup_map. destruct (s !! i) as [e|]; [|reflexivity].
  cbn [fmap option_fmap option_map]. rewrite Hf.
  destruct (s !! (i + 1)%nat) as [p|]; [|reflexivity].
  cbn [fmap option_fmap option_map]. rewrite Hf. reflexivity.
Qed.

Lemma renderEntry_visibleOnly s r lines i :
  renderEntry BREAKING_HEADING (map visibleOnly s) r false lines i
  = renderEntry BREAKING_HEADING s r false lines i.
Proof.
  unfold renderEntry.
  rewrite (buildHeaderUrl_map visibleOnly s i r (fun e => eq_refl)).
  rewrite lookup_map. destruct (s !! i) as [e|]; [|reflexivity].
  cbn [fmap option_fmap option_map visibleOnly commits displayTag date].
  unfold shown. rewrite !filter_idem.
  destruct (commits e) as [|c cs] eqn:Ec; [reflexivity|].
  cbn [length Nat.eqb].
  destruct (List.filter _ (c :: cs)) as [|d ds]; reflexivity.
Qed.

Lemma renderAll_visibleOnly s r idx : forall lines,
  renderAll BREAKING_HEADING (map visibleOnly s) r false idx lines
  = renderAll BREAKING_HEADING s r false idx lines.
Proof.
  induction idx as [|i idx IH]; intros lines; [reflexivity|].
  cbn [renderAll]. rewrite renderEntry_visibleOnly.
  destruct (renderEntry _ _ _ _ _ _); [apply IH | reflexivity].
Qed.

(** X16.  Without the verbose flag the output does not depend on the commits
    of the hidden types: leaving them out of every entry gives the same
    text. *)
Theorem formatChangelog_ignores_hidden (changelogs : list TagChangelog)
        (remote : option RemoteInfo) :
  formatChangelog BREAKING_HEADING (map visibleOnly changelogs) remote false
  = formatChangelog BREAKING_HEADING changelogs remote false.
Proof.
  unfold formatChangelog, changelogLines.
  rewrite reverse_map, length_map, renderAll_visibleOnly. reflexivity.
Qed.

Lemma buildHeaderUrl_cons e s j r :
  buildHeaderUrl (e :: s) (S j) r = buildHeaderUrl s j r.
Proof. reflexivity. Qed.

Lemma renderEntry_cons e s r v lines j :
  renderEntry BREAKING_HEADING (e :: s) r v lines (S j)
  = renderEntry BREAKING_HEADING s r v lines j.
Proof. reflexivity. Qed.

Lemma renderAll_cons e s r v idx : forall lines,
  renderAll BREAKING_HEADING (e :: s) r v (map S idx) lines
  = renderAll BREAKING_HEADING s r v idx lines.
Proof.
  induction idx as [|i idx IH]; intros lines; [reflexivity|].
  cbn [map renderAll]. rewrite renderEntry_cons.
  destruct (renderEntry _ _ _ _ _ _); [apply IH | reflexivity].
Qed.

Lemma renderEntry_head e s r v lines :
  renderEntry BREAKING_HEADING (e :: s) r v lines 0
  = renderEntry BREAKING_HEADING (e :: option_list (head s)) r v lines 0.
Proof.
  unfold renderEntry, buildHeaderUrl. cbn [lookup list_lookup Nat.add].
  destruct s as [|p s]; reflexivity.
Qed.

(** X17.  The newest release comes first, and adding a release leaves the
    text of the older ones as it is: the lines for [changelogs ++ [e]] are
    the title, the lines of [e], which depend on [e] and on the entry before
    it only, and then the lines that [changelogs] alone gives. *)
Theorem changelogLines_newest_first (changelogs : list TagChangelog)
        (e : TagChangelog) (remote : option RemoteInfo) (verbose : bool) :
  changelogLines BREAKING_HEADING (changelogs ++ [e]) remote verbose
  = (entry ← renderEntry BREAKING_HEADING (e :: option_list (last changelogs))
                         remote verbose [] 0;
     older ← changelogLines BREAKING_HEADING changelogs remote verbose;
     Some (["# Changelog"; ""] ++ entry ++ drop 2 older)).
Proof.
  unfold changelogLines. rewrite reverse_snoc, <- head_reverse.
  cbn [length seq renderAll]. rewrite <- seq_shift.
  rewrite renderEntry_head, (renderEntry_app _ _ _ _ ["# Changelog"; ""]).
  destruct (renderEntry BREAKING_HEADING _ remote verbose [] 0) as [entry|];
    [|reflexivity].
  cbn [fmap option_fmap option_map mbind option_bind].
  rewrite renderAll_cons.
  rewrite (renderAll_from_nil _ _ _ _ _ (["# Changelog"; ""] ++ entry)).
  rewrite (renderAll_from_nil _ _ _ _ _ ["# Changelog"; ""]).
  destruct (renderAll BREAKING_HEADING (reverse changelogs) remote verbose
              (seq 0 (length (reverse changelogs))) []) as [older|];
    [|reflexivity].
  cbn [fmap option_fmap option_map mbind option_bind].
  rewrite <- app_assoc. reflexivity.
Qed.

End FormatLaws.

Section LinkFacts.
Import Chars Str StrOps Parser Props Remote Cli Formatter Terms.

Variable remote : RemoteInfo.

Lemma span_fst_app p a b :
  head_fails p b = true -> fst (span p (a +:+ b)) = fst (span p a).
Proof.
  intros Hb. induction a as [|c a IH].
  - rewrite sapp_nil_l. destruct b as [|d b]; [reflexivity|].
    simpl in *. apply negb_true_iff in Hb. rewrite Hb. reflexivity.
  - rewrite sapp_cons. simpl. destruct (p c); [|reflexivity].
    destruct (span p (a +:+ b)), (span p a). simpl in *. rewrite IH. reflexivity.
Qed.

Lemma span_fst_length p c a :
  (S (String.length (fst (span p a)))
   <= String.length (fst (span p (String c a))))%nat ->
  p c = true.
Proof. simpl. destruct (p c); [reflexivity|]. simpl. lia. Qed.

Lemma span_fst_cons p c a :
  p c = true -> fst (span p (String c a)) = String c (fst (span p a)).
Proof. intros H. simpl. rewrite H. destruct (span p a). reflexivity. Qed.

(** A text is rewritten piece by piece where no number runs over the
    cut. *)
Lemma replaceIssues_app a : forall k b,
  (k <= String.length (fst (span is_digit a)))%nat ->
  head_fails is_digit b = true ->
  replaceIssues remote k (a +:+ b)
  = replaceIssues remote k a +:+ replaceIssues remote 0 b.
Proof.
  induction a as [|c a IH]; intros k b Hk Hb.
  - simpl in Hk. assert (k = 0%nat) as -> by lia. reflexivity.
  - rewrite sapp_cons. destruct k as [|k].
    + cbn [replaceIssues]. destruct (Ascii.eqb c "#").
      * rewrite (span_fst_app _ _ _ Hb).
        destruct (fst (span is_digit a)) as [|d num] eqn:E.
        -- rewrite sapp_cons. f_equal. apply IH; [simpl; lia | exact Hb].
        -- rewrite IH; [|simpl; lia | exact Hb].
           rewrite !sapp_assoc. reflexivity.
      * rewrite sapp_cons. f_equal. apply IH; [lia | exact Hb].
    + cbn [replaceIssues]. destruct (is_digit c) eqn:Hc.
      * rewrite (span_fst_cons _ _ _ Hc) in Hk. simpl in Hk.
        apply IH; [lia | exact Hb].
      * simpl in Hk. rewrite Hc in Hk. simpl in Hk. lia.
Qed.

Lemma replaceIssues_skip s : forall k,
  (String.length s <= k)%nat -> replaceIssues remote k s = "".
Proof.
  induction s as [|c s IH]; intros k Hk; [reflexivity|].
  simpl in Hk. destruct k as [|k]; [lia|]. cbn [replaceIssues].
  apply IH. lia.
Qed.

Lemma replaceIssues_plain s :
  has_reference s = false -> replaceIssues remote 0 s = s.
Proof.
  induction s as [|c s IH]; [reflexivity|]. cbn [has_reference replaceIssues].
  intros H. apply orb_false_elim in H as [H1 H2].
  destruct (Ascii.eqb c "#").
  - cbn [andb] in H1. apply negb_false_iff in H1.
    destruct s as [|d s]; [reflexivity|]. simpl in H1.
    apply negb_true_iff in H1. cbn [span]. rewrite H1. cbn [fst].
    rewrite (IH H2). reflexivity.
  - rewrite (IH H2). reflexivity.
Qed.

Lemma span_all p s : forallb p s = true -> span p s = (s, "").
Proof.
  intros H. rewrite <- (sapp_nil_r s) at 1. apply span_exact; [exact H | reflexivity].
Qed.

Lemma replaceIssues_reference num :
  is_digits num = true ->
  replaceIssues remote 0 ("#" +:+ num) = issueLink remote num.
Proof.
  unfold is_digits. intros H. apply andb_prop in H as [Hne Hd].
  change ("#" +:+ num) with (String "#" num). cbn [replaceIssues].
  change (Ascii.eqb "#" "#") with true. cbn iota.
  rewrite (span_all _ _ Hd). cbn [fst].
  destruct num as [|d num]; [discriminate|].
  rewrite replaceIssues_skip by lia.
  unfold issueLink, buildIssueUrl. rewrite !sapp_assoc, sapp_nil_r.
  reflexivity.
Qed.

(** X18.  linkifyReferences leaves a text without a [#] before a digit as it
    is, turns [#] followed by a whole number into the link to that issue,
    and works piece by piece on a text cut where no digit follows. *)
Theorem linkifyReferences_links (text rest num : string) :
  (has_reference text = false ->
   linkifyReferences text (Some remote) = text)
  /\ (is_digits num = true ->
      linkifyReferences ("#" +:+ num) (Some remote) = issueLink remote num)
  /\ (head_fails is_digit rest = true ->
      linkifyReferences (text +:+ rest) (Some remote)
      = linkifyReferences text (Some remote)
        +:+ linkifyReferences rest (Some remote)).
Proof.
  unfold linkifyReferences. split; [apply replaceIssues_plain|].
  split; [apply replaceIssues_reference|].
  intros H. apply replaceIssues_app; [lia | exact H].
Qed.

End LinkFacts.

Section FormatWitnesses.
Import Chars Str StrOps Parser Props Remote Cli Formatter Terms.

Example linkifyReferences_example :
  linkifyReferences "resolves #123 and #456"
                    (Some (mkRemoteInfo "github.com" "acme" "my-lib"))
  = "resolves [#123](https://github.com/acme/my-lib/issues/123) and "
    +:+ "[#456](https://github.com/acme/my-lib/issues/456)".
Proof. vm_compute. reflexivity. Qed.

Lemma formatChangelog_frame_witness :
  exists text,
    "# Changelog" +:+ newline +:+ newline +:+ "## v1.0.0 (2025-01-15)"
    +:+ newline +:+ newline +:+ "### Features" +:+ newline +:+ newline
    +:+ "- test (abcdef1)" +:+ newline
    = "# Changelog" +:+ text +:+ newline
    /\ no_trailing_space ("# Changelog" +:+ text) = true.
Proof.
  apply (formatChangelog_frame "### BREAKING CHANGES"
           [mkTagChangelog "1.0.0" "v1.0.0" "v1.0.0" "2025-01-15"
              [mkConventionalCommit "abcdef123456" "feat" None "test"
                                    "feat: test" false]]
           None false).
  vm_compute. reflexivity.
Defined.

Lemma formatChangelog_nothing_to_show_witness :
  formatChangelog "### BREAKING CHANGES"
    [mkTagChangelog "1.0.0" "v1.0.0" "v1.0.0" "2025-01-15"
       [mkConventionalCommit "abcdef123456" "chore" None "tidy"
                             "chore: tidy" false]]
    None false
  = Some ("# Changelog" +:+ newline).
Proof.
  apply formatChangelog_nothing_to_show.
  intros e He. apply list_elem_of_singleton in He. subst e. reflexivity.
Defined.

End FormatWitnesses.

(** ** cli.ts: the command *)

Section RunFacts.
Import Chars Str StrOps Parser Dedup Props Remote Cli Bump Formatter Run Terms.

Variable newURL : string -> option URL.
Variable BREAKING_HEADING : string.

Lemma parseRemoteUrl_None url :
  parseRemoteUrl newURL url = None
  <-> starts_with "git@" url = false
      /\ starts_with "https://" url || starts_with "http://" url = true
      /\ newURL url = None.
Proof.
  unfold parseRemoteUrl. destruct (starts_with "git@" url).
  - destruct (match_ssh url) as [[h p]|]; split; try discriminate;
      intros (H & _); discriminate.
  - destruct (starts_with "https://" url || starts_with "http://" url).
    + destruct (newURL url); cbn; split; try discriminate; auto.
      intros (_ & _ & H). discriminate.
    + split; [discriminate|]. intros (_ & H & _). discriminate.
Qed.

Lemma isValidVersion_spec tag :
  isValidVersion tag = true
  <-> exists v, extractVersion tag = Some v /\ valid_version v.
Proof.
  unfold isValidVersion, valid_version. destruct (extractVersion tag) as [v|].
  - destruct (Semver.parse v) as [p|] eqn:E; split.
    + intros _. exists v. rewrite E. eauto.
    + reflexivity.
    + discriminate.
    + intros (w & Hw & [q Hq]). inversion Hw; subst. congruence.
  - split; [discriminate|]. intros (v & Hv & _). discriminate.
Qed.

Lemma ALL_TYPES_not_inherited t : t ∈ ALL_TYPES -> inherited t = false.
Proof.
  unfold ALL_TYPES. rewrite !elem_of_cons, elem_of_nil.
  intros H. repeat (destruct H as [->|H]; [reflexivity|]). contradiction.
Qed.

Lemma allCommits_parsed git tm c :
  c ∈ allCommits git tm -> exists rc, parseConventionalCommit rc = Some c.
Proof.
  unfold allCommits. intros H. apply list_elem_of_In, in_concat in H.
  destruct H as (l & Hl & Hc). apply in_map_iff in Hl as (v & <- & _).
  unfold parsedCommits in Hc. destruct (Js.get v (tags tm)) as [ti|];
    [|inversion Hc].
  apply list_elem_of_In, list_elem_of_omap in Hc as (rc & _ & Hp). eauto.
Qed.

Lemma stepRepo_step repo tm st v st' :
  stepRepo repo tm st v = Some st' ->
  Cli.step (gitOf repo) tm st v = Some st'.
Proof.
  unfold stepRepo, Cli.step.
  destruct (Js.get v (tags tm)) as [ti|]; [|discriminate].
  cbn [mbind option_bind].
  destruct (Run.getCommits repo (original ti)) as [rc|] eqn:E; [|discriminate].
  cbn [mbind option_bind gitOf Cli.getTagDate Cli.getCommits].
  rewrite E. cbn [default]. auto.
Qed.

Lemma walkRepo_walk repo tm vs : forall st st',
  walkRepo repo tm st vs = Some st' ->
  Cli.walk (gitOf repo) tm st vs = Some st'.
Proof.
  induction vs as [|v vs IH]; intros st st' H; [exact H|].
  cbn [walkRepo Cli.walk] in *.
  destruct (stepRepo repo tm st v) as [st1|] eqn:E; [|discriminate].
  rewrite (stepRepo_step _ _ _ _ _ E). cbn [mbind option_bind] in *.
  exact (IH _ _ H).
Qed.

Lemma walkRepo_None repo tm vs : forall st,
  Forall (fun v => is_Some (Js.get v (tags tm))) vs ->
  walkRepo repo tm st vs = None ->
  exists v ti, v ∈ vs /\ Js.get v (tags tm) = Some ti
               /\ Run.getCommits repo (original ti) = None.
Proof.
  induction vs as [|v vs IH]; intros st Hwf H; [discriminate|].
  inversion Hwf as [|? ? [ti Hti] Hwf']; subst.
  cbn [walkRepo] in H.
  destruct (stepRepo repo tm st v) as [st1|] eqn:E.
  - cbn [mbind option_bind] in H.
    destruct (IH st1 Hwf' H) as (w & tw & Hw & Hg & Hc).
    exists w, tw. split; [right; exact Hw | auto].
  - exists v, ti. split; [left|]. split; [exact Hti|].
    unfold stepRepo in E. rewrite Hti in E. cbn [mbind option_bind] in E.
    destruct (Run.getCommits repo (original ti)) as [rc|] eqn:Ec;
      [|reflexivity].
    cbn [mbind option_bind] in E. exfalso.
    destruct (isPreRelease v) eqn:Hp.
    + rewrite (step_prerelease _ _ _ _ _ Hti Hp) in E. discriminate.
    + rewrite (step_stable _ _ _ _ _ Hti Hp) in E. discriminate.
Qed.

Lemma walkRepo_fails repo tm v ti vs : forall st,
  v ∈ vs -> Js.get v (tags tm) = Some ti ->
  Run.getCommits repo (original ti) = None ->
  walkRepo repo tm st vs = None.
Proof.
  induction vs as [|w vs IH]; intros st Hv Hg Hc; [inversion Hv|].
  cbn [walkRepo]. apply elem_of_cons in Hv as [<-|Hv].
  - unfold stepRepo. rewrite Hg. cbn [mbind option_bind]. rewrite Hc.
    reflexivity.
  - destruct (stepRepo repo tm st w) as [st1|]; [|reflexivity].
    cbn [mbind option_bind]. exact (IH st1 Hv Hg Hc).
Qed.

(** X19.  The command on a repository, without the bump flag.  It throws
    exactly when the remote is an http(s) address that [new URL] refuses,
    when [git tag] fails, or when [git log] fails for the canonical tag
    of a version; it ends with the message about missing tags exactly
    when [git tag] answers and no tag has a valid semantic version; in
    every other case it hands [writeOutput] a changelog, framed by its
    title and a final line feed. *)
Theorem run_changelog_outcome (repo : Repository) (options : Options) :
  (isGitRepository repo = false ->
   run newURL BREAKING_HEADING repo options = Some (Exit NOT_A_REPOSITORY))
  /\ (isGitRepository repo = true -> bump options = false ->
      exists outcome,
        run newURL BREAKING_HEADING repo options = Some outcome
        /\ match outcome with
           | Thrown =>
               remote_throws newURL repo \/ Run.getTags repo = None
               \/ log_fails repo
           | Exit message =>
               message = NO_TAGS /\ ~ remote_throws newURL repo
               /\ is_Some (Run.getTags repo) /\ ~ has_version_tag repo
           | Output markdown =>
               ~ remote_throws newURL repo /\ has_version_tag repo
               /\ ~ log_fails repo
               /\ exists text, markdown = "# Changelog" +:+ text +:+ newline
           end).
Proof.
  split; [intros H; unfold run; rewrite H; reflexivity|].
  intros Hg Hb. unfold run. rewrite Hg, Hb. cbn [negb].
  eexists. split; [reflexivity|]. unfold runChangelog.
  destruct (match truthy (getRemoteUrl repo) with
            | Some remoteUrl => parseRemoteUrl newURL remoteUrl
            | None => Some None
            end) as [remote|] eqn:Er.
  2:{ destruct (truthy (getRemoteUrl repo)) as [u|] eqn:Eu; [|discriminate].
      apply parseRemoteUrl_None in Er. left. exists u. auto. }
  assert (Hnt : ~ remote_throws newURL repo).
  { intros (u & Hu & H1 & H2 & H3). rewrite Hu in Er.
    assert (parseRemoteUrl newURL u = None) by (apply parseRemoteUrl_None; auto).
    congruence. }
  destruct (Run.getTags repo) as [allTags|] eqn:Et; [|right; left; reflexivity].
  destruct (normalizeTags_spec allTags) as (tm & Hn & Hin & _ & _ & _ & _).
  rewrite Hn.
  destruct (normalizeTags_well_formed _ _ Hn) as [Hwf _].
  assert (Hv : has_version_tag repo <-> versions tm <> []).
  { unfold has_version_tag. rewrite Et. split.
    - intros (l & t & El & Ht & Hval). inversion El; subst l.
      apply isValidVersion_spec in Hval as (v & Hv & Hvv).
      assert (v ∈ versions tm) by (apply Hin; eauto).
      intros E. rewrite E in H. inversion H.
    - destruct (versions tm) as [|v vs] eqn:E; [congruence|]. intros _.
      assert (Hvin : v ∈ v :: vs) by left.
      apply Hin in Hvin as (Hvv & t & Ht & He). exists allTags, t.
      split; [reflexivity|]. split; [exact Ht|].
      apply isValidVersion_spec. eauto. }
  assert (Hlog : log_fails repo
                 <-> exists v ti, v ∈ versions tm
                                  /\ Js.get v (tags tm) = Some ti
                                  /\ Run.getCommits repo (original ti) = None).
  { unfold log_fails. rewrite Et. split.
    - intros (l & tm' & v & ti & El & Hn' & H). inversion El; subst l.
      rewrite Hn in Hn'. inversion Hn'; subst tm'. eauto.
    - intros (v & ti & H). exists allTags, tm, v, ti. auto. }
  destruct (length (versions tm) =? 0)%nat eqn:El.
  - apply length_zero in El.
    split; [reflexivity|]. split; [exact Hnt|]. split; [eauto|].
    rewrite Hv. auto.
  - assert (Hne : versions tm <> []).
    { intros E. apply length_zero in E. congruence. }
    unfold assembleRepo.
    destruct (walkRepo repo tm Cli.init (versions tm)) as [st'|] eqn:Ew.
    2:{ right. right. apply Hlog. exact (walkRepo_None _ _ _ _ Hwf Ew). }
    cbn [fmap option_fmap option_map].
    assert (Hok : ~ log_fails repo).
    { rewrite Hlog. intros (v & ti & Hvin & Hg' & Hc).
      rewrite (walkRepo_fails _ _ _ _ _ Cli.init Hvin Hg' Hc) in Ew.
      discriminate. }
    destruct (assemble_spec (gitOf repo) tm Hwf) as (st & Hst & _ & Hc).
    rewrite (walkRepo_walk _ _ _ _ _ Ew) in Hst. inversion Hst; subst st'.
    destruct (formatChangelog BREAKING_HEADING (flush st) remote (all options))
      as [markdown|] eqn:Ef.
    + split; [exact Hnt|]. split; [apply Hv, Hne|]. split; [exact Hok|].
      destruct (formatChangelog_framed _ _ _ _ _ Ef) as (text & Ht & _).
      eauto.
    + exfalso. apply formatChangelog_None in Ef as (_ & e & c & He & Hce & Hi).
      assert (Hall : c ∈ concat (map commits (flush st))).
      { apply list_elem_of_In, in_concat. exists (commits e).
        split; [apply in_map, list_elem_of_In, He | apply list_elem_of_In, Hce]. }
      rewrite Hc in Hall.
      apply (fun H => elem_of_sublist _ _ _ H (dedupeCommits_sublist _ _))
        in Hall.
      apply allCommits_parsed in Hall as (rc & Hp).
      rewrite (ALL_TYPES_not_inherited _ (parsed_type _ _ Hp)) in Hi.
      discriminate.
Qed.

End RunFacts.

(** ** Decimal numerals *)

Section NumeralFacts.
Import Chars Str StrOps JsNum Props Terms.

Lemma string_of_uint_digits d :
  forallb is_digit (NilEmpty.string_of_uint d) = true.
Proof. induction d; simpl; try exact IHd; reflexivity. Qed.

Lemma of_uint_acc_value d : forall acc,
  Npos (Pos.of_uint_acc d acc)
  = digits_to_N_from (Npos acc) (NilEmpty.string_of_uint d).
Proof.
  induction d; intros acc; cbn [Pos.of_uint_acc NilEmpty.string_of_uint
                                 digits_to_N_from];
    try reflexivity; rewrite IHd; f_equal;
    match goal with
    | |- context [digit_val ?c] =>
        let v := eval vm_compute in (digit_val c) in
        change (digit_val c) with v
    end; lia.
Qed.

Lemma of_uint_value d :
  Pos.of_uint d = digits_to_N_from 0 (NilEmpty.string_of_uint d).
Proof.
  induction d; cbn [Pos.of_uint NilEmpty.string_of_uint digits_to_N_from];
    try reflexivity; try exact IHd; apply of_uint_acc_value.
Qed.

(** Reading the numeral of a number gives the number back. *)
Lemma digits_to_N_to_string n : digits_to_N (N_to_string n) = n.
Proof.
  unfold digits_to_N, N_to_string. rewrite <- of_uint_value.
  apply DecimalN.Unsigned.of_to.
Qed.

Lemma N_to_string_digits n : forallb is_digit (N_to_string n) = true.
Proof. apply string_of_uint_digits. Qed.

(** A numeral is [0] or starts with another digit. *)
Lemma N_to_string_head n :
  N_to_string n = "0"
  \/ exists c s, N_to_string n = String c s /\ c <> "0"%char.
Proof.
  unfold N_to_string.
  assert (E : N.to_uint n = Decimal.unorm (N.to_uint n)).
  { rewrite <- DecimalN.Unsigned.to_of, DecimalN.Unsigned.of_to. reflexivity. }
  destruct (Decimal.nzhead (N.to_uint n)) eqn:Hz.
  - left. apply DecimalFacts.unorm_0 in Hz. rewrite E, Hz. reflexivity.
  - exfalso. exact (DecimalFacts.nzhead_nonzero _ _ Hz).
  - right. rewrite E, DecimalFacts.unorm_nzhead, Hz by congruence.
    eexists _, _. split; [reflexivity | discriminate].
  - right. rewrite E, DecimalFacts.unorm_nzhead, Hz by congruence.
    eexists _, _. split; [reflexivity | discriminate].
  - right. rewrite E, DecimalFacts.unorm_nzhead, Hz by congruence.
    eexists _, _. split; [reflexivity | discriminate].
  - right. rewrite E, DecimalFacts.unorm_nzhead, Hz by congruence.
    eexists _, _. split; [reflexivity | discriminate].
  - right. rewrite E, DecimalFacts.unorm_nzhead, Hz by congruence.
    eexists _, _. split; [reflexivity | discriminate].
  - right. rewrite E, DecimalFacts.unorm_nzhead, Hz by congruence.
    eexists _, _. split; [reflexivity | discriminate].
  - right. rewrite E, DecimalFacts.unorm_nzhead, Hz by congruence.
    eexists _, _. split; [reflexivity | discriminate].
  - right. rewrite E, DecimalFacts.unorm_nzhead, Hz by congruence.
    eexists _, _. split; [reflexivity | discriminate].
  - right. rewrite E, DecimalFacts.unorm_nzhead, Hz by congruence.
    eexists _, _. split; [reflexivity | discriminate].
Qed.

Lemma N_to_string_nonempty n : N_to_string n <> "".
Proof.
  destruct (N_to_string_head n) as [E|(c & s & E & _)]; rewrite E; discriminate.
Qed.

Lemma N_to_string_is_digits n : is_digits (N_to_string n) = true.
Proof.
  unfold is_digits. rewrite N_to_string_digits.
  pose proof (N_to_string_nonempty n). destruct (N_to_string n); [congruence | reflexivity].
Qed.

Lemma N_to_string_length n :
  (n < 2 ^ 53)%N -> (String.length (N_to_string n) <= 16)%nat.
Proof.
  intros H. destruct (N_to_string_head n) as [E|(c & s & E & Hc)].
  - rewrite E. simpl. lia.
  - apply short_numeral.
    + apply N_to_string_digits.
    + rewrite E. exact Hc.
    + rewrite digits_to_N_to_string. exact H.
Qed.

End NumeralFacts.

(** ** bump.ts: the suggestion and the baseline *)

Section FormatParse.
Import Chars Str StrOps JsNum Parser Props Terms Semver.

Lemma is_digit_not_space c : is_digit c = true -> is_space c = false.
Proof. destruct c as [[] [] [] [] [] [] [] []]; intros H; try reflexivity; discriminate H. Qed.

Lemma strip_v_digit c s : is_digit c = true -> strip_v (String c s) = String c s.
Proof. destruct c as [[] [] [] [] [] [] [] []]; intros H; try reflexivity; discriminate H. Qed.

Lemma numeric_identifier_numeral n r :
  head_fails is_digit r = true ->
  numeric_identifier (N_to_string n +:+ r) = Some (N_to_string n, r).
Proof.
  intros Hr. unfold numeric_identifier.
  rewrite (span_exact _ _ _ (N_to_string_digits n) Hr).
  destruct (N_to_string_head n) as [E|(c & s & E & Hc)]; rewrite E; [reflexivity|].
  destruct c as [[] [] [] [] [] [] [] []]; try reflexivity.
  congruence.
Qed.

Lemma numeral_head n :
  exists c s, N_to_string n = String c s /\ is_digit c = true.
Proof.
  pose proof (N_to_string_digits n) as Hd.
  pose proof (N_to_string_nonempty n) as Hn.
  destruct (N_to_string n) as [|c s]; [congruence|].
  simpl in Hd. apply andb_prop in Hd as [Hc _]. eauto.
Qed.

(** A version without pre-release that [format] wrote is read back by
    [parse]. *)
Lemma parse_format M m p :
  (M <= MAX_SAFE_INTEGER)%N -> (m <= MAX_SAFE_INTEGER)%N ->
  (p <= MAX_SAFE_INTEGER)%N ->
  parse (format (mkSemVer M m p [])) = Some (mkSemVer M m p []).
Proof.
  intros HM Hm Hp. unfold format. cbn [major minor patch prerelease].
  rewrite sapp_nil_r.
  set (text := N_to_string M +:+ "." +:+ N_to_string m +:+ "." +:+ N_to_string p).
  assert (Hlen : (String.length text <= 256)%nat).
  { unfold text. rewrite !slength_app. cbn [String.length].
    assert (B : forall n, (n <= MAX_SAFE_INTEGER)%N ->
                          (String.length (N_to_string n) <= 16)%nat).
    { intros n Hn. apply N_to_string_length. unfold MAX_SAFE_INTEGER in Hn.
      assert ((9007199254740991 < 2 ^ 53)%N) by (vm_compute; reflexivity). lia. }
    pose proof (B _ HM). pose proof (B _ Hm). pose proof (B _ Hp). lia. }
  assert (Htrim : trim text = text).
  { apply trim_fixed.
    - unfold text. destruct (numeral_head M) as (c & s & -> & Hc).
      rewrite sapp_cons. simpl. rewrite (is_digit_not_space _ Hc). reflexivity.
    - unfold text, no_trailing_space.
      destruct (numeral_head p) as (c & s & E & Hc).
      rewrite <- !sapp_assoc, E, last_char_app_cons, <- E.
      destruct (last_char (N_to_string p)) as [d|] eqn:El; [|reflexivity].
      rewrite (is_digit_not_space d); [reflexivity|].
      exact (last_char_forallb _ _ _ El (N_to_string_digits p)). }
  assert (El : (MAX_LENGTH <? String.length text)%nat = false)
    by (apply Nat.ltb_ge; unfold MAX_LENGTH; lia).
  unfold parse. rewrite El, Htrim.
  assert (Hv : strip_v text = text).
  { unfold text. destruct (numeral_head M) as (c & s & -> & Hc).
    rewrite sapp_cons. apply strip_v_digit, Hc. }
  rewrite Hv. unfold text.
  rewrite numeric_identifier_numeral by reflexivity.
  cbn [mbind option_bind expect_dot].
  change (expect_dot ("." +:+ N_to_string m +:+ "." +:+ N_to_string p))
    with (Some (N_to_string m +:+ "." +:+ N_to_string p)).
  cbn [mbind option_bind].
  rewrite numeric_identifier_numeral by reflexivity.
  cbn [mbind option_bind].
  change (expect_dot ("." +:+ N_to_string p)) with (Some (N_to_string p)).
  cbn [mbind option_bind].
  rewrite <- (sapp_nil_r (N_to_string p)) at 1.
  rewrite numeric_identifier_numeral by reflexivity.
  cbn [mbind option_bind parse_tail map].
  rewrite !digits_to_N_to_string.
  apply N.leb_le in HM, Hm, Hp. rewrite HM, Hm, Hp. reflexivity.
Qed.

End FormatParse.

Section SuggestionOrder.
Import Chars Str StrOps JsNum Parser Props Terms Bump.

Lemma compare_same version v :
  Semver.parse version = Some v -> Semver.compare version version = Some 0%Z.
Proof.
  intros H. unfold Semver.compare. rewrite H. cbn [mbind option_bind].
  rewrite compareSemVer_refl. reflexivity.
Qed.

Lemma compare_lower a b v w :
  Semver.parse a = Some v -> Semver.parse b = Some w ->
  Semver.compareSemVer v w = Lt -> Semver.compare a b = Some (-1)%Z.
Proof.
  intros Ha Hb H. unfold Semver.compare. rewrite Ha, Hb.
  cbn [mbind option_bind]. rewrite H. reflexivity.
Qed.

Lemma compareSemVer_major M m p m' p' :
  Semver.compareSemVer (Semver.mkSemVer M m p [])
                       (Semver.mkSemVer (M + 1) m' p' []) = Lt.
Proof.
  unfold Semver.compareSemVer, Semver.compareMain. cbn.
  assert (E : (M ?= M + 1)%N = Lt) by (apply N.compare_lt_iff; lia).
  rewrite E. reflexivity.
Qed.

Lemma compareSemVer_minor M m p p' :
  Semver.compareSemVer (Semver.mkSemVer M m p [])
                       (Semver.mkSemVer M (m + 1) p' []) = Lt.
Proof.
  unfold Semver.compareSemVer, Semver.compareMain. cbn.
  assert (E : (m ?= m + 1)%N = Lt) by (apply N.compare_lt_iff; lia).
  rewrite N.compare_refl, E. reflexivity.
Qed.

Lemma compareSemVer_patch M m p :
  Semver.compareSemVer (Semver.mkSemVer M m p [])
                       (Semver.mkSemVer M m (p + 1) []) = Lt.
Proof.
  unfold Semver.compareSemVer, Semver.compareMain. cbn.
  assert (E : (p ?= p + 1)%N = Lt) by (apply N.compare_lt_iff; lia).
  rewrite !N.compare_refl, E. reflexivity.
Qed.

(** The release types give a higher version that [parse] reads back. *)
Lemma inc_higher version v release :
  Semver.parse version = Some v -> Semver.prerelease v = [] ->
  (Semver.major v < Semver.MAX_SAFE_INTEGER)%N ->
  (Semver.minor v < Semver.MAX_SAFE_INTEGER)%N ->
  (Semver.patch v < Semver.MAX_SAFE_INTEGER)%N ->
  exists next,
    Semver.inc version release = Some next
    /\ Semver.compare version next = Some (-1)%Z.
Proof.
  intros Hv Hpre HM Hm Hp. unfold Semver.inc. rewrite Hv.
  cbn [mbind option_bind]. eexists. split; [reflexivity|].
  destruct v as [M m p pre].
  cbn [Semver.major Semver.minor Semver.patch Semver.prerelease]
    in Hpre, HM, Hm, Hp.
  subst pre.
  assert (Z0 : (0 <= Semver.MAX_SAFE_INTEGER)%N) by (vm_compute; discriminate).
  destruct release; unfold Semver.incSemVer;
    cbn [Semver.major Semver.minor Semver.patch Semver.prerelease];
    rewrite ?orb_true_r.
  - assert (H1 : (M + 1 <= Semver.MAX_SAFE_INTEGER)%N) by lia.
    apply (compare_lower _ _ _ _ Hv (parse_format _ _ _ H1 Z0 Z0)).
    apply compareSemVer_major.
  - assert (H1 : (M <= Semver.MAX_SAFE_INTEGER)%N) by lia.
    assert (H2 : (m + 1 <= Semver.MAX_SAFE_INTEGER)%N) by lia.
    apply (compare_lower _ _ _ _ Hv (parse_format _ _ _ H1 H2 Z0)).
    apply compareSemVer_minor.
  - assert (H1 : (M <= Semver.MAX_SAFE_INTEGER)%N) by lia.
    assert (H2 : (m <= Semver.MAX_SAFE_INTEGER)%N) by lia.
    assert (H3 : (p + 1 <= Semver.MAX_SAFE_INTEGER)%N) by lia.
    apply (compare_lower _ _ _ _ Hv (parse_format _ _ _ H1 H2 H3)).
    apply compareSemVer_patch.
Qed.

(** X20.  suggestNextVersion never suggests a version below the baseline:
    for a valid baseline (its numbers below the greatest safe integer) the
    suggestion compares as equal or higher, and it is the baseline itself
    exactly when no conventional commit asks for a release or when a fix
    meets a last tag with a hyphen. *)
Theorem suggestNextVersion_not_lower (commits : list RawCommit)
        (lastTag : option string) (v : Semver.SemVer) :
  let r := suggestNextVersion commits lastTag in
  Semver.parse (currentVersion r) = Some v ->
  (Semver.major v < Semver.MAX_SAFE_INTEGER)%N ->
  (Semver.minor v < Semver.MAX_SAFE_INTEGER)%N ->
  (Semver.patch v < Semver.MAX_SAFE_INTEGER)%N ->
  exists c,
    Semver.compare (currentVersion r) (nextVersion r) = Some c
    /\ (c <= 0)%Z
    /\ (c = 0%Z <->
        bumpType r = NoBump
        \/ (bumpType r = Patch
            /\ exists tag, truthy lastTag = Some tag
                           /\ includes_char "-" tag = true)).
Proof.
  intros r Hv HM Hm Hp.
  assert (Hpre : Semver.prerelease v = []).
  { apply (parse_no_hyphen _ _ Hv), currentVersion_no_hyphen. }
  assert (Hnext :
    nextVersion r
    = if (match truthy lastTag with
          | Some tag => includes_char "-" tag
          | None => false
          end) && isPatch (bumpType r)
      then currentVersion r
      else match releaseType (bumpType r) with
           | None => currentVersion r
           | Some release =>
               default (currentVersion r)
                       (Semver.inc (currentVersion r) release)
           end) by reflexivity.
  rewrite Hnext. clear Hnext.
  destruct (bumpType r) eqn:Eb; cbn [isPatch releaseType].
  - rewrite andb_false_r.
    destruct (inc_higher _ _ Semver.RMajor Hv Hpre HM Hm Hp) as (n & -> & Hc).
    exists (-1)%Z. split; [exact Hc|]. split; [lia|].
    split; [lia|]. intros [H|[H _]]; discriminate.
  - rewrite andb_false_r.
    destruct (inc_higher _ _ Semver.RMinor Hv Hpre HM Hm Hp) as (n & -> & Hc).
    exists (-1)%Z. split; [exact Hc|]. split; [lia|].
    split; [lia|]. intros [H|[H _]]; discriminate.
  - rewrite andb_true_r. destruct (truthy lastTag) as [tag|] eqn:Et.
    + destruct (includes_char "-" tag) eqn:Eh.
      * exists 0%Z. split; [exact (compare_same _ _ Hv)|]. split; [lia|].
        split; [|reflexivity]. intros _. right. split; [reflexivity|]. eauto.
      * destruct (inc_higher _ _ Semver.RPatch Hv Hpre HM Hm Hp)
          as (n & -> & Hc).
        exists (-1)%Z. split; [exact Hc|]. split; [lia|].
        split; [lia|]. intros [H|[_ (t & Ht & Hh)]]; [discriminate|].
        inversion Ht; subst. congruence.
    + destruct (inc_higher _ _ Semver.RPatch Hv Hpre HM Hm Hp) as (n & -> & Hc).
      exists (-1)%Z. split; [exact Hc|]. split; [lia|].
      split; [lia|]. intros [H|[_ (t & Ht & _)]]; discriminate.
  - rewrite andb_false_r.
    exists 0%Z. split; [exact (compare_same _ _ Hv)|]. split; [lia|].
    split; [|reflexivity]. intros _. left. reflexivity.
Qed.

Lemma suggestNextVersion_not_lower_witness :
  exists c, Semver.compare "1.2.3" "1.3.0" = Some c /\ (c <= 0)%Z.
Proof.
  destruct (suggestNextVersion_not_lower
              [mkRawCommit "abc123" "feat: a" ""] (Some "v1.2.3")
              (Semver.mkSemVer 1 2 3 []) eq_refl eq_refl eq_refl eq_refl)
    as (c & Hc & Hle & _).
  exists c. split; [exact Hc | exact Hle].
Defined.

End SuggestionOrder.

Section FreshCounter.
Import Chars Str StrOps JsNum Parser Props Terms Bump.

Lemma max_counter_ge n l : n ∈ l -> (n <= max_counter l)%N.
Proof.
  induction l as [|m l IH]; intros H; [inversion H|].
  rewrite max_counter_cons. apply elem_of_cons in H as [->|H]; [lia|].
  specialize (IH H). lia.
Qed.

Lemma getNextPrereleaseVersion_value baseVersion suffix allTags :
  let name := strip_counter (strip_hyphen suffix) in
  Forall (fun n => (n < 2 ^ 53)%N) (counter_values baseVersion name allTags) ->
  getNextPrereleaseVersion baseVersion suffix allTags
  = Some (baseVersion +:+ "-" +:+ name +:+ "."
          +:+ N_to_string
                (max_counter (counter_values baseVersion name allTags) + 1)).
Proof.
  intros name H. unfold getNextPrereleaseVersion. fold name.
  rewrite (maxCounter_spec _ _ _ 0%N H), N.max_0_l.
  cbn [mbind option_bind].
  pose proof (max_counter_bound _ H) as B.
  rewrite (succ_exact _ B). unfold JsNum.toString, MAX_EXACT.
  assert (L : ((max_counter (counter_values baseVersion name allTags) + 1
                <=? 2 ^ 53) = true)%N) by (apply N.leb_le; lia).
  rewrite L. reflexivity.
Qed.

Lemma next_prerelease_not_taken baseVersion suffix allTags next :
  Forall (fun n => (n < 2 ^ 53)%N)
         (counter_values baseVersion (strip_counter (strip_hyphen suffix))
                         allTags) ->
  getNextPrereleaseVersion baseVersion suffix allTags = Some next ->
  (next ∉ allTags) /\ (("v" +:+ next) ∉ allTags).
Proof.
  intros H Hn. rewrite (getNextPrereleaseVersion_value _ _ _ H) in Hn.
  injection Hn as <-.
  set (name := strip_counter (strip_hyphen suffix)) in *.
  set (top := max_counter (counter_values baseVersion name allTags)).
  assert (Hno : forall tag,
            counter_tag baseVersion name (N_to_string (top + 1)) tag ->
            tag ∉ allTags).
  { intros tag Ht Hin.
    assert (M : match_counter baseVersion name tag
                = Some (N_to_string (top + 1))).
    { apply match_counter_spec. split; [apply N_to_string_is_digits | exact Ht]. }
    assert (Hc : (top + 1)%N ∈ counter_values baseVersion name allTags).
    { unfold counter_values. apply list_elem_of_In, in_map_iff.
      exists (N_to_string (top + 1)). split; [apply digits_to_N_to_string|].
      apply list_elem_of_In, list_elem_of_omap. exists tag. auto. }
    apply max_counter_ge in Hc. fold top in Hc. lia. }
  split; apply Hno; [left | right]; reflexivity.
Qed.

(** X21.  The pre-release version that getNextPrereleaseVersion returns is
    not taken: no tag of the list is this version, with or without a [v] in
    front (for counters below 2^53). *)
Theorem getNextPrereleaseVersion_fresh (baseVersion suffix : string)
        (allTags : list string) (next : string) :
  Forall (fun n => (n < 2 ^ 53)%N)
         (counter_values baseVersion (strip_counter (strip_hyphen suffix))
                         allTags) ->
  getNextPrereleaseVersion baseVersion suffix allTags = Some next ->
  (next ∉ allTags) /\ (("v" +:+ next) ∉ allTags).
Proof. apply next_prerelease_not_taken. Qed.

Lemma getNextPrereleaseVersion_fresh_witness :
  ("1.0.0-rc.6" ∉ ["v1.0.0-rc.1"; "v1.0.0-rc.5"; "1.0.0-rc.2"])
  /\ ("v1.0.0-rc.6" ∉ ["v1.0.0-rc.1"; "v1.0.0-rc.5"; "1.0.0-rc.2"]).
Proof.
  assert (F : Forall (fun n => (n < 2 ^ 53)%N) [1%N; 5%N; 2%N])
    by (repeat constructor).
  exact (getNextPrereleaseVersion_fresh "1.0.0" "-rc"
           ["v1.0.0-rc.1"; "v1.0.0-rc.5"; "1.0.0-rc.2"] "1.0.0-rc.6"
           F eq_refl).
Defined.

End FreshCounter.

(** ** parser.ts: the version of a tag *)

Section ExtractVersionFacts.
Import Chars Str StrOps Parser Props Terms.

Lemma after_prefix_through p s v :
  forallb is_dot p = true -> after_prefix s = Some v ->
  after_prefix (p +:+ s) = Some v.
Proof.
  intros Hp Hs. induction p as [|c p IH]; [exact Hs|].
  simpl in Hp. apply andb_prop in Hp as [Hc Hp].
  rewrite sapp_cons. cbn [after_prefix]. rewrite Hc, (IH Hp). reflexivity.
Qed.

Lemma after_prefix_hyphen y v :
  includes_char "-" y = false -> version_here y = Some v ->
  after_prefix ("-" +:+ y) = Some v.
Proof.
  intros Hy Hv. change ("-" +:+ y) with (String "-" y). cbn [after_prefix].
  change (is_dot "-") with true. cbn iota.
  rewrite (after_prefix_no_hyphen _ Hy). exact Hv.
Qed.

Lemma extractVersion_here tag v :
  extract_here tag = Some v -> extractVersion tag = Some v.
Proof. intros H. destruct tag; cbn [extractVersion]; rewrite H; reflexivity. Qed.

Lemma version_here_core core :
  (exists a b c, core = a +:+ "." +:+ b +:+ "." +:+ c
     /\ is_digits a = true /\ is_digits b = true /\ is_digits c = true) ->
  version_here core = Some core /\ version_here ("v" +:+ core) = Some core
  /\ includes_char "-" core = false.
Proof.
  intros Hc.
  pose proof (match_core_own core "" Hc eq_refl) as M. rewrite sapp_nil_r in M.
  destruct (core_dots_digits _ (core_chars _ Hc)) as [_ Hh].
  assert (Hs : skip_v core = core).
  { destruct Hc as (a & b & c & -> & Ha & _).
    destruct (is_digits_cons _ Ha) as (x & a' & -> & Hx & _).
    rewrite sapp_cons. apply skip_v_digit, Hx. }
  unfold version_here. change (skip_v ("v" +:+ core)) with core.
  rewrite Hs, M. cbn. rewrite sapp_nil_r. auto.
Qed.

(** X22.  A bare version, a version behind [v], and both behind any
    decoration that ends in a hyphen and holds no line break, give the
    version. *)
Theorem extractVersion_decorated (decoration a b c : string) :
  forallb is_dot decoration = true ->
  is_digits a = true -> is_digits b = true -> is_digits c = true ->
  let version := a +:+ "." +:+ b +:+ "." +:+ c in
  extractVersion version = Some version
  /\ extractVersion ("v" +:+ version) = Some version
  /\ extractVersion (decoration +:+ "-" +:+ version) = Some version
  /\ extractVersion (decoration +:+ "-v" +:+ version) = Some version.
Proof.
  intros Hd Ha Hb Hc version.
  destruct (version_here_core version) as (H1 & H2 & Hh);
    [exists a, b, c; auto|].
  assert (Hv : includes_char "-" ("v" +:+ version) = false) by exact Hh.
  split; [|split; [|split]]; apply extractVersion_here; unfold extract_here.
  - rewrite (after_prefix_no_hyphen _ Hh). exact H1.
  - rewrite (after_prefix_no_hyphen _ Hv). exact H2.
  - rewrite (after_prefix_through _ _ _ Hd (after_prefix_hyphen _ _ Hh H1)).
    reflexivity.
  - change (decoration +:+ "-v" +:+ version)
      with (decoration +:+ "-" +:+ "v" +:+ version).
    rewrite (after_prefix_through _ _ _ Hd (after_prefix_hyphen _ _ Hv H2)).
    reflexivity.
Qed.

Lemma extractVersion_decorated_witness :
  extractVersion "release-1.0.0" = Some "1.0.0"
  /\ extractVersion "my-app-v2.10.3" = Some "2.10.3".
Proof.
  split.
  - exact (proj1 (proj2 (proj2 (extractVersion_decorated "release" "1" "0" "0"
                                  eq_refl eq_refl eq_refl eq_refl)))).
  - exact (proj2 (proj2 (proj2 (extractVersion_decorated "my-app" "2" "10" "3"
                                  eq_refl eq_refl eq_refl eq_refl)))).
Defined.

Lemma after_prefix_inv s v :
  after_prefix s = Some v ->
  exists x y, s = x +:+ "-" +:+ y /\ version_here y = Some v.
Proof.
  induction s as [|c s IH]; [discriminate|]. cbn [after_prefix].
  destruct (if is_dot c then after_prefix s else None) as [w|] eqn:E.
  - intros H. inversion H; subst w. destruct (is_dot c); [|discriminate].
    destruct (IH E) as (x & y & -> & Hy). exists (String c x), y. auto.
  - destruct (Ascii.eqb_spec c "-") as [->|Hc]; [|discriminate].
    intros H. exists "", s. auto.
Qed.

(** The shape of what [version_here] returns, and where it stands in the
    text. *)
Lemma version_here_shape s v :
  version_here s = Some v ->
  (exists a b c pre,
     v = a +:+ "." +:+ b +:+ "." +:+ c +:+ pre
     /\ is_digits a = true /\ is_digits b = true /\ is_digits c = true
     /\ (pre = "" \/ exists p, pre = "-" +:+ p /\ p <> ""
                               /\ forallb is_pre_char p = true))
  /\ exists lead rest, s = lead +:+ v +:+ rest.
Proof.
  intros H. destruct (version_here_inv _ _ H) as (core & r & M & ->).
  destruct (match_core_sound _ _ _ M) as (Hs & a & b & c & -> & Ha & Hb & Hc).
  split.
  - exists a, b, c, (match_pre r). rewrite !sapp_assoc.
    split; [reflexivity|]. split; [exact Ha|]. split; [exact Hb|].
    split; [exact Hc|].
    destruct (match_pre_inv r) as [E|(p & rest & _ & E & Hp & Hq)]; [auto|].
    right. exists p. auto.
  - assert (Hr : exists rest, r = match_pre r +:+ rest).
    { destruct (match_pre_inv r) as [E|(p & rest & Er & E & _)].
      - rewrite E. exists r. reflexivity.
      - exists rest. rewrite E. rewrite Er at 1. rewrite !sapp_assoc.
        reflexivity. }
    destruct Hr as [rest Hr].
    destruct (skip_v_cases s) as [E|E].
    + exists "", rest. rewrite sapp_nil_l, <- E, Hs. rewrite Hr at 1.
      rewrite !sapp_assoc. reflexivity.
    + exists "v", rest. rewrite E, Hs. rewrite Hr at 1.
      rewrite !sapp_assoc. reflexivity.
Qed.

Lemma extract_here_shape s v :
  extract_here s = Some v ->
  exists y, version_here y = Some v /\ exists lead, s = lead +:+ y.
Proof.
  unfold extract_here. destruct (after_prefix s) as [w|] eqn:E.
  - intros H. inversion H; subst w.
    destruct (after_prefix_inv _ _ E) as (x & y & -> & Hy).
    exists y. split; [exact Hy|]. exists (x +:+ "-").
    rewrite sapp_assoc. reflexivity.
  - intros H. exists s. split; [exact H|]. exists "". reflexivity.
Qed.

Lemma extractVersion_shape tag v :
  extractVersion tag = Some v ->
  exists y, version_here y = Some v /\ exists lead, tag = lead +:+ y.
Proof.
  induction tag as [|c tag IH]; cbn [extractVersion].
  - destruct (extract_here "") as [w|] eqn:E; [|discriminate].
    intros H. inversion H; subst w. exact (extract_here_shape _ _ E).
  - destruct (extract_here (String c tag)) as [w|] eqn:E.
    + intros H. inversion H; subst w. exact (extract_here_shape _ _ E).
    + intros H. destruct (IH H) as (y & Hy & lead & ->).
      exists y. split; [exact Hy|]. exists (String c lead). reflexivity.
Qed.

Lemma version_here_found a b c post :
  is_digits a = true -> is_digits b = true -> is_digits c = true ->
  version_here (a +:+ "." +:+ b +:+ "." +:+ c +:+ post) <> None.
Proof.
  intros Ha Hb Hc. unfold version_here.
  destruct (is_digits_cons _ Ha) as (x & a' & -> & Hx & _).
  rewrite sapp_cons, (skip_v_digit _ _ Hx), <- sapp_cons.
  destruct (match_core_complete (String x a') b c post Ha Hb Hc)
    as (t & r & ->).
  discriminate.
Qed.

Lemma extractVersion_found lead y :
  version_here y <> None -> extractVersion (lead +:+ y) <> None.
Proof.
  intros Hy. induction lead as [|c lead IH].
  - rewrite sapp_nil_l. destruct y as [|d y]; cbn [extractVersion];
      unfold extract_here; destruct (after_prefix _); try discriminate;
      destruct (version_here _); [discriminate | congruence | discriminate
                                  | congruence].
  - rewrite sapp_cons. cbn [extractVersion].
    destruct (extract_here _); [discriminate | exact IH].
Qed.

(** X23.  extractVersion finds a version exactly in the tags that hold
    [MAJOR.MINOR.PATCH] somewhere, and what it returns is a part of the tag
    of the form [MAJOR.MINOR.PATCH], followed or not by a hyphen and a
    non-empty run of word characters and dots. *)
Theorem extractVersion_spec (tag : string) :
  (extractVersion tag = None <-> ~ has_version_substring tag)
  /\ (forall v,
        extractVersion tag = Some v ->
        occurs v tag
        /\ exists a b c pre,
             v = a +:+ "." +:+ b +:+ "." +:+ c +:+ pre
             /\ is_digits a = true /\ is_digits b = true
             /\ is_digits c = true
             /\ (pre = "" \/ exists p, pre = "-" +:+ p /\ p <> ""
                                       /\ forallb is_pre_char p = true)).
Proof.
  assert (Hsome : forall v,
            extractVersion tag = Some v ->
            occurs v tag
            /\ exists a b c pre,
                 v = a +:+ "." +:+ b +:+ "." +:+ c +:+ pre
                 /\ is_digits a = true /\ is_digits b = true
                 /\ is_digits c = true
                 /\ (pre = "" \/ exists p, pre = "-" +:+ p /\ p <> ""
                                           /\ forallb is_pre_char p = true)).
  { intros v H. destruct (extractVersion_shape _ _ H) as (y & Hy & lead & ->).
    destruct (version_here_shape _ _ Hy) as (Hshape & l2 & rest & ->).
    split; [|exact Hshape].
    exists (lead +:+ l2), rest. rewrite !sapp_assoc. reflexivity. }
  split; [|exact Hsome]. split.
  - intros Hn (pre & a & b & c & post & -> & Ha & Hb & Hc).
    apply (extractVersion_found pre _ (version_here_found a b c post Ha Hb Hc)).
    exact Hn.
  - intros Hno. destruct (extractVersion tag) as [v|] eqn:E; [|reflexivity].
    exfalso. apply Hno.
    destruct (Hsome v eq_refl)
      as ((lead & rest & ->) & a & b & c & pre & -> & Ha & Hb & Hc & _).
    exists lead, a, b, c, (pre +:+ rest). rewrite !sapp_assoc. auto.
Qed.

End ExtractVersionFacts.

(** ** parser.ts: sortTagsBySemver *)

Section SortedTags.
Import Chars Str Js Parser Props Terms.

Lemma mapM_total {A B} (f : A -> option B) (g : A -> B) l :
  Forall (fun x => f x = Some (g x)) l -> mapM f l = Some (map g l).
Proof.
  induction 1 as [|x l Hx _ IH]; [reflexivity|].
  cbn. rewrite Hx. cbn. rewrite IH. reflexivity.
Qed.

(** X24.  sortTagsBySemver always returns.  It returns tags of the input,
    one for every valid version found in the input and no other, each the
    winner of the tie-break among the tags of its version; and when the
    numeric pre-release identifiers of the versions are below 2^53, the
    tags stand in ascending order of precedence of their versions. *)
Theorem sortTagsBySemver_sorted (tags : list string) :
  exists sorted versions,
    sortTagsBySemver tags = Some sorted
    /\ map extractVersion sorted = map Some versions
    /\ NoDup versions
    /\ ((forall t v, t ∈ tags -> extractVersion t = Some v ->
                     small_identifiers v = true) ->
        StronglySorted precedes_eq versions)
    /\ (forall t, t ∈ sorted -> t ∈ tags /\ isValidVersion t = true)
    /\ (forall t, t ∈ tags -> isValidVersion t = true ->
          exists t', t' ∈ sorted
                     /\ extractVersion t' = extractVersion t
                     /\ beats t' t).
Proof.
  destruct (normalizeTags_spec tags)
    as (tm & Hn & Hv & Hnd & _ & Hinfo & _).
  pose proof (normalizeTags_precedence tags tm Hn) as Hs.
  assert (Hpick : forall v, v ∈ versions tm ->
            exists t, (original <$> get v (Parser.tags tm)) = Some t
                      /\ t ∈ tags /\ extractVersion t = Some v
                      /\ forall u, u ∈ tags -> extractVersion u = Some v ->
                           beats t u).
  { intros v Hin. destruct (Hinfo v Hin) as (info & Hg & _ & _ & Ho & He & Hb).
    exists (original info). rewrite Hg. auto. }
  set (pick := fun v => match get v (Parser.tags tm) with
                        | Some info => original info
                        | None => v
                        end).
  assert (Hpk : forall v, v ∈ versions tm ->
            (original <$> get v (Parser.tags tm)) = Some (pick v)
            /\ pick v ∈ tags /\ extractVersion (pick v) = Some v
            /\ forall u, u ∈ tags -> extractVersion u = Some v ->
                 beats (pick v) u).
  { intros v Hin. destruct (Hpick v Hin) as (t & Ht & H).
    unfold pick. destruct (get v (Parser.tags tm)); [|discriminate].
    cbn in Ht. inversion Ht; subst t. auto. }
  exists (map pick (versions tm)), (versions tm).
  split; [|split; [|split; [exact Hnd|split; [exact Hs|split]]]].
  - unfold sortTagsBySemver. rewrite Hn. cbn.
    apply mapM_total, Forall_forall. intros v Hin. apply (Hpk v Hin).
  - rewrite map_map. apply map_ext_in. intros v Hin.
    apply list_elem_of_In in Hin. apply (Hpk v Hin).
  - intros t Ht. apply list_elem_of_In, in_map_iff in Ht as (v & <- & Hin).
    apply list_elem_of_In in Hin. destruct (Hpk v Hin) as (_ & Ho & He & _).
    split; [exact Ho|]. apply isValidVersion_spec. exists v.
    split; [exact He|]. apply Hv, Hin.
  - intros t Ht Hvalid. apply isValidVersion_spec in Hvalid as (v & He & Hval).
    assert (Hin : v ∈ versions tm) by (apply Hv; eauto).
    destruct (Hpk v Hin) as (_ & _ & He' & Hb).
    exists (pick v). split.
    + apply list_elem_of_In, in_map, list_elem_of_In, Hin.
    + rewrite He, He'. split; [reflexivity|]. apply Hb; assumption.
Qed.

Lemma sortTagsBySemver_sorted_witness :
  exists sorted versions,
    sortTagsBySemver ["v1.0.0"; "release-1.0.0"; "v1.0.0-rc.10";
                      "1.0.0-rc.2"; "nonsense"]
    = Some sorted
    /\ map extractVersion sorted = map Some versions
    /\ StronglySorted precedes_eq versions.
Proof.
  destruct (sortTagsBySemver_sorted
              ["v1.0.0"; "release-1.0.0"; "v1.0.0-rc.10"; "1.0.0-rc.2";
               "nonsense"])
    as (sorted & versions & Hr & Hm & _ & Hord & _).
  exists sorted, versions. split; [exact Hr|]. split; [exact Hm|].
  apply Hord. intros t v Ht. revert v. revert t Ht.
  apply (proj1 (Forall_forall
                  (fun t => forall v, extractVersion t = Some v ->
                                      small_identifiers v = true) _)).
  repeat constructor; intros v H; vm_compute in H; inversion H; reflexivity.
Defined.

End SortedTags.

(** ** parser.ts: reading a conventional subject line *)

Section ConventionalReading.
Import Chars Str StrOps Parser Props Terms.

Lemma ci_eqb_toLower c :
  in_range 97 122 (toLowerChar c) = true -> ci_eqb (toLowerChar c) c = true.
Proof. destruct c as [[] [] [] [] [] [] [] []]; try discriminate; reflexivity. Qed.

Lemma strip_prefix_ci_written ty r :
  forallb (in_range 97 122) (toLowerCase ty) = true ->
  strip_prefix_ci (toLowerCase ty) (ty +:+ r) = Some (ty, r).
Proof.
  induction ty as [|c ty IH]; [reflexivity|].
  cbn [toLowerCase forallb]. intros H. apply andb_prop in H as [Hc H].
  rewrite sapp_cons. cbn [strip_prefix_ci].
  rewrite (ci_eqb_toLower _ Hc), (IH H). reflexivity.
Qed.

Lemma ALL_TYPES_letters t :
  t ∈ ALL_TYPES -> forallb (in_range 97 122) t = true.
Proof.
  unfold ALL_TYPES. rewrite !elem_of_cons, elem_of_nil.
  intros H. repeat (destruct H as [->|H]; [reflexivity|]). contradiction.
Qed.

Lemma strip_prefix_ci_starts t s m r :
  t ∈ ALL_TYPES -> strip_prefix_ci t s = Some (m, r) ->
  starts_with t (toLowerCase s) = true.
Proof.
  intros Ht H. destruct (strip_prefix_ci_inv _ _ _ _ H) as [-> Hm].
  rewrite (ALL_TYPES_lower _ Ht) in Hm.
  apply starts_with_spec. exists (toLowerCase r).
  rewrite toLowerCase_app, Hm. reflexivity.
Qed.

(** No two of the types start the same text. *)
Lemma ALL_TYPES_apart t t' x :
  t ∈ ALL_TYPES -> t' ∈ ALL_TYPES -> t' <> t ->
  starts_with t' (t +:+ x) = false.
Proof.
  unfold ALL_TYPES. rewrite !elem_of_cons, !elem_of_nil. intros H H' Hne.
  repeat (destruct H as [->|H]; [
    repeat (destruct H' as [->|H']; [first [reflexivity | congruence]|]);
    contradiction |]).
  contradiction.
Qed.

Lemma match_type_pick alts t s res :
  strip_prefix_ci t s = Some res ->
  (forall t', t' ∈ alts -> t' <> t -> strip_prefix_ci t' s = None) ->
  t ∈ alts -> match_type alts s = Some res.
Proof.
  intros Hs. induction alts as [|a alts IH]; intros Hno Hin.
  - inversion Hin.
  - cbn [match_type]. destruct (string_dec a t) as [->|Hne].
    + rewrite Hs. reflexivity.
    + rewrite (Hno a (list_elem_of_here _ _) Hne). apply IH.
      * intros t' Ht'. apply Hno. right. exact Ht'.
      * apply elem_of_cons in Hin as [->|Hin]; [congruence | exact Hin].
Qed.

Lemma match_type_written ty r :
  toLowerCase ty ∈ ALL_TYPES ->
  match_type ALL_TYPES (ty +:+ r) = Some (ty, r).
Proof.
  intros Ht. apply (match_type_pick _ (toLowerCase ty)).
  - apply strip_prefix_ci_written, ALL_TYPES_letters, Ht.
  - intros t' Ht' Hne.
    destruct (strip_prefix_ci t' (ty +:+ r)) as [[m r']|] eqn:E; [|reflexivity].
    apply (strip_prefix_ci_starts _ _ _ _ Ht') in E.
    rewrite toLowerCase_app, (ALL_TYPES_apart _ _ _ Ht Ht' Hne) in E.
    discriminate.
  - exact Ht.
Qed.

Lemma match_scope_written sc bang r :
  is_scope sc = true ->
  match_scope (scopeText sc +:+ bangText bang +:+ ":" +:+ r)
  = Some (sc, bangText bang +:+ ":" +:+ r).
Proof.
  destruct sc as [s|]; cbn [is_scope scopeText].
  - intros H. apply andb_prop in H as [Hn Hs].
    rewrite !sapp_assoc. change ("(" +:+ s +:+ ")" +:+ bangText bang +:+ ":" +:+ r)
      with (String "(" (s +:+ ")" +:+ bangText bang +:+ ":" +:+ r)).
    cbn [match_scope].
    rewrite (span_exact is_scope_char s
               (")" +:+ bangText bang +:+ ":" +:+ r) Hs eq_refl).
    destruct s as [|c s]; [discriminate|]. reflexivity.
  - intros _. rewrite sapp_nil_l. destruct bang; reflexivity.
Qed.

Lemma match_description_written gap d :
  forallb is_space gap = true -> is_description d = true ->
  match_description (gap +:+ d) = Some d.
Proof.
  intros Hg H. unfold is_description in H.
  apply andb_prop in H as [H Hd]. apply andb_prop in H as [Hn Hl].
  unfold match_description. rewrite (span_exact is_space gap d Hg).
  - destruct d as [|c d]; [discriminate|]. rewrite Hd. reflexivity.
  - destruct d as [|c d]; [reflexivity | exact Hl].
Qed.

(** X25.  Every subject line written [<type>[(<scope>)][!]:], white space
    and a description on one line is read, whatever the case of the type:
    the commit carries the type in lower case, the scope as written, the
    description without its trailing white space, and it is breaking when
    the [!] is there. *)
Theorem parseConventionalCommit_reads (h ty : string) (sc : option string)
        (bang : bool) (gap description body : string) :
  toLowerCase ty ∈ ALL_TYPES ->
  is_scope sc = true ->
  forallb is_space gap = true ->
  is_description description = true ->
  exists parsed,
    parseConventionalCommit
      (mkRawCommit h (conventional ty sc bang gap description) body)
    = Some parsed
    /\ hash parsed = h
    /\ type parsed = toLowerCase ty
    /\ scope parsed = sc
    /\ subject parsed = trimEnd description
    /\ raw parsed = conventional ty sc bang gap description
    /\ (bang = true -> breaking parsed = true).
Proof.
  intros Ht Hs Hg Hd.
  assert (M : match_conventional (conventional ty sc bang gap description)
              = Some (ty, sc, description)).
  { unfold match_conventional, conventional.
    rewrite (match_type_written _ _ Ht). cbn [mbind option_bind].
    rewrite (match_scope_written _ _ _ Hs). cbn [mbind option_bind].
    assert (B : match_bang_colon (bangText bang +:+ ":" +:+ gap +:+ description)
                = Some (gap +:+ description)) by (destruct bang; reflexivity).
    rewrite B. cbn [mbind option_bind].
    rewrite (match_description_written _ _ Hg Hd). reflexivity. }
  unfold parseConventionalCommit. cbn [raw_subject raw_hash raw_body].
  rewrite M. eexists. split; [reflexivity|].
  cbn [hash type scope subject raw breaking].
  split; [reflexivity|]. split; [reflexivity|]. split; [reflexivity|].
  split.
  { unfold trim. rewrite trimStart_fixed; [reflexivity|].
    unfold is_description in Hd. apply andb_prop in Hd as [Hd _].
    apply andb_prop in Hd as [_ Hd]. exact Hd. }
  split; [reflexivity|].
  intros ->. apply orb_true_iff. left. apply hasBang_test_spec.
  exists (ty +:+ scopeText sc), (gap +:+ description).
  unfold conventional. cbn [bangText]. rewrite !sapp_assoc. reflexivity.
Qed.

Lemma parseConventionalCommit_reads_witness :
  exists parsed,
    parseConventionalCommit
      (mkRawCommit "abc123" "Feat(api)!: add endpoint   " "")
    = Some parsed
    /\ hash parsed = "abc123"
    /\ type parsed = "feat"
    /\ scope parsed = Some "api"
    /\ subject parsed = "add endpoint"
    /\ raw parsed = "Feat(api)!: add endpoint   "
    /\ (true = true -> breaking parsed = true).
Proof.
  exact (parseConventionalCommit_reads "abc123" "Feat" (Some "api") true " "
           "add endpoint   " ""
           (list_elem_of_here "feat" _) eq_refl eq_refl eq_refl).
Defined.

End ConventionalReading.

(** ** cli.ts: the bump command *)

Section BumpCommand.
Import Chars Str StrOps JsNum Parser Props Remote Cli Bump Formatter Run Terms.

Variable newURL : string -> option URL.
Variable BREAKING_HEADING : string.

(** X26.  The bump command with a suffix throws when [git log] or
    [git tag] fails; when both answer, it prints the prefix and a
    pre-release of the suggested version that no tag of the repository
    carries, with or without a [v] in front (for counters below
    2^53). *)
Theorem run_bump_fresh (repo : Repository) (options : Options)
        (sfx : string) :
  isGitRepository repo = true ->
  bump options = true ->
  truthy (suffix options) = Some sfx ->
  match bumpLog repo, Run.getTags repo with
  | Some commits, Some allTags =>
      let base := nextVersion (suggestNextVersion commits (getLastTag repo)) in
      Forall (fun n => (n < 2 ^ 53)%N)
             (counter_values base (strip_counter (strip_hyphen sfx)) allTags) ->
      exists version,
        run newURL BREAKING_HEADING repo options
        = Some (Output (default "" (prefix options) +:+ version))
        /\ starts_with (base +:+ "-") version = true
        /\ (version ∉ allTags)
        /\ (("v" +:+ version) ∉ allTags)
  | _, _ => run newURL BREAKING_HEADING repo options = Some Thrown
  end.
Proof.
  intros Hg Hb Hs.
  assert (Es : default "" (suffix options) = sfx /\ nonempty sfx = true).
  { destruct (suffix options) as [[|c r]|]; try discriminate.
    cbn in Hs. inversion Hs. auto. }
  destruct Es as [Es Hne].
  unfold run, runBump. rewrite Hg, Hb. cbn [negb]. fold (bumpLog repo).
  destruct (bumpLog repo) as [commits|]; [|reflexivity].
  rewrite Es, Hne.
  destruct (Run.getTags repo) as [allTags|]; [|reflexivity].
  intros HF.
  set (base := nextVersion (suggestNextVersion commits (getLastTag repo))) in *.
  pose proof (getNextPrereleaseVersion_value base sfx allTags HF) as Hv.
  cbv zeta in Hv.
  eexists. split; [|split].
  - rewrite Hv. reflexivity.
  - apply starts_with_spec. eexists. rewrite !sapp_assoc. reflexivity.
  - exact (next_prerelease_not_taken _ _ _ _ HF Hv).
Qed.

End BumpCommand.

Section CommandWitnesses.
Import Chars Str StrOps JsNum Parser Props Remote Cli Bump Formatter Run Terms.

Lemma run_bump_fresh_witness :
  exists version,
    run (fun _ => None) "### BREAKING CHANGES"
        (mkRepository true None
           (Some ["v1.0.0"; "v1.1.0-rc.1"; "v1.1.0-rc.2"])
           (Some "v1.0.0")
           (fun _ => Some [mkRawCommit "abc1234" "feat: add button" ""])
           (fun _ => "2025-01-15") (fun _ => Some []))
        (mkOptions false true (Some "v") (Some "-rc"))
    = Some (Output ("v" +:+ version))
    /\ starts_with "1.1.0-" version = true
    /\ (version ∉ ["v1.0.0"; "v1.1.0-rc.1"; "v1.1.0-rc.2"])
    /\ (("v" +:+ version) ∉ ["v1.0.0"; "v1.1.0-rc.1"; "v1.1.0-rc.2"]).
Proof.
  assert (F : Forall (fun n => (n < 2 ^ 53)%N) [1%N; 2%N])
    by (repeat constructor).
  exact (run_bump_fresh (fun _ => None) "### BREAKING CHANGES"
           (mkRepository true None
              (Some ["v1.0.0"; "v1.1.0-rc.1"; "v1.1.0-rc.2"])
              (Some "v1.0.0")
              (fun _ => Some [mkRawCommit "abc1234" "feat: add button" ""])
              (fun _ => "2025-01-15") (fun _ => Some []))
           (mkOptions false true (Some "v") (Some "-rc")) "-rc"
           eq_refl eq_refl eq_refl F).
Defined.

Lemma run_changelog_outcome_witness :
  exists outcome,
    run (fun _ => None) "### BREAKING CHANGES"
        (mkRepository true (Some "git@github.com:acme/my-lib.git")
           (Some ["v1.0.0"]) None (fun _ => Some [])
           (fun _ => "2025-01-15")
           (fun _ => Some [mkRawCommit "abcdef123456" "feat: add button" ""]))
        (mkOptions false false None None)
    = Some outcome
    /\ outcome
       = Output ("# Changelog" +:+ newline +:+ newline
                 +:+ "## [1.0.0](https://github.com/acme/my-lib/releases/tag/v1.0.0) (2025-01-15)"
                 +:+ newline +:+ newline +:+ "### Features" +:+ newline
                 +:+ newline
                 +:+ "- add button ([abcdef1](https://github.com/acme/my-lib/commit/abcdef123456))"
                 +:+ newline).
Proof.
  destruct (proj2 (run_changelog_outcome (fun _ => None) "### BREAKING CHANGES"
              (mkRepository true (Some "git@github.com:acme/my-lib.git")
                 (Some ["v1.0.0"]) None (fun _ => Some [])
                 (fun _ => "2025-01-15")
                 (fun _ => Some [mkRawCommit "abcdef123456" "feat: add button" ""]))
              (mkOptions false false None None)) eq_refl eq_refl)
    as (outcome & Hrun & _).
  exists outcome. split; [exact Hrun|].
  vm_compute in Hrun. inversion Hrun. reflexivity.
Defined.

(** The command where git fails: the tag [v1.0.0(lts)] makes the shell
    refuse the command line of [git log]. *)
Example run_git_fails :
  let repo :=
    mkRepository true None (Some ["v1.0.0(lts)"]) (Some "v1.0.0(lts)")
                 (fun _ => None) (fun _ => "") (fun _ => None) in
  run (fun _ => None) "### BREAKING CHANGES" repo
      (mkOptions false false None None) = Some Thrown
  /\ run (fun _ => None) "### BREAKING CHANGES" repo
         (mkOptions false true None None) = Some Thrown.
Proof. vm_compute. split; reflexivity. Qed.

End CommandWitnesses.

(** ** Instances *)

Section MoreWitnesses.
Import Chars Str StrOps Parser Dedup Props Remote Cli Formatter Terms.

Lemma dedupeCommits_remembers_witness :
  let seen' :=
    snd (dedupeCommits [Scenario.featA; Scenario.fixA] Dedup.empty) in
  dedupeCommits [Scenario.fixA; Scenario.featA] seen' = ([], seen').
Proof.
  apply (proj2 (dedupeCommits_remembers [Scenario.featA; Scenario.fixA]
                  [Scenario.fixA; Scenario.featA] Dedup.empty)).
  intros c Hc. apply elem_of_cons in Hc as [->|Hc].
  - right. left.
  - apply list_elem_of_singleton in Hc. subst c. left.
Defined.

Lemma groupByType_groups_witness :
  exists grouped,
    groupByType [Scenario.featA; Scenario.fixA; Scenario.featB] = Some grouped
    /\ forall t,
         grouped !! t
         = match ofType t [Scenario.featA; Scenario.fixA; Scenario.featB] with
           | [] => None
           | l => Some l
           end.
Proof.
  apply (proj1 (groupByType_groups
                  [Scenario.featA; Scenario.fixA; Scenario.featB])).
  repeat constructor.
Defined.

Lemma linkifyReferences_links_witness :
  linkifyReferences "#42" (Some Fixtures.mockRemote)
  = "[#42](https://github.com/acme/my-lib/issues/42)".
Proof.
  exact (proj1 (proj2 (linkifyReferences_links Fixtures.mockRemote "" "" "42"))
           eq_refl).
Defined.

End MoreWitnesses.

(** ** git.ts and remote.ts: what is never returned, and https remotes *)

Section LinesAndAddresses.
Import Chars Str StrOps Parser Props Remote GitOutput Terms.

Variable newURL : string -> option URL.

Lemma join_occurs sep l ls : l ∈ ls -> occurs l (join sep ls).
Proof.
  induction ls as [|p ps IH]; intros H; [inversion H|].
  destruct ps as [|q ps].
  - apply list_elem_of_singleton in H. subst l. exists "", "".
    simpl. rewrite sapp_nil_r. reflexivity.
  - rewrite join_cons. apply elem_of_cons in H as [->|H].
    + exists "", (sep +:+ join sep (q :: ps)). reflexivity.
    + destruct (IH H) as (a & b & E). exists (p +:+ sep +:+ a), b.
      rewrite E, !sapp_assoc. reflexivity.
Qed.

Lemma trim_occurs s : occurs (trim s) s.
Proof.
  unfold trim. destruct (trimStart_decomp s) as (w & Hs & _).
  destruct (trimEnd_decomp (trimStart s)) as (w' & Hs' & _).
  exists w, w'. rewrite <- Hs', <- Hs. reflexivity.
Qed.

Lemma occurs_trans a b c : occurs a b -> occurs b c -> occurs a c.
Proof.
  intros (p & q & ->) (p' & q' & ->). exists (p' +:+ p), (q +:+ q').
  rewrite !sapp_assoc. reflexivity.
Qed.

(** X27.  Whatever git prints, a tag that getTags returns is not empty,
    holds no line feed and stands in the printed text. *)
Theorem getTags_lines (output tag : string) :
  tag ∈ getTags output ->
  tag <> "" /\ includes_char LF tag = false /\ occurs tag output.
Proof.
  unfold getTags. intros H.
  apply list_elem_of_In, filter_In in H as [Hin Hlen].
  split; [intros ->; discriminate|]. split.
  - pose proof (split_on_fields LF (trim output)) as F.
    rewrite Forall_forall in F. apply F, list_elem_of_In, Hin.
  - apply (occurs_trans _ (trim output)); [|apply trim_occurs].
    rewrite <- (join_split LF (trim output)) at 1.
    apply join_occurs, list_elem_of_In, Hin.
Qed.

Lemma getTags_lines_witness :
  "v1.1.0" <> "" /\ includes_char LF "v1.1.0" = false
  /\ occurs "v1.1.0" ("v1.0.0" +:+ newline +:+ newline +:+ "v1.1.0" +:+ newline).
Proof.
  apply (getTags_lines ("v1.0.0" +:+ newline +:+ newline +:+ "v1.1.0"
                        +:+ newline) "v1.1.0").
  right. left.
Defined.

Lemma strip_git_app x : strip_git (x +:+ ".git") = x.
Proof.
  induction x as [|c x IH]; [reflexivity|].
  rewrite sapp_cons. cbn [strip_git]. rewrite eqb_longer, IH. reflexivity.
Qed.

Lemma strip_git_cases s : strip_git s = s \/ s = strip_git s +:+ ".git".
Proof.
  induction s as [|c s IH]; [left; reflexivity|].
  cbn [strip_git]. destruct (String.eqb_spec (String c s) ".git") as [E|_].
  - right. rewrite E. reflexivity.
  - destruct IH as [IH|IH]; [left | right].
    + rewrite IH. reflexivity.
    + rewrite sapp_cons, <- IH. reflexivity.
Qed.

Lemma http_not_ssh url :
  starts_with "https://" url || starts_with "http://" url = true ->
  starts_with "git@" url = false.
Proof.
  intros H. apply orb_prop in H as [H|H];
    apply starts_with_spec in H as [r ->]; reflexivity.
Qed.

(** X28.  An http or https remote is read from the host name and the path
    that [new URL] gives: the path [/owner/repo.git] gives the three parts. *)
Theorem parseRemoteUrl_https (url hostName ownerName repoName : string) :
  starts_with "https://" url || starts_with "http://" url = true ->
  is_owner ownerName = true -> is_repo repoName = true ->
  newURL url
  = Some (mkURL hostName ("/" +:+ ownerName +:+ "/" +:+ repoName +:+ ".git")) ->
  parseRemoteUrl newURL url
  = Some (Some (mkRemoteInfo hostName ownerName repoName)).
Proof.
  intros Hh Ho Hr Hu. unfold parseRemoteUrl.
  rewrite (http_not_ssh _ Hh), Hh, Hu.
  cbn [mbind option_bind hostname pathname].
  change (slice_from 1 ("/" +:+ ownerName +:+ "/" +:+ repoName +:+ ".git"))
    with (ownerName +:+ "/" +:+ repoName +:+ ".git").
  replace (ownerName +:+ "/" +:+ repoName +:+ ".git")
    with ((ownerName +:+ "/" +:+ repoName) +:+ ".git")
    by (rewrite !sapp_assoc; reflexivity).
  rewrite strip_git_app, (ownerAndRepo_parts _ _ _ Ho Hr). reflexivity.
Qed.

(** X29.  Conversely, what is read from an http or https remote has the host
    name that [new URL] gives, and its owner and repository are the path
    behind the first slash, cut at the next one and without a final [.git];
    the owner and the repository are not empty. *)
Theorem parseRemoteUrl_https_sound (url hostName path : string)
        (info : RemoteInfo) :
  starts_with "https://" url || starts_with "http://" url = true ->
  newURL url = Some (mkURL hostName ("/" +:+ path)) ->
  parseRemoteUrl newURL url = Some (Some info) ->
  host info = hostName
  /\ (path = owner info +:+ "/" +:+ repo info
      \/ path = owner info +:+ "/" +:+ repo info +:+ ".git")
  /\ owner info <> "" /\ includes_char "/" (owner info) = false
  /\ repo info <> "".
Proof.
  intros Hh Hu. unfold parseRemoteUrl.
  rewrite (http_not_ssh _ Hh), Hh, Hu.
  cbn [mbind option_bind hostname pathname].
  change (slice_from 1 ("/" +:+ path)) with path.
  intros H. injection H as E.
  destruct (ownerAndRepo_inv _ _ _ E) as (H1 & H2 & H3 & H4 & H5).
  split; [exact H1|]. split; [|auto].
  destruct (strip_git_cases path) as [Hs|Hs].
  - left. rewrite <- Hs. exact H2.
  - right. rewrite Hs at 1. rewrite H2, !sapp_assoc. reflexivity.
Qed.

End LinesAndAddresses.

Section AddressWitnesses.
Import Chars Str StrOps Parser Props Remote GitOutput Terms.

Lemma parseRemoteUrl_https_witness :
  parseRemoteUrl (fun _ => Some (mkURL "github.com" "/amagyar/mscl.git"))
                 "https://github.com/amagyar/mscl.git"
  = Some (Some (mkRemoteInfo "github.com" "amagyar" "mscl")).
Proof.
  exact (parseRemoteUrl_https
           (fun _ => Some (mkURL "github.com" "/amagyar/mscl.git"))
           "https://github.com/amagyar/mscl.git" "github.com" "amagyar" "mscl"
           eq_refl eq_refl eq_refl eq_refl).
Defined.

Lemma parseRemoteUrl_https_sound_witness :
  "gitlab.com" = "gitlab.com"
  /\ ("group/sub/project" = "group" +:+ "/" +:+ "sub/project"
      \/ "group/sub/project" = "group" +:+ "/" +:+ "sub/project" +:+ ".git")
  /\ "group" <> "" /\ includes_char "/" "group" = false
  /\ "sub/project" <> "".
Proof.
  exact (parseRemoteUrl_https_sound
           (fun _ => Some (mkURL "gitlab.com" "/group/sub/project"))
           "http://gitlab.com/group/sub/project" "gitlab.com"
           "group/sub/project"
           (mkRemoteInfo "gitlab.com" "group" "sub/project")
           eq_refl eq_refl eq_refl).
Defined.

End AddressWitnesses.

(** * The tests of the repository

    The expectations of parser.test.ts, dedup.test.ts and bump.test.ts,
    evaluated on the embedding. *)

Section RepositoryTests.
Import Str Parser Dedup Bump Cli.

Example test_parseConventionalCommit :
  map (fun s => parseConventionalCommit (Scenario.commit s))
      ["feat: add button"; "fix(ui): resolve overlap";
       "feat(api): add endpoint   "; "FEAT: uppercase type";
       "updated readme"; "fix typo"; "random message";
       "Merge pull request #123"; "feat!: breaking change";
       "feat(api)!: breaking change"]
  = [Some (mkConventionalCommit "abc123" "feat" None "add button"
             "feat: add button" false);
     Some (mkConventionalCommit "abc123" "fix" (Some "ui") "resolve overlap"
             "fix(ui): resolve overlap" false);
     Some (mkConventionalCommit "abc123" "feat" (Some "api") "add endpoint"
             "feat(api): add endpoint   " false);
     Some (mkConventionalCommit "abc123" "feat" None "uppercase type"
             "FEAT: uppercase type" false);
     None; None; None; None;
     Some (mkConventionalCommit "abc123" "feat" None "breaking change"
             "feat!: breaking change" true);
     Some (mkConventionalCommit "abc123" "feat" (Some "api") "breaking change"
             "feat(api)!: breaking change" true)].
Proof. vm_compute. reflexivity. Qed.

Example test_all_types :
  map (fun t => type <$> parseConventionalCommit
                          (Scenario.commit (t +:+ ": some message")))
      ALL_TYPES
  = map Some ALL_TYPES.
Proof. vm_compute. reflexivity. Qed.

Example test_breaking_footer :
  (breaking <$> parseConventionalCommit
                  (mkRawCommit "abc123" "feat: rewrite api"
                               "BREAKING CHANGE: this breaks the old API"))
  = Some true
  /\ (breaking <$> parseConventionalCommit
                     (mkRawCommit "abc123" "fix: update config"
                                  "BREAKING-CHANGE: config format changed"))
     = Some true.
Proof. vm_compute. split; reflexivity. Qed.

Example test_extractVersion :
  map extractVersion
      ["v1.0.0"; "v2.3.4"; "1.0.0"; "older-prefix-v1.0.0";
       "old-prefix-v1.40.0"; "v1.0.0-alpha"; "v1.0.0-beta.1";
       "older-prefix-v2.0.0-rc.1"; "feature-branch"; "latest"; "release-2024"]
  = [Some "1.0.0"; Some "2.3.4"; Some "1.0.0"; Some "1.0.0"; Some "1.40.0";
     Some "1.0.0-alpha"; Some "1.0.0-beta.1"; Some "2.0.0-rc.1";
     None; None; None].
Proof. vm_compute. reflexivity. Qed.

Example test_isValidVersion :
  map isValidVersion
      ["v1.0.0"; "1.0.0"; "v2.3.4"; "v1.0.0-alpha"; "v1.0.0-beta.1";
       "older-prefix-v1.0.0"; "old-prefix-v1.40.0"; "some-prefix-v2.0.0";
       "feature-branch"; "latest"; "v1"; "release-2024"]
  = [true; true; true; true; true; true; true; true;
     false; false; false; false].
Proof. vm_compute. reflexivity. Qed.

Example test_normalizeTags_versions :
  map (fun tags => versions <$> normalizeTags tags)
      [["v1.0.0"; "v1.1.0"; "v2.0.0"];
       ["older-prefix-v1.0.0"; "old-prefix-v1.40.0"];
       ["old-prefix-v1.40.0"; "v1.40.0"];
       ["v2.0.0"; "v1.0.0"; "v1.1.0"; "v1.0.1"];
       ["v1.0.0-alpha"; "v1.0.0"; "v1.0.0-beta"];
       ["v1.0.0"; "invalid"; "v2.0.0"; "feature-branch"]]
  = [Some ["1.0.0"; "1.1.0"; "2.0.0"];
     Some ["1.0.0"; "1.40.0"];
     Some ["1.40.0"];
     Some ["1.0.0"; "1.0.1"; "1.1.0"; "2.0.0"];
     Some ["1.0.0-alpha"; "1.0.0-beta"; "1.0.0"];
     Some ["1.0.0"; "2.0.0"]].
Proof. vm_compute. reflexivity. Qed.

Example test_sortTagsBySemver :
  map sortTagsBySemver
      [["v1.0.1"; "v1.0.0"; "v1.1.0"; "v0.9.0"];
       ["1.0.1"; "1.0.0"; "2.0.0"];
       ["v1.0.0"; "2.0.0"; "v1.1.0"];
       ["v1.0.0-alpha"; "v1.0.0"; "v1.0.0-beta"; "v1.0.0-rc.1"];
       ["old-prefix-v1.40.0"; "older-prefix-v1.0.0"];
       ["old-prefix-v1.40.0"; "v1.40.0"];
       ["some-long-prefix-v1.0.0"; "short-v1.0.0"]]
  = [Some ["v0.9.0"; "v1.0.0"; "v1.0.1"; "v1.1.0"];
     Some ["1.0.0"; "1.0.1"; "2.0.0"];
     Some ["v1.0.0"; "v1.1.0"; "2.0.0"];
     Some ["v1.0.0-alpha"; "v1.0.0-beta"; "v1.0.0-rc.1"; "v1.0.0"];
     Some ["older-prefix-v1.0.0"; "old-prefix-v1.40.0"];
     Some ["v1.40.0"];
     Some ["short-v1.0.0"]].
Proof. vm_compute. reflexivity. Qed.

Example test_isPreRelease :
  map isPreRelease
      ["1.0.0-alpha"; "1.0.0-beta"; "1.0.0-rc.1"; "1.0.0-alpha.1";
       "1.0.0"; "2.3.4"]
  = [true; true; true; true; false; false].
Proof. vm_compute. reflexivity. Qed.

Example test_normalizeCommit :
  normalizeCommit (mkConventionalCommit "abc" "feat" (Some "api") "Add Endpoint"
                     "feat(api): Add Endpoint" false)
  = "feat(api): add endpoint"
  /\ normalizeCommit (mkConventionalCommit "abc" "fix" None "Fix Bug"
                        "fix: Fix Bug" false)
     = "fix: fix bug".
Proof. vm_compute. split; reflexivity. Qed.

Example test_isVisibleType :
  map (fun '(t, verbose) => isVisibleType t verbose)
      [("feat", false); ("fix", false); ("perf", false); ("revert", false);
       ("chore", false); ("docs", false); ("ci", false);
       ("chore", true); ("custom", true)]
  = [true; true; true; true; false; false; false; true; true].
Proof. vm_compute. reflexivity. Qed.

Example test_DeduplicationSet :
  let c ty sub sc h := mkConventionalCommit h ty sc sub "" false in
  has empty (c "feat" "add button" None "abc123") = false
  /\ collide (c "feat" "add button" None "abc123")
             (c "feat" "add button" None "def456") = true
  /\ collide (c "feat" "Add Button" None "abc123")
             (c "FEAT" "add button" None "xyz") = true
  /\ collide (c "fix" "resolve issue" (Some "ui") "abc123")
             (c "fix" "resolve issue" (Some "api") "abc123") = false
  /\ collide (c "fix" "resolve issue" (Some "ui") "abc123")
             (c "fix" "resolve issue" None "abc123") = false
  /\ collide (c "feat" "add button" None "abc123")
             (c "fix" "add button" None "abc123") = false.
Proof. vm_compute. repeat split; reflexivity. Qed.

Example test_dedupeCommits :
  let c ty sub h := mkConventionalCommit h ty None sub "" false in
  map hash (fst (dedupeCommits [c "feat" "add button" "hash1";
                                c "feat" "add button" "hash2";
                                c "fix" "resolve bug" "hash3"] empty))
  = ["hash1"; "hash3"]
  /\ map hash (fst (dedupeCommits [c "feat" "add button" "hash2";
                                   c "fix" "resolve bug" "hash3"]
                                  (add empty (c "feat" "add button" "abc123"))))
     = ["hash3"]
  /\ map subject (fst (dedupeCommits [c "feat" "feature a" "h1";
                                      c "fix" "bug b" "h2";
                                      c "feat" "feature c" "h3"] empty))
     = ["feature a"; "bug b"; "feature c"].
Proof. vm_compute. repeat split; reflexivity. Qed.

Example test_suggestNextVersion :
  map (fun '(subjects, lastTag) =>
         let r := suggestNextVersion (map Scenario.commit subjects) lastTag in
         (currentVersion r, nextVersion r, bumpType r))
      [(["fix: resolve bug"], Some "v1.0.0");
       (["feat: add feature"], Some "v1.0.0");
       (["feat!: breaking change"], Some "v1.0.0");
       (["feat!: breaking change"], Some "v0.1.0");
       (["chore: update deps"], Some "v1.0.0");
       (["perf: optimize loop"], Some "v1.0.0");
       (["feat: add feature"], Some "1.0.0");
       (["feat: add feature"; "fix: fix bug"; "feat!: breaking change"],
        Some "v1.0.0");
       (["fix: fix bug"; "feat: add feature"], Some "v1.0.0");
       (["feat: initial feature"], None);
       (["fix: fix bug"], None);
       (["fix: another bug"], Some "v0.1.0-rc.1");
       (["feat: new feature"], Some "v0.1.0-rc.1")]
  = [("1.0.0", "1.0.1", Patch); ("1.0.0", "1.1.0", Minor);
     ("1.0.0", "2.0.0", Major); ("0.1.0", "0.2.0", Minor);
     ("1.0.0", "1.0.0", NoBump); ("1.0.0", "1.0.1", Patch);
     ("1.0.0", "1.1.0", Minor); ("1.0.0", "2.0.0", Major);
     ("1.0.0", "1.1.0", Minor); ("0.0.0", "0.1.0", Minor);
     ("0.0.0", "0.0.1", Patch); ("0.1.0", "0.1.0", Patch);
     ("0.1.0", "0.2.0", Minor)].
Proof. vm_compute. reflexivity. Qed.

Example test_getNextPrereleaseVersion :
  map (fun '(base, suffix, tags) => getNextPrereleaseVersion base suffix tags)
      [("1.0.0", "-rc", []);
       ("1.0.0", "-rc", ["v0.9.0-rc.1"; "v0.9.0-rc.2"]);
       ("1.0.0", "-rc", ["v1.0.0-rc.1"; "v1.0.0-rc.2"]);
       ("1.0.0", "-rc", ["v1.0.0-rc.1"; "v1.0.0-rc.5"]);
       ("1.0.0", "-rc.5", ["v1.0.0-rc.2"]);
       ("1.0.0", "-rc", ["1.0.0-rc.1"; "1.0.0-rc.2"]);
       ("1.0.0", "-rc", ["v1.0.0-rc.1"; "1.0.0-rc.3"]);
       ("1.0.0", "-beta", ["v1.0.0-beta.1"; "v1.0.0-rc.2"]);
       ("1.0.0", "-alpha.beta", ["v1.0.0-alpha.beta.1"]);
       ("0.1.0", "-rc", ["v0.0.1-rc.1"; "v0.0.1-rc.2"]);
       ("2.0.0", "-rc", ["v1.0.0-rc.1"; "v1.0.0-rc.5"; "v1.1.0-rc.2"]);
       ("0.1.0", "-rc", ["v0.1.0-rc.1"; "v0.1.0-rc.2"])]
  = map Some
      ["1.0.0-rc.1"; "1.0.0-rc.1"; "1.0.0-rc.3"; "1.0.0-rc.6"; "1.0.0-rc.3";
       "1.0.0-rc.3"; "1.0.0-rc.4"; "1.0.0-beta.2"; "1.0.0-alpha.beta.2";
       "0.1.0-rc.1"; "2.0.0-rc.1"; "0.1.0-rc.3"].
Proof. vm_compute. reflexivity. Qed.

End RepositoryTests.

(** ** The tests of git.test.ts, formatter.test.ts and remote.test.ts

    Where a test looks for a part of the changelog, the example gives
    all its lines. *)

Section MoreRepositoryTests.
Import Chars Str StrOps Parser Remote Cli Formatter GitOutput Fixtures.

Variable BREAKING_HEADING : string.

Example test_getTags :
  map getTags
      ["v1.0.0" +:+ newline +:+ "v1.1.0" +:+ newline +:+ "v2.0.0" +:+ newline;
       "";
       "v1.0.0" +:+ newline +:+ newline +:+ "v1.1.0" +:+ newline +:+ newline]
  = [["v1.0.0"; "v1.1.0"; "v2.0.0"]; []; ["v1.0.0"; "v1.1.0"]].
Proof. vm_compute. reflexivity. Qed.

Example test_getCommits :
  map parseCommitOutput
      ["abc123|feat: add feature|Some body text" +:+ newline;
       "abc123|feat: add feature|" +:+ newline;
       "";
       "abc123|feat: first|body1" +:+ newline
       +:+ "def456|fix: second|body2" +:+ newline;
       "abc123|feat: add feature|first line" +:+ newline
       +:+ "second line" +:+ newline +:+ "third line" +:+ newline;
       "abc123|feat: add feature" +:+ newline]
  = [[mkRawCommit "abc123" "feat: add feature" "Some body text"];
     [mkRawCommit "abc123" "feat: add feature" ""];
     [];
     [mkRawCommit "abc123" "feat: first" "body1";
      mkRawCommit "def456" "fix: second" "body2"];
     [mkRawCommit "abc123" "feat: add feature"
        ("first line" +:+ newline +:+ "second line" +:+ newline
         +:+ "third line")];
     [mkRawCommit "abc123" "feat: add feature" ""]].
Proof. vm_compute. reflexivity. Qed.

Example test_formatChangelog_empty :
  formatChangelog BREAKING_HEADING [] None false
  = Some ("# Changelog" +:+ newline).
Proof. vm_compute. reflexivity. Qed.

Example test_formatChangelog_groups :
  changelogLines BREAKING_HEADING
    [createChangelog "v1.0.0"
       [plainCommit "feat" "feature a"; plainCommit "fix" "bug b";
        plainCommit "feat" "feature c"] None None]
    None false
  = Some ["# Changelog"; ""; "## v1.0.0 (2025-01-15)"; ""; "### Features";
          ""; "- feature a (abc123d)"; "- feature c (abc123d)"; "";
          "### Bug Fixes"; ""; "- bug b (abc123d)"; ""].
Proof. vm_compute. reflexivity. Qed.

Example test_formatChangelog_scope :
  changelogLines BREAKING_HEADING
    [createChangelog "v1.0.0"
       [createCommit "fix" "resolve issue" (Some "ui") "abc123def456" false]
       None None]
    None false
  = Some ["# Changelog"; ""; "## v1.0.0 (2025-01-15)"; ""; "### Bug Fixes";
          ""; "- **ui**: resolve issue (abc123d)"; ""].
Proof. vm_compute. reflexivity. Qed.

Example test_formatChangelog_newest_first :
  changelogLines BREAKING_HEADING
    [createChangelog "v1.0.0" [plainCommit "feat" "a"] None None;
     createChangelog "v1.1.0" [plainCommit "feat" "b"] None None;
     createChangelog "v2.0.0" [plainCommit "feat" "c"] None None]
    None false
  = Some ["# Changelog"; ""; "## v2.0.0 (2025-01-15)"; ""; "### Features";
          ""; "- c (abc123d)"; ""; "## v1.1.0 (2025-01-15)"; "";
          "### Features"; ""; "- b (abc123d)"; ""; "## v1.0.0 (2025-01-15)";
          ""; "### Features"; ""; "- a (abc123d)"; ""].
Proof. vm_compute. reflexivity. Qed.

Example test_formatChangelog_skips_empty :
  changelogLines BREAKING_HEADING
    [createChangelog "v1.0.0" [plainCommit "feat" "test"] None None;
     mkTagChangelog "1.1.0" "v1.1.0" "v1.1.0" "2025-01-15" []]
    None false
  = Some ["# Changelog"; ""; "## v1.0.0 (2025-01-15)"; ""; "### Features";
          ""; "- test (abc123d)"; ""].
Proof. vm_compute. reflexivity. Qed.

Example test_formatChangelog_type_order :
  changelogLines BREAKING_HEADING
    [createChangelog "v1.0.0"
       [plainCommit "chore" "chore"; plainCommit "feat" "feature";
        plainCommit "fix" "fix"] None None]
    None true
  = Some ["# Changelog"; ""; "## v1.0.0 (2025-01-15)"; ""; "### Features";
          ""; "- feature (abc123d)"; ""; "### Bug Fixes"; "";
          "- fix (abc123d)"; ""; "### Chores"; ""; "- chore (abc123d)"; ""].
Proof. vm_compute. reflexivity. Qed.

Example test_formatChangelog_no_date :
  changelogLines BREAKING_HEADING
    [createChangelog "v1.0.0" [plainCommit "feat" "test"] None (Some "")]
    None false
  = Some ["# Changelog"; ""; "## v1.0.0"; ""; "### Features"; "";
          "- test (abc123d)"; ""].
Proof. vm_compute. reflexivity. Qed.

Example test_formatChangelog_filtering :
  map (changelogLines BREAKING_HEADING
         [createChangelog "v1.0.0"
            [plainCommit "feat" "feature"; plainCommit "chore" "chore";
             plainCommit "ci" "ci"; plainCommit "docs" "docs"] None None]
         None)
      [false; true]
  = [Some ["# Changelog"; ""; "## v1.0.0 (2025-01-15)"; ""; "### Features";
           ""; "- feature (abc123d)"; ""];
     Some ["# Changelog"; ""; "## v1.0.0 (2025-01-15)"; ""; "### Features";
           ""; "- feature (abc123d)"; ""; "### Documentation"; "";
           "- docs (abc123d)"; ""; "### Continuous Integration"; "";
           "- ci (abc123d)"; ""; "### Chores"; ""; "- chore (abc123d)"; ""]].
Proof. vm_compute. reflexivity. Qed.

Example test_formatChangelog_breaking :
  changelogLines BREAKING_HEADING
    [createChangelog "v1.0.0"
       [createCommit "feat" "breaking feature" None "abc" true;
        plainCommit "feat" "normal feature"] None None]
    None false
  = Some ["# Changelog"; ""; "## v1.0.0 (2025-01-15)"; ""; BREAKING_HEADING;
          ""; "- breaking feature (abc)"; ""; "### Features"; "";
          "- breaking feature (abc)"; "- normal feature (abc123d)"; ""].
Proof. vm_compute. reflexivity. Qed.

Example test_formatChangelog_breaking_scope :
  changelogLines BREAKING_HEADING
    [createChangelog "v1.0.0"
       [createCommit "feat" "breaking change" (Some "api") "abc" true]
       None None]
    None false
  = Some ["# Changelog"; ""; "## v1.0.0 (2025-01-15)"; ""; BREAKING_HEADING;
          ""; "- **api**: breaking change (abc)"; ""; "### Features"; "";
          "- **api**: breaking change (abc)"; ""].
Proof. vm_compute. reflexivity. Qed.

Example test_formatChangelog_links :
  changelogLines BREAKING_HEADING
    [createChangelog "v1.0.0" [plainCommit "fix" "resolves #123 and #456"]
       None None]
    (Some mockRemote) false
  = Some ["# Changelog"; "";
          "## [1.0.0](https://github.com/acme/my-lib/releases/tag/v1.0.0) (2025-01-15)";
          ""; "### Bug Fixes"; "";
          "- resolves [#123](https://github.com/acme/my-lib/issues/123) and [#456](https://github.com/acme/my-lib/issues/456) ([abc123d](https://github.com/acme/my-lib/commit/abc123def456))";
          ""].
Proof. vm_compute. reflexivity. Qed.

Example test_formatChangelog_no_remote :
  changelogLines BREAKING_HEADING
    [createChangelog "v1.0.0" [plainCommit "fix" "resolves #123"] None None]
    None false
  = Some ["# Changelog"; ""; "## v1.0.0 (2025-01-15)"; ""; "### Bug Fixes";
          ""; "- resolves #123 (abc123d)"; ""].
Proof. vm_compute. reflexivity. Qed.

Example test_formatChangelog_compare :
  changelogLines BREAKING_HEADING
    [createChangelog "v1.0.0" [plainCommit "feat" "a"] (Some "v1.0.0") None;
     createChangelog "v1.1.0" [plainCommit "feat" "b"]
       (Some "old-prefix-v1.1.0") None]
    (Some mockRemote) false
  = Some ["# Changelog"; "";
          "## [1.1.0](https://github.com/acme/my-lib/compare/v1.0.0...old-prefix-v1.1.0) (2025-01-15)";
          ""; "### Features"; "";
          "- b ([abc123d](https://github.com/acme/my-lib/commit/abc123def456))";
          "";
          "## [1.0.0](https://github.com/acme/my-lib/releases/tag/v1.0.0) (2025-01-15)";
          ""; "### Features"; "";
          "- a ([abc123d](https://github.com/acme/my-lib/commit/abc123def456))";
          ""].
Proof. vm_compute. reflexivity. Qed.

Example test_formatChangelog_encodes :
  changelogLines BREAKING_HEADING
    [createChangelog "v1.0.0" [plainCommit "feat" "a"]
       (Some "release/v1.0.0") None;
     createChangelog "v1.1.0" [plainCommit "feat" "b"]
       (Some "release/v1.1.0") None]
    (Some mockRemote) false
  = Some ["# Changelog"; "";
          "## [1.1.0](https://github.com/acme/my-lib/compare/release%2Fv1.0.0...release%2Fv1.1.0) (2025-01-15)";
          ""; "### Features"; "";
          "- b ([abc123d](https://github.com/acme/my-lib/commit/abc123def456))";
          "";
          "## [1.0.0](https://github.com/acme/my-lib/releases/tag/release%2Fv1.0.0) (2025-01-15)";
          ""; "### Features"; "";
          "- a ([abc123d](https://github.com/acme/my-lib/commit/abc123def456))";
          ""].
Proof. vm_compute. reflexivity. Qed.

Example test_parseRemoteUrl :
  map (parseRemoteUrl (fun _ => None))
      ["git@github.com:acme/my-lib.git"; "git@gitlab.com:acme/my-lib";
       "git@github.com:acme/group/my-lib.git"; "not-a-url"; ""]
  = [Some (Some (mkRemoteInfo "github.com" "acme" "my-lib"));
     Some (Some (mkRemoteInfo "gitlab.com" "acme" "my-lib"));
     Some (Some (mkRemoteInfo "github.com" "acme" "group/my-lib"));
     Some None; Some None].
Proof. vm_compute. reflexivity. Qed.

(** [new URL] gives the host name and the path of the address. *)
Example test_parseRemoteUrl_https :
  parseRemoteUrl (fun _ => Some (mkURL "github.com" "/acme/my-lib.git"))
                 "https://github.com/acme/my-lib.git"
  = Some (Some (mkRemoteInfo "github.com" "acme" "my-lib")).
Proof. vm_compute. reflexivity. Qed.

Example test_buildUrls :
  (buildCommitUrl mockRemote "abc123", buildIssueUrl mockRemote "123",
   buildPullRequestUrl mockRemote "42")
  = ("https://github.com/acme/my-lib/commit/abc123",
     "https://github.com/acme/my-lib/issues/123",
     "https://github.com/acme/my-lib/pull/42").
Proof. vm_compute. reflexivity. Qed.

End MoreRepositoryTests.
